(** * A shallow embedding of mm-tree-sb.c

    The allocator of [src/mm-tree-sb.c]: segregated small-size heads plus a
    size-keyed search tree of same-size chains, allocated blocks without
    footer.  The heap is an array of 32-bit words addressed by word offset
    from [heap_listp]; a C pointer [uint32_t *] into it is modelled by that
    offset, and a pointer that can be [NULL] by an [option].

    The embedding follows the build with [NDEBUG] defined and the contracts
    of [contracts.h] compiled out: [dbg_printf], [checkheap], [REQUIRES] and
    [ENSURES] expand to nothing, and [VERBOSE] is 0, so nothing is printed.
    The checker [mm_checkheap] itself is embedded in full. *)

From Stdlib Require Import ZArith Lia Bool List.
From stdpp Require Import base option list gmap.

Local Open Scope Z_scope.

(** ** Machine integers *)

(** [unsigned int] and [uint32_t] arithmetic wraps modulo 2^32. *)
Definition u32 (x : Z) : Z := x mod 2 ^ 32.

(** [size_t] arithmetic wraps modulo 2^64 (the 64-bit host of the code: an
    8-byte address is compressed into a 4-byte offset). *)
Definition u64 (x : Z) : Z := x mod 2 ^ 64.

(** Conversion of an [unsigned int] to [int] (two's complement). *)
Definition to_int (x : Z) : Z := if x <? 2 ^ 31 then x else x - 2 ^ 32.

(** ** Constants of the source *)

Definition WSIZE : Z := 4.
Definition DSIZE : Z := 8.
Definition CHUNKSIZE : Z := 65.
Definition FREE : Z := 1.
Definition ALLOCATED : Z := 0.
Definition SEG_LIST_SIZE : Z := 6.
Definition ADDRESS : Z := 1.
Definition SIZE : Z := 0.

(** ** Pointers and the allocator's state *)

(** A non-null pointer into the heap, as a word offset from [heap_listp]. *)
Definition addr := Z.

(** A pointer that may be [NULL]. *)
Definition ptr := option addr.

(** The private globals of the source together with the heap they point
    into.  [seg_list] is obtained from the oracle before [heap_listp] and
    holds [SEG_LIST_SIZE] pointers; it is kept as a separate array, so an
    offset below 0 is outside the modelled words. *)
Record heap : Type := Heap {
  mem : gmap Z Z;
  brk : Z;
  seg_list : list ptr;
  seg_root : ptr
}.

Definition set_mem (m : gmap Z Z) (h : heap) : heap :=
  Heap m (brk h) (seg_list h) (seg_root h).
Definition set_brk (b : Z) (h : heap) : heap :=
  Heap (mem h) b (seg_list h) (seg_root h).
Definition set_seg_list (l : list ptr) (h : heap) : heap :=
  Heap (mem h) (brk h) l (seg_root h).
Definition set_seg_root (r : ptr) (h : heap) : heap :=
  Heap (mem h) (brk h) (seg_list h) r.

(** ** Outcomes and the state monad of the embedding *)

(** A call either returns, or touches a word the oracle never handed out
    ([Fault]), or exhausts the recursion budget of the embedding
    ([OutOfFuel]: the C recursion or loop had not finished yet). *)
Inductive res (A : Type) : Type :=
| Ok (a : A)
| Fault
| OutOfFuel.
Arguments Ok {A} a.
Arguments Fault {A}.
Arguments OutOfFuel {A}.

Definition M (A : Type) : Type := heap -> res (A * heap).

Definition ret {A} (a : A) : M A := fun h => Ok (a, h).
Definition bind {A B} (m : M A) (k : A -> M B) : M B :=
  fun h => match m h with
           | Ok (a, h') => k a h'
           | Fault => Fault
           | OutOfFuel => OutOfFuel
           end.
Definition fault {A} : M A := fun _ => Fault.
Definition out_of_fuel {A} : M A := fun _ => OutOfFuel.
Definition get_heap : M heap := fun h => Ok (h, h).

Notation "'let*' x ':=' m 'in' k" := (bind m (fun x => k))
  (at level 10, x name, m at level 100, k at level 200).
Notation "m ';;' k" := (bind m (fun _ => k))
  (at level 100, k at level 200, right associativity).

(** Dereferencing a pointer that is [NULL] faults. *)
Definition deref (p : ptr) : M addr :=
  match p with Some a => ret a | None => fault end.

(** The offset stored for a pointer: 0 for [NULL], else the distance to
    [heap_listp] truncated to 32 bits. *)
Definition offset_of (p : ptr) : Z :=
  match p with None => 0 | Some a => u32 a end.

(** The pointer read back from a stored offset: [heap_listp + off], and
    [NULL] when that is [heap_listp] itself. *)
Definition ptr_of (off : Z) : ptr :=
  if off =? 0 then None else Some off.

Section Allocator.

Set Default Proof Using "Type".

(** The heap oracle of [memlib] is not part of the sources; three facts
    about it are parameters: the content of the arena before the allocator
    writes to it, the arena's capacity in words counted from [heap_listp],
    and the byte address of [heap_listp]. *)
Variable junk : Z -> Z.
Variable max_brk : Z.
Variable heap_listp : Z.

(** [block[i]] as an rvalue. *)
Definition load (a : addr) : M Z :=
  fun h => if decide (0 <= a < brk h)
           then Ok (default (u32 (junk a)) (mem h !! a), h)
           else Fault.

(** [block[i] = v]. *)
Definition store (a : addr) (v : Z) : M unit :=
  fun h => if decide (0 <= a < brk h)
           then Ok (tt, set_mem (<[a := v]> (mem h)) h)
           else Fault.

(** [seg_list[i]] as an rvalue. *)
Definition seg_get (i : Z) : M ptr :=
  fun h => if decide (0 <= i)
           then match seg_list h !! Z.to_nat i with
                | Some p => Ok (p, h)
                | None => Fault
                end
           else Fault.

(** [seg_list[i] = p]. *)
Definition seg_set (i : Z) (p : ptr) : M unit :=
  fun h => if decide (0 <= i < Z.of_nat (length (seg_list h)))
           then Ok (tt, set_seg_list (<[Z.to_nat i := p]> (seg_list h)) h)
           else Fault.

Definition root_get : M ptr := fun h => Ok (seg_root h, h).
Definition root_set (p : ptr) : M unit := fun h => Ok (tt, set_seg_root p h).

(** Modelled from the spec: [mem_sbrk] of the absent [memlib.c] ("returns
    the old break on success; negative or failure returns an error
    sentinel").  [incr] is the C [int] argument in bytes; the result is
    [None] for the sentinel [(void * )-1]. *)
Definition mem_sbrk (incr : Z) : M (option addr) :=
  fun h => if decide (incr < 0 \/ max_brk < brk h + incr / WSIZE)
           then Ok (None, h)
           else Ok (Some (brk h), set_brk (brk h + incr / WSIZE) h).

(** Modelled from the spec: [mem_heap_lo] and [mem_heap_hi] ("current
    inclusive bounds"), in words relative to [heap_listp]; the arena starts
    with the [SEG_LIST_SIZE] 8-byte pointers of [seg_list]. *)
Definition mem_heap_lo : Z := - (2 * SEG_LIST_SIZE).
Definition in_heap (a : addr) : M bool :=
  fun h => Ok (bool_decide (mem_heap_lo <= a < brk h), h).

(** [align(p, 8) == p] for the pointer at word offset [a]. *)
Definition aligned (a : addr) : bool :=
  let p := heap_listp + WSIZE * a in
  Z.land (p + 7) (Z.lnot 7) =? p.

(** ** Block functions *)

Definition block_size (block : addr) : M Z :=
  let* w := load block in ret (Z.land w 0x3FFFFFFF).

Definition block_free (block : addr) : M bool :=
  let* w := load block in ret (Z.land w 0x40000000 =? 0).

Definition block_prev_free (block : addr) : M bool :=
  let* w := load block in ret (Z.land w 0x80000000 =? 0).

Definition block_mark_free (block : addr) (alloc : Z) : M unit :=
  let* sz := block_size block in
  let next := u32 (sz + 1) in
  let* w := load block in
  store block (if alloc =? 0
               then Z.land (Z.lor w 0x80000000) 0xBFFFFFFF
               else Z.land w 0x3FFFFFFF);;
  let* w' := load block in
  store (block + next) w'.

Definition block_mark_allo (block : addr) (alloc : Z) : M unit :=
  let* w := load block in
  store block (if alloc =? 0
               then Z.lor w 0xC0000000
               else Z.land (Z.lor w 0x40000000) 0x7FFFFFFF).

Definition block_mem (block : addr) : addr := block + 1.
Definition block_block (p : addr) : addr := p - 1.

Definition block_pred (block : addr) : M ptr :=
  let* w := load (block + 1) in ret (ptr_of w).
Definition block_succ (block : addr) : M ptr :=
  let* w := load (block + 2) in ret (ptr_of w).
Definition block_left (block : addr) : M ptr :=
  let* w := load (block + 3) in ret (ptr_of w).
Definition block_right (block : addr) : M ptr :=
  let* w := load (block + 4) in ret (ptr_of w).

Definition block_prev (block : addr) : M addr :=
  let* sz := block_size (block - 1) in ret (block - sz - 2).

Definition block_next (block : addr) : M addr :=
  let* f := block_free block in
  let* sz := block_size block in
  ret (if f then block + sz + 2 else block + sz + 1).

Definition set_val (block : addr) (val : Z) : M unit := store block val.
Definition set_size (block : addr) (size : Z) : M unit := set_val block size.

Definition set_ptr (block : addr) (pred_block succ_block : ptr) : M unit :=
  set_val (block + 1) (offset_of pred_block);;
  set_val (block + 2) (offset_of succ_block).

Definition set_chd_ptr (block : addr) (left right : ptr) : M unit :=
  set_val (block + 3) (offset_of left);;
  set_val (block + 4) (offset_of right).

(** [(words - 2) / 2] in [unsigned int], returned as [int]. *)
Definition find_index (words : Z) : Z := to_int (u32 (words - 2) / 2).

Definition find_root (words : Z) : M ptr :=
  if words =? 2 then seg_get 0
  else if words =? 4 then seg_get 1
  else root_get.

Definition cmp_uint (this that : Z) : Z :=
  if this >? that then 1 else if this <? that then -1 else 0.

Definition cmp_size (this that : addr) : M Z :=
  let* this_size := block_size this in
  let* that_size := block_size that in
  ret (cmp_uint this_size that_size).

Definition cmp_add (this that : addr) : Z := cmp_uint this that.

(** ** The free-set index: membership *)

Definition small_in_list (block : addr) : M bool :=
  let* pred := block_pred block in
  let* succ := block_succ block in
  let* sz := block_size block in
  let index := find_index sz in
  match pred, succ with
  | None, None =>
      let* hd := seg_get index in
      ret (bool_decide (hd = Some block))
  | None, Some s =>
      let* hd := seg_get index in
      if bool_decide (hd = Some block)
      then let* sp := block_pred s in ret (bool_decide (sp = Some block))
      else ret false
  | Some p, None =>
      let* ps := block_succ p in ret (bool_decide (ps = Some block))
  | Some p, Some s =>
      let* ps := block_succ p in
      if bool_decide (ps = Some block)
      then let* sp := block_pred s in ret (bool_decide (sp = Some block))
      else ret false
  end.

(** [in_size_tree] ([by_size = true]) and [in_add_tree] ([by_size = false])
    call each other; one budget counts the calls of both. *)
Fixpoint in_tree (fuel : nat) (by_size : bool) (block : addr) (root : ptr)
  : M bool :=
  match fuel with
  | O => out_of_fuel
  | S fuel =>
      match root with
      | None => ret false
      | Some r =>
          if by_size then
            let* cmp := cmp_size block r in
            if cmp =? 1 then
              let* c := block_right r in in_tree fuel true block c
            else if cmp =? -1 then
              let* c := block_left r in in_tree fuel true block c
            else in_tree fuel false block root
          else
            let cmp := cmp_add block r in
            if cmp =? 1 then
              let* c := block_succ r in in_tree fuel false block c
            else if cmp =? -1 then
              let* c := block_pred r in in_tree fuel true block c
            else ret true
      end
  end.

Definition in_size_tree (fuel : nat) := in_tree fuel true.
Definition in_add_tree (fuel : nat) := in_tree fuel false.

Definition in_list (fuel : nat) (block : addr) : M bool :=
  let* sz := block_size block in
  if sz <=? SEG_LIST_SIZE * 2 then small_in_list block
  else let* r := find_root sz in in_size_tree fuel block r.

(** ** The free-set index: small classes *)

Definition small_block_insert (block : addr) : M unit :=
  let* sz := block_size block in
  let index := find_index sz in
  let* old_block := seg_get index in
  match old_block with
  | None =>
      set_ptr block None None;;
      seg_set index (Some block)
  | Some old =>
      let* s := block_succ old in
      set_ptr old (Some block) s;;
      set_ptr block None (Some old);;
      seg_set index (Some block)
  end.

Definition small_block_delete (block : addr) : M unit :=
  let* pred := block_pred block in
  let* succ := block_succ block in
  let* sz := block_size block in
  let index := find_index sz in
  match pred, succ with
  | None, None => seg_set index None
  | None, Some s =>
      let* ss := block_succ s in
      set_ptr s None ss;;
      seg_set index (Some s)
  | Some p, None =>
      let* pp := block_pred p in
      set_ptr p pp None
  | Some p, Some s =>
      let* pp := block_pred p in
      set_ptr p pp (Some s);;
      let* ss := block_succ s in
      set_ptr s (Some p) ss
  end.

(** ** The free-set index: the tree of same-size chains *)

Definition add (block : addr) (root : ptr) : M ptr :=
  match root with
  | None =>
      set_ptr block None None;;
      let* sz := block_size block in
      (if sz >=? 4 then set_chd_ptr block None None else ret tt);;
      ret (Some block)
  | Some r =>
      set_ptr block None (Some r);;
      let* s := block_succ r in
      set_ptr r (Some block) s;;
      let* sz := block_size block in
      (if sz >=? 4
       then let* l := block_left r in
            let* rt := block_right r in
            set_chd_ptr block l rt
       else ret tt);;
      ret (Some block)
  end.

Definition del (block : addr) (root : ptr) : M ptr :=
  let* pred := block_pred block in
  let* succ := block_succ block in
  match pred, succ with
  | None, None => ret None
  | None, Some s =>
      let* ss := block_succ s in
      set_ptr s None ss;;
      let* l := block_left block in
      let* r := block_right block in
      set_chd_ptr s l r;;
      ret (Some s)
  | Some p, None =>
      let* pp := block_pred p in
      set_ptr p pp None;;
      ret root
  | Some p, Some s =>
      let* pp := block_pred p in
      set_ptr p pp (Some s);;
      let* ss := block_succ s in
      set_ptr s (Some p) ss;;
      ret root
  end.

Fixpoint minimum (fuel : nat) (block : addr) (order : Z) : M addr :=
  match fuel with
  | O => out_of_fuel
  | S fuel =>
      if order =? ADDRESS then
        let* p := block_pred block in
        match p with
        | None => ret block
        | Some p => minimum fuel p ADDRESS
        end
      else
        let* l := block_left block in
        match l with
        | None => ret block
        | Some l => minimum fuel l SIZE
        end
  end.

Fixpoint deleteMin (fuel : nat) (block : addr) (order : Z) : M ptr :=
  match fuel with
  | O => out_of_fuel
  | S fuel =>
      if order =? ADDRESS then
        let* p := block_pred block in
        match p with
        | None =>
            let* t := block_succ block in
            match t with
            | None => ret None
            | Some t' =>
                let* sz := block_size block in
                (if sz >=? 4
                 then let* l := block_left block in
                      let* r := block_right block in
                      set_chd_ptr t' l r
                 else ret tt);;
                ret t
            end
        | Some p =>
            let* m := deleteMin fuel p ADDRESS in
            let* s := block_succ block in
            set_ptr block m s;;
            ret (Some block)
        end
      else
        let* l := block_left block in
        match l with
        | None => block_right block
        | Some l =>
            let* m := deleteMin fuel l SIZE in
            let* r := block_right block in
            set_chd_ptr block m r;;
            ret (Some block)
        end
  end.

(** The arguments of a call are evaluated left to right. *)
Fixpoint put (fuel : nat) (block : addr) (root : ptr) : M ptr :=
  match fuel with
  | O => out_of_fuel
  | S fuel =>
      match root with
      | None =>
          set_ptr block None None;;
          let* sz := block_size block in
          (if sz >=? 4 then set_chd_ptr block None None else ret tt);;
          ret (Some block)
      | Some r =>
          let* cmp := cmp_size block r in
          if cmp >? 0 then
            let* l := block_left r in
            let* c := block_right r in
            let* n := put fuel block c in
            set_chd_ptr r l n;;
            ret root
          else if cmp <? 0 then
            let* c := block_left r in
            let* n := put fuel block c in
            let* rt := block_right r in
            set_chd_ptr r n rt;;
            ret root
          else add block root
      end
  end.

Fixpoint take (fuel : nat) (block : addr) (root : ptr) : M ptr :=
  match fuel with
  | O => out_of_fuel
  | S fuel =>
      match root with
      | None => ret None
      | Some r =>
          let* cmp := cmp_size block r in
          if cmp <? 0 then
            let* c := block_left r in
            let* n := take fuel block c in
            let* rt := block_right r in
            set_chd_ptr r n rt;;
            ret root
          else if cmp >? 0 then
            let* l := block_left r in
            let* c := block_right r in
            let* n := take fuel block c in
            set_chd_ptr r l n;;
            ret root
          else
            let* root' := del block root in
            match root' with
            | Some _ => ret root'
            | None =>
                let* br := block_right block in
                match br with
                | None => block_left block
                | Some br' =>
                    let* bl := block_left block in
                    match bl with
                    | None => block_right block
                    | Some _ =>
                        let t := block in
                        let* block' := minimum fuel br' SIZE in
                        let* tl := block_left t in
                        let* tr := block_right t in
                        let* tr' := deref tr in
                        let* m := deleteMin fuel tr' SIZE in
                        set_chd_ptr block' tl m;;
                        ret (Some block')
                    end
                end
            end
      end
  end.

Definition block_insert (fuel : nat) (block : addr) : M unit :=
  let* sz := block_size block in
  if sz <=? SEG_LIST_SIZE * 2 then small_block_insert block
  else let* r := root_get in
       let* r' := put fuel block r in
       root_set r'.

Definition block_delete (fuel : nat) (block : addr) : M unit :=
  let* sz := block_size block in
  if sz <=? SEG_LIST_SIZE * 2 then small_block_delete block
  else let* r := root_get in
       let* r' := take fuel block r in
       root_set r'.

(** ** Finding a fit *)

(** The inner loop of [small_find_fit]: walk one chain through
    [block_succ]. *)
Fixpoint small_find_fit_chain (fuel : nat) (block : ptr) (awords : Z)
  : M ptr :=
  match fuel with
  | O => out_of_fuel
  | S fuel =>
      match block with
      | None => ret None
      | Some b =>
          let* sz := block_size b in
          if sz >=? awords then ret (Some b)
          else let* s := block_succ b in
               small_find_fit_chain fuel s awords
      end
  end.

(** The outer loop of [small_find_fit], for [i] up to [SEG_LIST_SIZE - 1];
    [n] is the number of iterations left. *)
Fixpoint small_find_fit_from (fuel : nat) (n : nat) (i : Z) (awords : Z)
  : M ptr :=
  match n with
  | O => ret None
  | S n =>
      let* hd := seg_get i in
      match hd with
      | None => small_find_fit_from fuel n (i + 1) awords
      | Some _ =>
          let* r := small_find_fit_chain fuel hd awords in
          match r with
          | Some b => ret (Some b)
          | None => small_find_fit_from fuel n (i + 1) awords
          end
      end
  end.

Definition small_find_fit (fuel : nat) (awords : Z) : M ptr :=
  let index := find_index awords in
  small_find_fit_from fuel (Z.to_nat (SEG_LIST_SIZE - index)) index awords.

Fixpoint ceiling (fuel : nat) (words : Z) (root : ptr) : M ptr :=
  match fuel with
  | O => out_of_fuel
  | S fuel =>
      let* res := (if words <=? SEG_LIST_SIZE * 2
                   then small_find_fit (S fuel) words
                   else ret None) in
      match res with
      | Some b => ret (Some b)
      | None =>
          match root with
          | None => ret None
          | Some r =>
              let* sz := block_size r in
              let cmp := cmp_uint words sz in
              if cmp =? 0 then ret root
              else if cmp >? 0 then
                let* c := block_right r in ceiling fuel words c
              else
                let* c := block_left r in
                let* t := ceiling fuel words c in
                match t with
                | Some _ => ret t
                | None => ret root
                end
          end
      end
  end.

Definition find_fit (fuel : nat) (awords : Z) : M ptr :=
  let* r := root_get in
  let* block := ceiling fuel awords r in
  match block with
  | None => ret None
  | Some b => let* m := minimum fuel b ADDRESS in ret (Some m)
  end.

(** ** Coalescing, extension and placement *)

Definition coalesce (fuel : nat) (block : addr) : M addr :=
  let* next_block := block_next block in
  let* prev_free := block_prev_free block in
  let* next_free := block_free next_block in
  let* words := block_size block in
  let* prev_block := (if prev_free
                      then let* p := block_prev block in ret (Some p)
                      else ret None) in
  let* bf := block_free block in
  let words := if bf then words else u32 (words - 1) in
  match prev_free, next_free with
  | true, true =>
      let* pb := deref prev_block in
      block_delete fuel pb;;
      block_delete fuel next_block;;
      let* ps := block_size pb in
      let* ns := block_size next_block in
      let words := u32 (words + u32 (u32 (ps + ns) + 4)) in
      set_size pb words;;
      block_mark_free pb ALLOCATED;;
      block_insert fuel pb;;
      ret pb
  | false, true =>
      block_delete fuel next_block;;
      let* ns := block_size next_block in
      let words := u32 (words + u32 (ns + 2)) in
      set_size block words;;
      block_mark_free block ALLOCATED;;
      block_insert fuel block;;
      ret block
  | true, false =>
      let* pb := deref prev_block in
      block_delete fuel pb;;
      let* ps := block_size pb in
      let words := u32 (words + u32 (ps + 2)) in
      set_size pb words;;
      block_mark_free pb ALLOCATED;;
      block_insert fuel pb;;
      ret pb
  | false, false =>
      set_size block words;;
      block_mark_free block ALLOCATED;;
      block_insert fuel block;;
      ret block
  end.

Definition extend_heap (fuel : nat) (words : Z) : M ptr :=
  let words := u32 (words + 1) in
  let* b := mem_sbrk (to_int (u32 (words * WSIZE))) in
  match b with
  | None => ret None
  | Some b =>
      let block := b - 1 in
      let* pf := block_prev_free block in
      (if pf
       then set_size block (u32 (words - 2));; block_mark_free block FREE
       else set_size block (u32 (words - 2));;
            block_mark_free block ALLOCATED);;
      let* next := block_next block in
      set_size next 0;;
      block_mark_allo next FREE;;
      let* block := coalesce fuel block in
      ret (Some block)
  end.

Definition place (fuel : nat) (block : addr) (awords : Z) : M unit :=
  let* cwords := block_size block in
  block_delete fuel block;;
  if cwords >=? u32 (awords + 3) then
    set_size block awords;;
    block_mark_allo block ALLOCATED;;
    let* block := block_next block in
    set_size block (u32 (u32 (cwords - awords) - 1));;
    block_mark_free block ALLOCATED;;
    block_insert fuel block
  else
    set_size block (u32 (cwords + 1));;
    block_mark_allo block ALLOCATED;;
    let* block := block_next block in
    block_mark_allo block ALLOCATED.

(** ** Entry points *)

(** The arena before [mm_init]: nothing handed out, the break at the
    arena's first word. *)
Definition arena : heap := Heap ∅ mem_heap_lo [] None.

(** The two [mem_sbrk] calls of [mm_init] and what follows.  The first
    result is not tested by the source: on failure the loop that clears
    [seg_list] writes through [(void * )-1]. *)
Definition mm_init_from (fuel : nat) : M Z :=
  let* sl := mem_sbrk (SEG_LIST_SIZE * 8) in
  match sl with
  | None => fault
  | Some _ =>
      (fun h => Ok (tt, set_seg_list
                          (replicate (Z.to_nat SEG_LIST_SIZE) None) h));;
      root_set None;;
      let* hl := mem_sbrk (2 * WSIZE) in
      match hl with
      | None => ret (-1)
      | Some _ =>
          set_size 0 0;;
          set_size (0 + 1) 0;;
          block_mark_allo 0 ALLOCATED;;
          block_mark_allo (0 + 1) ALLOCATED;;
          let* b := extend_heap fuel CHUNKSIZE in
          match b with
          | None => ret (-1)
          | Some _ => ret 0
          end
      end
  end.

Definition mm_init (fuel : nat) : res (Z * heap) := mm_init_from fuel arena.

(** [(uint32_t * )((char * )mem_heap_hi() - 3)]: the last word handed out. *)
Definition epi_block : M addr := fun h => Ok (brk h - 1, h).

(** The adjusted block size shared by [malloc] and [realloc]; [size] is a
    [size_t], the result an [unsigned int]. *)
Definition adjust (size : Z) : Z :=
  if size <=? 12 then 3
  else u32 (u64 (3 + Z.land (u64 (u64 (size - 12) + (DSIZE - 1)))
                            (u64 (Z.lnot 0x7)) / WSIZE)).

Definition malloc (fuel : nat) (size : Z) : M ptr :=
  let* epi := epi_block in
  if size =? 0 then ret None
  else
    let awords := adjust size in
    let* fit := find_fit fuel (u32 (awords - 1)) in
    match fit with
    | Some block =>
        place fuel block awords;;
        ret (Some (block_mem block))
    | None =>
        let ewords := if awords >? CHUNKSIZE then awords
                      else if false then awords
                      else awords in
        let* pf := block_prev_free epi in
        let* ewords :=
          (if pf
           then let* last := block_prev epi in
                let* last_size := block_size last in
                ret (u32 (u32 (ewords - last_size) - 2))
           else ret ewords) in
        let* b := extend_heap fuel ewords in
        match b with
        | None => ret None
        | Some block =>
            place fuel block awords;;
            ret (Some (block_mem block))
        end
    end.

Definition free (fuel : nat) (p : ptr) : M unit :=
  match p with
  | None => ret tt
  | Some p =>
      let block := block_block p in
      let* nb := block_next block in
      let* w := load nb in
      store nb (Z.land w 0x7FFFFFFF);;
      coalesce fuel block;;
      ret tt
  end.

(** [memcpy(dst, src, 4 * n)], one word at a time. *)
Fixpoint memcpy_words (n : nat) (dst src : addr) : M unit :=
  match n with
  | O => ret tt
  | S n =>
      let* w := load src in
      store dst w;;
      memcpy_words n (dst + 1) (src + 1)
  end.

Definition memcpy (dst : ptr) (src : addr) (nwords : Z) : M unit :=
  match dst with
  | Some d => memcpy_words (Z.to_nat nwords) d src
  | None => if nwords =? 0 then ret tt else fault
  end.

Definition realloc (fuel : nat) (oldptr : ptr) (size : Z) : M ptr :=
  match oldptr with
  | None => malloc fuel size
  | Some old =>
      if size =? 0 then free fuel oldptr;; ret None
      else
        let block := block_block old in
        let* words := block_size block in
        let nwords := adjust size in
        if (nwords =? words) || ((words >? nwords) && (words - nwords <? 4))
        then ret oldptr
        else if (words >? nwords) && (words - nwords >=? 4) then
          let* pf := block_prev_free block in
          (if pf
           then set_size block nwords;; block_mark_allo block FREE
           else set_size block nwords;; block_mark_allo block ALLOCATED);;
          let* tmp := block_next block in
          set_size tmp (u32 (u32 (words - nwords) - 2));;
          block_mark_free tmp ALLOCATED;;
          let* next := block_next tmp in
          let* nf := block_free next in
          (if nf then
             block_delete fuel next;;
             let* ps := block_size tmp in
             let* ns := block_size next in
             set_size tmp (u32 (u32 (ps + ns) + 2));;
             block_mark_free tmp ALLOCATED;;
             block_insert fuel tmp
           else
             block_mark_allo next FREE;;
             block_insert fuel tmp);;
          ret oldptr
        else
          let* tmp := block_next block in
          let* nf := block_free tmp in
          let fallback : M ptr :=
            let* new := malloc fuel size in
            let* sz := block_size block in
            memcpy new old (u32 (sz * WSIZE) / WSIZE);;
            free fuel oldptr;;
            ret new in
          if nf then
            let* owords := block_size tmp in
            let remain := to_int (u32 (u32 (owords + 1) - u32 (nwords - words))) in
            if remain >=? 3 then
              block_delete fuel tmp;;
              let* pf := block_prev_free block in
              (if pf
               then set_size block nwords;; block_mark_allo block FREE
               else set_size block nwords;; block_mark_allo block ALLOCATED);;
              let* tmp := block_next block in
              set_size tmp (u32 (remain - 1));;
              block_mark_free tmp ALLOCATED;;
              block_insert fuel tmp;;
              ret oldptr
            else if remain >=? 0 then
              block_delete fuel tmp;;
              let* pf := block_prev_free block in
              (if pf
               then set_size block (u32 (u32 (words + owords) + 2));;
                    block_mark_allo block FREE
               else set_size block (u32 (u32 (words + owords) + 2));;
                    block_mark_allo block ALLOCATED);;
              let* tmp := block_next block in
              block_mark_allo tmp ALLOCATED;;
              ret oldptr
            else fallback
          else fallback
  end.

(** [memset(p, 0, bytes)] on the word array: the whole words first, then
    the low-address bytes of the last, partial word (little-endian).  A
    range that leaves the words handed out faults; [memset(NULL, 0, 0)]
    does nothing. *)
Fixpoint zero_words (n : nat) (a : addr) : M unit :=
  match n with
  | O => ret tt
  | S n => store a 0;; zero_words n (a + 1)
  end.

Definition memset0 (p : ptr) (bytes : Z) : M unit :=
  match p with
  | None => if bytes =? 0 then ret tt else fault
  | Some a =>
      let* h := get_heap in
      if decide (0 <= a /\ WSIZE * a + bytes <= WSIZE * brk h) then
        zero_words (Z.to_nat (bytes / WSIZE)) a;;
        let r := bytes mod WSIZE in
        if r =? 0 then ret tt
        else let* w := load (a + bytes / WSIZE) in
             store (a + bytes / WSIZE) (w - w mod 2 ^ (8 * r))
      else fault
  end.

Definition calloc (fuel : nat) (nmemb size : Z) : M ptr :=
  let bytes := u64 (nmemb * size) in
  let* newptr := malloc fuel bytes in
  memset0 newptr bytes;;
  ret newptr.

(** ** The heap checker *)

(** [check_add_tree]; the counter behind [int *count] is threaded through
    and returned next to the result. *)
Fixpoint check_add_tree (fuel : nat) (verbose : Z) (root : ptr) (count : Z)
  : M (Z * Z) :=
  match fuel with
  | O => out_of_fuel
  | S fuel =>
      match root with
      | None => ret (0, count)
      | Some r =>
          let count := count + 1 in
          let* left := block_pred r in
          let* right := block_succ r in
          let* lres :=
            match left with
            | None => ret (0, count)
            | Some l =>
                if l >=? r then ret (-1, count)
                else
                  let* ls := block_size l in
                  let* rs := block_size r in
                  if negb (ls =? rs) then ret (-1, count)
                  else check_add_tree fuel verbose left count
            end in
          let '(lrc, count) := lres in
          if lrc =? -1 then ret (-1, count)
          else
            match right with
            | None => ret (0, count)
            | Some rt =>
                if rt <=? r then ret (-1, count)
                else
                  let* ts := block_size rt in
                  let* rs := block_size r in
                  if negb (ts =? rs) then ret (-1, count)
                  else
                    let* rres := check_add_tree fuel verbose right count in
                    let '(rrc, count) := rres in
                    if rrc =? -1 then ret (-1, count) else ret (0, count)
            end
      end
  end.

Fixpoint check_size_tree (fuel : nat) (verbose : Z) (root : ptr) (count : Z)
  : M (Z * Z) :=
  match fuel with
  | O => out_of_fuel
  | S fuel =>
      match root with
      | None => ret (0, count)
      | Some r =>
          let* left := block_left r in
          let* right := block_right r in
          let* ares := check_add_tree fuel verbose root count in
          let '(arc, count) := ares in
          if arc =? -1 then ret (-1, count)
          else
            let* lres :=
              match left with
              | None => ret (0, count)
              | Some l =>
                  let* ls := block_size l in
                  let* rs := block_size r in
                  if ls >=? rs then ret (-1, count)
                  else check_size_tree fuel verbose left count
              end in
            let '(lrc, count) := lres in
            if lrc =? -1 then ret (-1, count)
            else
              match right with
              | None => ret (0, count)
              | Some rt =>
                  let* ts := block_size rt in
                  let* rs := block_size r in
                  if ts <=? rs then ret (-1, count)
                  else
                    let* rres := check_size_tree fuel verbose right count in
                    let '(rrc, count) := rres in
                    if rrc =? -1 then ret (-1, count) else ret (0, count)
              end
      end
  end.

(** The first loop of [mm_checkheap]: the walk over the blocks from
    [heap_listp + 1] to the first header of size 0.  The result is [inl]
    of the block the loop stopped at and the count of free blocks, or
    [inr] of the value returned from inside the loop. *)
Fixpoint check_blocks (fuel : nat) (verbose : Z) (block : addr)
  (count_iter : Z) : M (addr * Z + Z) :=
  match fuel with
  | O => out_of_fuel
  | S fuel' =>
      let* sz := block_size block in
      if negb (sz >? 0) then ret (inl (block, count_iter))
      else if negb (aligned (block + 1)) then ret (inr (-1))
      else
        let* ih := in_heap block in
        if negb ih then ret (inr (-1))
        else
          let* words := block_size block in
          if words <? 2 then ret (inr (-1))
          else
            let* f := block_free block in
            if negb f && negb (words mod 2 =? 1) then ret (inr (-1))
            else if f && negb (words mod 2 =? 0) then ret (inr (-1))
            else if f then
              let count_iter := count_iter + 1 in
              let* _ := in_list fuel block in
              let* bs := block_size block in
              let next := u32 (bs + 1) in
              let* ft := load (block + next) in
              let* hd := load block in
              if negb (ft =? hd) then ret (inr (-1))
              else
                let* pf := block_prev_free block in
                let* adj :=
                  (if pf then ret true
                   else let* nb := block_next block in block_free nb) in
                if adj then ret (inr (-1))
                else
                  let* nb := block_next block in
                  check_blocks fuel' verbose nb count_iter
            else
              let* nb := block_next block in
              let* npf := block_prev_free nb in
              if npf then ret (inr (-1))
              else
                let* nb := block_next block in
                check_blocks fuel' verbose nb count_iter
  end.

(** The inner loop over one small-class chain. *)
Fixpoint check_chain (fuel : nat) (verbose : Z) (i : Z) (block : ptr)
  (count_list : Z) : M (Z + Z) :=
  match fuel with
  | O => out_of_fuel
  | S fuel =>
      match block with
      | None => ret (inl count_list)
      | Some b =>
          let count_list := count_list + 1 in
          let* pred := block_pred b in
          let* succ := block_succ b in
          let* pbad :=
            match pred with
            | None => ret false
            | Some p => let* ps := block_succ p in
                        ret (negb (bool_decide (ps = Some b)))
            end in
          if pbad then ret (inr (-1))
          else
            let* sbad :=
              match succ with
              | None => ret false
              | Some s => let* sp := block_pred s in
                          ret (negb (bool_decide (sp = Some b)))
              end in
            if sbad then ret (inr (-1))
            else
              let* ih := in_heap b in
              if negb ih then ret (inr (-1))
              else
                let* sz := block_size b in
                if negb (find_index sz =? i) then ret (inr (-1))
                else
                  let* s := block_succ b in
                  check_chain fuel verbose i s count_list
      end
  end.

(** The loop over the [SEG_LIST_SIZE] heads; [n] heads are left. *)
Fixpoint check_heads (fuel : nat) (verbose : Z) (n : nat) (i : Z)
  (count_list : Z) : M (Z + Z) :=
  match n with
  | O => ret (inl count_list)
  | S n =>
      let* hd := seg_get i in
      match hd with
      | None => check_heads fuel verbose n (i + 1) count_list
      | Some _ =>
          let* r := check_chain fuel verbose i hd count_list in
          match r with
          | inr e => ret (inr e)
          | inl count_list => check_heads fuel verbose n (i + 1) count_list
          end
      end
  end.

Definition mm_checkheap (fuel : nat) (verbose : Z) : M Z :=
  let block := 0 in
  let count_iter := 0 in
  let count_list := 0 in
  let* psz := block_size block in
  if negb (psz =? 0) then ret (-1)
  else
    let* pfree := block_free block in
    if pfree then ret (-1)
    else
      let* walk := check_blocks fuel verbose (0 + 1) count_iter in
      match walk with
      | inr e => ret e
      | inl (block, count_iter) =>
          let* efree := block_free block in
          if efree then ret (-1)
          else
            let* heads := check_heads fuel verbose
                            (Z.to_nat SEG_LIST_SIZE) 0 count_list in
            match heads with
            | inr e => ret e
            | inl count_list =>
                let* r := root_get in
                let* tree := check_size_tree fuel verbose r count_list in
                let '(trc, count_list) := tree in
                if trc =? -1 then ret (-1)
                else
                  (* the comparison of the two counts only prints *)
                  let _ := negb (count_list =? count_iter) in
                  ret 0
            end
      end.

(** ** The size formula of the specification *)

(** [3] words up to 12 bytes, else [3 + ceil((n - 12) / 8) * 2]. *)
Definition awords_spec (n : Z) : Z :=
  if n <=? 12 then 3 else 3 + ((n - 12 + 7) / 8) * 2.

(** ** Reading the heap *)

(** The word at offset [a]: what was written there last, else the arena's
    initial content. *)
Definition word (h : heap) (a : addr) : Z :=
  default (u32 (junk a)) (mem h !! a).

(** The heap after [block[..] = v] at offset [a]. *)
Definition upd (a : addr) (v : Z) (h : heap) : heap :=
  set_mem (<[a := v]> (mem h)) h.

Definition size_at (h : heap) (b : addr) : Z := Z.land (word h b) 0x3FFFFFFF.
Definition free_at (h : heap) (b : addr) : bool :=
  Z.land (word h b) 0x40000000 =? 0.
Definition prev_free_at (h : heap) (b : addr) : bool :=
  Z.land (word h b) 0x80000000 =? 0.

(** The header word of the data model: size in bits 0-29, the alloc bit
    30, the prev_alloc bit 31. *)
Definition hdr (sz : Z) (alloc prev_alloc : bool) : Z :=
  sz + (if alloc then 2 ^ 30 else 0) + (if prev_alloc then 2 ^ 31 else 0).

(** Pointers that survive the 32-bit offset encoding. *)
Definition ptr_ok (p : ptr) : Prop :=
  match p with None => True | Some a => 0 < a < 2 ^ 32 end.

(** The five words of a block that the index reads: header and links. *)
Definition same_cells (h h' : heap) (bs : list addr) : Prop :=
  forall b, b ∈ bs -> forall j, 0 <= j <= 4 -> word h' (b + j) = word h (b + j).

(** ** Outcomes of a call *)

(** [outcome r short Q]: the call returned and [Q] holds of its result, or
    it ran out of budget and [short] holds; it did not fault. *)
Definition outcome {A} (r : res (A * heap)) (short : Prop)
  (Q : A -> heap -> Prop) : Prop :=
  match r with
  | Ok (a, h') => Q a h'
  | Fault => False
  | OutOfFuel => short
  end.

(** [ensures r Q]: if the call returned, [Q] holds of its result. *)
Definition ensures {A} (r : res (A * heap)) (Q : A -> heap -> Prop) : Prop :=
  match r with
  | Ok (a, h') => Q a h'
  | _ => True
  end.

(** ** The free-set index, abstractly *)

(** A chain of blocks linked through [block_pred] and [block_succ], and
    the search tree whose nodes are the heads of such chains, keyed by the
    size of the chain's blocks. *)
Inductive tree : Type :=
| Leaf
| Node (l : tree) (k : Z) (b : addr) (ring : list addr) (r : tree).

Record index : Type := Index {
  smalls : list (list addr);
  bigs : tree
}.

Definition troot (t : tree) : ptr :=
  match t with Leaf => None | Node _ _ b _ _ => Some b end.

Fixpoint tblocks (t : tree) : list addr :=
  match t with
  | Leaf => []
  | Node l _ b ring r => tblocks l ++ (b :: ring) ++ tblocks r
  end.

Fixpoint tkeys (t : tree) : list Z :=
  match t with
  | Leaf => []
  | Node l k _ _ r => tkeys l ++ k :: tkeys r
  end.

Fixpoint theight (t : tree) : nat :=
  match t with
  | Leaf => O
  | Node l _ _ _ r => S (Nat.max (theight l) (theight r))
  end.

Fixpoint bst (t : tree) : Prop :=
  match t with
  | Leaf => True
  | Node l k _ _ r =>
      Forall (fun k' => k' < k) (tkeys l) /\
      Forall (fun k' => k < k') (tkeys r) /\
      bst l /\ bst r
  end.

(** The nodes of a tree in order: key, head and rest of the chain. *)
Fixpoint tnodes (t : tree) : list (Z * addr * list addr) :=
  match t with
  | Leaf => []
  | Node l k b ring r => tnodes l ++ (k, b, ring) :: tnodes r
  end.

Definition iblocks (ix : index) : list addr :=
  concat (smalls ix) ++ tblocks (bigs ix).

(** The abstract counterparts of [put] and [take]. *)
Fixpoint tput (k : Z) (b : addr) (t : tree) : tree :=
  match t with
  | Leaf => Node Leaf k b [] Leaf
  | Node l k' b' ring r =>
      if k >? k' then Node l k' b' ring (tput k b r)
      else if k <? k' then Node (tput k b l) k' b' ring r
      else Node l k' b (b' :: ring) r
  end.

(** The leftmost node of a tree, and the tree without it. *)
Fixpoint tmin (l : tree) (k : Z) (b : addr) (ring : list addr) (r : tree)
  : Z * addr * list addr :=
  match l with
  | Leaf => (k, b, ring)
  | Node ll lk lb lring lr => tmin ll lk lb lring lr
  end.

Fixpoint tdelmin (l : tree) (k : Z) (b : addr) (ring : list addr) (r : tree)
  : tree :=
  match l with
  | Leaf => r
  | Node ll lk lb lring lr => Node (tdelmin ll lk lb lring lr) k b ring r
  end.

Definition remove_addr (b : addr) (l : list addr) : list addr :=
  filter (fun x => x <> b) l.

Fixpoint ttake (k : Z) (b : addr) (t : tree) : tree :=
  match t with
  | Leaf => Leaf
  | Node l k' b' ring r =>
      if k <? k' then Node (ttake k b l) k' b' ring r
      else if k >? k' then Node l k' b' ring (ttake k b r)
      else if decide (b = b') then
        match ring with
        | s :: ring' => Node l k' s ring' r
        | [] =>
            match r with
            | Leaf => l
            | Node rl rk rb rring rr =>
                match l with
                | Leaf => r
                | Node _ _ _ _ _ =>
                    let '(mk, mb, mring) := tmin rl rk rb rring rr in
                    Node l mk mb mring (tdelmin rl rk rb rring rr)
                end
            end
        end
      else Node l k' b' (remove_addr b ring) r
  end.

(** The smallest key that is at least [w], with the head of its chain. *)
Fixpoint tceiling (w : Z) (t : tree) : ptr :=
  match t with
  | Leaf => None
  | Node l k b _ r =>
      if w =? k then Some b
      else if w >? k then tceiling w r
      else match tceiling w l with
           | Some c => Some c
           | None => Some b
           end
  end.

(** Insertion and deletion on the whole index, routed by size as
    [block_insert] and [block_delete] do. *)
Definition iinsert (k : Z) (b : addr) (ix : index) : index :=
  if k <=? SEG_LIST_SIZE * 2
  then Index (alter (cons b) (Z.to_nat (find_index k)) (smalls ix)) (bigs ix)
  else Index (smalls ix) (tput k b (bigs ix)).

Definition idelete (k : Z) (b : addr) (ix : index) : index :=
  if k <=? SEG_LIST_SIZE * 2
  then Index (alter (remove_addr b) (Z.to_nat (find_index k)) (smalls ix))
         (bigs ix)
  else Index (smalls ix) (ttake k b (bigs ix)).

(** The block [find_fit] returns: the head of the first non-empty small
    class from the class of [w] on, else the ceiling of [w] in the tree. *)
Definition ifind (w : Z) (ix : index) : ptr :=
  match (if w <=? SEG_LIST_SIZE * 2
         then head (concat (drop (Z.to_nat (find_index w)) (smalls ix)))
         else None) with
  | Some b => Some b
  | None => tceiling w (bigs ix)
  end.

(** ** The free-set index in the heap *)

Definition head_or (l : list addr) (d : ptr) : ptr :=
  match l with [] => d | b :: _ => Some b end.

Definition last_or (l : list addr) (d : ptr) : ptr :=
  match last l with Some b => Some b | None => d end.

(** The blocks of [l] are linked to one another in this order, the first
    back to [prev] and the last on to [next]. *)
Fixpoint dseg (h : heap) (prev : ptr) (l : list addr) (next : ptr) : Prop :=
  match l with
  | [] => True
  | b :: l' =>
      word h (b + 1) = offset_of prev /\
      word h (b + 2) = offset_of (head_or l' next) /\
      dseg h (Some b) l' next
  end.

Fixpoint tree_rep (h : heap) (t : tree) : Prop :=
  match t with
  | Leaf => True
  | Node l k b ring r =>
      dseg h None (b :: ring) None /\
      Forall (fun x => size_at h x = k) (b :: ring) /\
      word h (b + 3) = offset_of (troot l) /\
      word h (b + 4) = offset_of (troot r) /\
      tree_rep h l /\ tree_rep h r
  end.

(** Chain [i] of the small classes holds blocks of [2 * (i + 1)] words. *)
Definition small_rep (h : heap) (i : nat) (l : list addr) : Prop :=
  dseg h None l None /\
  Forall (fun x => size_at h x = 2 * (Z.of_nat i + 1)) l.

Definition index_rep (h : heap) (ix : index) : Prop :=
  seg_list h = map (fun l => head_or l None) (smalls ix) /\
  length (smalls ix) = Z.to_nat SEG_LIST_SIZE /\
  (forall i l, smalls ix !! i = Some l -> small_rep h i l) /\
  seg_root h = troot (bigs ix) /\
  tree_rep h (bigs ix) /\
  bst (bigs ix) /\
  Forall (fun k => SEG_LIST_SIZE * 2 < k) (tkeys (bigs ix)).

(** What [small_block_delete] and [del] write to take [b] out of its
    chain: the link words of its neighbours. *)
Definition unlink (h : heap) (b : addr) : heap :=
  match ptr_of (word h (b + 1)), ptr_of (word h (b + 2)) with
  | None, None => h
  | None, Some s =>
      upd (s + 2) (offset_of (ptr_of (word h (s + 2))))
        (upd (s + 1) (offset_of None) h)
  | Some p, None =>
      upd (p + 2) (offset_of None)
        (upd (p + 1) (offset_of (ptr_of (word h (p + 1)))) h)
  | Some p, Some s =>
      let h1 := upd (p + 2) (offset_of (Some s))
                  (upd (p + 1) (offset_of (ptr_of (word h (p + 1)))) h) in
      upd (s + 2) (offset_of (ptr_of (word h1 (s + 2))))
        (upd (s + 1) (offset_of (Some p)) h1)
  end.

(** Two blocks whose five index words do not overlap. *)
Definition far (c c' : addr) : Prop := c + 4 < c' \/ c' + 4 < c.

Fixpoint apart (bs : list addr) : Prop :=
  match bs with
  | [] => True
  | c :: bs' => Forall (far c) bs' /\ apart bs'
  end.

(** Blocks of the index lie in the heap, below 2^30 words, and far enough
    from one another for their index words not to overlap. *)
Definition spaced (h : heap) (bs : list addr) : Prop :=
  apart bs /\ Forall (fun b => 0 < b /\ b + 4 < brk h) bs /\ brk h <= 2 ^ 30.

(** Outside the [n] words that follow the headers of [bs], [h'] is [h]. *)
Definition unchanged_outside (n : Z) (bs : list addr) (h h' : heap) : Prop :=
  forall x, (forall c, c ∈ bs -> ~ (c < x <= c + n)) -> word h' x = word h x.

(** The break and the two index roots are the same. *)
Definition same_globals (h h' : heap) : Prop :=
  brk h' = brk h /\ seg_list h' = seg_list h /\ seg_root h' = seg_root h.

(** The words an operation on the index may write: the two link words of
    a block of a small class, the four of a block of the tree. *)
Definition touched (h : heap) (bs : list addr) (x : addr) : Prop :=
  exists b, b ∈ bs /\
            b < x <= b + (if size_at h b <=? SEG_LIST_SIZE * 2 then 2 else 4).

Definition frame (h h' : heap) (bs : list addr) : Prop :=
  brk h' = brk h /\
  forall x, ~ touched h bs x -> word h' x = word h x.


(** ** The heap as a sequence of blocks *)

(** A block of [sz] words takes one more word for its header and, when it
    is free, another one for its footer. *)
Definition span (sz : Z) (al : bool) : Z := if al then sz + 1 else sz + 2.

Fixpoint spans (bs : list (Z * bool)) : Z :=
  match bs with
  | [] => 0
  | (sz, al) :: bs' => span sz al + spans bs'
  end.

(** The block at [a]: [sz] words, allocated or not, after a block that is
    allocated or not.  An allocated block has an odd size, a free one an
    even size of at least 2 and a footer that repeats the size. *)
Definition blk (h : heap) (a : addr) (sz : Z) (al pa : bool) : Prop :=
  word h a = hdr sz al pa /\ 0 <= sz < 2 ^ 30 /\
  if al then Z.odd sz = true
  else Z.even sz = true /\ 2 <= sz /\ size_at h (a + sz + 1) = sz.

(** The blocks [bs], given by size and allocation status, tile the words
    from [a] up to [e]; [pa] is the status of the block before [a], [pe]
    that of the last block. *)
Fixpoint lseg (h : heap) (a : addr) (pa : bool) (bs : list (Z * bool))
  (e : addr) (pe : bool) : Prop :=
  match bs with
  | [] => a = e /\ pa = pe
  | (sz, al) :: bs' => blk h a sz al pa /\ lseg h (a + span sz al) al bs' e pe
  end.

(** No two neighbours are free. *)
Fixpoint coalesced (pa : bool) (bs : list (Z * bool)) : Prop :=
  match bs with
  | [] => True
  | (_, al) :: bs' => (pa = true \/ al = true) /\ coalesced al bs'
  end.

(** The addresses of the allocated ([want = true]) or of the free blocks. *)
Fixpoint addrs (want : bool) (a : addr) (bs : list (Z * bool)) : list addr :=
  match bs with
  | [] => []
  | (sz, al) :: bs' =>
      (if Bool.eqb al want then [a] else []) ++ addrs want (a + span sz al) bs'
  end.

Definition frees : addr -> list (Z * bool) -> list addr := addrs false.
Definition allocs : addr -> list (Z * bool) -> list addr := addrs true.

(** The free blocks with their sizes. *)
Fixpoint fblocks (a : addr) (bs : list (Z * bool)) : list (addr * Z) :=
  match bs with
  | [] => []
  | (sz, al) :: bs' =>
      (if al then [] else [(a, sz)]) ++ fblocks (a + span sz al) bs'
  end.

(** The status of the last block of [bs], of the block before if there is
    none. *)
Fixpoint last_alloc (pa : bool) (bs : list (Z * bool)) : bool :=
  match bs with
  | [] => pa
  | (_, al) :: bs' => last_alloc al bs'
  end.

(** The first block of [bs], if there is one, is allocated. *)
Definition head_alloc (bs : list (Z * bool)) : Prop :=
  match bs with (_, false) :: _ => False | _ => True end.

(** [x] is one of the [sz] words after the header of a block. *)
Fixpoint payload (a : addr) (bs : list (Z * bool)) (x : addr) : Prop :=
  match bs with
  | [] => False
  | (sz, al) :: bs' => a < x <= a + sz \/ payload (a + span sz al) bs' x
  end.

(** [x] is one of the words after the header of an allocated block: a
    word of the user's. *)
Fixpoint apayload (a : addr) (bs : list (Z * bool)) (x : addr) : Prop :=
  match bs with
  | [] => False
  | (sz, al) :: bs' =>
      (al = true /\ a < x <= a + sz) \/ apayload (a + span sz al) bs' x
  end.

(** The blocks [bs] tile the words from [a] up to the epilogue, the last
    word handed out. *)
Definition tail_seg (h : heap) (a : addr) (pa : bool) (bs : list (Z * bool))
  : Prop :=
  exists pe, lseg h a pa bs (brk h - 1) pe /\
             word h (brk h - 1) = hdr 0 true pe.

(** The invariant: the blocks [bs] tile the heap from the word after the
    prologue to the epilogue, no two neighbours are free, and the index
    [ix] holds the free blocks. *)
Definition wf_with (h : heap) (bs : list (Z * bool)) (ix : index) : Prop :=
  tail_seg h 1 true bs /\
  coalesced true bs /\
  index_rep h ix /\
  iblocks ix ≡ₚ frees 1 bs /\
  brk h <= 2 ^ 30.

Definition wf (h : heap) : Prop := exists bs ix, wf_with h bs ix.

(** ** An operation at work *)

(** While an operation rewrites the blocks of a zone, the words from [lo]
    up to [hi], the blocks [bs1] before the zone and [bs2] after it stay as
    they are, and the index holds their free blocks and the blocks [zs] of
    the zone, given with their sizes. *)
Definition zone_ok (h : heap) (lo hi : addr) (zs : list (addr * Z)) : Prop :=
  Forall (fun z => size_at h z.1 = z.2 /\ 2 <= z.2 /\
                   lo <= z.1 /\ z.1 + z.2 + 2 <= hi) zs.

(** The words of the user's in the blocks [bs1] from word 1 and [bs2] from
    [hi] are in [h] what they are in [h0]. *)
Definition keeps (h0 h : heap) (bs1 : list (Z * bool)) (hi : addr)
  (bs2 : list (Z * bool)) : Prop :=
  forall x, apayload 1 bs1 x \/ apayload hi bs2 x -> word h x = word h0 x.

(** [h0] is the heap the operation started from. *)
Definition ctx (h0 h : heap) (ix : index) (bs1 : list (Z * bool)) (lo : addr)
  (pl : bool) (hi : addr) (pm : bool) (bs2 : list (Z * bool))
  (zs : list (addr * Z)) : Prop :=
  lseg h 1 true bs1 lo pl /\
  tail_seg h hi pm bs2 /\
  lo <= hi /\
  brk h <= 2 ^ 30 /\
  index_rep h ix /\
  iblocks ix ≡ₚ frees 1 bs1 ++ zs.*1 ++ frees hi bs2 /\
  zone_ok h lo hi zs /\
  spaced h (iblocks ix) /\
  keeps h0 h bs1 hi bs2.

(** ** The client's calls *)

(** What a client holds: the pointers handed out and not taken back, each
    with the number of bytes that was asked for. *)
Definition grants : Type := list (addr * Z).

Definition grant (r : ptr) (bytes : Z) (g : grants) : grants :=
  match r with Some p => (p, bytes) :: g | None => g end.

Definition revoke (p : addr) (g : grants) : grants :=
  filter (fun e => e.1 <> p) g.

(** One step of a client that asks for at most [lim] bytes at a time: a
    call of [malloc], [calloc], [realloc] or [free], the last two on a
    pointer it holds, or the write of a word inside the bytes it was
    granted. *)
Inductive step (lim : Z) : heap * grants -> heap * grants -> Prop :=
| step_malloc fuel size h g r h' :
    0 <= size <= lim ->
    malloc fuel size h = Ok (r, h') ->
    step lim (h, g) (h', grant r size g)
| step_calloc fuel n m h g r h' :
    0 <= n -> 0 <= m -> n * m <= lim ->
    calloc fuel n m h = Ok (r, h') ->
    step lim (h, g) (h', grant r (n * m) g)
| step_free fuel p n h g h' :
    (p, n) ∈ g ->
    free fuel (Some p) h = Ok (tt, h') ->
    step lim (h, g) (h', revoke p g)
| step_free_null fuel h g h' :
    free fuel None h = Ok (tt, h') ->
    step lim (h, g) (h', g)
| step_realloc fuel p n size h g r h' :
    (p, n) ∈ g -> 0 < size <= lim ->
    realloc fuel (Some p) size h = Ok (r, h') ->
    step lim (h, g)
      (h', match r with Some q => (q, size) :: revoke p g | None => g end)
| step_realloc_zero fuel p n h g r h' :
    (p, n) ∈ g ->
    realloc fuel (Some p) 0 h = Ok (r, h') ->
    step lim (h, g) (h', revoke p g)
| step_realloc_null fuel size h g r h' :
    0 <= size <= lim ->
    realloc fuel None size h = Ok (r, h') ->
    step lim (h, g) (h', grant r size g)
| step_write p n x v h g h' :
    (p, n) ∈ g -> p <= x -> 4 * (x - p) < n -> 0 <= v < 2 ^ 32 ->
    store x v h = Ok (tt, h') ->
    step lim (h, g) (h', g).


(** Propositional reasoning that leaves the oracle's parameters alone. *)
Ltac prop :=
  try clear heap_listp; try clear max_brk; try clear junk; tauto.

(** * Properties *)

(** ** The monad *)

Lemma bind_Ok {A B} (m : M A) (k : A -> M B) h a h' :
  m h = Ok (a, h') -> bind m k h = k a h'.
Proof. unfold bind. intros ->. reflexivity. Qed.

Lemma bind_inv {A B} (m : M A) (k : A -> M B) h b h'' :
  bind m k h = Ok (b, h'') ->
  exists a h', m h = Ok (a, h') /\ k a h' = Ok (b, h'').
Proof.
  unfold bind. destruct (m h) as [[a h']| |]; try discriminate.
  intros H. exists a, h'. split; [reflexivity|exact H].
Qed.

(** ** Arithmetic of the adjusted size *)

Lemma land_lnot7 (x : Z) : 0 <= x -> Z.land x (Z.lnot 7) = 8 * (x / 8).
Proof.
  intros Hx.
  change (Z.lnot 7) with (Z.lnot (Z.ones 3)).
  rewrite <- Z.ldiff_land, Z.ldiff_ones_r by lia.
  rewrite Z.shiftr_div_pow2, Z.shiftl_mul_pow2 by lia.
  change (2 ^ 3) with 8. lia.
Qed.

Lemma adjust_wraps (n : Z) :
  0 < n < 2 ^ 64 -> adjust n = u32 (awords_spec n).
Proof.
  intros Hn. unfold adjust, awords_spec.
  destruct (n <=? 12) eqn:E; [reflexivity|].
  apply Z.leb_gt in E.
  unfold u64, DSIZE, WSIZE.
  change (Z.lnot 0x7 mod 2 ^ 64) with (2 ^ 64 - 8).
  rewrite (Z.mod_small (n - 12)) by lia.
  rewrite (Z.mod_small (n - 12 + (8 - 1))) by lia.
  assert (Hl : Z.land (n - 12 + (8 - 1)) (2 ^ 64 - 8)
               = 8 * ((n - 12 + 7) / 8)).
  { rewrite <- land_lnot7 by lia.
    replace (n - 12 + (8 - 1)) with (n - 12 + 7) by lia.
    change (2 ^ 64 - 8) with (Z.land (Z.lnot 7) (Z.ones 64)).
    rewrite Z.land_assoc, Z.land_ones by lia.
    apply Z.mod_small. split.
    - apply Z.land_nonneg. left. lia.
    - rewrite land_lnot7 by lia.
      assert ((n - 12 + 7) / 8 < 2 ^ 61) by
        (apply Z.div_lt_upper_bound; lia).
      lia. }
  rewrite Hl.
  replace (8 * ((n - 12 + 7) / 8) / 4) with ((n - 12 + 7) / 8 * 2).
  2:{ replace (8 * ((n - 12 + 7) / 8)) with ((n - 12 + 7) / 8 * 2 * 4) by lia.
      rewrite Z.div_mul by lia. reflexivity. }
  assert ((n - 12 + 7) / 8 < 2 ^ 61) by (apply Z.div_lt_upper_bound; lia).
  assert (0 <= (n - 12 + 7) / 8) by (apply Z.div_pos; lia).
  rewrite (Z.mod_small (3 + _) (2 ^ 64)) by lia.
  reflexivity.
Qed.


(** ** Relations kept by every call that does not move the break *)

Definition preserves {A} (R : heap -> heap -> Prop) (m : M A) : Prop :=
  forall h a h', m h = Ok (a, h') -> R h h'.

Section Preserve.

Variable R : heap -> heap -> Prop.
Hypothesis R_refl : forall h, R h h.
Hypothesis R_trans : forall h1 h2 h3, R h1 h2 -> R h2 h3 -> R h1 h3.
Hypothesis R_store : forall a v h h', store a v h = Ok (tt, h') -> R h h'.
Hypothesis R_seg_set : forall i p h h', seg_set i p h = Ok (tt, h') -> R h h'.
Hypothesis R_root_set : forall p h, R h (set_seg_root p h).

Set Default Proof Using "R_refl R_trans R_store R_seg_set R_root_set".

Lemma preserves_ret {A} (a : A) : preserves R (ret a).
Proof. intros h a' h' [= _ <-]. apply R_refl. Qed.

Lemma preserves_bind {A B} (m : M A) (k : A -> M B) :
  preserves R m -> (forall a, preserves R (k a)) -> preserves R (bind m k).
Proof.
  intros Hm Hk h b h'' H. apply bind_inv in H as (a & h' & H1 & H2).
  eapply R_trans; [eapply Hm, H1 | eapply Hk, H2].
Qed.

Lemma preserves_fault {A} : preserves R (@fault A).
Proof. intros h a h' [=]. Qed.

Lemma preserves_out_of_fuel {A} : preserves R (@out_of_fuel A).
Proof. intros h a h' [=]. Qed.

Lemma preserves_load a : preserves R (load a).
Proof.
  intros h v h'. unfold load. destruct (decide _); intros [=]. subst.
  apply R_refl.
Qed.

Lemma preserves_store a v : preserves R (store a v).
Proof. intros h [] h' H. eapply R_store, H. Qed.

Lemma preserves_seg_get i : preserves R (seg_get i).
Proof.
  intros h v h'. unfold seg_get. destruct (decide _); [|intros [=]].
  destruct (_ !! _); intros [=]. subst. apply R_refl.
Qed.

Lemma preserves_seg_set i p : preserves R (seg_set i p).
Proof. intros h [] h' H. eapply R_seg_set, H. Qed.

Lemma preserves_root_get : preserves R root_get.
Proof. intros h v h' [= _ <-]. apply R_refl. Qed.

Lemma preserves_root_set p : preserves R (root_set p).
Proof. intros h [] h' [= <-]. apply R_root_set. Qed.

Lemma preserves_in_heap a : preserves R (in_heap a).
Proof. intros h v h' [= _ <-]. apply R_refl. Qed.

Lemma preserves_get_heap : preserves R get_heap.
Proof. intros h v h' [= _ <-]. apply R_refl. Qed.

Lemma preserves_deref p : preserves R (deref p).
Proof. destruct p; [apply preserves_ret|apply preserves_fault]. Qed.

Create HintDb pres discriminated.

#[local] Hint Resolve preserves_ret preserves_fault preserves_out_of_fuel
  preserves_load preserves_store preserves_seg_get preserves_seg_set
  preserves_root_get preserves_root_set preserves_in_heap preserves_get_heap
  preserves_deref : pres.

(** One step through the body of an embedded function: split a bind, or
    take the cases of a conditional or of a match on a computed value. *)
Ltac pres_step :=
  match goal with
  | |- preserves _ (bind _ _) => apply preserves_bind; [|intros]
  | |- preserves _ (if ?b then _ else _) => destruct b
  | |- preserves _ (match ?x with _ => _ end) => destruct x
  | |- preserves _ (let '(_, _) := ?x in _) => destruct x
  | |- preserves _ _ => solve [eauto with pres]
  end.
Ltac pres := repeat pres_step.

Lemma preserves_block_size b : preserves R (block_size b).
Proof. unfold block_size. pres. Qed.
Lemma preserves_block_free b : preserves R (block_free b).
Proof. unfold block_free. pres. Qed.
Lemma preserves_block_prev_free b : preserves R (block_prev_free b).
Proof. unfold block_prev_free. pres. Qed.
#[local] Hint Resolve preserves_block_size preserves_block_free
  preserves_block_prev_free : pres.

Lemma preserves_block_mark_free b al : preserves R (block_mark_free b al).
Proof. unfold block_mark_free. pres. Qed.
Lemma preserves_block_mark_allo b al : preserves R (block_mark_allo b al).
Proof. unfold block_mark_allo. pres. Qed.
Lemma preserves_block_pred b : preserves R (block_pred b).
Proof. unfold block_pred. pres. Qed.
Lemma preserves_block_succ b : preserves R (block_succ b).
Proof. unfold block_succ. pres. Qed.
Lemma preserves_block_left b : preserves R (block_left b).
Proof. unfold block_left. pres. Qed.
Lemma preserves_block_right b : preserves R (block_right b).
Proof. unfold block_right. pres. Qed.
Lemma preserves_block_prev b : preserves R (block_prev b).
Proof. unfold block_prev. pres. Qed.
Lemma preserves_block_next b : preserves R (block_next b).
Proof. unfold block_next. pres. Qed.
Lemma preserves_set_size b v : preserves R (set_size b v).
Proof. unfold set_size, set_val. pres. Qed.
Lemma preserves_set_ptr b p s : preserves R (set_ptr b p s).
Proof. unfold set_ptr, set_val. pres. Qed.
Lemma preserves_set_chd_ptr b p s : preserves R (set_chd_ptr b p s).
Proof. unfold set_chd_ptr, set_val. pres. Qed.
Lemma preserves_cmp_size a b : preserves R (cmp_size a b).
Proof. unfold cmp_size. pres. Qed.
#[local] Hint Resolve preserves_block_mark_free preserves_block_mark_allo
  preserves_block_pred preserves_block_succ preserves_block_left
  preserves_block_right preserves_block_prev preserves_block_next
  preserves_set_size preserves_set_ptr preserves_set_chd_ptr
  preserves_cmp_size : pres.

Lemma preserves_small_block_insert b : preserves R (small_block_insert b).
Proof. unfold small_block_insert. pres. Qed.
Lemma preserves_small_block_delete b : preserves R (small_block_delete b).
Proof. unfold small_block_delete. pres. Qed.
Lemma preserves_add b r : preserves R (add b r).
Proof. unfold add. pres. Qed.
Lemma preserves_del b r : preserves R (del b r).
Proof. unfold del. pres. Qed.
#[local] Hint Resolve preserves_small_block_insert
  preserves_small_block_delete preserves_add preserves_del : pres.

Lemma preserves_minimum fuel : forall b o, preserves R (minimum fuel b o).
Proof. induction fuel; intros; simpl; pres. Qed.
Lemma preserves_deleteMin fuel : forall b o, preserves R (deleteMin fuel b o).
Proof. induction fuel; intros; simpl; pres. Qed.
#[local] Hint Resolve preserves_minimum preserves_deleteMin : pres.

Lemma preserves_put fuel : forall b r, preserves R (put fuel b r).
Proof. induction fuel; intros; simpl; pres. Qed.
Lemma preserves_take fuel : forall b r, preserves R (take fuel b r).
Proof. induction fuel; intros; simpl; pres. Qed.
#[local] Hint Resolve preserves_put preserves_take : pres.

Lemma preserves_block_insert fuel b : preserves R (block_insert fuel b).
Proof. unfold block_insert. pres. Qed.
Lemma preserves_block_delete fuel b : preserves R (block_delete fuel b).
Proof. unfold block_delete. pres. Qed.
#[local] Hint Resolve preserves_block_insert preserves_block_delete : pres.

Lemma preserves_coalesce fuel b : preserves R (coalesce fuel b).
Proof. unfold coalesce. pres. Qed.
Lemma preserves_place fuel b w : preserves R (place fuel b w).
Proof. unfold place. pres. Qed.

Lemma preserves_small_find_fit_chain fuel :
  forall b w, preserves R (small_find_fit_chain fuel b w).
Proof. induction fuel; intros; simpl; pres. Qed.
#[local] Hint Resolve preserves_small_find_fit_chain : pres.
Lemma preserves_small_find_fit_from fuel n :
  forall i w, preserves R (small_find_fit_from fuel n i w).
Proof. induction n; intros; simpl; pres. Qed.
#[local] Hint Resolve preserves_small_find_fit_from : pres.
Lemma preserves_small_find_fit fuel w : preserves R (small_find_fit fuel w).
Proof. unfold small_find_fit. pres. Qed.
#[local] Hint Resolve preserves_small_find_fit : pres.
Lemma preserves_ceiling fuel : forall w r, preserves R (ceiling fuel w r).
Proof. induction fuel; intros; [simpl; pres|]. cbn [ceiling]. pres. Qed.
#[local] Hint Resolve preserves_ceiling : pres.
Lemma preserves_find_fit fuel w : preserves R (find_fit fuel w).
Proof. unfold find_fit. pres. Qed.

(** [extend_heap] after its call of [mem_sbrk]. *)
Lemma extend_heap_after_sbrk fuel w h r h' :
  extend_heap fuel w h = Ok (r, h') ->
  exists sb h1,
    mem_sbrk (to_int (u32 (u32 (w + 1) * WSIZE))) h = Ok (sb, h1) /\
    (sb = None -> r = None) /\
    R h1 h'.
Proof.
  unfold extend_heap. intros H.
  apply bind_inv in H as (sb & h1 & Hs & H).
  exists sb, h1. split; [exact Hs|]. split.
  { intros ->. injection H as <- _. reflexivity. }
  revert H. generalize h1 r h'.
  change (preserves R
    match sb with
    | Some b =>
        let block := b - 1 in
        let* pf := block_prev_free block in
        (if pf
         then set_size block (u32 (u32 (w + 1) - 2));;
              block_mark_free block FREE
         else set_size block (u32 (u32 (w + 1) - 2));;
              block_mark_free block ALLOCATED);;
        let* next := block_next block in
        set_size next 0;;
        block_mark_allo next FREE;;
        let* block0 := coalesce fuel block in ret (Some block0)
    | None => ret None
    end).
  destruct sb; [|apply preserves_ret].
  cbv zeta. pres; apply preserves_coalesce.
Qed.

End Preserve.

Set Default Proof Using "Type".

(** ** The break moves only in [mem_sbrk] *)

Definition same_brk (h h' : heap) : Prop := brk h' = brk h.

Lemma same_brk_store a v h h' : store a v h = Ok (tt, h') -> same_brk h h'.
Proof. unfold store. destruct (decide _); intros [=]. subst. reflexivity. Qed.

Lemma same_brk_seg_set i p h h' :
  seg_set i p h = Ok (tt, h') -> same_brk h h'.
Proof. unfold seg_set. destruct (decide _); intros [=]. subst. reflexivity. Qed.

Lemma same_brk_trans h1 h2 h3 :
  same_brk h1 h2 -> same_brk h2 h3 -> same_brk h1 h3.
Proof. unfold same_brk. congruence. Qed.

Ltac same_brk_side :=
  first [ exact same_brk_trans | exact same_brk_store
        | exact same_brk_seg_set | intros; reflexivity ].

Lemma brk_coalesce fuel b h r h' :
  coalesce fuel b h = Ok (r, h') -> brk h' = brk h.
Proof. apply (preserves_coalesce same_brk); same_brk_side. Qed.

Lemma brk_place fuel b w h r h' :
  place fuel b w h = Ok (r, h') -> brk h' = brk h.
Proof. apply (preserves_place same_brk); same_brk_side. Qed.

Lemma brk_find_fit fuel w h r h' :
  find_fit fuel w h = Ok (r, h') -> brk h' = brk h.
Proof. apply (preserves_find_fit same_brk); same_brk_side. Qed.

(** [extend_heap(words)] moves the break by [words + 1] words. *)
Lemma extend_heap_brk fuel w h b h' :
  0 <= w -> w + 1 < 2 ^ 29 ->
  extend_heap fuel w h = Ok (Some b, h') ->
  brk h' = brk h + (w + 1).
Proof.
  intros Hw0 Hw. unfold extend_heap.
  assert (E : to_int (u32 (u32 (w + 1) * WSIZE)) / WSIZE = w + 1).
  { unfold u32, WSIZE, to_int. rewrite (Z.mod_small (w + 1)) by lia.
    rewrite (Z.mod_small ((w + 1) * 4)) by lia.
    destruct (_ <? _) eqn:E; [|apply Z.ltb_ge in E; lia].
    apply Z.div_mul. lia. }
  intros H.
  apply (extend_heap_after_sbrk same_brk) in H as (sb & h1 & Hs & Hn & H);
    try same_brk_side.
  unfold mem_sbrk in Hs. rewrite E in Hs. unfold same_brk in H.
  destruct (decide _); injection Hs as <- <-.
  - discriminate Hn. reflexivity.
  - rewrite H. simpl. lia.
Qed.

(** ** C8: degenerate arguments *)

(** C8. In every heap state, [malloc(0)] returns [NULL] and leaves the
    state as it was; [free(NULL)] does nothing; [realloc(NULL, n)] is
    [malloc(n)]; [realloc(p, 0)] is [free(p)] followed by returning
    [NULL]. *)
Theorem degenerate_arguments (fuel : nat) (h : heap) (n : Z) (p : addr) :
  malloc fuel 0 h = Ok (None, h) /\
  free fuel None h = Ok (tt, h) /\
  realloc fuel None n h = malloc fuel n h /\
  realloc fuel (Some p) 0 h = (free fuel (Some p);; ret None) h.
Proof. repeat split. Qed.

(** ** C7: the adjusted size *)


(** The adjusted size for any [size_t] request: the formula reduced
    modulo 2^32, always odd. *)
Lemma u32_mod2 (x : Z) : u32 x mod 2 = x mod 2.
Proof. unfold u32. apply Z.mod_mod_divide. exists (2 ^ 31). reflexivity. Qed.

Lemma adjust_odd (n : Z) : 0 < n < 2 ^ 64 -> adjust n mod 2 = 1.
Proof.
  intros Hn. rewrite adjust_wraps by exact Hn.
  rewrite u32_mod2. unfold awords_spec.
  destruct (n <=? 12); [reflexivity|].
  replace (3 + (n - 12 + 7) / 8 * 2) with (1 + ((n - 12 + 7) / 8 + 1) * 2)
    by lia.
  rewrite Z.mod_add by lia. reflexivity.
Qed.


(** ** Reading and writing words *)

Lemma load_eq a h : 0 <= a < brk h -> load a h = Ok (word h a, h).
Proof. intros H. unfold load. rewrite decide_True by exact H. reflexivity. Qed.

Lemma store_eq a v h : 0 <= a < brk h -> store a v h = Ok (tt, upd a v h).
Proof. intros H. unfold store. rewrite decide_True by exact H. reflexivity. Qed.

Lemma word_upd a v h x :
  word (upd a v h) x = if decide (x = a) then v else word h x.
Proof.
  unfold word, upd. simpl. destruct (decide (x = a)) as [->|Hne].
  - rewrite lookup_insert_eq. reflexivity.
  - rewrite lookup_insert_ne by congruence. reflexivity.
Qed.

Lemma word_upd_eq a v h : word (upd a v h) a = v.
Proof. rewrite word_upd, decide_True; reflexivity. Qed.

Lemma word_upd_ne a v h x : x <> a -> word (upd a v h) x = word h x.
Proof. intros H. rewrite word_upd, decide_False; [reflexivity|exact H]. Qed.

Lemma brk_upd a v h : brk (upd a v h) = brk h.
Proof. reflexivity. Qed.
Lemma seg_list_upd a v h : seg_list (upd a v h) = seg_list h.
Proof. reflexivity. Qed.
Lemma seg_root_upd a v h : seg_root (upd a v h) = seg_root h.
Proof. reflexivity. Qed.

Lemma word_set_seg_list l h x : word (set_seg_list l h) x = word h x.
Proof. reflexivity. Qed.
Lemma word_set_seg_root r h x : word (set_seg_root r h) x = word h x.
Proof. reflexivity. Qed.
Lemma word_set_brk b h x : word (set_brk b h) x = word h x.
Proof. reflexivity. Qed.

Lemma size_at_upd_ne a v h b : b <> a -> size_at (upd a v h) b = size_at h b.
Proof. intros H. unfold size_at. rewrite word_upd_ne by exact H. reflexivity. Qed.

Lemma word_range h a : 0 <= a < brk h -> load a h = Ok (word h a, h).
Proof. apply load_eq. Qed.

(** ** The header codec *)

Lemma land_ones_low (w : Z) (n : Z) : 0 <= n -> Z.land w (Z.ones n) = w mod 2 ^ n.
Proof. intros. apply Z.land_ones. assumption. Qed.

Lemma hdr_range sz al pa : 0 <= sz < 2 ^ 30 -> 0 <= hdr sz al pa < 2 ^ 32.
Proof. unfold hdr. destruct al, pa; lia. Qed.

Lemma hdr_size sz al pa :
  0 <= sz < 2 ^ 30 -> Z.land (hdr sz al pa) 0x3FFFFFFF = sz.
Proof.
  intros H. change 0x3FFFFFFF with (Z.ones 30). rewrite Z.land_ones by lia.
  unfold hdr.
  replace (sz + (if al then 2 ^ 30 else 0) + (if pa then 2 ^ 31 else 0))
    with (sz + ((if al then 1 else 0) + (if pa then 2 else 0)) * 2 ^ 30)
    by (destruct al, pa; lia).
  rewrite Z.mod_add by lia. apply Z.mod_small. exact H.
Qed.

Lemma testbit_hdr_30 sz al pa :
  0 <= sz < 2 ^ 30 -> Z.testbit (hdr sz al pa) 30 = al.
Proof.
  intros H. rewrite Z.testbit_eqb by lia. unfold hdr.
  replace (sz + (if al then 2 ^ 30 else 0) + (if pa then 2 ^ 31 else 0))
    with (sz + ((if al then 1 else 0) + (if pa then 2 else 0)) * 2 ^ 30)
    by (destruct al, pa; lia).
  rewrite Z.div_add by lia. rewrite (Z.div_small sz) by lia.
  destruct al, pa; reflexivity.
Qed.

Lemma testbit_hdr_31 sz al pa :
  0 <= sz < 2 ^ 30 -> Z.testbit (hdr sz al pa) 31 = pa.
Proof.
  intros H. rewrite Z.testbit_eqb by lia. unfold hdr.
  destruct al, pa.
  - replace (sz + 2 ^ 30 + 2 ^ 31) with (sz + 2 ^ 30 + 1 * 2 ^ 31) by lia.
    rewrite Z.div_add by lia. rewrite Z.div_small by lia. reflexivity.
  - rewrite Z.add_0_r. rewrite Z.div_small by lia. reflexivity.
  - replace (sz + 0 + 2 ^ 31) with (sz + 1 * 2 ^ 31) by lia.
    rewrite Z.div_add by lia. rewrite Z.div_small by lia. reflexivity.
  - rewrite !Z.add_0_r. rewrite Z.div_small by lia. reflexivity.
Qed.

(** A single-bit mask selects that bit. *)
Lemma land_pow2_eqb (w n : Z) :
  0 <= n -> (Z.land w (2 ^ n) =? 0) = negb (Z.testbit w n).
Proof.
  intros Hn. destruct (Z.testbit w n) eqn:E; simpl.
  - apply Z.eqb_neq. intros H0.
    assert (Z.testbit (Z.land w (2 ^ n)) n = true)
      by (rewrite Z.land_spec, E, Z.pow2_bits_true by lia; reflexivity).
    rewrite H0, Z.bits_0 in H. discriminate.
  - apply Z.eqb_eq. apply Z.bits_inj'. intros m Hm.
    rewrite Z.land_spec, Z.bits_0, Z.pow2_bits_eqb by lia.
    destruct (Z.eqb_spec n m) as [->|]; [rewrite E|]; auto using andb_false_r.
Qed.

Lemma hdr_free sz al pa :
  0 <= sz < 2 ^ 30 -> (Z.land (hdr sz al pa) 0x40000000 =? 0) = negb al.
Proof.
  intros H. change 0x40000000 with (2 ^ 30).
  rewrite land_pow2_eqb by lia. rewrite testbit_hdr_30 by exact H.
  reflexivity.
Qed.

Lemma hdr_prev_free sz al pa :
  0 <= sz < 2 ^ 30 -> (Z.land (hdr sz al pa) 0x80000000 =? 0) = negb pa.
Proof.
  intros H. change 0x80000000 with (2 ^ 31).
  rewrite land_pow2_eqb by lia. rewrite testbit_hdr_31 by exact H.
  reflexivity.
Qed.

(** Every 32-bit word is the header of its three fields. *)
Lemma word_is_hdr (w : Z) :
  0 <= w < 2 ^ 32 ->
  w = hdr (w mod 2 ^ 30) (Z.testbit w 30) (Z.testbit w 31).
Proof.
  intros H. unfold hdr. rewrite !Z.testbit_eqb by lia.
  pose proof (Z.div_mod w (2 ^ 30) ltac:(lia)) as D.
  pose proof (Z.mod_pos_bound w (2 ^ 30) ltac:(lia)) as B.
  assert (Hq : 0 <= w / 2 ^ 30 < 4).
  { split; [apply Z.div_pos; lia|apply Z.div_lt_upper_bound; lia]. }
  assert (Hq2 : w / 2 ^ 31 = w / 2 ^ 30 / 2).
  { rewrite Z.div_div by lia. reflexivity. }
  rewrite Hq2.
  assert (Hc : w / 2 ^ 30 = 0 \/ w / 2 ^ 30 = 1 \/ w / 2 ^ 30 = 2 \/
               w / 2 ^ 30 = 3) by lia.
  destruct Hc as [E|[E|[E|E]]]; rewrite E in *; simpl; lia.
Qed.

(** Equality of 32-bit words field by field. *)
Lemma hdr_eq_fields (w sz : Z) (al pa : bool) :
  0 <= w < 2 ^ 32 -> w mod 2 ^ 30 = sz ->
  Z.testbit w 30 = al -> Z.testbit w 31 = pa ->
  w = hdr sz al pa.
Proof. intros H <- <- <-. apply word_is_hdr. exact H. Qed.

Lemma lor_range32 (a b : Z) :
  0 <= a < 2 ^ 32 -> 0 <= b < 2 ^ 32 -> 0 <= Z.lor a b < 2 ^ 32.
Proof.
  intros Ha Hb. split; [apply Z.lor_nonneg; lia|].
  assert (E : Z.lor a b = Z.lor a b mod 2 ^ 32).
  { rewrite <- Z.land_ones by lia. rewrite Z.land_lor_distr_l.
    rewrite !Z.land_ones by lia. rewrite !Z.mod_small by lia. reflexivity. }
  rewrite E. apply Z.mod_pos_bound. lia.
Qed.

Lemma land_range32 (a b : Z) :
  0 <= a < 2 ^ 32 -> 0 <= b -> 0 <= Z.land a b < 2 ^ 32.
Proof.
  intros Ha Hb. split; [apply Z.land_nonneg; lia|].
  assert (E : Z.land a b = Z.land a b mod 2 ^ 32).
  { rewrite <- Z.land_ones by lia. rewrite <- Z.land_assoc.
    rewrite (Z.land_comm b), Z.land_assoc, Z.land_ones by lia.
    rewrite (Z.mod_small a) by lia. reflexivity. }
  rewrite E. apply Z.mod_pos_bound. lia.
Qed.

Lemma mod30_lor (a c : Z) :
  Z.land c (Z.ones 30) = 0 -> Z.lor a c mod 2 ^ 30 = a mod 2 ^ 30.
Proof.
  intros Hc. rewrite <- !Z.land_ones by lia.
  rewrite Z.land_lor_distr_l, Hc, Z.lor_0_r. reflexivity.
Qed.

Lemma mod30_land (a c : Z) :
  Z.land c (Z.ones 30) = Z.ones 30 -> Z.land a c mod 2 ^ 30 = a mod 2 ^ 30.
Proof.
  intros Hc. rewrite <- !Z.land_ones by lia.
  rewrite <- Z.land_assoc, Hc. reflexivity.
Qed.

(** The four marks of the source on an arbitrary 32-bit word. *)
Lemma mark_free_allocated (w : Z) :
  0 <= w < 2 ^ 32 ->
  Z.land (Z.lor w 0x80000000) 0xBFFFFFFF = hdr (w mod 2 ^ 30) false true.
Proof.
  intros H. apply hdr_eq_fields.
  - apply land_range32; [apply lor_range32|]; lia.
  - rewrite mod30_land by reflexivity. apply mod30_lor. reflexivity.
  - rewrite Z.land_spec. apply andb_false_r.
  - rewrite Z.land_spec, Z.lor_spec. simpl. rewrite orb_true_r. reflexivity.
Qed.

Lemma mark_free_free (w : Z) :
  0 <= w < 2 ^ 32 ->
  Z.land w 0x3FFFFFFF = hdr (w mod 2 ^ 30) false false.
Proof.
  intros H. apply hdr_eq_fields.
  - apply land_range32; lia.
  - apply mod30_land. reflexivity.
  - rewrite Z.land_spec. apply andb_false_r.
  - rewrite Z.land_spec. apply andb_false_r.
Qed.

Lemma mark_allo_allocated (w : Z) :
  0 <= w < 2 ^ 32 ->
  Z.lor w 0xC0000000 = hdr (w mod 2 ^ 30) true true.
Proof.
  intros H. apply hdr_eq_fields.
  - apply lor_range32; lia.
  - apply mod30_lor. reflexivity.
  - rewrite Z.lor_spec. apply orb_true_r.
  - rewrite Z.lor_spec. apply orb_true_r.
Qed.

Lemma mark_allo_free (w : Z) :
  0 <= w < 2 ^ 32 ->
  Z.land (Z.lor w 0x40000000) 0x7FFFFFFF = hdr (w mod 2 ^ 30) true false.
Proof.
  intros H. apply hdr_eq_fields.
  - apply land_range32; [apply lor_range32|]; lia.
  - rewrite mod30_land by reflexivity. apply mod30_lor. reflexivity.
  - rewrite Z.land_spec, Z.lor_spec. simpl. rewrite orb_true_r. reflexivity.
  - rewrite Z.land_spec. apply andb_false_r.
Qed.

Lemma clear_prev_alloc (w : Z) :
  0 <= w < 2 ^ 32 ->
  Z.land w 0x7FFFFFFF = hdr (w mod 2 ^ 30) (Z.testbit w 30) false.
Proof.
  intros H. apply hdr_eq_fields.
  - apply land_range32; lia.
  - apply mod30_land. reflexivity.
  - rewrite Z.land_spec. simpl. apply andb_true_r.
  - rewrite Z.land_spec. apply andb_false_r.
Qed.

(** ** The calls of the source, one equation each *)

Lemma block_size_eq b h :
  0 <= b < brk h -> block_size b h = Ok (size_at h b, h).
Proof. intros H. unfold block_size, bind. rewrite load_eq by exact H. reflexivity. Qed.

Lemma block_free_eq b h :
  0 <= b < brk h -> block_free b h = Ok (free_at h b, h).
Proof. intros H. unfold block_free, bind. rewrite load_eq by exact H. reflexivity. Qed.

Lemma block_prev_free_eq b h :
  0 <= b < brk h -> block_prev_free b h = Ok (prev_free_at h b, h).
Proof.
  intros H. unfold block_prev_free, bind. rewrite load_eq by exact H.
  reflexivity.
Qed.

Lemma block_pred_eq b h :
  0 <= b + 1 < brk h -> block_pred b h = Ok (ptr_of (word h (b + 1)), h).
Proof. intros H. unfold block_pred, bind. rewrite load_eq by exact H. reflexivity. Qed.

Lemma block_succ_eq b h :
  0 <= b + 2 < brk h -> block_succ b h = Ok (ptr_of (word h (b + 2)), h).
Proof. intros H. unfold block_succ, bind. rewrite load_eq by exact H. reflexivity. Qed.

Lemma block_left_eq b h :
  0 <= b + 3 < brk h -> block_left b h = Ok (ptr_of (word h (b + 3)), h).
Proof. intros H. unfold block_left, bind. rewrite load_eq by exact H. reflexivity. Qed.

Lemma block_right_eq b h :
  0 <= b + 4 < brk h -> block_right b h = Ok (ptr_of (word h (b + 4)), h).
Proof. intros H. unfold block_right, bind. rewrite load_eq by exact H. reflexivity. Qed.

Lemma set_size_eq b v h :
  0 <= b < brk h -> set_size b v h = Ok (tt, upd b v h).
Proof. apply store_eq. Qed.

Lemma set_ptr_eq b p s h :
  0 <= b + 1 -> b + 2 < brk h ->
  set_ptr b p s h
  = Ok (tt, upd (b + 2) (offset_of s) (upd (b + 1) (offset_of p) h)).
Proof.
  intros H1 H2. unfold set_ptr, set_val, bind.
  rewrite store_eq by lia. rewrite store_eq by (rewrite brk_upd; lia).
  reflexivity.
Qed.

Lemma set_chd_ptr_eq b l r h :
  0 <= b + 3 -> b + 4 < brk h ->
  set_chd_ptr b l r h
  = Ok (tt, upd (b + 4) (offset_of r) (upd (b + 3) (offset_of l) h)).
Proof.
  intros H1 H2. unfold set_chd_ptr, set_val, bind.
  rewrite store_eq by lia. rewrite store_eq by (rewrite brk_upd; lia).
  reflexivity.
Qed.

Lemma cmp_size_eq a b h :
  0 <= a < brk h -> 0 <= b < brk h ->
  cmp_size a b h = Ok (cmp_uint (size_at h a) (size_at h b), h).
Proof.
  intros Ha Hb. unfold cmp_size, bind.
  rewrite block_size_eq by exact Ha. rewrite block_size_eq by exact Hb.
  reflexivity.
Qed.

Lemma seg_get_eq i p h :
  0 <= i -> seg_list h !! Z.to_nat i = Some p -> seg_get i h = Ok (p, h).
Proof.
  intros Hi Hp. unfold seg_get. rewrite decide_True by exact Hi.
  rewrite Hp. reflexivity.
Qed.

Lemma seg_set_eq i p h :
  0 <= i < Z.of_nat (length (seg_list h)) ->
  seg_set i p h
  = Ok (tt, set_seg_list (<[Z.to_nat i := p]> (seg_list h)) h).
Proof. intros Hi. unfold seg_set. rewrite decide_True by exact Hi. reflexivity. Qed.

Lemma block_next_eq b h :
  0 <= b < brk h ->
  block_next b h
  = Ok (if free_at h b then b + size_at h b + 2 else b + size_at h b + 1, h).
Proof.
  intros H. unfold block_next, bind. rewrite block_free_eq by exact H.
  rewrite block_size_eq by exact H. reflexivity.
Qed.

Lemma block_prev_eq b h :
  0 <= b - 1 < brk h ->
  block_prev b h = Ok (b - size_at h (b - 1) - 2, h).
Proof.
  intros H. unfold block_prev, bind. rewrite block_size_eq by exact H.
  reflexivity.
Qed.

Lemma ptr_of_offset_of p : ptr_ok p -> ptr_of (offset_of p) = p.
Proof.
  destruct p as [a|]; simpl; [|reflexivity]. intros H.
  unfold ptr_of, u32. rewrite Z.mod_small by lia.
  destruct (Z.eqb_spec a 0); [lia|reflexivity].
Qed.

Lemma offset_of_Some a : 0 < a < 2 ^ 32 -> offset_of (Some a) = a.
Proof. intros H. simpl. apply Z.mod_small. lia. Qed.

Lemma offset_of_range p : 0 <= offset_of p < 2 ^ 32.
Proof.
  destruct p; simpl; [apply Z.mod_pos_bound|]; lia.
Qed.

Lemma size_at_range h b : 0 <= size_at h b < 2 ^ 30.
Proof.
  unfold size_at. change 0x3FFFFFFF with (Z.ones 30).
  rewrite Z.land_ones by lia. apply Z.mod_pos_bound. lia.
Qed.

(** ** Outcomes *)

Lemma outcome_Ok {A} (a : A) h (short : Prop) (Q : A -> heap -> Prop) :
  Q a h -> outcome (Ok (a, h)) short Q.
Proof. intros H. exact H. Qed.

Lemma outcome_bind {A B} (m : M A) (k : A -> M B) h
  (short short' : Prop) (Q1 : A -> heap -> Prop) (Q : B -> heap -> Prop) :
  outcome (m h) short Q1 ->
  (short -> short') ->
  (forall a h1, Q1 a h1 -> outcome (k a h1) short' Q) ->
  outcome (bind m k h) short' Q.
Proof.
  unfold bind. destruct (m h) as [[a h1]| |]; simpl; auto.
Qed.

Lemma outcome_weaken {A} (r : res (A * heap)) (s s' : Prop)
  (Q Q' : A -> heap -> Prop) :
  outcome r s Q -> (s -> s') -> (forall a h, Q a h -> Q' a h) ->
  outcome r s' Q'.
Proof. destruct r as [[a h]| |]; simpl; auto. Qed.

Lemma outcome_enough {A} (r : res (A * heap)) (s : Prop)
  (Q : A -> heap -> Prop) :
  outcome r s Q -> ~ s -> exists a h, r = Ok (a, h) /\ Q a h.
Proof.
  destruct r as [[a h]| |]; simpl; intros H Hs.
  - exists a, h. split; [reflexivity|exact H].
  - contradiction.
  - contradiction.
Qed.

Lemma outcome_inv {A} (r : res (A * heap)) (s : Prop)
  (Q : A -> heap -> Prop) a h :
  outcome r s Q -> r = Ok (a, h) -> Q a h.
Proof. intros H ->. exact H. Qed.

(** ** Chains and trees under writes elsewhere *)

Lemma same_cells_refl h bs : same_cells h h bs.
Proof. intros b _ j _. reflexivity. Qed.

Lemma same_cells_trans h1 h2 h3 bs :
  same_cells h1 h2 bs -> same_cells h2 h3 bs -> same_cells h1 h3 bs.
Proof. intros H1 H2 b Hb j Hj. rewrite H2, H1 by assumption. reflexivity. Qed.

Lemma same_cells_sub h h' bs bs' :
  same_cells h h' bs -> bs' ⊆ bs -> same_cells h h' bs'.
Proof. intros H Hs b Hb. apply H, Hs, Hb. Qed.

Lemma same_cells_app h h' l1 l2 :
  same_cells h h' (l1 ++ l2) <-> same_cells h h' l1 /\ same_cells h h' l2.
Proof.
  split.
  - intros H. split; intros b Hb; apply H; apply elem_of_app; auto.
  - intros [H1 H2] b Hb. apply elem_of_app in Hb as [Hb|Hb]; auto.
Qed.

Lemma same_cells_cons h h' b l :
  same_cells h h' (b :: l) <-> same_cells h h' [b] /\ same_cells h h' l.
Proof. apply (same_cells_app h h' [b] l). Qed.

Lemma same_cells_size h h' bs b :
  same_cells h h' bs -> b ∈ bs -> size_at h' b = size_at h b.
Proof.
  intros H Hb. unfold size_at. specialize (H b Hb 0 ltac:(lia)).
  rewrite Z.add_0_r in H. rewrite H. reflexivity.
Qed.

Lemma dseg_frame h h' prev l next :
  same_cells h h' l -> dseg h prev l next -> dseg h' prev l next.
Proof.
  revert prev. induction l as [|b l IH]; intros prev Hs; simpl; [trivial|].
  intros (H1 & H2 & H3).
  apply same_cells_cons in Hs as [Hb Hl].
  assert (Hin : b ∈ [b]) by (apply list_elem_of_singleton; reflexivity).
  rewrite (Hb b Hin 1), (Hb b Hin 2) by lia. auto.
Qed.

Lemma Forall_size_frame h h' l k :
  same_cells h h' l ->
  Forall (fun x => size_at h x = k) l -> Forall (fun x => size_at h' x = k) l.
Proof.
  intros Hs. rewrite !Forall_forall. intros H x Hx.
  rewrite (same_cells_size h h' l) by assumption. apply H, Hx.
Qed.

Lemma small_rep_frame h h' i l :
  same_cells h h' l -> small_rep h i l -> small_rep h' i l.
Proof.
  intros Hs [H1 H2]. split.
  - eapply dseg_frame; eassumption.
  - eapply Forall_size_frame; eassumption.
Qed.

Lemma tree_rep_frame h h' t :
  same_cells h h' (tblocks t) -> tree_rep h t -> tree_rep h' t.
Proof.
  induction t as [|l IHl k b ring r IHr]; cbn [tree_rep tblocks]; [trivial|].
  intros Hs (Hd & Hk & Hl & Hr & Htl & Htr).
  apply same_cells_app in Hs as [Hsl Hs].
  apply (same_cells_app h h' (b :: ring) (tblocks r)) in Hs as [Hsb Hsr].
  assert (Hin : b ∈ b :: ring) by (left; reflexivity).
  rewrite (Hsb b Hin 3), (Hsb b Hin 4) by lia.
  refine (conj _ (conj _ (conj Hl (conj Hr (conj _ _))))); auto.
  - apply (dseg_frame h h' None (b :: ring) None Hsb). exact Hd.
  - apply (Forall_size_frame h h' (b :: ring) k Hsb). exact Hk.
Qed.

Lemma dseg_app h prev l1 l2 next :
  dseg h prev (l1 ++ l2) next <->
  dseg h prev l1 (head_or l2 next) /\ dseg h (last_or l1 prev) l2 next.
Proof.
  revert prev. induction l1 as [|b l1 IH]; intros prev; simpl.
  - unfold last_or. simpl. prop.
  - rewrite IH.
    assert (E1 : head_or (l1 ++ l2) next = head_or l1 (head_or l2 next))
      by (destruct l1; reflexivity).
    assert (E2 : last_or l1 (Some b) = last_or (b :: l1) prev).
    { unfold last_or. rewrite last_cons. destruct (last l1); reflexivity. }
    rewrite E1, E2. prop.
Qed.

(** ** Abstract trees *)

Lemma tkeys_tput k b t x : x ∈ tkeys (tput k b t) -> x = k \/ x ∈ tkeys t.
Proof.
  induction t as [|l IHl k' b' ring r IHr]; simpl.
  - intros H. apply list_elem_of_singleton in H. auto.
  - destruct (k >? k'); [|destruct (k <? k')]; simpl;
      rewrite !elem_of_app, !elem_of_cons; prop.
Qed.

Lemma bst_tput k b t : bst t -> bst (tput k b t).
Proof.
  induction t as [|l IHl k' b' ring r IHr]; simpl.
  - intros _. repeat split; constructor.
  - intros (Hl & Hr & Bl & Br).
    destruct (k >? k') eqn:E1; [|destruct (k <? k') eqn:E2]; simpl.
    + repeat split; auto. apply Forall_forall. intros x Hx.
      apply tkeys_tput in Hx as [->|Hx]; [lia|].
      rewrite Forall_forall in Hr. auto.
    + repeat split; auto. apply Forall_forall. intros x Hx.
      apply tkeys_tput in Hx as [->|Hx]; [lia|].
      rewrite Forall_forall in Hl. auto.
    + repeat split; auto.
Qed.

Lemma tblocks_tput k b t : tblocks (tput k b t) ≡ₚ b :: tblocks t.
Proof.
  induction t as [|l IHl k' b' ring r IHr]; cbn [tput tblocks];
    [reflexivity|].
  destruct (k >? k'); [|destruct (k <? k')]; cbn [tblocks].
  - rewrite IHr. rewrite !(app_assoc (tblocks l)).
    symmetry. apply Permutation_middle.
  - rewrite IHl. reflexivity.
  - symmetry. apply (Permutation_middle (tblocks l)).
Qed.

Lemma theight_tput k b t : (theight (tput k b t) <= S (theight t))%nat.
Proof.
  induction t as [|l IHl k' b' ring r IHr]; simpl; [lia|].
  destruct (k >? k'); [|destruct (k <? k')]; simpl; lia.
Qed.

(** ** Blocks far from one another *)

Lemma far_sym c c' : far c c' -> far c' c.
Proof. unfold far. lia. Qed.

Lemma apart_app l1 l2 :
  apart (l1 ++ l2) <->
  apart l1 /\ apart l2 /\ (forall c c', c ∈ l1 -> c' ∈ l2 -> far c c').
Proof.
  induction l1 as [|a l1 IH]; simpl.
  - split; [intros H; repeat split; auto; intros c c' Hc; inversion Hc|prop].
  - rewrite Forall_app, IH. split.
    + intros ((Ha1 & Ha2) & H1 & H2 & H3). repeat split; auto.
      intros c c' Hc Hc'. apply elem_of_cons in Hc as [->|Hc]; auto.
      rewrite Forall_forall in Ha2. auto.
    + intros ((Ha1 & H1) & H2 & H3). repeat split; auto.
      * apply Forall_forall. intros c' Hc'. apply H3; [left|]; auto.
      * intros c c' Hc Hc'. apply H3; [right|]; auto.
Qed.

Lemma apart_cons c l : apart (c :: l) <-> Forall (far c) l /\ apart l.
Proof. reflexivity. Qed.

Lemma apart_far l c c' : apart l -> c ∈ l -> c' ∈ l -> c = c' \/ far c c'.
Proof.
  induction l as [|a l IH]; intros Ha Hc Hc'; [inversion Hc|].
  destruct Ha as [Hf Ha]. rewrite Forall_forall in Hf.
  apply elem_of_cons in Hc as [->|Hc]; apply elem_of_cons in Hc' as [->|Hc'];
    auto using far_sym.
Qed.

Lemma apart_perm l l' : l ≡ₚ l' -> apart l -> apart l'.
Proof.
  induction 1 as [|x l l' HP IH|x y l|l l' l'' HP1 IH1 HP2 IH2]; simpl; auto.
  - intros [Hf Ha]. split; [rewrite <- HP; exact Hf|auto].
  - intros [Hy [Hx Ha]]. apply Forall_cons in Hy as [Hyx Hy].
    repeat split; auto. constructor; auto using far_sym.
Qed.

#[local] Instance apart_proper : Proper ((≡ₚ) ==> iff) apart.
Proof. intros l l' HP. split; apply apart_perm; [|symmetry]; exact HP. Qed.

Lemma apart_NoDup l : apart l -> NoDup l.
Proof.
  induction l as [|a l IH]; [constructor|]. intros [Hf Ha].
  constructor; auto. intros Hin. rewrite Forall_forall in Hf.
  specialize (Hf a Hin). unfold far in Hf. lia.
Qed.

Lemma spaced_intro h l :
  apart l -> Forall (fun b => 0 < b /\ b + 4 < brk h) l -> brk h <= 2 ^ 30 ->
  spaced h l.
Proof. intros. split; [|split]; assumption. Qed.

Lemma spaced_perm h l l' : l ≡ₚ l' -> spaced h l -> spaced h l'.
Proof.
  intros HP (Ha & Hb & Hk). repeat split; [| |exact Hk];
    rewrite <- HP; assumption.
Qed.

#[local] Instance spaced_proper h : Proper ((≡ₚ) ==> iff) (spaced h).
Proof. intros l l' HP. split; apply spaced_perm; [|symmetry]; exact HP. Qed.

Lemma spaced_app h l1 l2 :
  spaced h (l1 ++ l2) -> spaced h l1 /\ spaced h l2.
Proof.
  intros (Ha & Hb & Hk). apply apart_app in Ha as (H1 & H2 & _).
  apply Forall_app in Hb as [Hb1 Hb2]. repeat split; assumption.
Qed.

Lemma spaced_cons h c l :
  spaced h (c :: l) -> (0 < c /\ c + 4 < brk h) /\ Forall (far c) l /\ spaced h l.
Proof.
  intros ([Hf Ha] & Hb & Hk). apply Forall_cons in Hb as [Hc Hb].
  repeat split; try assumption; lia.
Qed.

Lemma spaced_in h l c : spaced h l -> c ∈ l -> 0 < c /\ c + 4 < brk h.
Proof. intros (_ & Hb & _) Hc. rewrite Forall_forall in Hb. auto. Qed.

Lemma spaced_brk h l : spaced h l -> brk h <= 2 ^ 30.
Proof. intros (_ & _ & Hk). exact Hk. Qed.

Lemma spaced_sub h l l' : spaced h l -> sublist l' l -> spaced h l'.
Proof.
  intros (Ha & Hb & Hk) Hs. repeat split; [| |exact Hk].
  - clear Hb. induction Hs as [|x l1 l2 Hs IH|x l1 l2 Hs IH]; simpl; auto.
    + destruct Ha as [Hf Ha]. split; auto.
      eapply Forall_impl; [|intros y Hy; exact Hy].
      apply Forall_forall. intros y Hy. rewrite Forall_forall in Hf.
      apply Hf. eapply elem_of_sublist; eassumption.
    + destruct Ha as [_ Ha]. auto.
  - apply Forall_forall. intros x Hx. rewrite Forall_forall in Hb.
    apply Hb. eapply elem_of_sublist; eassumption.
Qed.

Lemma spaced_same_brk h h' l : brk h' = brk h -> spaced h l -> spaced h' l.
Proof. intros E (Ha & Hb & Hk). rewrite <- E in Hb, Hk. repeat split; auto. Qed.

(** Writes far from a block leave its five words alone. *)
Lemma same_cells_upd h a v bs :
  (forall c, c ∈ bs -> ~ (c <= a <= c + 4)) -> same_cells h (upd a v h) bs.
Proof.
  intros H c Hc j Hj. apply word_upd_ne. specialize (H c Hc). lia.
Qed.

Lemma unchanged_same_cells n bs h h' bs' :
  n <= 4 ->
  unchanged_outside n bs h h' ->
  (forall c c', c ∈ bs -> c' ∈ bs' -> far c c') ->
  same_cells h h' bs'.
Proof.
  intros Hn Hu Hf c' Hc' j Hj. apply Hu. intros c Hc.
  specialize (Hf c c' Hc Hc'). unfold far in Hf. lia.
Qed.

Lemma unchanged_refl n bs h : unchanged_outside n bs h h.
Proof. intros x _. reflexivity. Qed.

Lemma unchanged_trans n bs h1 h2 h3 :
  unchanged_outside n bs h1 h2 -> unchanged_outside n bs h2 h3 ->
  unchanged_outside n bs h1 h3.
Proof. intros H1 H2 x Hx. rewrite H2, H1 by assumption. reflexivity. Qed.

Lemma unchanged_mono n n' bs bs' h h' :
  unchanged_outside n bs h h' -> n <= n' -> bs ⊆ bs' ->
  unchanged_outside n' bs' h h'.
Proof.
  intros H Hn Hs x Hx. apply H. intros c Hc Hr.
  apply (Hx c (Hs c Hc)). lia.
Qed.

Lemma unchanged_upd n bs h a v c :
  c ∈ bs -> c < a <= c + n -> unchanged_outside n bs h (upd a v h).
Proof.
  intros Hc Ha x Hx. apply word_upd_ne. intros ->. apply (Hx c Hc Ha).
Qed.

Lemma same_globals_refl h : same_globals h h.
Proof. repeat split. Qed.

Lemma same_globals_trans h1 h2 h3 :
  same_globals h1 h2 -> same_globals h2 h3 -> same_globals h1 h3.
Proof. unfold same_globals. intros (-> & -> & ->) (-> & -> & ->). auto. Qed.

Lemma same_globals_upd h a v : same_globals h (upd a v h).
Proof. repeat split. Qed.

(** ** Stepping through the binds of an embedded function *)

Lemma bind_assoc {A B C} (m : M A) (f : A -> M B) (g : B -> M C) h :
  bind (bind m f) g h = bind m (fun x => bind (f x) g) h.
Proof. unfold bind. destruct (m h) as [[a h']| |]; reflexivity. Qed.

Lemma bind_ret {A B} (a : A) (k : A -> M B) h : bind (ret a) k h = k a h.
Proof. reflexivity. Qed.

Ltac bnd := repeat rewrite brk_upd; lia.

Ltac step :=
  lazymatch goal with
  | |- context [bind ?m ?k ?h] =>
    lazymatch m with
    | bind _ _ => rewrite (bind_assoc _ _ k h)
    | ret ?a => rewrite (bind_ret a k h)
    | load ?a => rewrite (bind_Ok m k h _ _ (load_eq a h ltac:(bnd)))
    | store ?a ?v => rewrite (bind_Ok m k h _ _ (store_eq a v h ltac:(bnd)))
    | block_size ?b =>
        rewrite (bind_Ok m k h _ _ (block_size_eq b h ltac:(bnd)))
    | block_free ?b =>
        rewrite (bind_Ok m k h _ _ (block_free_eq b h ltac:(bnd)))
    | block_prev_free ?b =>
        rewrite (bind_Ok m k h _ _ (block_prev_free_eq b h ltac:(bnd)))
    | block_pred ?b =>
        rewrite (bind_Ok m k h _ _ (block_pred_eq b h ltac:(bnd)))
    | block_succ ?b =>
        rewrite (bind_Ok m k h _ _ (block_succ_eq b h ltac:(bnd)))
    | block_left ?b =>
        rewrite (bind_Ok m k h _ _ (block_left_eq b h ltac:(bnd)))
    | block_right ?b =>
        rewrite (bind_Ok m k h _ _ (block_right_eq b h ltac:(bnd)))
    | block_next ?b =>
        rewrite (bind_Ok m k h _ _ (block_next_eq b h ltac:(bnd)))
    | block_prev ?b =>
        rewrite (bind_Ok m k h _ _ (block_prev_eq b h ltac:(bnd)))
    | set_size ?b ?v =>
        rewrite (bind_Ok m k h _ _ (set_size_eq b v h ltac:(bnd)))
    | set_ptr ?b ?p ?s =>
        rewrite (bind_Ok m k h _ _
                   (set_ptr_eq b p s h ltac:(bnd) ltac:(bnd)))
    | set_chd_ptr ?b ?p ?s =>
        rewrite (bind_Ok m k h _ _
                   (set_chd_ptr_eq b p s h ltac:(bnd) ltac:(bnd)))
    | cmp_size ?a ?b =>
        rewrite (bind_Ok m k h _ _
                   (cmp_size_eq a b h ltac:(bnd) ltac:(bnd)))
    | root_get => change (bind root_get k h) with (k (seg_root h) h)
    | root_set ?p =>
        change (bind (root_set p) k h) with (k tt (set_seg_root p h))
    end; cbv beta
  end.

(** The last call of a sequence, applied to the heap directly. *)
Ltac last_step :=
  lazymatch goal with
  | |- context [set_ptr ?b ?p ?s ?h] =>
      rewrite (set_ptr_eq b p s h ltac:(bnd) ltac:(bnd))
  | |- context [set_chd_ptr ?b ?p ?s ?h] =>
      rewrite (set_chd_ptr_eq b p s h ltac:(bnd) ltac:(bnd))
  | |- context [set_size ?b ?v ?h] =>
      rewrite (set_size_eq b v h ltac:(bnd))
  | |- context [store ?a ?v ?h] =>
      rewrite (store_eq a v h ltac:(bnd))
  | |- context [block_left ?b ?h] =>
      rewrite (block_left_eq b h ltac:(bnd))
  | |- context [block_right ?b ?h] =>
      rewrite (block_right_eq b h ltac:(bnd))
  | |- context [ret ?a ?h] => change (ret a h) with (Ok (a, h))
  end.

Ltac wsimp :=
  repeat first
    [ rewrite word_upd_eq
    | rewrite word_upd_ne by lia
    | rewrite size_at_upd_ne by lia
    | rewrite word_set_seg_list
    | rewrite word_set_seg_root ].

(** ** Pointers of a well-spaced tree *)

Lemma ptr_ok_in h bs c : spaced h bs -> c ∈ bs -> ptr_ok (Some c).
Proof.
  intros Hs Hc. pose proof (spaced_in h bs c Hs Hc).
  pose proof (spaced_brk h bs Hs). simpl. lia.
Qed.

Lemma troot_in t c : troot t = Some c -> c ∈ tblocks t.
Proof.
  destruct t as [|l k b ring r]; simpl; [discriminate|].
  intros [= ->]. apply elem_of_app. right. left.
Qed.

Lemma troot_ok h t : spaced h (tblocks t) -> ptr_ok (troot t).
Proof.
  intros Hs. destruct (troot t) as [c|] eqn:E; [|exact I].
  eapply ptr_ok_in; [exact Hs|]. apply troot_in. exact E.
Qed.

Lemma head_or_ok h l : spaced h l -> ptr_ok (head_or l None).
Proof.
  intros Hs. destruct l as [|c l]; [exact I|].
  eapply ptr_ok_in; [exact Hs|left].
Qed.

(** ** Frames from a list of blocks that are far from one another *)

Lemma frame_same_cells U W X R h h' :
  apart U -> U ≡ₚ W ++ X ++ R ->
  unchanged_outside 4 W h h' -> same_cells h h' X.
Proof.
  intros Ha HP Hu. rewrite HP in Ha.
  apply apart_app in Ha as (_ & _ & Hc).
  eapply unchanged_same_cells; [|exact Hu|]; [lia|].
  intros c c' Hc1 Hc2. apply Hc; [exact Hc1|].
  apply elem_of_app. left. exact Hc2.
Qed.

Lemma far_of_perm U c X x :
  apart U -> U ≡ₚ c :: X -> x ∈ X -> far c x.
Proof.
  intros Ha HP Hx. rewrite HP in Ha. destruct Ha as [Hf _].
  rewrite Forall_forall in Hf. auto.
Qed.

Lemma far_of_perm_rest U c X R x :
  apart U -> U ≡ₚ c :: X ++ R -> x ∈ X -> far c x.
Proof.
  intros Ha HP Hx. eapply far_of_perm; [exact Ha|exact HP|].
  apply elem_of_app. left. exact Hx.
Qed.

Lemma cmp_uint_gtb a b : (cmp_uint a b >? 0) = (a >? b).
Proof.
  unfold cmp_uint. destruct (a >? b) eqn:E; [reflexivity|].
  destruct (a <? b); reflexivity.
Qed.

Lemma cmp_uint_ltb a b : (cmp_uint a b <? 0) = (a <? b).
Proof.
  unfold cmp_uint. destruct (a >? b) eqn:E.
  - symmetry. apply Z.ltb_ge. apply Z.gtb_lt in E. lia.
  - destruct (a <? b); reflexivity.
Qed.

(** The chain words and the sizes of a list of blocks under a write to a
    child word of a block. *)
Lemma dseg_upd_child h a v c prev l next :
  (forall x, x ∈ l -> x = c \/ far c x) -> c + 3 <= a <= c + 4 ->
  dseg h prev l next -> dseg (upd a v h) prev l next.
Proof.
  intros Hf Ha. revert prev.
  induction l as [|x l IH]; intros prev; simpl; [trivial|].
  intros (H1 & H2 & H3).
  assert (Hx : x = c \/ far c x) by (apply Hf; left).
  rewrite !word_upd_ne by (unfold far in Hx; lia).
  repeat split; auto. apply IH; auto. intros y Hy. apply Hf. right. exact Hy.
Qed.

Lemma sizes_upd h a v l k :
  (forall x, x ∈ l -> x <> a) ->
  Forall (fun x => size_at h x = k) l ->
  Forall (fun x => size_at (upd a v h) x = k) l.
Proof.
  intros Hne. rewrite !Forall_forall. intros H x Hx.
  rewrite size_at_upd_ne by (apply Hne, Hx). apply H, Hx.
Qed.

(** Writing the two child words of a chain head. *)
Lemma tree_rep_set_children h l k b ring r v3 v4 :
  dseg h None (b :: ring) None ->
  Forall (fun x => size_at h x = k) (b :: ring) ->
  tree_rep h l -> tree_rep h r ->
  (forall c, c ∈ ring ++ tblocks l ++ tblocks r -> far b c) ->
  v3 = offset_of (troot l) -> v4 = offset_of (troot r) ->
  tree_rep (upd (b + 4) v4 (upd (b + 3) v3 h)) (Node l k b ring r).
Proof.
  intros Hd Hk Hl Hr Hf -> ->. cbn [tree_rep].
  assert (Hring : forall x, x ∈ b :: ring -> x = b \/ far b x).
  { intros x Hx. apply elem_of_cons in Hx as [->|Hx]; [left; reflexivity|].
    right. apply Hf. apply elem_of_app. left. exact Hx. }
  assert (Hne : forall a, b + 3 <= a <= b + 4 ->
                forall x, x ∈ b :: ring -> x <> a).
  { intros a Ha x Hx. destruct (Hring x Hx) as [->|F]; unfold far in *; lia. }
  assert (Hcells : forall a v h0, b + 3 <= a <= b + 4 ->
            same_cells h0 (upd a v h0) (tblocks l ++ tblocks r)).
  { intros a v h0 Ha. apply same_cells_upd. intros c Hc.
    assert (F : far b c) by (apply Hf; apply elem_of_app; right; exact Hc).
    unfold far in F. lia. }
  refine (conj _ (conj _ (conj _ (conj _ (conj _ _))))).
  - apply dseg_upd_child with (c := b); [exact Hring|lia|].
    apply dseg_upd_child with (c := b); [exact Hring|lia|]. exact Hd.
  - apply sizes_upd; [apply Hne; lia|]. apply sizes_upd; [apply Hne; lia|].
    exact Hk.
  - rewrite word_upd_ne by lia. apply word_upd_eq.
  - apply word_upd_eq.
  - eapply tree_rep_frame; [|eapply tree_rep_frame; [|exact Hl]].
    + eapply same_cells_sub; [apply Hcells; lia|].
      intros x Hx. apply elem_of_app. left. exact Hx.
    + eapply same_cells_sub; [apply Hcells; lia|].
      intros x Hx. apply elem_of_app. left. exact Hx.
  - eapply tree_rep_frame; [|eapply tree_rep_frame; [|exact Hr]].
    + eapply same_cells_sub; [apply Hcells; lia|].
      intros x Hx. apply elem_of_app. right. exact Hx.
    + eapply same_cells_sub; [apply Hcells; lia|].
      intros x Hx. apply elem_of_app. right. exact Hx.
Qed.

(** ** [put] *)

Lemma put_spec fuel : forall t h b,
  tree_rep h t ->
  spaced h (b :: tblocks t) ->
  4 <= size_at h b ->
  outcome (put fuel b (troot t) h) (fuel <= theight t)%nat
    (fun r h' =>
       r = troot (tput (size_at h b) b t) /\
       tree_rep h' (tput (size_at h b) b t) /\
       same_globals h h' /\
       unchanged_outside 4 (b :: tblocks t) h h').
Proof.
  induction fuel as [|fuel IH]; intros t h b Ht Hs Hsz; [simpl; lia|].
  pose proof (spaced_brk _ _ Hs) as Hbrk.
  pose proof (spaced_in _ _ b Hs ltac:(left)) as Hb.
  destruct t as [|l k' b' ring r].
  - (* an empty tree: [block] becomes its only node *)
    cbn [put troot tput]. step. step.
    rewrite (proj2 (Z.geb_le _ _)) by (wsimp; lia).
    step. unfold ret.
    apply outcome_Ok. split; [reflexivity|]. split; [|split].
    + cbn [tree_rep dseg head_or troot offset_of]. wsimp.
      repeat split; auto. constructor; [|constructor]. wsimp. reflexivity.
    + repeat split.
    + intros x Hx. specialize (Hx b ltac:(left)). wsimp. reflexivity.
  - destruct Hs as (Hap & Hbd & _).
    cbn [tblocks] in Hap, Hbd.
    pose proof Ht as (Hd & Hk & Hl & Hr & Htl & Htr).
    assert (Hb' : 0 < b' /\ b' + 4 < brk h).
    { rewrite Forall_forall in Hbd. apply Hbd.
      right. apply elem_of_app. right. left. }
    assert (Hkb' : size_at h b' = k') by (inversion Hk; assumption).
    assert (Hsl : spaced h (tblocks l)).
    { apply spaced_intro; [| |lia].
      - apply apart_cons in Hap as [_ Hap].
        apply apart_app in Hap as (H & _). exact H.
      - apply Forall_cons in Hbd as [_ Hbd].
        apply Forall_app in Hbd as [H _]. exact H. }
    assert (Hsr : spaced h (tblocks r)).
    { apply spaced_intro; [| |lia].
      - apply apart_cons in Hap as [_ Hap].
        apply apart_app in Hap as (_ & Hap & _).
        apply (apart_app (b' :: ring)) in Hap as (_ & H & _). exact H.
      - apply Forall_cons in Hbd as [_ Hbd].
        apply Forall_app in Hbd as [_ Hbd].
        apply (Forall_app _ (b' :: ring)) in Hbd as [_ H]. exact H. }
    assert (Hrb : forall c, c ∈ b :: tblocks l ++ ring ++ tblocks r ->
                  far b' c).
    { intros c Hc. eapply far_of_perm; [exact Hap| |exact Hc].
      solve_Permutation. }
    assert (Fbb' : far b' b) by (apply Hrb; left).
    cbn [put troot]. step.
    rewrite cmp_uint_gtb, cmp_uint_ltb, Hkb'.
    cbn [tput].
    destruct (size_at h b >? k') eqn:E1; [|destruct (size_at h b <? k') eqn:E2].
    + (* larger: into the right subtree *)
      step. step.
      rewrite Hl, Hr, !ptr_of_offset_of by (eapply troot_ok; eassumption).
      eapply outcome_bind.
      * apply (IH r h b Htr); [|exact Hsz].
        apply spaced_intro; [| |lia].
        -- eapply apart_perm in Hap;
             [|instantiate (1 := (b :: tblocks r) ++ tblocks l ++ b' :: ring);
               solve_Permutation].
           apply apart_app in Hap as (H & _). exact H.
        -- constructor; [exact Hb|]. apply Hsr.
      * cbn [theight]. lia.
      * intros n h1 (-> & Hrep & (Hg1 & Hg2 & Hg3) & Hun).
        step. unfold ret. apply outcome_Ok.
        split; [reflexivity|]. split; [|split].
        -- assert (Hsc : same_cells h h1 (tblocks l ++ b' :: ring)).
           { eapply frame_same_cells; [exact Hap| |exact Hun].
             instantiate (1 := []). solve_Permutation. }
           apply same_cells_app in Hsc as [Hsc1 Hsc2].
           apply tree_rep_set_children; auto.
           ++ eapply dseg_frame; eassumption.
           ++ eapply Forall_size_frame; eassumption.
           ++ eapply tree_rep_frame; eassumption.
           ++ intros c Hc. apply Hrb.
              rewrite tblocks_tput in Hc.
              revert Hc. rewrite !elem_of_app, !elem_of_cons, !elem_of_app.
              prop.
        -- repeat split; simpl; congruence.
        -- intros x Hx. rewrite !word_upd_ne.
           ++ apply Hun. intros c Hc. apply Hx.
              revert Hc. cbn [tblocks].
              rewrite !elem_of_cons, !elem_of_app, !elem_of_cons. prop.
           ++ intros ->. apply (Hx b').
              ** right. cbn [tblocks]. apply elem_of_app. right. left.
              ** lia.
           ++ intros ->. apply (Hx b').
              ** right. cbn [tblocks]. apply elem_of_app. right. left.
              ** lia.
    + (* smaller: into the left subtree *)
      step. rewrite Hl, !ptr_of_offset_of by (eapply troot_ok; eassumption).
      eapply outcome_bind.
      * apply (IH l h b Htl); [|exact Hsz].
        apply spaced_intro; [| |lia].
        -- eapply apart_perm in Hap;
             [|instantiate (1 := (b :: tblocks l) ++ (b' :: ring) ++ tblocks r);
               solve_Permutation].
           apply apart_app in Hap as (H & _). exact H.
        -- constructor; [exact Hb|]. apply Hsl.
      * cbn [theight]. lia.
      * intros n h1 (-> & Hrep & (Hg1 & Hg2 & Hg3) & Hun).
        assert (Hsc : same_cells h h1 ((b' :: ring) ++ tblocks r)).
        { eapply frame_same_cells; [exact Hap| |exact Hun].
          instantiate (1 := []). solve_Permutation. }
        apply same_cells_app in Hsc as [Hsc1 Hsc2].
        step.
        rewrite (Hsc1 b' ltac:(left) 4 ltac:(lia)), Hr,
          ptr_of_offset_of by (eapply troot_ok; eassumption).
        step. unfold ret. apply outcome_Ok.
        split; [reflexivity|]. split; [|split].
        -- apply tree_rep_set_children; auto.
           ++ eapply dseg_frame; eassumption.
           ++ eapply Forall_size_frame; eassumption.
           ++ eapply tree_rep_frame; eassumption.
           ++ intros c Hc. apply Hrb.
              rewrite tblocks_tput in Hc.
              revert Hc. rewrite !elem_of_app, !elem_of_cons, !elem_of_app.
              prop.
        -- repeat split; simpl; congruence.
        -- intros x Hx. rewrite !word_upd_ne.
           ++ apply Hun. intros c Hc. apply Hx.
              revert Hc. cbn [tblocks].
              rewrite !elem_of_cons, !elem_of_app, !elem_of_cons. prop.
           ++ intros ->. apply (Hx b').
              ** right. cbn [tblocks]. apply elem_of_app. right. left.
              ** lia.
           ++ intros ->. apply (Hx b').
              ** right. cbn [tblocks]. apply elem_of_app. right. left.
              ** lia.
    + (* the same size: [add] puts [block] in front of the chain *)
      assert (Hkk : size_at h b = k').
      { rewrite Z.gtb_ltb in E1. apply Z.ltb_ge in E1, E2. lia. }
      assert (Hring : forall c, c ∈ ring -> far b c /\ far b' c).
      { intros c Hc. split.
        - eapply far_of_perm; [exact Hap|reflexivity|].
          rewrite !elem_of_app, !elem_of_cons. prop.
        - apply Hrb. rewrite !elem_of_cons, !elem_of_app. prop. }
      assert (Hlr : forall c, c ∈ tblocks l ++ tblocks r ->
                    far b c /\ far b' c).
      { intros c Hc. split.
        - eapply far_of_perm; [exact Hap|reflexivity|].
          revert Hc. rewrite !elem_of_app, !elem_of_cons. prop.
        - apply Hrb. revert Hc. rewrite !elem_of_cons, !elem_of_app. prop. }
      destruct Hd as (Hd1 & Hd2 & Hd3).
      assert (Hok : ptr_ok (head_or ring None)).
      { destruct ring as [|c ring]; [exact I|].
        assert (Hc : 0 < c /\ c + 4 < brk h).
        { rewrite Forall_forall in Hbd. apply Hbd.
          rewrite !elem_of_cons, !elem_of_app, !elem_of_cons. prop. }
        simpl. lia. }
      unfold far in Fbb'.
      unfold add. repeat step.
      rewrite (proj2 (Z.geb_le _ _)) by (wsimp; lia).
      repeat step. unfold ret. apply outcome_Ok.
      wsimp. rewrite Hd2, Hl, Hr.
      rewrite !ptr_of_offset_of by
        first [exact Hok | eapply troot_ok; eassumption].
      split; [reflexivity|]. split; [|split].
      * set (h' := upd _ _ _).
        assert (Hsc : same_cells h h' (ring ++ tblocks l ++ tblocks r)).
        { intros c Hc j Hj. unfold h'.
          assert (F : far b c /\ far b' c).
          { apply elem_of_app in Hc as [Hc|Hc]; auto. }
          unfold far in F. wsimp. reflexivity. }
        apply same_cells_app in Hsc as [Hsc1 Hsc2].
        apply same_cells_app in Hsc2 as [Hsc2 Hsc3].
        cbn [tree_rep dseg head_or].
        refine (conj (conj _ (conj _ (conj _ (conj _ _))))
                  (conj _ (conj _ (conj _ (conj _ _))))).
        -- unfold h'. wsimp. reflexivity.
        -- unfold h'. wsimp. reflexivity.
        -- unfold h'. wsimp. reflexivity.
        -- unfold h'. wsimp. reflexivity.
        -- eapply dseg_frame; eassumption.
        -- constructor; [unfold h'; wsimp; exact Hkk|].
           constructor; [unfold h'; wsimp; exact Hkb'|].
           apply Forall_cons in Hk as [_ Hk].
           eapply Forall_size_frame; eassumption.
        -- unfold h'. wsimp. reflexivity.
        -- unfold h'. wsimp. reflexivity.
        -- eapply tree_rep_frame; eassumption.
        -- eapply tree_rep_frame; eassumption.
      * repeat split.
      * intros x Hx.
        pose proof (Hx b ltac:(left)).
        pose proof (Hx b' ltac:(right; cbn [tblocks]; apply elem_of_app;
                                right; left)).
        wsimp. reflexivity.
Qed.
(** ** Taking a block out of a chain *)

Lemma offset_ptr_offset p : ptr_ok p -> offset_of (ptr_of (offset_of p)) = offset_of p.
Proof. intros H. rewrite ptr_of_offset_of by exact H. reflexivity. Qed.

Lemma dseg_mid h prev l1 b l2 next :
  dseg h prev (l1 ++ b :: l2) next ->
  word h (b + 1) = offset_of (last_or l1 prev) /\
  word h (b + 2) = offset_of (head_or l2 next).
Proof.
  intros H. apply dseg_app in H as [_ (H1 & H2 & _)]. auto.
Qed.

Lemma last_or_snoc l p d : last_or (l ++ [p]) d = Some p.
Proof. unfold last_or. rewrite last_snoc. reflexivity. Qed.

Lemma dseg_change h h' prev l next :
  (forall c, c ∈ l -> word h' (c + 1) = word h (c + 1) /\
                      word h' (c + 2) = word h (c + 2)) ->
  dseg h prev l next -> dseg h' prev l next.
Proof.
  revert prev. induction l as [|b l IH]; intros prev Hc; simpl; [trivial|].
  intros (H1 & H2 & H3).
  destruct (Hc b ltac:(left)) as [-> ->].
  repeat split; auto. apply IH; auto. intros c Hin. apply Hc. right. exact Hin.
Qed.

Lemma ptr_ok_last_or h l : 
  Forall (fun b => 0 < b /\ b + 4 < brk h) l -> brk h <= 2 ^ 30 ->
  ptr_ok (last_or l None).
Proof.
  intros Hb Hk. unfold last_or.
  destruct (@last addr l) as [c|] eqn:E; [|exact I].
  assert (Hc : c ∈ l).
  { apply last_Some in E as [l' ->]. apply elem_of_app. right. left. }
  rewrite Forall_forall in Hb.
  specialize (Hb c Hc). simpl. lia.
Qed.

Lemma ptr_ok_head_or h l :
  Forall (fun b => 0 < b /\ b + 4 < brk h) l -> brk h <= 2 ^ 30 ->
  ptr_ok (head_or l None).
Proof.
  intros Hb Hk. destruct l as [|c l]; [exact I|].
  apply Forall_cons in Hb as [Hc _]. simpl. lia.
Qed.

Lemma unlink_dseg h l1 b l2 :
  dseg h None (l1 ++ b :: l2) None ->
  spaced h (l1 ++ b :: l2) ->
  dseg (unlink h b) None (l1 ++ l2) None /\
  unchanged_outside 2 (l1 ++ l2) h (unlink h b) /\
  same_globals h (unlink h b).
Proof.
  intros Hd (Hap & Hbd & Hk).
  pose proof (dseg_mid _ _ _ _ _ _ Hd) as [Hp Hs].
  pose proof Hbd as Hbd'.
  apply Forall_app in Hbd' as [Hb1 Hb2].
  apply Forall_cons in Hb2 as [Hb Hb2].
  apply dseg_app in Hd as [Hd1 (_ & _ & Hd2)].
  pose proof Hap as Hap'.
  apply apart_app in Hap' as (Ha1 & [Hfb Ha2] & Hcross).
  unfold unlink. rewrite Hp, Hs.
  rewrite !ptr_of_offset_of by
    first [eapply ptr_ok_last_or; eassumption
          |eapply ptr_ok_head_or; eassumption].
  destruct l1 as [|p l1' _] using rev_ind; destruct l2 as [|s l2'].
  - (* the only block of its chain *)
    cbn [last_or last head_or app]. repeat split.
  - (* the head, with a successor *)
    cbn [last_or last head_or app].
    destruct Hd2 as (Hs1 & Hs2 & Hd2'). destruct Ha2 as [Hfs Ha2].
    rewrite Hs2.
    rewrite offset_ptr_offset by
      (apply Forall_cons in Hb2 as [_ Hb2']; eapply ptr_ok_head_or; eassumption).
    split; [|split].
    + cbn [dseg]. wsimp. repeat split; auto.
      eapply dseg_change; [|exact Hd2']. intros c Hc.
      rewrite Forall_forall in Hfs. specialize (Hfs c Hc). unfold far in Hfs.
      wsimp. auto.
    + intros x Hx. specialize (Hx s ltac:(left)). wsimp. reflexivity.
    + repeat split.
  - (* the last block, with a predecessor *)
    rewrite last_or_snoc. cbn [head_or]. rewrite app_nil_r.
    apply dseg_app in Hd1 as [Hd1 (Hp1 & Hp2 & _)].
    rewrite Hp1.
    apply Forall_app in Hb1 as [Hb1' Hbp].
    rewrite offset_ptr_offset by (eapply ptr_ok_last_or; eassumption).
    apply apart_app in Ha1 as (Ha1' & _ & Hc1).
    split; [|split].
    + apply dseg_app. split.
      * eapply dseg_change; [|exact Hd1]. intros c Hc.
        specialize (Hc1 c p Hc ltac:(left)). unfold far in Hc1.
        wsimp. auto.
      * cbn [dseg head_or]. wsimp. auto.
    + intros x Hx.
      specialize (Hx p ltac:(apply elem_of_app; right; left)).
      wsimp. reflexivity.
    + repeat split.
  - (* in the middle *)
    rewrite last_or_snoc. cbn [head_or].
    apply dseg_app in Hd1 as [Hd1 (Hp1 & Hp2 & _)].
    destruct Hd2 as (Hs1 & Hs2 & Hd2'). destruct Ha2 as [Hfs Ha2].
    apply Forall_app in Hb1 as [Hb1' Hbp].
    apply apart_app in Ha1 as (Ha1' & _ & Hc1).
    assert (Fps : far p s).
    { apply Hcross; [apply elem_of_app; right; left|right; left]. }
    unfold far in Fps.
    cbv zeta. rewrite Hp1. wsimp. rewrite Hs2.
    apply Forall_cons in Hb2 as [Hbs Hb2'].
    rewrite !offset_ptr_offset by
      first [eapply ptr_ok_last_or; eassumption
            |eapply ptr_ok_head_or; eassumption].
    split; [|split].
    + rewrite <- app_assoc. apply dseg_app. split.
      * eapply dseg_change; [|exact Hd1]. intros c Hc.
        specialize (Hc1 c p Hc ltac:(left)).
        specialize (Hcross c s ltac:(apply elem_of_app; left; exact Hc)
                      ltac:(right; left)).
        unfold far in Hc1, Hcross. wsimp. auto.
      * cbn [app dseg head_or]. wsimp.
        repeat split; auto.
        eapply dseg_change; [|exact Hd2']. intros c Hc.
        rewrite Forall_forall in Hfs. specialize (Hfs c Hc).
        specialize (Hcross p c ltac:(apply elem_of_app; right; left)
                      ltac:(right; right; exact Hc)).
        unfold far in Hfs, Hcross. wsimp. auto.
    + intros x Hx.
      pose proof (Hx p ltac:(rewrite !elem_of_app, !elem_of_cons; prop)).
      pose proof (Hx s ltac:(rewrite !elem_of_app, !elem_of_cons; prop)).
      wsimp. reflexivity.
    + repeat split.
Qed.
(** ** The small classes *)

Lemma find_index_class (i : nat) :
  (i < 6)%nat -> find_index (2 * (Z.of_nat i + 1)) = Z.of_nat i.
Proof.
  intros Hi. unfold find_index, u32, to_int.
  replace (2 * (Z.of_nat i + 1) - 2) with (Z.of_nat i * 2) by lia.
  rewrite Z.mod_small by lia. rewrite Z.div_mul by lia.
  destruct (Z.ltb_spec (Z.of_nat i) (2 ^ 31)); lia.
Qed.

Lemma chain_ptrs h l1 b l2 :
  dseg h None (l1 ++ b :: l2) None ->
  spaced h (l1 ++ b :: l2) ->
  ptr_of (word h (b + 1)) = last_or l1 None /\
  ptr_of (word h (b + 2)) = head_or l2 None.
Proof.
  intros Hd (Hap & Hbd & Hk).
  pose proof (dseg_mid _ _ _ _ _ _ Hd) as [Hp Hs].
  apply Forall_app in Hbd as [Hb1 Hb2].
  apply Forall_cons in Hb2 as [Hb Hb2].
  rewrite Hp, Hs.
  rewrite !ptr_of_offset_of by
    first [eapply ptr_ok_last_or; eassumption
          |eapply ptr_ok_head_or; eassumption].
  auto.
Qed.

Lemma dseg_ext h h' prev l next :
  (forall x, word h' x = word h x) ->
  dseg h prev l next -> dseg h' prev l next.
Proof. intros H. apply dseg_change. intros c _. rewrite !H. auto. Qed.

Lemma dseg_set_seg_list sl h prev l next :
  dseg h prev l next -> dseg (set_seg_list sl h) prev l next.
Proof. apply dseg_ext. reflexivity. Qed.

Lemma small_block_insert_spec h b (i : nat) l :
  (i < 6)%nat ->
  size_at h b = 2 * (Z.of_nat i + 1) ->
  seg_list h !! i = Some (head_or l None) ->
  dseg h None l None ->
  spaced h (b :: l) ->
  exists h',
    small_block_insert b h = Ok (tt, h') /\
    dseg h' None (b :: l) None /\
    seg_list h' = <[i := Some b]> (seg_list h) /\
    brk h' = brk h /\ seg_root h' = seg_root h /\
    unchanged_outside 2 (b :: l) h h'.
Proof.
  intros Hi Hsz Hhd Hd Hs.
  pose proof (spaced_brk _ _ Hs) as Hbrk.
  pose proof (spaced_in _ _ b Hs ltac:(left)) as Hb.
  assert (Hlen : (i < length (seg_list h))%nat)
    by (eapply lookup_lt_Some; exact Hhd).
  unfold small_block_insert. step. rewrite Hsz, find_index_class by exact Hi.
  rewrite (bind_Ok _ _ _ _ _
             (seg_get_eq (Z.of_nat i) _ h ltac:(lia)
                ltac:(rewrite Nat2Z.id; exact Hhd))).
  destruct l as [|o l]; cbn [head_or].
  - step. rewrite seg_set_eq by (simpl; lia). rewrite Nat2Z.id.
    eexists. split; [reflexivity|].
    split; [|split; [reflexivity|split; [reflexivity|split; [reflexivity|]]]].
    + cbn [dseg head_or]. simpl. wsimp. auto.
    + intros x Hx. specialize (Hx b ltac:(left)). simpl. wsimp. reflexivity.
  - pose proof (spaced_in _ _ o Hs ltac:(right; left)) as Ho.
    destruct Hs as ([Hfb [Hfo Hap]] & Hbd & _).
    apply Forall_cons in Hfb as [Fbo Hfb]. unfold far in Fbo.
    destruct Hd as (Ho1 & Ho2 & Hd).
    repeat step. rewrite seg_set_eq by (simpl; lia). rewrite Nat2Z.id.
    eexists. split; [reflexivity|].
    split; [|split; [reflexivity|split; [reflexivity|split; [reflexivity|]]]].
    + cbn [dseg head_or]. simpl. wsimp. rewrite Ho2.
      apply Forall_cons in Hbd as [_ Hbd]. apply Forall_cons in Hbd as [_ Hbd].
      rewrite offset_ptr_offset by (eapply ptr_ok_head_or; eassumption).
      repeat split; auto.
      eapply dseg_change; [|exact Hd]. intros c Hc.
      rewrite Forall_forall in Hfb, Hfo.
      specialize (Hfb c Hc). specialize (Hfo c Hc). unfold far in Hfb, Hfo.
      wsimp. auto.
    + intros x Hx. pose proof (Hx b ltac:(left)).
      pose proof (Hx o ltac:(right; left)). simpl. wsimp. reflexivity.
Qed.

Lemma small_block_delete_spec h b (i : nat) l1 l2 :
  (i < 6)%nat ->
  size_at h b = 2 * (Z.of_nat i + 1) ->
  (i < length (seg_list h))%nat ->
  seg_list h !! i = Some (head_or (l1 ++ b :: l2) None) ->
  dseg h None (l1 ++ b :: l2) None ->
  spaced h (l1 ++ b :: l2) ->
  exists h',
    small_block_delete b h = Ok (tt, h') /\
    dseg h' None (l1 ++ l2) None /\
    seg_list h' = <[i := head_or (l1 ++ l2) None]> (seg_list h) /\
    brk h' = brk h /\ seg_root h' = seg_root h /\
    unchanged_outside 2 (l1 ++ l2) h h'.
Proof.
  intros Hi Hsz Hlen Hhd Hd Hs.
  destruct (unlink_dseg h l1 b l2 Hd Hs) as (Hd' & Hun & Hg1 & Hg2 & Hg3).
  destruct (chain_ptrs h l1 b l2 Hd Hs) as [Hp Hsu].
  pose proof (spaced_brk _ _ Hs) as Hbrk.
  pose proof (spaced_in _ _ b Hs
                ltac:(apply elem_of_app; right; left)) as Hb.
  assert (Hin : forall c, c ∈ l1 ++ l2 -> 0 < c /\ c + 4 < brk h).
  { intros c Hc. apply (spaced_in _ _ c Hs).
    revert Hc. rewrite !elem_of_app, elem_of_cons. prop. }
  unfold small_block_delete. repeat step.
  rewrite Hsz, find_index_class by exact Hi.
  revert Hd' Hun Hg1 Hg2 Hg3. unfold unlink. rewrite Hp, Hsu.
  destruct l1 as [|p l1' _] using rev_ind; destruct l2 as [|s l2'].
  - cbn [last_or last head_or app]. intros Hd' Hun Hg1 Hg2 Hg3.
    rewrite seg_set_eq by lia. rewrite Nat2Z.id.
    eexists. split; [reflexivity|].
    refine (conj (dseg_set_seg_list _ _ _ _ _ Hd')
              (conj eq_refl (conj Hg1 (conj Hg3 Hun)))).
  - cbn [last_or last head_or app]. intros Hd' Hun Hg1 Hg2 Hg3.
    pose proof (Hin s ltac:(left)).
    repeat step. rewrite seg_set_eq by (simpl; lia). rewrite Nat2Z.id.
    eexists. split; [reflexivity|].
    refine (conj (dseg_set_seg_list _ _ _ _ _ Hd')
              (conj eq_refl (conj Hg1 (conj Hg3 Hun)))).
  - rewrite last_or_snoc. cbn [head_or]. intros Hd' Hun Hg1 Hg2 Hg3.
    pose proof (Hin p ltac:(apply elem_of_app; left; apply elem_of_app;
                            right; left)).
    repeat step. last_step.
    eexists. split; [reflexivity|].
    refine (conj Hd' (conj _ (conj Hg1 (conj Hg3 Hun)))).
    rewrite list_insert_id; [reflexivity|].
    rewrite Hhd. rewrite app_nil_r. destruct l1'; reflexivity.
  - rewrite last_or_snoc. cbn [head_or]. intros Hd' Hun Hg1 Hg2 Hg3.
    pose proof (Hin p ltac:(apply elem_of_app; left; apply elem_of_app;
                            right; left)).
    pose proof (Hin s ltac:(apply elem_of_app; right; left)).
    repeat step. last_step.
    eexists. split; [reflexivity|].
    refine (conj Hd' (conj _ (conj Hg1 (conj Hg3 Hun)))).
    rewrite list_insert_id; [reflexivity|].
    rewrite Hhd. destruct l1'; reflexivity.
Qed.
(** ** The leftmost node of a tree *)

Lemma tmin_blocks l : forall k b ring r mk mb mring,
  tmin l k b ring r = (mk, mb, mring) ->
  tblocks (Node l k b ring r)
  ≡ₚ (mb :: mring) ++ tblocks (tdelmin l k b ring r).
Proof.
  induction l as [|ll IHl lk lb lring lr _]; intros k b ring r mk mb mring.
  - cbn [tmin tdelmin tblocks]. intros [= <- <- <-]. reflexivity.
  - cbn [tmin tdelmin]. intros E. specialize (IHl _ _ _ lr _ _ _ E).
    change (tblocks (Node (Node ll lk lb lring lr) k b ring r))
      with (tblocks (Node ll lk lb lring lr) ++ (b :: ring) ++ tblocks r).
    rewrite IHl. cbn [tblocks]. rewrite <- !app_assoc. reflexivity.
Qed.

Lemma tmin_keys l : forall k b ring r mk mb mring,
  tmin l k b ring r = (mk, mb, mring) ->
  tkeys (Node l k b ring r) = mk :: tkeys (tdelmin l k b ring r).
Proof.
  induction l as [|ll IHl lk lb lring lr _]; intros k b ring r mk mb mring.
  - cbn [tmin tdelmin tkeys]. intros [= <- <- <-]. reflexivity.
  - cbn [tmin tdelmin]. intros E. specialize (IHl _ _ _ lr _ _ _ E).
    change (tkeys (Node (Node ll lk lb lring lr) k b ring r))
      with (tkeys (Node ll lk lb lring lr) ++ k :: tkeys r).
    rewrite IHl. reflexivity.
Qed.

(** The keys of a search tree, in order, increase. *)
Fixpoint increasing (l : list Z) : Prop :=
  match l with
  | [] => True
  | x :: l' => Forall (fun y => x < y) l' /\ increasing l'
  end.

Lemma increasing_app l1 l2 :
  increasing (l1 ++ l2) <->
  increasing l1 /\ increasing l2 /\
  (forall x y, x ∈ l1 -> y ∈ l2 -> x < y).
Proof.
  induction l1 as [|a l1 IH]; simpl.
  - split; [intros H; repeat split; auto; intros x y Hx; inversion Hx|prop].
  - rewrite Forall_app, IH. split.
    + intros ((Ha1 & Ha2) & H1 & H2 & H3). repeat split; auto.
      intros x y Hx Hy. apply elem_of_cons in Hx as [->|Hx]; auto.
      rewrite Forall_forall in Ha2. auto.
    + intros ((Ha1 & H1) & H2 & H3). repeat split; auto.
      * apply Forall_forall. intros y Hy. apply H3; [left|]; auto.
      * intros x y Hx Hy. apply H3; [right|]; auto.
Qed.

Lemma bst_increasing t : bst t <-> increasing (tkeys t).
Proof.
  induction t as [|l IHl k b ring r IHr]; cbn [bst tkeys]; [simpl; prop|].
  rewrite increasing_app. cbn [increasing]. rewrite IHl, IHr.
  rewrite !Forall_forall. split.
  - intros (Hl & Hr & Il & Ir). repeat split; auto.
    intros x y Hx Hy. apply elem_of_cons in Hy as [->|Hy]; auto.
    specialize (Hl x Hx). specialize (Hr y Hy). lia.
  - intros (Il & (Hr & Ir) & Hc). repeat split; auto.
    intros x Hx. apply Hc; [exact Hx|left].
Qed.

Lemma bst_tdelmin l k b ring r mk mb mring :
  tmin l k b ring r = (mk, mb, mring) ->
  bst (Node l k b ring r) ->
  bst (tdelmin l k b ring r) /\
  Forall (fun y => mk < y) (tkeys (tdelmin l k b ring r)).
Proof.
  intros E. rewrite !bst_increasing. rewrite (tmin_keys _ _ _ _ _ _ _ _ E).
  cbn [increasing]. prop.
Qed.

Lemma tmin_rep h l : forall k b ring r mk mb mring,
  tmin l k b ring r = (mk, mb, mring) ->
  tree_rep h (Node l k b ring r) ->
  dseg h None (mb :: mring) None /\
  Forall (fun x => size_at h x = mk) (mb :: mring).
Proof.
  induction l as [|ll IHl lk lb lring lr _]; intros k b ring r mk mb mring.
  - cbn [tmin]. intros [= <- <- <-] (Hd & Hk & _). auto.
  - cbn [tmin]. intros E (_ & _ & _ & _ & Hl & _). eapply IHl; eassumption.
Qed.

Lemma theight_tdelmin l : forall k b ring r,
  (theight (tdelmin l k b ring r) <= theight (Node l k b ring r))%nat.
Proof.
  induction l as [|ll IHl lk lb lring lr _]; intros k b ring r.
  - cbn [tdelmin theight]. lia.
  - cbn [tdelmin]. specialize (IHl lk lb lring lr).
    cbn [theight] in *. lia.
Qed.

(** ** [minimum] and [deleteMin] by size *)

Lemma spaced_node h l k b ring r :
  spaced h (tblocks (Node l k b ring r)) ->
  spaced h (tblocks l) /\ spaced h (b :: ring) /\ spaced h (tblocks r) /\
  (0 < b /\ b + 4 < brk h) /\ brk h <= 2 ^ 30 /\
  (forall c, c ∈ tblocks l ++ ring ++ tblocks r -> far b c).
Proof.
  intros Hs. pose proof Hs as (Hap & Hbd & Hk).
  cbn [tblocks] in *.
  pose proof (spaced_app _ _ _ Hs) as [H1 H2].
  pose proof (spaced_app _ _ _ H2) as [H3 H4].
  refine (conj H1 (conj H3 (conj H4 (conj _ (conj Hk _))))).
  - apply (spaced_in _ _ b H3). left.
  - intros c Hc. eapply far_of_perm; [exact Hap| |exact Hc].
    solve_Permutation.
Qed.

Lemma minimum_size_spec fuel : forall l k b ring r h mk mb mring,
  tmin l k b ring r = (mk, mb, mring) ->
  tree_rep h (Node l k b ring r) ->
  spaced h (tblocks (Node l k b ring r)) ->
  outcome (minimum fuel b SIZE h)
    (fuel <= theight (Node l k b ring r))%nat
    (fun m h' => h' = h /\ m = mb).
Proof.
  induction fuel as [|fuel IH]; intros l k b ring r h mk mb mring E Ht Hs;
    [simpl; lia|].
  destruct (spaced_node _ _ _ _ _ _ Hs) as (Hsl & _ & _ & Hb & Hk & _).
  destruct Ht as (_ & _ & Hl & _ & Htl & _).
  cbn [minimum]. change (SIZE =? ADDRESS) with false. cbv iota.
  step. rewrite Hl, ptr_of_offset_of by (eapply troot_ok; eassumption).
  destruct l as [|ll lk lb lring lr]; cbn [troot].
  - cbn [tmin] in E. injection E as <- <- <-. unfold ret.
    apply outcome_Ok. auto.
  - cbn [tmin] in E. eapply outcome_weaken.
    + eapply IH; eassumption.
    + cbn [theight]. lia.
    + auto.
Qed.

Lemma deleteMin_size_spec fuel : forall l k b ring r h,
  tree_rep h (Node l k b ring r) ->
  spaced h (tblocks (Node l k b ring r)) ->
  outcome (deleteMin fuel b SIZE h)
    (fuel <= theight (Node l k b ring r))%nat
    (fun p h' =>
       p = troot (tdelmin l k b ring r) /\
       tree_rep h' (tdelmin l k b ring r) /\
       same_globals h h' /\
       unchanged_outside 4 (tblocks (tdelmin l k b ring r)) h h').
Proof.
  induction fuel as [|fuel IH]; intros l k b ring r h Ht Hs; [simpl; lia|].
  destruct (spaced_node _ _ _ _ _ _ Hs) as (Hsl & Hsb & Hsr & Hb & Hk & Hfar).
  pose proof Ht as (Hd & Hsz & Hl & Hr & Htl & Htr).
  cbn [deleteMin]. change (SIZE =? ADDRESS) with false. cbv iota.
  step. rewrite Hl, ptr_of_offset_of by (eapply troot_ok; eassumption).
  destruct l as [|ll lk lb lring lr]; cbn [troot].
  - cbn [tdelmin]. last_step.
    rewrite Hr, ptr_of_offset_of by (eapply troot_ok; eassumption).
    apply outcome_Ok. repeat split; auto.
  - cbn [tdelmin]. eapply outcome_bind.
    + apply (IH ll lk lb lring lr h Htl Hsl).
    + cbn [theight]. lia.
    + intros m h1 (-> & Hrep & (Hg1 & Hg2 & Hg3) & Hun).
      destruct (tmin ll lk lb lring lr) as [[mk mb] mring] eqn:E.
      pose proof (tmin_blocks _ _ _ _ _ _ _ _ E) as HP.
      destruct Hs as (Hap & Hbd & _).
      change (tblocks (Node (Node ll lk lb lring lr) k b ring r))
        with (tblocks (Node ll lk lb lring lr) ++ (b :: ring) ++ tblocks r)
        in Hap, Hbd.
      rewrite HP in Hap.
      assert (Hsc : same_cells h h1 ((b :: ring) ++ tblocks r)).
      { eapply frame_same_cells; [exact Hap| |exact Hun].
        instantiate (1 := mb :: mring). solve_Permutation. }
      apply same_cells_app in Hsc as [Hsc1 Hsc2].
      step. rewrite (Hsc1 b ltac:(left) 4 ltac:(lia)), Hr,
        ptr_of_offset_of by (eapply troot_ok; eassumption).
      step. unfold ret. apply outcome_Ok.
      split; [reflexivity|]. split; [|split].
      * apply tree_rep_set_children; auto.
        -- eapply dseg_frame; eassumption.
        -- eapply Forall_size_frame; eassumption.
        -- eapply tree_rep_frame; eassumption.
        -- intros c Hc.
           eapply (far_of_perm_rest _ _ _ (mb :: mring));
             [exact Hap| |exact Hc].
           solve_Permutation.
      * repeat split; simpl; congruence.
      * intros x Hx. rewrite !word_upd_ne.
        -- apply Hun. intros c Hc. apply Hx. cbn [tblocks].
           apply elem_of_app. left. exact Hc.
        -- intros ->. apply (Hx b); [|lia].
           cbn [tblocks]. apply elem_of_app. right. left.
        -- intros ->. apply (Hx b); [|lia].
           cbn [tblocks]. apply elem_of_app. right. left.
Qed.
(** ** Removing a block from the abstract tree *)

Lemma remove_addr_notin b l : b ∉ l -> remove_addr b l = l.
Proof.
  unfold remove_addr. induction l as [|x l IH]; intros H; [reflexivity|].
  rewrite filter_cons_True by (intros ->; apply H; left).
  rewrite IH; [reflexivity|]. intros Hin. apply H. right. exact Hin.
Qed.

Lemma remove_addr_mid b l1 l2 :
  b ∉ l1 -> b ∉ l2 -> remove_addr b (l1 ++ b :: l2) = l1 ++ l2.
Proof.
  intros H1 H2. unfold remove_addr.
  rewrite filter_app, filter_cons_False by (intros H; apply H; reflexivity).
  fold (remove_addr b l1). fold (remove_addr b l2).
  rewrite !remove_addr_notin by assumption. reflexivity.
Qed.

Lemma remove_addr_sub b l x : x ∈ remove_addr b l -> x ∈ l.
Proof. unfold remove_addr. rewrite list_elem_of_filter. prop. Qed.

Lemma tblocks_Node l k b ring r :
  tblocks (Node l k b ring r) = tblocks l ++ (b :: ring) ++ tblocks r.
Proof. reflexivity. Qed.

Lemma tblocks_ttake_sub k b t x :
  x ∈ tblocks (ttake k b t) -> x ∈ tblocks t.
Proof.
  revert x. induction t as [|l IHl k' b' ring r IHr]; intros x;
    cbn [ttake tblocks]; [auto|].
  destruct (k <? k'); [|destruct (k >? k'); [|destruct (decide (b = b'))]].
  - cbn [tblocks]. rewrite !elem_of_app. intros [H|H]; auto.
  - cbn [tblocks]. rewrite !elem_of_app. intros [H|[H|H]]; auto.
  - destruct ring as [|s ring'].
    + destruct r as [|rl rk rb rring rr].
      * rewrite !elem_of_app. auto.
      * destruct l as [|ll lk lb lring lr].
        -- rewrite !elem_of_app. auto.
        -- destruct (tmin rl rk rb rring rr) as [[mk mb] mring] eqn:E.
           pose proof (tmin_blocks _ _ _ _ _ _ _ _ E) as HP.
           rewrite tblocks_Node, <- HP.
           rewrite !elem_of_app. intros [H|H]; auto.
    + cbn [tblocks]. rewrite !elem_of_app, !elem_of_cons.
      intros [H|[[H|H]|H]]; auto.
  - cbn [tblocks]. rewrite !elem_of_app, !elem_of_cons.
    intros [H|[[H|H]|H]]; auto.
    right. left. right. eapply remove_addr_sub. exact H.
Qed.

Lemma tkeys_ttake_sublist k b t : tkeys (ttake k b t) `sublist_of` tkeys t.
Proof.
  induction t as [|l IHl k' b' ring r IHr]; cbn [ttake tkeys]; [reflexivity|].
  destruct (k <? k'); [|destruct (k >? k'); [|destruct (decide (b = b'))]].
  - cbn [tkeys]. apply sublist_app; [exact IHl|reflexivity].
  - cbn [tkeys]. apply sublist_app; [reflexivity|].
    apply sublist_skip. exact IHr.
  - destruct ring as [|s ring']; [|reflexivity].
    destruct r as [|rl rk rb rring rr].
    + apply sublist_inserts_r. reflexivity.
    + destruct l as [|ll lk lb lring lr].
      * apply sublist_cons. reflexivity.
      * destruct (tmin rl rk rb rring rr) as [[mk mb] mring] eqn:E.
        cbn [tkeys]. rewrite <- (tmin_keys _ _ _ _ _ _ _ _ E).
        apply sublist_app; [reflexivity|]. apply sublist_cons. reflexivity.
  - reflexivity.
Qed.

Lemma increasing_sublist l l' :
  l' `sublist_of` l -> increasing l -> increasing l'.
Proof.
  induction 1 as [|x l1 l2 Hs IH|x l1 l2 Hs IH]; simpl; auto.
  - intros [Hf Hi]. split; auto.
    apply Forall_forall. intros y Hy. rewrite Forall_forall in Hf.
    apply Hf. eapply elem_of_sublist; eassumption.
  - intros [_ Hi]. auto.
Qed.

Lemma bst_ttake k b t : bst t -> bst (ttake k b t).
Proof.
  rewrite !bst_increasing. apply increasing_sublist, tkeys_ttake_sublist.
Qed.

Lemma Forall_keys_ttake (P : Z -> Prop) k b t :
  Forall P (tkeys t) -> Forall P (tkeys (ttake k b t)).
Proof.
  rewrite !Forall_forall. intros H x Hx. apply H.
  eapply elem_of_sublist; [exact Hx|apply tkeys_ttake_sublist].
Qed.

Lemma Forall_keys_tput (P : Z -> Prop) k b t :
  P k -> Forall P (tkeys t) -> Forall P (tkeys (tput k b t)).
Proof.
  rewrite !Forall_forall. intros Hk H x Hx.
  apply tkeys_tput in Hx as [->|Hx]; auto.
Qed.

Lemma theight_ttake k b t : (theight (ttake k b t) <= theight t)%nat.
Proof.
  induction t as [|l IHl k' b' ring r IHr]; cbn [ttake theight]; [lia|].
  destruct (k <? k'); [|destruct (k >? k'); [|destruct (decide (b = b'))]];
    cbn [theight]; try lia.
  destruct ring as [|s ring']; [|cbn [theight]; lia].
  destruct r as [|rl rk rb rring rr]; [lia|].
  destruct l as [|ll lk lb lring lr]; [cbn [theight]; lia|].
  destruct (tmin rl rk rb rring rr) as [[mk mb] mring] eqn:E.
  pose proof (theight_tdelmin rl rk rb rring rr).
  cbn [theight] in *. lia.
Qed.

(** The size of a block of the tree is the key of its node. *)
Lemma tree_rep_key h t c :
  tree_rep h t -> c ∈ tblocks t -> size_at h c ∈ tkeys t.
Proof.
  induction t as [|l IHl k b ring r IHr]; cbn [tree_rep tblocks tkeys].
  - intros _ H. inversion H.
  - intros (_ & Hk & _ & _ & Hl & Hr).
    rewrite !elem_of_app. intros [H|[H|H]].
    + left. auto.
    + right. rewrite Forall_forall in Hk. rewrite (Hk c H). left.
    + right. right. auto.
Qed.

(** Where the search by size finds a block of the tree. *)
Lemma tree_find h l k b ring r c :
  tree_rep h (Node l k b ring r) -> bst (Node l k b ring r) ->
  c ∈ tblocks (Node l k b ring r) ->
  (size_at h c < k /\ c ∈ tblocks l) \/
  (size_at h c = k /\ c ∈ b :: ring) \/
  (k < size_at h c /\ c ∈ tblocks r).
Proof.
  intros Ht (Hl & Hr & _ & _) Hc.
  pose proof Ht as (_ & Hk & _ & _ & Htl & Htr).
  cbn [tblocks] in Hc. rewrite !elem_of_app in Hc.
  rewrite Forall_forall in Hl, Hr, Hk.
  destruct Hc as [Hc|[Hc|Hc]].
  - left. split; [|exact Hc]. apply Hl. eapply tree_rep_key; eassumption.
  - right. left. split; [|exact Hc]. apply Hk. exact Hc.
  - right. right. split; [|exact Hc]. apply Hr.
    eapply tree_rep_key; eassumption.
Qed.

Lemma ttake_perm h t b :
  tree_rep h t -> bst t -> NoDup (tblocks t) -> b ∈ tblocks t ->
  tblocks t ≡ₚ b :: tblocks (ttake (size_at h b) b t).
Proof.
  induction t as [|l IHl k' b' ring r IHr]; intros Ht Hb Hnd Hin.
  - inversion Hin.
  - pose proof (tree_find _ _ _ _ _ _ _ Ht Hb Hin) as Hf.
    pose proof Ht as (_ & _ & _ & _ & Htl & Htr).
    pose proof Hb as (_ & _ & Hbl & Hbr).
    cbn [tblocks] in Hnd.
    apply NoDup_app in Hnd as (Hnl & Hnx & Hnd).
    apply (NoDup_app (b' :: ring)) in Hnd as (Hnb & Hny & Hnr).
    cbn [ttake tblocks].
    destruct Hf as [[Hk Hc]|[[Hk Hc]|[Hk Hc]]].
    + rewrite (proj2 (Z.ltb_lt _ _)) by lia. cbn [tblocks].
      rewrite (IHl Htl Hbl Hnl Hc) at 1. reflexivity.
    + rewrite (proj2 (Z.ltb_ge _ _)) by lia.
      rewrite Z.gtb_ltb, (proj2 (Z.ltb_ge _ _)) by lia.
      destruct (decide (b = b')) as [->|Hne].
      * destruct ring as [|s ring'].
        -- destruct r as [|rl rk rb rring rr].
           ++ cbn [tblocks]. solve_Permutation.
           ++ destruct l as [|ll lk lb lring lr]; [reflexivity|].
              destruct (tmin rl rk rb rring rr) as [[mk mb] mring] eqn:E.
              pose proof (tmin_blocks _ _ _ _ _ _ _ _ E) as HP.
              rewrite (tblocks_Node _ mk), <- HP.
              generalize (tblocks (Node ll lk lb lring lr)).
              generalize (tblocks (Node rl rk rb rring rr)).
              intros. solve_Permutation.
        -- cbn [tblocks]. solve_Permutation.
      * apply elem_of_cons in Hc as [Hc|Hc]; [contradiction|].
        apply list_elem_of_split in Hc as (r1 & r2 & ->).
        apply NoDup_cons in Hnb as [_ Hnb].
        apply NoDup_app in Hnb as (_ & Hn1 & Hn2).
        apply NoDup_cons in Hn2 as [Hn2 _].
        rewrite remove_addr_mid.
        -- cbn [tblocks]. solve_Permutation.
        -- intros H. apply (Hn1 b H). left.
        -- exact Hn2.
    + rewrite (proj2 (Z.ltb_ge _ _)) by lia.
      rewrite (proj2 (Z.gtb_lt _ _)) by lia. cbn [tblocks].
      rewrite (IHr Htr Hbr Hnr Hc) at 1. solve_Permutation.
Qed.
(** ** [del] and [take] *)

Lemma del_eq h b root l1 l2 :
  dseg h None (l1 ++ b :: l2) None ->
  spaced h (l1 ++ b :: l2) ->
  del b root h
  = Ok (match l1, l2 with
        | [], [] => (None, h)
        | [], s :: _ =>
            (Some s,
             upd (s + 4) (offset_of (ptr_of (word h (b + 4))))
               (upd (s + 3) (offset_of (ptr_of (word h (b + 3))))
                  (unlink h b)))
        | _ :: _, _ => (root, unlink h b)
        end).
Proof.
  intros Hd Hs.
  destruct (chain_ptrs h l1 b l2 Hd Hs) as [Hp Hsu].
  pose proof (spaced_brk _ _ Hs) as Hbrk.
  pose proof (spaced_in _ _ b Hs
                ltac:(apply elem_of_app; right; left)) as Hb.
  assert (Hin : forall c, c ∈ l1 ++ l2 -> 0 < c /\ c + 4 < brk h).
  { intros c Hc. apply (spaced_in _ _ c Hs).
    revert Hc. rewrite !elem_of_app, elem_of_cons. prop. }
  unfold del. repeat step. unfold unlink. rewrite Hp, Hsu.
  destruct l1 as [|p l1' _] using rev_ind; destruct l2 as [|s l2'].
  - reflexivity.
  - cbn [last_or last head_or app].
    pose proof (Hin s ltac:(left)).
    destruct Hs as ([Hf _] & _). apply Forall_cons in Hf as [Hf _].
    unfold far in Hf.
    repeat step. unfold ret. wsimp. reflexivity.
  - rewrite last_or_snoc. cbn [head_or].
    pose proof (Hin p ltac:(apply elem_of_app; left; apply elem_of_app;
                            right; left)).
    repeat step. unfold ret. destruct l1'; reflexivity.
  - rewrite last_or_snoc. cbn [head_or].
    pose proof (Hin p ltac:(apply elem_of_app; left; apply elem_of_app;
                            right; left)).
    pose proof (Hin s ltac:(apply elem_of_app; right; left)).
    repeat step. unfold ret. destruct l1'; reflexivity.
Qed.

Lemma sizes_unchanged2 h h' bs l k :
  unchanged_outside 2 bs h h' ->
  (forall c x, c ∈ bs -> x ∈ l -> c = x \/ far c x) ->
  Forall (fun x => size_at h x = k) l ->
  Forall (fun x => size_at h' x = k) l.
Proof.
  intros Hu Hf. rewrite !Forall_forall. intros H x Hx.
  unfold size_at. rewrite Hu; [apply H, Hx|].
  intros c Hc. destruct (Hf c x Hc Hx) as [->|F]; unfold far in *; lia.
Qed.

Lemma take_spec fuel : forall t h b,
  tree_rep h t -> bst t ->
  spaced h (tblocks t) ->
  b ∈ tblocks t ->
  outcome (take fuel b (troot t) h) (fuel <= theight t)%nat
    (fun r h' =>
       r = troot (ttake (size_at h b) b t) /\
       tree_rep h' (ttake (size_at h b) b t) /\
       same_globals h h' /\
       unchanged_outside 4 (tblocks (ttake (size_at h b) b t)) h h').
Proof.
  induction fuel as [|fuel IH]; intros t h b Ht Hbst Hs Hin; [simpl; lia|].
  destruct t as [|l k' b' ring r]; [inversion Hin|].
  destruct (spaced_node _ _ _ _ _ _ Hs) as (Hsl & Hsb & Hsr & Hb' & Hk & Hfar).
  pose proof (spaced_in _ _ b Hs Hin) as Hb.
  pose proof Ht as (Hd & Hsz & Hl & Hr & Htl & Htr).
  pose proof Hbst as (_ & _ & Hbl & Hbr).
  pose proof Hs as (Hap & Hbd & _).
  rewrite tblocks_Node in Hap.
  assert (Hkb' : size_at h b' = k') by (inversion Hsz; assumption).
  cbn [take troot]. step.
  rewrite cmp_uint_gtb, cmp_uint_ltb, Hkb'. cbn [ttake].
  destruct (tree_find _ _ _ _ _ _ _ Ht Hbst Hin)
    as [[Hlt Hc]|[[Heq Hc]|[Hgt Hc]]].
  - (* smaller: in the left subtree *)
    rewrite (proj2 (Z.ltb_lt _ _)) by lia.
    step. rewrite Hl, ptr_of_offset_of by (eapply troot_ok; eassumption).
    eapply outcome_bind.
    + apply (IH l h b Htl Hbl Hsl Hc).
    + cbn [theight]. lia.
    + intros n h1 (-> & Hrep & (Hg1 & Hg2 & Hg3) & Hun).
      assert (Hun' : unchanged_outside 4 (tblocks l) h h1).
      { eapply unchanged_mono; [exact Hun|lia|].
        intros x. apply tblocks_ttake_sub. }
      assert (Hsc : same_cells h h1 ((b' :: ring) ++ tblocks r)).
      { eapply frame_same_cells; [exact Hap| |exact Hun'].
        instantiate (1 := []). solve_Permutation. }
      apply same_cells_app in Hsc as [Hsc1 Hsc2].
      step. rewrite (Hsc1 b' ltac:(left) 4 ltac:(lia)), Hr,
        ptr_of_offset_of by (eapply troot_ok; eassumption).
      step. unfold ret. apply outcome_Ok.
      split; [reflexivity|]. split; [|split].
      * apply tree_rep_set_children; auto.
        -- eapply dseg_frame; eassumption.
        -- eapply Forall_size_frame; eassumption.
        -- eapply tree_rep_frame; eassumption.
        -- intros c Hc'. apply Hfar. revert Hc'.
           rewrite !elem_of_app. intros [H|[H|H]]; auto.
           left. eapply tblocks_ttake_sub. exact H.
      * repeat split; simpl; congruence.
      * intros x Hx. rewrite !word_upd_ne.
        -- apply Hun. intros c Hc'. apply Hx. cbn [tblocks].
           apply elem_of_app. left. exact Hc'.
        -- intros ->. apply (Hx b'); [|lia].
           cbn [tblocks]. apply elem_of_app. right. left.
        -- intros ->. apply (Hx b'); [|lia].
           cbn [tblocks]. apply elem_of_app. right. left.
  - (* the same size: [block] is in the chain of this node *)
    rewrite (proj2 (Z.ltb_ge _ _)) by lia.
    rewrite Z.gtb_ltb, (proj2 (Z.ltb_ge _ _)) by lia.
    assert (Hnd : NoDup (b' :: ring)) by (apply apart_NoDup, Hsb).
    assert (Hlr : forall c (j : Z), c ∈ tblocks l ++ tblocks r ->
              forall x, x ∈ b' :: ring -> far x c).
    { intros c j Hc' x Hx. apply elem_of_cons in Hx as [->|Hx].
      - apply Hfar. revert Hc'. rewrite !elem_of_app. prop.
      - apply list_elem_of_split in Hx as (x1 & x2 & ->).
        eapply (far_of_perm_rest _ _ _ (b' :: x1 ++ x2));
          [exact Hap| |exact Hc'].
        solve_Permutation. }
    destruct (decide (b = b')) as [->|Hne].
    + (* the head of the chain *)
      destruct ring as [|s ring'].
      * (* the only block of its size: the node goes *)
        rewrite (bind_Ok _ _ _ _ _ (del_eq h b' (Some b') [] [] Hd Hsb)).
        cbv iota beta. step.
        rewrite Hr, ptr_of_offset_of by (eapply troot_ok; eassumption).
        destruct r as [|rl rk rb rring rr]; cbn [troot].
        -- last_step.
           rewrite Hl, ptr_of_offset_of by (eapply troot_ok; eassumption).
           apply outcome_Ok.
           exact (conj eq_refl (conj Htl (conj (same_globals_refl h)
                                            (unchanged_refl _ _ h)))).
        -- step.
           rewrite Hl, ptr_of_offset_of by (eapply troot_ok; eassumption).
           destruct l as [|ll lk lb lring lr]; cbn [troot].
           ++ last_step.
              rewrite Hr, ptr_of_offset_of by (eapply troot_ok; eassumption).
              apply outcome_Ok.
              exact (conj eq_refl (conj Htr (conj (same_globals_refl h)
                                               (unchanged_refl _ _ h)))).
           ++ destruct (tmin rl rk rb rring rr) as [[mk mb] mring] eqn:E.
              pose proof (tmin_blocks _ _ _ _ _ _ _ _ E) as HP.
              pose proof (tmin_rep h _ _ _ _ _ _ _ _ E Htr) as [Hmd Hmk].
              eapply outcome_bind.
              ** eapply minimum_size_spec; eassumption.
              ** cbn [theight]. lia.
              ** intros m h0 [-> ->].
                 step. step.
                 rewrite Hl, Hr, !ptr_of_offset_of
                   by (eapply troot_ok; eassumption).
                 cbn [troot deref]. step.
                 eapply outcome_bind.
                 --- apply (deleteMin_size_spec fuel rl rk rb rring rr h
                              Htr Hsr).
                 --- cbn [theight]. lia.
                 --- intros n h1 (-> & Hrep & (Hg1 & Hg2 & Hg3) & Hun).
                     assert (Hbm : 0 < mb /\ mb + 4 < brk h).
                     { apply (spaced_in _ _ mb Hsr). rewrite HP. left. }
                     set (tl := Node ll lk lb lring lr) in *.
                     set (td := tdelmin rl rk rb rring rr) in *.
                     rewrite HP in Hap.
                     assert (Hsc : same_cells h h1
                                     (tblocks tl ++ mb :: mring)).
                     { eapply frame_same_cells; [exact Hap| |exact Hun].
                       instantiate (1 := [b']). solve_Permutation. }
                     apply same_cells_app in Hsc as [Hsc1 Hsc2].
                     step. unfold ret. apply outcome_Ok.
                     split; [reflexivity|]. split; [|split].
                     +++ apply tree_rep_set_children; auto.
                         *** eapply dseg_frame; eassumption.
                         *** eapply Forall_size_frame; eassumption.
                         *** eapply tree_rep_frame; eassumption.
                         *** intros c Hc'.
                             eapply (far_of_perm_rest _ _ _ [b']);
                               [exact Hap| |exact Hc'].
                             solve_Permutation.
                     +++ repeat split; simpl; congruence.
                     +++ intros x Hx. rewrite !word_upd_ne.
                         *** apply Hun. intros c Hc'. apply Hx.
                             rewrite tblocks_Node. fold td.
                             rewrite !elem_of_app. auto.
                         *** intros ->. apply (Hx mb); [|lia].
                             rewrite tblocks_Node.
                             apply elem_of_app. right. left.
                         *** intros ->. apply (Hx mb); [|lia].
                             rewrite tblocks_Node.
                             apply elem_of_app. right. left.
      * (* its successor in the chain becomes the node *)
        rewrite (bind_Ok _ _ _ _ _
                   (del_eq h b' (Some b') [] (s :: ring') Hd Hsb)).
        cbv iota beta. unfold ret.
        destruct (unlink_dseg h [] b' (s :: ring') Hd Hsb)
          as (Hd' & Hun & Hg1 & Hg2 & Hg3).
        cbn [app] in Hd', Hun.
        rewrite Hl, Hr, !ptr_of_offset_of by (eapply troot_ok; eassumption).
        apply outcome_Ok. split; [reflexivity|].
        assert (Hsc : same_cells h (unlink h b') (tblocks l ++ tblocks r)).
        { eapply unchanged_same_cells; [|exact Hun|]; [lia|].
          intros c c' Hc1 Hc2. apply (Hlr c' 0 Hc2). right. exact Hc1. }
        apply same_cells_app in Hsc as [Hsc1 Hsc2].
        assert (Hfs : forall c, c ∈ ring' ++ tblocks l ++ tblocks r ->
                      far s c).
        { intros c Hc'.
          eapply (far_of_perm_rest _ _ _ [b']); [exact Hap| |exact Hc'].
          solve_Permutation. }
        split; [|split].
        -- apply tree_rep_set_children; auto.
           ++ eapply sizes_unchanged2; [exact Hun| |].
              ** intros c x Hc1 Hc2.
                 eapply apart_far; [apply Hsb| |]; right; assumption.
              ** apply Forall_cons in Hsz as [_ Hsz]. exact Hsz.
           ++ eapply tree_rep_frame; eassumption.
           ++ eapply tree_rep_frame; eassumption.
        -- repeat split; simpl; congruence.
        -- intros x Hx. rewrite !word_upd_ne.
           ++ apply Hun. intros c Hc' Hr'. apply (Hx c); [|lia].
              rewrite tblocks_Node.
              apply elem_of_app. right. apply elem_of_app. left. exact Hc'.
           ++ intros ->. apply (Hx s); [|lia].
              rewrite tblocks_Node. apply elem_of_app. right. left.
           ++ intros ->. apply (Hx s); [|lia].
              rewrite tblocks_Node. apply elem_of_app. right. left.
    + (* further down the chain *)
      apply elem_of_cons in Hc as [Hc|Hc]; [contradiction|].
      apply list_elem_of_split in Hc as (r1 & r2 & ->).
      change (b' :: r1 ++ b :: r2) with ((b' :: r1) ++ b :: r2) in *.
      rewrite (bind_Ok _ _ _ _ _
                 (del_eq h b (Some b') (b' :: r1) r2 Hd Hsb)).
      cbv iota beta. unfold ret.
      destruct (unlink_dseg h (b' :: r1) b r2 Hd Hsb)
        as (Hd' & Hun & Hg1 & Hg2 & Hg3).
      apply NoDup_app in Hnd as (_ & Hn1 & Hn2).
      apply NoDup_cons in Hn2 as [Hn2 _].
      rewrite remove_addr_mid;
        [|intros H; apply (Hn1 b); [right; exact H|left]|exact Hn2].
      apply outcome_Ok. split; [reflexivity|].
      assert (Hsub : forall c, c ∈ (b' :: r1) ++ r2 ->
                     c ∈ (b' :: r1) ++ b :: r2).
      { intros c. rewrite !elem_of_app, !elem_of_cons. prop. }
      assert (Hsc : same_cells h (unlink h b) (tblocks l ++ tblocks r)).
      { eapply unchanged_same_cells; [|exact Hun|]; [lia|].
        intros c c' Hc1 Hc2. apply (Hlr c' 0 Hc2). apply Hsub, Hc1. }
      apply same_cells_app in Hsc as [Hsc1 Hsc2].
      assert (Hw : forall x, b' + 3 <= x <= b' + 4 ->
                   word (unlink h b) x = word h x).
      { intros x Hx. apply Hun. intros c Hc'.
        apply elem_of_app in Hc' as [Hc'|Hc'].
        - apply elem_of_cons in Hc' as [->|Hc']; [lia|].
          assert (F : far b' c).
          { apply Hfar. rewrite !elem_of_app, !elem_of_cons. prop. }
          unfold far in F. lia.
        - assert (F : far b' c).
          { apply Hfar. rewrite !elem_of_app, !elem_of_cons. prop. }
          unfold far in F. lia. }
      split; [|split].
      * cbn [tree_rep].
        refine (conj Hd' (conj _ (conj _ (conj _ (conj _ _))))).
        -- eapply sizes_unchanged2; [exact Hun| |].
           ++ intros c x Hc1 Hc2.
              eapply apart_far; [apply Hsb| |]; apply Hsub; assumption.
           ++ rewrite Forall_forall in Hsz. apply Forall_forall.
              intros x Hx. apply Hsz, Hsub, Hx.
        -- rewrite Hw by lia. exact Hl.
        -- rewrite Hw by lia. exact Hr.
        -- eapply tree_rep_frame; eassumption.
        -- eapply tree_rep_frame; eassumption.
      * repeat split; assumption.
      * eapply unchanged_mono; [exact Hun|lia|].
        intros x Hx. rewrite tblocks_Node.
        apply elem_of_app. right. apply elem_of_app. left. exact Hx.
  - (* larger: in the right subtree *)
    rewrite (proj2 (Z.ltb_ge _ _)) by lia.
    rewrite (proj2 (Z.gtb_lt _ _)) by lia.
    step. step.
    rewrite Hl, Hr, !ptr_of_offset_of by (eapply troot_ok; eassumption).
    eapply outcome_bind.
    + apply (IH r h b Htr Hbr Hsr Hc).
    + cbn [theight]. lia.
    + intros n h1 (-> & Hrep & (Hg1 & Hg2 & Hg3) & Hun).
      assert (Hun' : unchanged_outside 4 (tblocks r) h h1).
      { eapply unchanged_mono; [exact Hun|lia|].
        intros x. apply tblocks_ttake_sub. }
      assert (Hsc : same_cells h h1 (tblocks l ++ b' :: ring)).
      { eapply frame_same_cells; [exact Hap| |exact Hun'].
        instantiate (1 := []). solve_Permutation. }
      apply same_cells_app in Hsc as [Hsc1 Hsc2].
      step. unfold ret. apply outcome_Ok.
      split; [reflexivity|]. split; [|split].
      * apply tree_rep_set_children; auto.
        -- eapply dseg_frame; eassumption.
        -- eapply Forall_size_frame; eassumption.
        -- eapply tree_rep_frame; eassumption.
        -- intros c Hc'. apply Hfar. revert Hc'.
           rewrite !elem_of_app. intros [H|[H|H]]; auto.
           right. right. eapply tblocks_ttake_sub. exact H.
      * repeat split; simpl; congruence.
      * intros x Hx. rewrite !word_upd_ne.
        -- apply Hun. intros c Hc'. apply Hx. cbn [tblocks].
           apply elem_of_app. right. apply elem_of_app. right. exact Hc'.
        -- intros ->. apply (Hx b'); [|lia].
           cbn [tblocks]. apply elem_of_app. right. left.
        -- intros ->. apply (Hx b'); [|lia].
           cbn [tblocks]. apply elem_of_app. right. left.
Qed.
(** ** Finding a fit *)

Lemma tnodes_keys t : tkeys t = map (fun n => n.1.1) (tnodes t).
Proof.
  induction t as [|l IHl k b ring r IHr]; cbn [tkeys tnodes]; [reflexivity|].
  rewrite map_app. cbn [map]. rewrite IHl, IHr. reflexivity.
Qed.

Lemma tnodes_key_in t k b ring : (k, b, ring) ∈ tnodes t -> k ∈ tkeys t.
Proof.
  intros H. rewrite tnodes_keys. apply list_elem_of_In, in_map_iff.
  exists (k, b, ring). split; [reflexivity|]. apply list_elem_of_In, H.
Qed.

Lemma tnodes_blocks t k b ring c :
  (k, b, ring) ∈ tnodes t -> c ∈ b :: ring -> c ∈ tblocks t.
Proof.
  induction t as [|l IHl k' b' ring' r IHr]; cbn [tnodes tblocks].
  - intros H. inversion H.
  - rewrite !elem_of_app, elem_of_cons. intros [H|[H|H]] Hc; auto.
    injection H as <- <- <-. auto.
Qed.

(** [tceiling] finds the node of the least key that is at least [w]. *)
Lemma tceiling_spec w t :
  bst t ->
  match tceiling w t with
  | Some c => exists k ring,
      (k, c, ring) ∈ tnodes t /\ w <= k /\
      (forall k', k' ∈ tkeys t -> w <= k' -> k <= k')
  | None => forall k', k' ∈ tkeys t -> k' < w
  end.
Proof.
  induction t as [|l IHl k b ring r IHr]; cbn [tceiling bst tkeys tnodes].
  - intros _ k' H. inversion H.
  - intros (Hl & Hr & Bl & Br). specialize (IHl Bl). specialize (IHr Br).
    rewrite Forall_forall in Hl, Hr.
    destruct (Z.eqb_spec w k) as [->|Hne].
    + exists k, ring. split; [apply elem_of_app; right; left|].
      split; [lia|]. intros k' _ Hk. exact Hk.
    + destruct (w >? k) eqn:E.
      * apply Z.gtb_lt in E. destruct (tceiling w r) as [c|].
        -- destruct IHr as (k0 & ring0 & Hin & Hw & Hmin).
           exists k0, ring0.
           split; [apply elem_of_app; right; right; exact Hin|].
           split; [exact Hw|]. intros k'.
           rewrite elem_of_app, elem_of_cons. intros [H|[->|H]] Hk.
           ++ specialize (Hl k' H). lia.
           ++ lia.
           ++ apply Hmin; assumption.
        -- intros k'. rewrite elem_of_app, elem_of_cons. intros [H|[->|H]].
           ++ specialize (Hl k' H). lia.
           ++ lia.
           ++ apply IHr. exact H.
      * rewrite Z.gtb_ltb in E. apply Z.ltb_ge in E.
        destruct (tceiling w l) as [c|].
        -- destruct IHl as (k0 & ring0 & Hin & Hw & Hmin).
           pose proof (Hl k0 (tnodes_key_in _ _ _ _ Hin)) as Hk0.
           exists k0, ring0. split; [apply elem_of_app; left; exact Hin|].
           split; [exact Hw|]. intros k'.
           rewrite elem_of_app, elem_of_cons. intros [H|[->|H]] Hk.
           ++ apply Hmin; assumption.
           ++ lia.
           ++ specialize (Hr k' H). lia.
        -- exists k, ring. split; [apply elem_of_app; right; left|].
           split; [lia|]. intros k'.
           rewrite elem_of_app, elem_of_cons. intros [H|[->|H]] Hk.
           ++ specialize (IHl k' H). lia.
           ++ lia.
           ++ specialize (Hr k' H). lia.
Qed.

(** The chain of a node of a represented tree. *)
Lemma tree_rep_node h t k b ring :
  tree_rep h t -> (k, b, ring) ∈ tnodes t ->
  dseg h None (b :: ring) None /\
  Forall (fun x => size_at h x = k) (b :: ring).
Proof.
  induction t as [|l IHl k' b' ring' r IHr]; cbn [tree_rep tnodes].
  - intros _ H. inversion H.
  - intros (Hd & Hk & _ & _ & Hl & Hr).
    rewrite elem_of_app, elem_of_cons. intros [H|[H|H]]; auto.
    injection H as <- <- <-. auto.
Qed.

Lemma small_find_fit_chain_head fuel b w h :
  0 <= b < brk h -> w <= size_at h b ->
  small_find_fit_chain (S fuel) (Some b) w h = Ok (Some b, h).
Proof.
  intros Hb Hw. cbn [small_find_fit_chain]. step.
  rewrite (proj2 (Z.geb_le _ _)) by lia. reflexivity.
Qed.

(** The scan of the heads from class [i] on. *)
Lemma small_find_fit_from_spec fuel h w : forall (ls : list (list addr)) n i,
  (forall j l, ls !! j = Some l ->
     Forall (fun b => 0 <= b < brk h /\ w <= size_at h b) l) ->
  0 <= i ->
  drop (Z.to_nat i) (seg_list h) = map (fun l => head_or l None) ls ->
  n = length ls ->
  small_find_fit_from (S fuel) n i w h = Ok (head (concat ls), h).
Proof.
  induction ls as [|l ls IH]; intros n i Hall Hi Hdrop ->.
  - reflexivity.
  - cbn [length small_find_fit_from].
    assert (Hhd : seg_list h !! Z.to_nat i = Some (head_or l None)).
    { rewrite <- (Nat.add_0_r (Z.to_nat i)), <- lookup_drop, Hdrop.
      reflexivity. }
    rewrite (bind_Ok _ _ _ _ _ (seg_get_eq i _ h Hi Hhd)).
    assert (Hrest : small_find_fit_from (S fuel) (length ls) (i + 1) w h
                    = Ok (head (concat ls), h)).
    { apply IH; [|lia| |reflexivity].
      - intros j lj Hj. apply (Hall (S j)). exact Hj.
      - replace (Z.to_nat (i + 1)) with (Z.to_nat i + 1)%nat by lia.
        rewrite <- drop_drop, Hdrop. reflexivity. }
    destruct l as [|b l]; cbn [head_or concat app].
    + exact Hrest.
    + specialize (Hall O (b :: l) eq_refl).
      apply Forall_cons in Hall as [[Hb Hw] _].
      rewrite (bind_Ok _ _ _ _ _
                 (small_find_fit_chain_head fuel b w h Hb Hw)).
      reflexivity.
Qed.

Lemma ceiling_spec fuel : forall t h w sres,
  (forall f, w <= SEG_LIST_SIZE * 2 ->
             small_find_fit (S f) w h = Ok (sres, h)) ->
  tree_rep h t -> spaced h (tblocks t) ->
  outcome (ceiling fuel w (troot t) h) (fuel <= theight t)%nat
    (fun r h' =>
       h' = h /\
       r = match (if w <=? SEG_LIST_SIZE * 2 then sres else None) with
           | Some b => Some b
           | None => tceiling w t
           end).
Proof.
  induction fuel as [|fuel IH]; intros t h w sres Hsm Ht Hs; [simpl; lia|].
  cbn [ceiling].
  assert (Hfirst : (if w <=? SEG_LIST_SIZE * 2
                    then small_find_fit (S fuel) w else ret None) h
                   = Ok (if w <=? SEG_LIST_SIZE * 2 then sres else None, h)).
  { destruct (Z.leb_spec w (SEG_LIST_SIZE * 2)); [|reflexivity].
    apply Hsm. assumption. }
  rewrite (bind_Ok _ _ _ _ _ Hfirst).
  destruct (if w <=? SEG_LIST_SIZE * 2 then sres else None) as [b|] eqn:E.
  { unfold ret. apply outcome_Ok. auto. }
  destruct t as [|l k b ring r]; cbn [troot tceiling].
  { unfold ret. apply outcome_Ok. auto. }
  destruct (spaced_node _ _ _ _ _ _ Hs) as (Hsl & Hsb & Hsr & Hb & Hk & Hfar).
  pose proof Ht as (Hd & Hsz & Hl & Hr & Htl & Htr).
  assert (Hkb : size_at h b = k) by (inversion Hsz; assumption).
  step. rewrite Hkb. unfold cmp_uint.
  destruct (Z.eqb_spec w k) as [->|Hne].
  - rewrite Z.gtb_ltb, !Z.ltb_irrefl. cbn [Z.eqb]. unfold ret.
    apply outcome_Ok. auto.
  - destruct (w >? k) eqn:E1.
    + cbn [Z.eqb Z.gtb Z.compare]. step.
      rewrite Hr, ptr_of_offset_of by (eapply troot_ok; eassumption).
      eapply outcome_weaken.
      * apply (IH r h w sres Hsm Htr Hsr).
      * cbn [theight]. lia.
      * intros a h' [-> ->]. rewrite E. auto.
    + assert (E2 : (w <? k) = true).
      { rewrite Z.gtb_ltb in E1. apply Z.ltb_ge in E1. apply Z.ltb_lt. lia. }
      rewrite E2. cbn [Z.eqb Z.gtb Z.compare]. step.
      rewrite Hl, ptr_of_offset_of by (eapply troot_ok; eassumption).
      eapply outcome_bind.
      * apply (IH l h w sres Hsm Htl Hsl).
      * cbn [theight]. lia.
      * intros a h' [-> ->]. rewrite E.
        destruct (tceiling w l); unfold ret; apply outcome_Ok; auto.
Qed.

(** The heads of the chains: their [block_pred] is [NULL]. *)
Lemma minimum_address_head fuel b h :
  0 <= b + 1 < brk h -> word h (b + 1) = offset_of None ->
  minimum (S fuel) b ADDRESS h = Ok (b, h).
Proof.
  intros Hb Hw. cbn [minimum]. change (ADDRESS =? ADDRESS) with true.
  cbv iota. step. rewrite Hw. reflexivity.
Qed.

Lemma tnodes_head_pred h t k b ring :
  tree_rep h t -> (k, b, ring) ∈ tnodes t -> word h (b + 1) = offset_of None.
Proof.
  intros Ht Hin. destruct (tree_rep_node _ _ _ _ _ Ht Hin) as [(H & _) _].
  exact H.
Qed.

Lemma head_concat_in (ls : list (list addr)) b :
  head (concat ls) = Some b ->
  exists j l, ls !! j = Some (b :: l).
Proof.
  induction ls as [|l ls IH]; [discriminate|].
  destruct l as [|c l]; cbn [concat app head].
  - intros H. destruct (IH H) as (j & l' & Hj). exists (S j), l'. exact Hj.
  - intros [= ->]. exists O, l. reflexivity.
Qed.

Lemma head_concat_none (ls : list (list addr)) :
  head (concat ls) = None -> forall j l, ls !! j = Some l -> l = [].
Proof.
  induction ls as [|l0 ls IH]; intros H j l Hj; [discriminate|].
  destruct l0 as [|c l0]; [|discriminate].
  destruct j as [|j]; [injection Hj as <-; reflexivity|].
  eapply IH; eassumption.
Qed.

Lemma find_index_even w :
  2 <= w <= SEG_LIST_SIZE * 2 -> Z.even w = true ->
  0 <= find_index w < SEG_LIST_SIZE /\ w = 2 * (find_index w + 1).
Proof.
  unfold SEG_LIST_SIZE. intros Hw He.
  apply Z.even_spec in He as [m ->].
  unfold find_index, u32, to_int.
  replace (2 * m - 2) with ((m - 1) * 2) by lia.
  rewrite Z.mod_small by lia. rewrite Z.div_mul by lia.
  destruct (Z.ltb_spec (m - 1) (2 ^ 31)); lia.
Qed.

Lemma in_concat_lookup (ls : list (list addr)) j l c :
  ls !! j = Some l -> c ∈ l -> c ∈ concat ls.
Proof.
  intros Hj Hc. apply list_elem_of_In, in_concat. exists l.
  split; apply list_elem_of_In; [|exact Hc].
  eapply list_elem_of_lookup_2. exact Hj.
Qed.

Lemma small_find_fit_spec h ix w f :
  index_rep h ix -> spaced h (iblocks ix) ->
  2 <= w <= SEG_LIST_SIZE * 2 -> Z.even w = true ->
  small_find_fit (S f) w h
  = Ok (head (concat (drop (Z.to_nat (find_index w)) (smalls ix))), h).
Proof.
  intros (Hsl & Hlen & Hsm & _) Hs Hw He.
  destruct (find_index_even w Hw He) as [Hi Hwi].
  unfold small_find_fit.
  apply small_find_fit_from_spec.
  - intros j l Hj. rewrite lookup_drop in Hj.
    destruct (Hsm _ _ Hj) as [_ Hsz].
    apply Forall_forall. intros b Hb. rewrite Forall_forall in Hsz.
    rewrite (Hsz b Hb).
    assert (Hin : b ∈ iblocks ix).
    { apply elem_of_app. left. eapply in_concat_lookup; eassumption. }
    pose proof (spaced_in _ _ _ Hs Hin). lia.
  - lia.
  - rewrite Hsl. rewrite fmap_drop. reflexivity.
  - rewrite length_drop, Hlen. unfold SEG_LIST_SIZE in *. lia.
Qed.

Lemma find_fit_spec fuel h ix w :
  index_rep h ix -> spaced h (iblocks ix) ->
  2 <= w -> Z.even w = true ->
  outcome (find_fit fuel w h) (fuel <= theight (bigs ix))%nat
    (fun r h' => h' = h /\ r = ifind w ix).
Proof.
  intros Hix Hs Hw He.
  pose proof Hix as (Hsl & Hlen & Hsm & Hroot & Ht & Hbst & Hkeys).
  pose proof (spaced_app _ _ _ Hs) as [Hss Hst].
  unfold find_fit. step. rewrite Hroot.
  eapply outcome_bind.
  - apply (ceiling_spec fuel (bigs ix) h w
             (head (concat (drop (Z.to_nat (find_index w)) (smalls ix)))));
      [|exact Ht|exact Hst].
    intros f Hle. apply small_find_fit_spec; auto.
  - auto.
  - intros r h1 [-> Hr]. change (r = ifind w ix) in Hr. subst r.
    destruct (ifind w ix) as [b|] eqn:E; [|unfold ret; apply outcome_Ok; auto].
    destruct fuel as [|fuel'].
    { (* no budget: [ceiling] cannot have returned *)
      simpl. lia. }
    assert (Hb : b ∈ iblocks ix /\ word h (b + 1) = offset_of None).
    { unfold ifind in E.
      destruct (if w <=? SEG_LIST_SIZE * 2
                then head (concat (drop (Z.to_nat (find_index w)) (smalls ix)))
                else None) as [c|] eqn:E1.
      - injection E as ->.
        destruct (w <=? SEG_LIST_SIZE * 2); [|discriminate].
        apply head_concat_in in E1 as (j & l & Hj).
        rewrite lookup_drop in Hj.
        destruct (Hsm _ _ Hj) as [(Hp & _) _].
        split; [|exact Hp].
        apply elem_of_app. left. eapply in_concat_lookup; [exact Hj|left].
      - pose proof (tceiling_spec w (bigs ix) Hbst) as Hc.
        rewrite E in Hc. destruct Hc as (k & ring & Hin & _).
        split.
        + apply elem_of_app. right. eapply tnodes_blocks; [exact Hin|left].
        + eapply tnodes_head_pred; eassumption. }
    destruct Hb as [Hb Hp].
    pose proof (spaced_in _ _ _ Hs Hb).
    rewrite (bind_Ok _ _ _ _ _
               (minimum_address_head fuel' b h ltac:(lia) Hp)).
    unfold ret. apply outcome_Ok. auto.
Qed.
(** ** The index as a whole *)

Lemma concat_alter_cons (ls : list (list addr)) : forall i l b,
  ls !! i = Some l -> concat (alter (cons b) i ls) ≡ₚ b :: concat ls.
Proof.
  induction ls as [|l0 ls IH]; intros i l b Hi; [discriminate|].
  destruct i as [|i]; cbn [alter list_alter concat].
  - reflexivity.
  - rewrite (IH i l b Hi). solve_Permutation.
Qed.

Lemma concat_alter_remove (ls : list (list addr)) : forall i l1 l2 b,
  ls !! i = Some (l1 ++ b :: l2) -> b ∉ l1 -> b ∉ l2 ->
  concat ls ≡ₚ b :: concat (alter (remove_addr b) i ls).
Proof.
  induction ls as [|l0 ls IH]; intros i l1 l2 b Hi H1 H2; [discriminate|].
  destruct i as [|i]; cbn [alter list_alter concat].
  - injection Hi as ->. rewrite remove_addr_mid by assumption.
    solve_Permutation.
  - rewrite (IH i l1 l2 b Hi H1 H2). solve_Permutation.
Qed.

Lemma sublist_concat_lookup (ls : list (list addr)) : forall i l,
  ls !! i = Some l -> l `sublist_of` concat ls.
Proof.
  induction ls as [|l0 ls IH]; intros i l Hi; [discriminate|].
  destruct i as [|i]; cbn [concat].
  - injection Hi as ->. apply sublist_inserts_r. reflexivity.
  - apply sublist_inserts_l. eapply IH. exact Hi.
Qed.

Lemma iblocks_iinsert k b ix l :
  (k <= SEG_LIST_SIZE * 2 -> smalls ix !! Z.to_nat (find_index k) = Some l) ->
  iblocks (iinsert k b ix) ≡ₚ b :: iblocks ix.
Proof.
  intros Hl. unfold iinsert, iblocks.
  destruct (Z.leb_spec k (SEG_LIST_SIZE * 2)); cbn [smalls bigs].
  - rewrite (concat_alter_cons _ _ l b (Hl ltac:(assumption))). reflexivity.
  - rewrite tblocks_tput. solve_Permutation.
Qed.

(** Touched words, from the per-class frames. *)
Lemma unchanged_frame n bs h h' S :
  unchanged_outside n bs h h' ->
  (forall c, c ∈ bs ->
     c ∈ S /\ n <= (if size_at h c <=? SEG_LIST_SIZE * 2 then 2 else 4)) ->
  forall x, ~ touched h S x -> word h' x = word h x.
Proof.
  intros Hu Hb x Hx. apply Hu. intros c Hc Hr.
  destruct (Hb c Hc) as [Hin Hn]. apply Hx. exists c. split; [exact Hin|lia].
Qed.

Lemma size_unchanged n bs h h' x :
  n <= 4 -> unchanged_outside n bs h h' ->
  (forall c, c ∈ bs -> c = x \/ far c x) ->
  size_at h' x = size_at h x.
Proof.
  intros Hn Hu Hf. unfold size_at. rewrite Hu; [reflexivity|].
  intros c Hc. destruct (Hf c Hc) as [->|F]; unfold far in *; lia.
Qed.

(** The classes of the index by the size of their blocks. *)
Lemma index_class h ix c :
  index_rep h ix -> c ∈ iblocks ix ->
  (exists (i : nat) l, smalls ix !! i = Some l /\ c ∈ l /\ (i < 6)%nat /\
                       size_at h c = 2 * (Z.of_nat i + 1)) \/
  (c ∈ tblocks (bigs ix) /\ SEG_LIST_SIZE * 2 < size_at h c).
Proof.
  intros (Hsl & Hlen & Hsm & Hroot & Ht & Hbst & Hkeys) Hc.
  apply elem_of_app in Hc as [Hc|Hc].
  - left. apply list_elem_of_In, in_concat in Hc as (l & Hl & Hc).
    apply list_elem_of_In, list_elem_of_lookup in Hl as (i & Hi).
    apply list_elem_of_In in Hc.
    exists i, l. split; [exact Hi|]. split; [exact Hc|].
    pose proof (lookup_lt_Some _ _ _ Hi) as Hlt. rewrite Hlen in Hlt.
    split; [unfold SEG_LIST_SIZE in Hlt; lia|].
    destruct (Hsm i l Hi) as [_ Hsz]. rewrite Forall_forall in Hsz. auto.
  - right. split; [exact Hc|].
    rewrite Forall_forall in Hkeys. apply Hkeys.
    eapply tree_rep_key; eassumption.
Qed.

Lemma index_rep_small_class h ix (i : nat) l :
  index_rep h ix -> smalls ix !! i = Some l ->
  (i < 6)%nat /\ seg_list h !! i = Some (head_or l None) /\
  (i < length (seg_list h))%nat /\ small_rep h i l.
Proof.
  intros (Hsl & Hlen & Hsm & _) Hi.
  pose proof (lookup_lt_Some _ _ _ Hi) as Hlt.
  split; [rewrite Hlen in Hlt; unfold SEG_LIST_SIZE in Hlt; lia|].
  split; [rewrite Hsl, list_lookup_fmap, Hi; reflexivity|].
  split; [rewrite Hsl, length_map; exact Hlt|]. auto.
Qed.

Lemma far_by_size h U c c' :
  apart U -> c ∈ U -> c' ∈ U -> size_at h c <> size_at h c' -> far c c'.
Proof.
  intros Ha Hc Hc' Hne. destruct (apart_far U c c' Ha Hc Hc') as [->|F];
    [contradiction|exact F].
Qed.

Lemma index_rep_small_update h h' ix (i : nat) l (f : list addr -> list addr) :
  index_rep h ix -> smalls ix !! i = Some l ->
  seg_list h' = <[i := head_or (f l) None]> (seg_list h) ->
  seg_root h' = seg_root h ->
  small_rep h' i (f l) ->
  (forall j lj, j <> i -> smalls ix !! j = Some lj -> same_cells h h' lj) ->
  same_cells h h' (tblocks (bigs ix)) ->
  index_rep h' (Index (alter f i (smalls ix)) (bigs ix)).
Proof.
  intros (Hsl & Hlen & Hsm & Hroot & Ht & Hbst & Hkeys) Hi Hsl' Hroot' Hrep
    Hother Htree.
  unfold index_rep. cbn [smalls bigs].
  refine (conj _ (conj _ (conj _ (conj _ (conj _ (conj Hbst Hkeys)))))).
  - rewrite Hsl', Hsl.
    apply list_eq. intros j. destruct (decide (j = i)) as [->|Hne].
    + rewrite list_lookup_insert_eq
        by (rewrite length_map; eapply lookup_lt_Some; exact Hi).
      rewrite list_lookup_fmap, list_lookup_alter_eq, Hi. reflexivity.
    + rewrite list_lookup_insert_ne by congruence.
      rewrite !list_lookup_fmap, list_lookup_alter_ne by congruence.
      reflexivity.
  - rewrite length_alter. exact Hlen.
  - intros j lj Hj. destruct (decide (j = i)) as [->|Hne].
    + rewrite list_lookup_alter_eq, Hi in Hj. injection Hj as <-. exact Hrep.
    + rewrite list_lookup_alter_ne in Hj by congruence.
      eapply small_rep_frame; [eapply Hother; eassumption|]. auto.
  - congruence.
  - eapply tree_rep_frame; eassumption.
Qed.

Lemma index_rep_tree_update h h' ix t' :
  index_rep h ix ->
  seg_list h' = seg_list h -> seg_root h' = troot t' ->
  tree_rep h' t' -> bst t' ->
  Forall (fun k => SEG_LIST_SIZE * 2 < k) (tkeys t') ->
  same_cells h h' (concat (smalls ix)) ->
  index_rep h' (Index (smalls ix) t').
Proof.
  intros (Hsl & Hlen & Hsm & Hroot & Ht & Hbst & Hkeys) Hsl' Hroot' Hrep
    Hbst' Hkeys' Hsame.
  unfold index_rep. cbn [smalls bigs].
  refine (conj _ (conj Hlen (conj _ (conj Hroot' (conj Hrep
            (conj Hbst' Hkeys')))))).
  - congruence.
  - intros j lj Hj. eapply small_rep_frame; [|apply Hsm, Hj].
    eapply same_cells_sub; [exact Hsame|].
    intros c Hc. eapply in_concat_lookup; eassumption.
Qed.

Lemma tree_rep_ext h h' t :
  (forall x, word h' x = word h x) -> tree_rep h t -> tree_rep h' t.
Proof.
  intros H. apply tree_rep_frame. intros c _ j _. apply H.
Qed.

Lemma block_insert_spec fuel h ix b :
  index_rep h ix ->
  spaced h (b :: iblocks ix) ->
  2 <= size_at h b -> Z.even (size_at h b) = true ->
  outcome (block_insert fuel b h) (fuel <= theight (bigs ix))%nat
    (fun _ h' =>
       index_rep h' (iinsert (size_at h b) b ix) /\
       frame h h' (b :: iblocks ix)).
Proof.
  intros Hix Hs Hk2 Hev.
  pose proof Hix as (Hsl & Hlen & Hsm & Hroot & Ht & Hbst & Hkeys).
  pose proof (spaced_brk _ _ Hs) as Hbrk.
  pose proof (spaced_in _ _ b Hs ltac:(left)) as Hb.
  pose proof Hs as ([Hfb Hap] & Hbd & _).
  rewrite Forall_forall in Hfb.
  assert (Hs' : spaced h (iblocks ix)).
  { apply spaced_cons in Hs as (_ & _ & Hs). exact Hs. }
  unfold block_insert, iinsert. step.
  destruct (Z.leb_spec (size_at h b) (SEG_LIST_SIZE * 2)) as [Hle|Hgt].
  - (* a small class *)
    destruct (find_index_even _ (conj Hk2 Hle) Hev) as [Hi Hki].
    set (i := Z.to_nat (find_index (size_at h b))).
    assert (Hii : Z.of_nat i = find_index (size_at h b)) by (unfold i; lia).
    assert (Hlt : (i < length (smalls ix))%nat).
    { rewrite Hlen. unfold SEG_LIST_SIZE in *. lia. }
    destruct (lookup_lt_is_Some_2 _ _ Hlt) as [l Hl].
    destruct (index_rep_small_class h ix i l Hix Hl)
      as (Hi6 & Hhd & Hlen' & Hd & Hsz).
    assert (Hlsub : forall c, c ∈ l -> c ∈ iblocks ix).
    { intros c Hc. apply elem_of_app. left.
      eapply in_concat_lookup; eassumption. }
    assert (Hsbl : spaced h (b :: l)).
    { eapply spaced_sub; [exact Hs|]. apply sublist_skip.
      apply sublist_inserts_r. eapply sublist_concat_lookup. exact Hl. }
    assert (Hszb : size_at h b = 2 * (Z.of_nat i + 1)) by lia.
    destruct (small_block_insert_spec h b i l Hi6 Hszb Hhd Hd Hsbl)
      as (h' & Heq & Hd' & Hsl' & Hbrk' & Hroot' & Hun).
    rewrite Heq. apply outcome_Ok.
    assert (Hszl : forall c, c ∈ b :: l -> size_at h c = 2 * (Z.of_nat i + 1)).
    { intros c Hc. apply elem_of_cons in Hc as [->|Hc]; [exact Hszb|].
      rewrite Forall_forall in Hsz. auto. }
    assert (Hfar : forall c c', c ∈ b :: l -> c' ∈ iblocks ix ->
              size_at h c' <> 2 * (Z.of_nat i + 1) -> far c c').
    { intros c c' Hc Hc' Hne. apply elem_of_cons in Hc as [->|Hc]; [auto|].
      eapply (far_by_size h); [exact Hap|auto|exact Hc'|].
      rewrite (Hszl c ltac:(right; exact Hc)). congruence. }
    split.
    + eapply index_rep_small_update with (l := l); try eassumption.
      * split; [exact Hd'|]. apply Forall_forall. intros c Hc.
        rewrite (size_unchanged 2 (b :: l) h h' c ltac:(lia) Hun);
          [apply Hszl, Hc|].
        intros c0 Hc0. eapply apart_far; [apply Hsbl| |]; assumption.
      * intros j lj Hne Hj.
        destruct (index_rep_small_class h ix j lj Hix Hj)
          as (_ & _ & _ & _ & Hszj).
        eapply unchanged_same_cells; [|exact Hun|]; [lia|].
        intros c c' Hc Hc'. apply Hfar; [exact Hc| |].
        -- apply elem_of_app. left. eapply in_concat_lookup; eassumption.
        -- rewrite Forall_forall in Hszj. rewrite (Hszj c' Hc'). lia.
      * eapply unchanged_same_cells; [|exact Hun|]; [lia|].
        intros c c' Hc Hc'. apply Hfar; [exact Hc| |].
        -- apply elem_of_app. right. exact Hc'.
        -- pose proof (tree_rep_key h _ c' Ht Hc') as Hkey.
           rewrite Forall_forall in Hkeys. specialize (Hkeys _ Hkey).
           unfold SEG_LIST_SIZE in *. lia.
    + split; [exact Hbrk'|]. eapply unchanged_frame; [exact Hun|].
      intros c Hc. split.
      * apply elem_of_cons in Hc as [->|Hc]; [left|right; auto].
      * rewrite (Hszl c Hc). rewrite (proj2 (Z.leb_le _ _)); lia.
  - (* the tree *)
    step. rewrite Hroot.
    assert (Hsbt : spaced h (b :: tblocks (bigs ix))).
    { eapply spaced_sub; [exact Hs|]. apply sublist_skip.
      apply sublist_inserts_l. reflexivity. }
    eapply outcome_bind.
    + apply (put_spec fuel (bigs ix) h b Ht Hsbt).
      unfold SEG_LIST_SIZE in Hgt. lia.
    + auto.
    + intros r' h1 (-> & Hrep & (Hg1 & Hg2 & Hg3) & Hun).
      unfold root_set. apply outcome_Ok.
      assert (Hsame : same_cells h h1 (concat (smalls ix))).
      { eapply unchanged_same_cells; [|exact Hun|]; [lia|].
        intros c c' Hc Hc'.
        assert (Hin' : c' ∈ iblocks ix) by (apply elem_of_app; left; exact Hc').
        apply elem_of_cons in Hc as [->|Hc]; [auto|].
        eapply (far_by_size h); [exact Hap| |exact Hin'|].
        - apply elem_of_app. right. exact Hc.
        - pose proof (tree_rep_key h _ c Ht Hc) as Hkey.
          rewrite Forall_forall in Hkeys. specialize (Hkeys _ Hkey).
          destruct (index_class h ix c' Hix Hin')
            as [(j & lj & _ & _ & Hj & Hszj)|[Hc'' _]].
          + unfold SEG_LIST_SIZE in *. lia.
          + exfalso.
            apply apart_app in Hap as (_ & _ & Hcross).
            specialize (Hcross c' c' Hc' Hc''). unfold far in Hcross. lia. }
      split.
      * apply (index_rep_tree_update h
                 (set_seg_root (troot (tput (size_at h b) b (bigs ix))) h1)
                 ix _ Hix).
        -- simpl. exact Hg2.
        -- reflexivity.
        -- eapply tree_rep_ext; [|exact Hrep]. reflexivity.
        -- apply bst_tput. exact Hbst.
        -- apply Forall_keys_tput; [lia|exact Hkeys].
        -- intros c Hc j Hj. apply (Hsame c Hc j Hj).
      * split; [exact Hg1|]. intros x Hx.
        change (word (set_seg_root (troot (tput (size_at h b) b (bigs ix))) h1) x)
          with (word h1 x).
        eapply unchanged_frame; [exact Hun| |exact Hx].
        intros c Hc. split.
        -- apply elem_of_cons in Hc as [->|Hc]; [left|right].
           apply elem_of_app. right. exact Hc.
        -- assert (Hsz : SEG_LIST_SIZE * 2 < size_at h c).
           { apply elem_of_cons in Hc as [->|Hc]; [exact Hgt|].
             pose proof (tree_rep_key h _ c Ht Hc) as Hkey.
             rewrite Forall_forall in Hkeys. auto. }
           rewrite (proj2 (Z.leb_gt _ _)); lia.
Qed.

Lemma block_delete_spec fuel h ix b :
  index_rep h ix ->
  spaced h (iblocks ix) ->
  b ∈ iblocks ix ->
  outcome (block_delete fuel b h) (fuel <= theight (bigs ix))%nat
    (fun _ h' =>
       index_rep h' (idelete (size_at h b) b ix) /\
       iblocks ix ≡ₚ b :: iblocks (idelete (size_at h b) b ix) /\
       frame h h' (iblocks (idelete (size_at h b) b ix))).
Proof.
  intros Hix Hs Hin.
  pose proof Hix as (Hsl & Hlen & Hsm & Hroot & Ht & Hbst & Hkeys).
  pose proof (spaced_brk _ _ Hs) as Hbrk.
  pose proof (spaced_in _ _ b Hs Hin) as Hb.
  pose proof Hs as (Hap & Hbd & _).
  unfold block_delete, idelete. step.
  destruct (index_class h ix b Hix Hin)
    as [(i & l & Hl & Hbl & Hi6 & Hszb)|[Hbt Hgt]].
  - (* a small class *)
    rewrite (proj2 (Z.leb_le _ _)) by (unfold SEG_LIST_SIZE; lia).
    rewrite Hszb, (find_index_class i Hi6), Nat2Z.id.
    destruct (index_rep_small_class h ix i l Hix Hl)
      as (_ & Hhd & Hlen' & Hd & Hsz).
    apply list_elem_of_split in Hbl as (l1 & l2 & ->).
    assert (Hsbl : spaced h (l1 ++ b :: l2)).
    { eapply spaced_sub; [exact Hs|].
      apply sublist_inserts_r. eapply sublist_concat_lookup. exact Hl. }
    assert (Hnd : NoDup (l1 ++ b :: l2)) by (apply apart_NoDup, Hsbl).
    apply NoDup_app in Hnd as (_ & Hn1 & Hnd).
    apply NoDup_cons in Hnd as [Hn2 _].
    assert (Hb1 : b ∉ l1).
    { intros H. apply (Hn1 b H). left. }
    destruct (small_block_delete_spec h b i l1 l2 Hi6 Hszb Hlen' Hhd Hd Hsbl)
      as (h' & Heq & Hd' & Hsl' & Hbrk' & Hroot' & Hun).
    rewrite Heq. apply outcome_Ok.
    assert (Hszl : forall c, c ∈ l1 ++ l2 -> size_at h c = 2 * (Z.of_nat i + 1)).
    { intros c Hc. rewrite Forall_forall in Hsz. apply Hsz.
      apply elem_of_app in Hc as [Hc|Hc]; apply elem_of_app; [left|right]; auto.
      right. exact Hc. }
    assert (Hsub : forall c, c ∈ l1 ++ l2 -> c ∈ iblocks ix).
    { intros c Hc. apply elem_of_app. left.
      eapply in_concat_lookup; [exact Hl|].
      apply elem_of_app in Hc as [Hc|Hc]; apply elem_of_app; [left|right]; auto.
      right. exact Hc. }
    assert (Hfar : forall c c', c ∈ l1 ++ l2 -> c' ∈ iblocks ix ->
              size_at h c' <> 2 * (Z.of_nat i + 1) -> far c c').
    { intros c c' Hc Hc' Hne.
      eapply (far_by_size h); [exact Hap|auto|exact Hc'|].
      rewrite (Hszl c Hc). congruence. }
    assert (Hrm : remove_addr b (l1 ++ b :: l2) = l1 ++ l2)
      by (apply remove_addr_mid; assumption).
    assert (Hix' : index_rep h'
              (Index (alter (remove_addr b) i (smalls ix)) (bigs ix))).
    { eapply index_rep_small_update with (l := l1 ++ b :: l2);
        try eassumption.
      * rewrite Hrm. exact Hsl'.
      * rewrite Hrm. split; [exact Hd'|]. apply Forall_forall. intros c Hc.
        rewrite (size_unchanged 2 (l1 ++ l2) h h' c ltac:(lia) Hun);
          [apply Hszl, Hc|].
        intros c0 Hc0. eapply apart_far; [apply Hap| |]; auto.
      * intros j lj Hne Hj.
        destruct (index_rep_small_class h ix j lj Hix Hj)
          as (_ & _ & _ & _ & Hszj).
        eapply unchanged_same_cells; [|exact Hun|]; [lia|].
        intros c c' Hc Hc'. apply Hfar; [exact Hc| |].
        -- apply elem_of_app. left. eapply in_concat_lookup; eassumption.
        -- rewrite Forall_forall in Hszj. rewrite (Hszj c' Hc'). lia.
      * eapply unchanged_same_cells; [|exact Hun|]; [lia|].
        intros c c' Hc Hc'. apply Hfar; [exact Hc| |].
        -- apply elem_of_app. right. exact Hc'.
        -- pose proof (tree_rep_key h _ c' Ht Hc') as Hkey.
           rewrite Forall_forall in Hkeys. specialize (Hkeys _ Hkey).
           unfold SEG_LIST_SIZE in *. lia. }
    assert (Hperm : concat (smalls ix) ≡ₚ
              b :: concat (alter (remove_addr b) i (smalls ix))).
    { eapply concat_alter_remove; eassumption. }
    refine (conj Hix' (conj _ _)).
    + unfold iblocks. cbn [smalls bigs]. rewrite Hperm. reflexivity.
    + split; [exact Hbrk'|]. eapply unchanged_frame; [exact Hun|].
      intros c Hc. split.
      * unfold iblocks. cbn [smalls bigs]. apply elem_of_app. left.
        assert (Hcl : c ∈ remove_addr b (l1 ++ b :: l2))
          by (rewrite Hrm; exact Hc).
        eapply in_concat_lookup; [|exact Hcl].
        rewrite list_lookup_alter_eq, Hl. reflexivity.
      * rewrite (Hszl c Hc). rewrite (proj2 (Z.leb_le _ _));
          unfold SEG_LIST_SIZE; lia.
  - (* the tree *)
    rewrite (proj2 (Z.leb_gt _ _)) by exact Hgt.
    step. rewrite Hroot.
    assert (Hst : spaced h (tblocks (bigs ix))).
    { eapply spaced_sub; [exact Hs|]. apply sublist_inserts_l. reflexivity. }
    eapply outcome_bind.
    + apply (take_spec fuel (bigs ix) h b Ht Hbst Hst Hbt).
    + auto.
    + intros r' h1 (-> & Hrep & (Hg1 & Hg2 & Hg3) & Hun).
      unfold root_set. apply outcome_Ok.
      set (t' := ttake (size_at h b) b (bigs ix)) in *.
      assert (Hsame : same_cells h h1 (concat (smalls ix))).
      { eapply unchanged_same_cells; [|exact Hun|]; [lia|].
        intros c c' Hc Hc'.
        assert (Hin' : c' ∈ iblocks ix) by (apply elem_of_app; left; exact Hc').
        apply tblocks_ttake_sub in Hc.
        eapply (far_by_size h); [exact Hap| |exact Hin'|].
        - apply elem_of_app. right. exact Hc.
        - pose proof (tree_rep_key h _ c Ht Hc) as Hkey.
          rewrite Forall_forall in Hkeys. specialize (Hkeys _ Hkey).
          destruct (index_class h ix c' Hix Hin')
            as [(j & lj & _ & _ & Hj & Hszj)|[Hc'' _]].
          + unfold SEG_LIST_SIZE in *. lia.
          + exfalso.
            apply apart_app in Hap as (_ & _ & Hcross).
            specialize (Hcross c' c' Hc' Hc''). unfold far in Hcross. lia. }
      refine (conj _ (conj _ _)).
      * apply (index_rep_tree_update h (set_seg_root (troot t') h1) ix _ Hix).
        -- simpl. exact Hg2.
        -- reflexivity.
        -- eapply tree_rep_ext; [|exact Hrep]. reflexivity.
        -- apply bst_ttake. exact Hbst.
        -- apply Forall_keys_ttake. exact Hkeys.
        -- intros c Hc j Hj. apply (Hsame c Hc j Hj).
      * unfold iblocks. cbn [smalls bigs].
        rewrite (ttake_perm h (bigs ix) b Ht Hbst) at 1;
          [solve_Permutation| |exact Hbt].
        apply apart_NoDup, Hst.
      * split; [exact Hg1|]. intros x Hx.
        change (word (set_seg_root (troot t') h1) x) with (word h1 x).
        eapply unchanged_frame; [exact Hun| |exact Hx].
        intros c Hc. split.
        -- unfold iblocks. cbn [smalls bigs]. apply elem_of_app. right. exact Hc.
        -- apply tblocks_ttake_sub in Hc.
           pose proof (tree_rep_key h _ c Ht Hc) as Hkey.
           rewrite Forall_forall in Hkeys. specialize (Hkeys _ Hkey).
           rewrite (proj2 (Z.leb_gt _ _)); lia.
Qed.

(** ** The index under writes elsewhere *)

Lemma dseg_links h h' prev l next :
  (forall c, c ∈ l -> word h' (c + 1) = word h (c + 1) /\
                      word h' (c + 2) = word h (c + 2)) ->
  dseg h prev l next -> dseg h' prev l next.
Proof.
  revert prev. induction l as [|b l IH]; intros prev Hs; simpl; [trivial|].
  intros (H1 & H2 & H3).
  destruct (Hs b ltac:(left)) as [E1 E2]. rewrite E1, E2.
  refine (conj H1 (conj H2 _)). apply IH; [|exact H3].
  intros c Hc. apply Hs. right. exact Hc.
Qed.

Lemma tree_rep_links h h' t :
  (forall c, c ∈ tblocks t ->
     size_at h' c = size_at h c /\
     forall j, 1 <= j <= 4 -> word h' (c + j) = word h (c + j)) ->
  tree_rep h t -> tree_rep h' t.
Proof.
  induction t as [|l IHl k b ring r IHr]; cbn [tree_rep tblocks]; [trivial|].
  intros Hs (Hd & Hk & Hl & Hr & Htl & Htr).
  assert (Hb : b ∈ tblocks l ++ (b :: ring) ++ tblocks r).
  { apply elem_of_app. right. left. }
  destruct (Hs b Hb) as [_ Hwb].
  rewrite (Hwb 3), (Hwb 4) by lia.
  refine (conj _ (conj _ (conj Hl (conj Hr (conj _ _))))).
  - eapply dseg_links; [|exact Hd]. intros c Hc.
    destruct (Hs c) as [_ Hw].
    { apply elem_of_app. right. apply elem_of_app. left. exact Hc. }
    split; apply Hw; lia.
  - rewrite Forall_forall in *. intros c Hc.
    destruct (Hs c) as [E _].
    { apply elem_of_app. right. apply elem_of_app. left. exact Hc. }
    rewrite E. auto.
  - apply IHl; [|exact Htl]. intros c Hc. apply Hs.
    apply elem_of_app. left. exact Hc.
  - apply IHr; [|exact Htr]. intros c Hc. apply Hs.
    apply elem_of_app. right. apply elem_of_app. right. exact Hc.
Qed.

Lemma index_rep_frame h h' ix :
  index_rep h ix ->
  seg_list h' = seg_list h -> seg_root h' = seg_root h ->
  (forall c, c ∈ iblocks ix -> size_at h' c = size_at h c) ->
  (forall x, touched h (iblocks ix) x -> word h' x = word h x) ->
  index_rep h' ix.
Proof.
  intros Hix Hg1 Hg2 Hsz Hw.
  pose proof Hix as (Hsl & Hlen & Hsm & Hroot & Ht & Hbst & Hkeys).
  refine (conj _ (conj Hlen (conj _ (conj _ (conj _ (conj Hbst Hkeys)))))).
  - rewrite Hg1. exact Hsl.
  - intros i l Hl. destruct (Hsm i l Hl) as [Hd Hs].
    assert (Hin : forall c, c ∈ l -> c ∈ iblocks ix).
    { intros c Hc. apply elem_of_app. left. eapply in_concat_lookup; eassumption. }
    split.
    + eapply dseg_links; [|exact Hd]. intros c Hc.
      split; apply Hw; exists c; (split; [auto|]);
        destruct (size_at h c <=? SEG_LIST_SIZE * 2); lia.
    + rewrite Forall_forall in *. intros c Hc. rewrite Hsz by auto. auto.
  - rewrite Hg2. exact Hroot.
  - eapply tree_rep_links; [|exact Ht].
    intros c Hc.
    assert (Hin : c ∈ iblocks ix) by (apply elem_of_app; right; exact Hc).
    pose proof (tree_rep_key h _ c Ht Hc) as Hkey.
    rewrite Forall_forall in Hkeys. specialize (Hkeys _ Hkey).
    split; [auto|]. intros j Hj.
    apply Hw. exists c. split; [exact Hin|].
    rewrite (proj2 (Z.leb_gt _ _)) by exact Hkeys. lia.
Qed.

(** ** The sequence of blocks *)

Lemma span_pos sz al : 0 <= sz -> 1 <= span sz al.
Proof. unfold span. destruct al; lia. Qed.

Lemma blk_fields h a sz al pa :
  blk h a sz al pa ->
  size_at h a = sz /\ free_at h a = negb al /\ prev_free_at h a = negb pa /\
  0 <= sz < 2 ^ 30.
Proof.
  intros (Hw & Hr & _). unfold size_at, free_at, prev_free_at. rewrite Hw.
  rewrite hdr_size, hdr_free, hdr_prev_free by exact Hr. auto.
Qed.

Lemma blk_alloc_pos h a sz pa : blk h a sz true pa -> 1 <= sz.
Proof.
  intros (_ & Hr & Ho). destruct (Z.eq_dec sz 0) as [->|]; [discriminate|lia].
Qed.

Lemma blk_span h a sz al pa : blk h a sz al pa -> 2 <= span sz al.
Proof.
  intros H. destruct al.
  - pose proof (blk_alloc_pos _ _ _ _ H). unfold span. lia.
  - destruct H as (_ & _ & _ & H2 & _). unfold span. lia.
Qed.

Lemma spans_app bs1 bs2 : spans (bs1 ++ bs2) = spans bs1 + spans bs2.
Proof.
  induction bs1 as [|[sz al] bs1 IH]; cbn [spans app]; [reflexivity|].
  rewrite IH. lia.
Qed.

Lemma lseg_end h a pa bs e pe : lseg h a pa bs e pe -> e = a + spans bs.
Proof.
  revert a pa. induction bs as [|[sz al] bs IH]; intros a pa; cbn [lseg spans].
  - intros [-> _]. lia.
  - intros [_ H]. rewrite (IH _ _ H). lia.
Qed.

Lemma lseg_spans h a pa bs e pe : lseg h a pa bs e pe -> 0 <= spans bs.
Proof.
  revert a pa. induction bs as [|[sz al] bs IH]; intros a pa; cbn [lseg spans].
  - lia.
  - intros [Hb H]. pose proof (blk_span _ _ _ _ _ Hb). specialize (IH _ _ H).
    lia.
Qed.

Lemma lseg_le h a pa bs e pe : lseg h a pa bs e pe -> a <= e.
Proof.
  intros H. rewrite (lseg_end _ _ _ _ _ _ H).
  pose proof (lseg_spans _ _ _ _ _ _ H). lia.
Qed.

Lemma lseg_app h a pa bs1 bs2 e pe :
  lseg h a pa (bs1 ++ bs2) e pe <->
  exists pm, lseg h a pa bs1 (a + spans bs1) pm /\
             lseg h (a + spans bs1) pm bs2 e pe.
Proof.
  revert a pa. induction bs1 as [|[sz al] bs1 IH]; intros a pa;
    cbn [lseg spans app].
  - rewrite Z.add_0_r. split.
    + intros H. exists pa. auto.
    + intros (pm & [_ ->] & H). exact H.
  - rewrite IH. replace (a + span sz al + spans bs1)
      with (a + (span sz al + spans bs1)) by lia.
    split.
    + intros (Hb & pm & H1 & H2). exists pm. auto.
    + intros (pm & [Hb H1] & H2). split; [exact Hb|]. exists pm. auto.
Qed.

Lemma addrs_app want a bs1 bs2 :
  addrs want a (bs1 ++ bs2)
  = addrs want a bs1 ++ addrs want (a + spans bs1) bs2.
Proof.
  revert a. induction bs1 as [|[sz al] bs1 IH]; intros a;
    cbn [addrs spans app].
  - rewrite Z.add_0_r. reflexivity.
  - rewrite IH. replace (a + span sz al + spans bs1)
      with (a + (span sz al + spans bs1)) by lia.
    rewrite app_assoc. reflexivity.
Qed.

Lemma payload_app a bs1 bs2 x :
  payload a (bs1 ++ bs2) x <->
  payload a bs1 x \/ payload (a + spans bs1) bs2 x.
Proof.
  revert a. induction bs1 as [|[sz al] bs1 IH]; intros a;
    cbn [payload spans app].
  - rewrite Z.add_0_r. prop.
  - rewrite IH. replace (a + span sz al + spans bs1)
      with (a + (span sz al + spans bs1)) by lia.
    prop.
Qed.

Lemma payload_range h a pa bs e pe x :
  lseg h a pa bs e pe -> payload a bs x -> a < x < e.
Proof.
  revert a pa. induction bs as [|[sz al] bs IH]; intros a pa;
    cbn [lseg payload]; [prop|].
  intros [Hb H] [Hx|Hx].
  - pose proof (lseg_le _ _ _ _ _ _ H). unfold span in *. destruct al; lia.
  - specialize (IH _ _ H Hx). pose proof (blk_span _ _ _ _ _ Hb). lia.
Qed.

(** The layout reads headers and footers only. *)
Lemma lseg_frame h h' a pa bs e pe :
  (forall x, a <= x < e -> ~ payload a bs x -> word h' x = word h x) ->
  lseg h a pa bs e pe -> lseg h' a pa bs e pe.
Proof.
  revert a pa. induction bs as [|[sz al] bs IH]; intros a pa;
    cbn [lseg payload]; [prop|].
  intros Hw [Hb H].
  pose proof (lseg_le _ _ _ _ _ _ H) as Hle.
  pose proof (blk_span _ _ _ _ _ Hb) as Hsp.
  assert (Hnp : forall x, x < a + span sz al -> ~ payload (a + span sz al) bs x).
  { intros x Hx Hp. pose proof (payload_range _ _ _ _ _ _ _ H Hp). lia. }
  split.
  - destruct Hb as (Hh & Hr & Hs). unfold blk.
    rewrite Hw; [|lia|intros [?|Hp]; [lia|apply (Hnp a); [lia|exact Hp]]].
    refine (conj Hh (conj Hr _)).
    destruct al; [exact Hs|].
    destruct Hs as (He & H2 & Hf).
    refine (conj He (conj H2 _)). unfold size_at in *.
    rewrite Hw; [exact Hf|unfold span in *; lia|].
    intros [?|Hp]; [lia|]. apply (Hnp (a + sz + 1)); [unfold span; lia|exact Hp].
  - apply IH; [|exact H]. intros x Hx Hp. apply Hw; [lia|].
    intros [?|Hp']; [|exact (Hp Hp')].
    unfold span in *. destruct al; lia.
Qed.

Lemma addrs_split want a bs c :
  c ∈ addrs want a bs ->
  exists bs1 sz bs2, bs = bs1 ++ (sz, want) :: bs2 /\ c = a + spans bs1.
Proof.
  revert a. induction bs as [|[sz al] bs IH]; intros a; cbn [addrs].
  - intros H. inversion H.
  - intros H. apply elem_of_app in H as [H|H].
    + destruct (Bool.eqb al want) eqn:E; [|inversion H].
      apply list_elem_of_singleton in H as ->.
      apply Bool.eqb_prop in E as ->.
      exists [], sz, bs. split; [reflexivity|]. simpl. lia.
    + destruct (IH _ H) as (bs1 & sz' & bs2 & -> & ->).
      exists ((sz, al) :: bs1), sz', bs2. split; [reflexivity|].
      cbn [spans]. lia.
Qed.

Lemma addrs_mid want a bs1 sz bs2 :
  a + spans bs1 ∈ addrs want a (bs1 ++ (sz, want) :: bs2).
Proof.
  rewrite addrs_app. apply elem_of_app. right. cbn [addrs].
  rewrite Bool.eqb_reflx. left.
Qed.

(** What the layout says of one of its blocks. *)
Lemma addrs_blk h a pa bs e pe want c :
  lseg h a pa bs e pe -> c ∈ addrs want a bs ->
  exists sz pc, blk h c sz want pc /\ a <= c /\ c + span sz want <= e /\
                (forall x, c < x <= c + sz -> payload a bs x).
Proof.
  intros H Hc.
  destruct (addrs_split _ _ _ _ Hc) as (bs1 & sz & bs2 & -> & ->).
  apply lseg_app in H as (pm & H1 & H2).
  destruct H2 as [Hb H2].
  exists sz, pm. split; [exact Hb|].
  pose proof (lseg_spans _ _ _ _ _ _ H1).
  pose proof (lseg_le _ _ _ _ _ _ H2).
  refine (conj _ (conj _ _)); [lia|lia|].
  intros x Hx. apply payload_app. right. left. exact Hx.
Qed.

Lemma frees_after_alloc h a pa bs e pe c :
  lseg h a pa bs e pe -> coalesced false bs -> c ∈ frees a bs -> a + 2 <= c.
Proof.
  destruct bs as [|[sz al] bs]; cbn [lseg coalesced frees addrs].
  - intros _ _ H. inversion H.
  - intros [Hb H] [[?| ->] _]; [discriminate|]. cbn [Bool.eqb app].
    intros Hc.
    destruct (addrs_blk _ _ _ _ _ _ _ _ H Hc) as (_ & _ & _ & Hle & _).
    pose proof (blk_span _ _ _ _ _ Hb). lia.
Qed.

Lemma frees_apart h a pa bs e pe :
  lseg h a pa bs e pe -> coalesced pa bs -> apart (frees a bs).
Proof.
  revert a pa. induction bs as [|[sz al] bs IH]; intros a pa;
    cbn [lseg coalesced frees addrs]; [auto|].
  intros [Hb H] [_ Hc]. specialize (IH _ _ H Hc).
  destruct al; cbn [Bool.eqb app]; [exact IH|].
  split; [|exact IH]. apply Forall_forall. intros c Hin.
  pose proof (frees_after_alloc _ _ _ _ _ _ _ H Hc Hin).
  destruct Hb as (_ & _ & _ & H2 & _). unfold far, span in *. lia.
Qed.

Lemma frees_spaced h a pa bs e pe :
  lseg h a pa bs e pe -> coalesced pa bs ->
  0 < a -> e < brk h -> brk h <= 2 ^ 30 ->
  spaced h (frees a bs).
Proof.
  intros H Hc Ha He Hk. apply spaced_intro; [|  |exact Hk].
  - eapply frees_apart; eassumption.
  - apply Forall_forall. intros c Hin.
    destruct (addrs_blk _ _ _ _ _ _ _ _ H Hin)
      as (sz & pc & (_ & _ & _ & H2 & _) & Hlo & Hhi & _).
    unfold span in Hhi. lia.
Qed.

Lemma wf_spaced h bs ix : wf_with h bs ix -> spaced h (iblocks ix).
Proof.
  intros ((pe & HL & _) & Hc & _ & Hp & Hk).
  eapply spaced_perm; [symmetry; exact Hp|].
  eapply frees_spaced; try eassumption; lia.
Qed.

(** The words that the index writes lie in the payloads of free blocks. *)
Lemma touched_payload h a pa bs e pe cs x :
  lseg h a pa bs e pe -> (forall c, c ∈ cs -> c ∈ frees a bs) ->
  touched h cs x -> payload a bs x.
Proof.
  intros H Hcs (c & Hc & Hx).
  destruct (addrs_blk _ _ _ _ _ _ _ _ H (Hcs c Hc))
    as (sz & pc & Hb & _ & _ & Hp).
  apply Hp. destruct (blk_fields _ _ _ _ _ Hb) as (Hs & _).
  destruct Hb as (_ & _ & _ & H2 & _). rewrite Hs in Hx.
  unfold SEG_LIST_SIZE in Hx.
  destruct (Z.leb_spec sz (6 * 2)); lia.
Qed.

(** ** The words of the user's *)

Lemma apayload_payload a bs x : apayload a bs x -> payload a bs x.
Proof.
  revert a. induction bs as [|[sz al] bs IH]; intros a;
    cbn [apayload payload]; [prop|].
  intros [[_ H]|H]; [left; exact H|right; apply IH, H].
Qed.

Lemma apayload_app a bs1 bs2 x :
  apayload a (bs1 ++ bs2) x <->
  apayload a bs1 x \/ apayload (a + spans bs1) bs2 x.
Proof.
  revert a. induction bs1 as [|[sz al] bs1 IH]; intros a;
    cbn [apayload spans app].
  - rewrite Z.add_0_r. prop.
  - rewrite IH. replace (a + span sz al + spans bs1)
      with (a + (span sz al + spans bs1)) by lia.
    prop.
Qed.

Lemma apayload_range h a pa bs e pe x :
  lseg h a pa bs e pe -> apayload a bs x -> a < x < e.
Proof.
  intros H Hx. exact (payload_range _ _ _ _ _ _ _ H (apayload_payload _ _ _ Hx)).
Qed.

(** They lie in the allocated blocks, and in no free block. *)
Lemma apayload_alloc h a pa bs e pe d x :
  lseg h a pa bs e pe -> d ∈ allocs a bs -> d < x <= d + size_at h d ->
  apayload a bs x.
Proof.
  revert a pa. induction bs as [|[sz al] bs IH]; intros a pa HL Hd Hx.
  - cbn [allocs addrs] in Hd. inversion Hd.
  - unfold allocs in *. cbn [lseg addrs apayload] in *.
    destruct HL as [Hb HL].
    apply elem_of_app in Hd as [Hd|Hd].
    + destruct al; cbn [Bool.eqb] in Hd; [|inversion Hd].
      apply list_elem_of_singleton in Hd as ->.
      destruct (blk_fields _ _ _ _ _ Hb) as (Hs & _). rewrite Hs in Hx.
      left. auto.
    + right. exact (IH _ _ HL Hd Hx).
Qed.

Lemma apayload_inv h a pa bs e pe x :
  lseg h a pa bs e pe -> apayload a bs x ->
  exists d, d ∈ allocs a bs /\ d < x <= d + size_at h d.
Proof.
  revert a pa. induction bs as [|[sz al] bs IH]; intros a pa HL Hx.
  - destruct Hx.
  - unfold allocs in *. cbn [lseg addrs apayload] in *.
    destruct HL as [Hb HL]. destruct Hx as [[-> Hx]|Hx].
    + exists a. destruct (blk_fields _ _ _ _ _ Hb) as (Hs & _).
      rewrite Hs. split; [left|exact Hx].
    + destruct (IH _ _ HL Hx) as (d & Hd & Hdx). exists d.
      split; [apply elem_of_app; right; exact Hd|exact Hdx].
Qed.

Lemma apayload_not_free h a pa bs e pe c x :
  lseg h a pa bs e pe -> c ∈ frees a bs -> apayload a bs x ->
  ~ (c < x <= c + size_at h c).
Proof.
  revert a pa. induction bs as [|[sz al] bs IH]; intros a pa HL Hc Hx.
  - destruct Hx.
  - unfold frees in *. cbn [lseg addrs apayload] in *.
    destruct HL as [Hb HL].
    pose proof (blk_span _ _ _ _ _ Hb) as Hspan.
    destruct (blk_fields _ _ _ _ _ Hb) as (Hs & _ & _ & Hr).
    apply elem_of_app in Hc as [Hc|Hc].
    + destruct al; cbn [Bool.eqb] in Hc; [inversion Hc|].
      apply list_elem_of_singleton in Hc as ->.
      destruct Hx as [[[=] _]|Hx].
      pose proof (apayload_range _ _ _ _ _ _ _ HL Hx).
      unfold span in *. lia.
    + destruct Hx as [[_ Hx]|Hx]; [|exact (IH _ _ HL Hc Hx)].
      destruct (addrs_blk _ _ _ _ _ _ _ _ HL Hc) as (_ & _ & _ & Hlo & _).
      unfold span in *. destruct al; lia.
Qed.

Lemma keeps_refl h bs1 hi bs2 : keeps h h bs1 hi bs2.
Proof. intros x _. reflexivity. Qed.

Lemma keeps_trans h0 h1 h2 bs1 hi bs2 :
  keeps h0 h1 bs1 hi bs2 -> keeps h1 h2 bs1 hi bs2 -> keeps h0 h2 bs1 hi bs2.
Proof. intros H1 H2 x Hx. rewrite (H2 x Hx). exact (H1 x Hx). Qed.

(** A write outside the blocks kept, such as one between [lo] and [hi]. *)
Lemma keeps_upd h0 h bs1 lo pl hi pm bs2 x v :
  lseg h 1 true bs1 lo pl -> tail_seg h hi pm bs2 -> lo <= x <= hi ->
  keeps h0 h bs1 hi bs2 -> keeps h0 (upd x v h) bs1 hi bs2.
Proof.
  intros HP (pe & HS & _) Hx Hk y Hy. rewrite <- (Hk y Hy).
  apply word_upd_ne.
  destruct Hy as [Hy|Hy].
  - pose proof (apayload_range _ _ _ _ _ _ _ HP Hy). lia.
  - pose proof (apayload_range _ _ _ _ _ _ _ HS Hy). lia.
Qed.

(** The blocks kept around a stretch [mid] of the layout. *)
Lemma keeps_around h h' bs1 mid bs2 x :
  keeps h h' bs1 (1 + spans bs1 + spans mid) bs2 ->
  apayload 1 (bs1 ++ mid ++ bs2) x ->
  apayload (1 + spans bs1) mid x \/ word h' x = word h x.
Proof.
  intros Hk Hx.
  apply apayload_app in Hx as [Hx|Hx]; [right; apply Hk; left; exact Hx|].
  apply apayload_app in Hx as [Hx|Hx]; [left; exact Hx|].
  right. apply Hk. right. exact Hx.
Qed.

(** A word after the header of a block belongs to that block only. *)
Lemma payload_disjoint h a pa bs e pe w1 w2 d1 d2 x :
  lseg h a pa bs e pe -> d1 ∈ addrs w1 a bs -> d2 ∈ addrs w2 a bs ->
  d1 < x <= d1 + size_at h d1 -> d2 < x <= d2 + size_at h d2 -> d1 = d2.
Proof.
  revert a pa. induction bs as [|[sz al] bs IH]; intros a pa HL H1 H2 Hx1 Hx2.
  - inversion H1.
  - cbn [lseg addrs] in *. destruct HL as [Hb HL].
    destruct (blk_fields _ _ _ _ _ Hb) as (Hs & _ & _ & Hr).
    assert (Hsp : sz + 1 <= span sz al) by (unfold span; destruct al; lia).
    assert (Hhead : forall w d, d ∈ (if Bool.eqb al w then [a] else []) ->
                                d = a).
    { intros w d Hd. destruct (Bool.eqb al w); [|inversion Hd].
      apply list_elem_of_singleton in Hd. exact Hd. }
    assert (Htail : forall w d, d ∈ addrs w (a + span sz al) bs ->
                                a + span sz al <= d).
    { intros w d Hd.
      destruct (addrs_blk _ _ _ _ _ _ _ _ HL Hd) as (_ & _ & _ & Hlo & _).
      exact Hlo. }
    apply elem_of_app in H1 as [H1|H1]; apply elem_of_app in H2 as [H2|H2].
    + rewrite (Hhead _ _ H1), (Hhead _ _ H2). reflexivity.
    + apply Hhead in H1. subst d1. apply Htail in H2. rewrite Hs in Hx1. lia.
    + apply Hhead in H2. subst d2. apply Htail in H1. rewrite Hs in Hx2. lia.
    + exact (IH _ _ HL H1 H2 Hx1 Hx2).
Qed.

Lemma addrs_NoDup h a pa bs e pe want :
  lseg h a pa bs e pe -> NoDup (addrs want a bs).
Proof.
  revert a pa. induction bs as [|[sz al] bs IH]; intros a pa HL.
  - constructor.
  - cbn [lseg addrs] in *. destruct HL as [Hb HL].
    pose proof (blk_span _ _ _ _ _ Hb) as Hsp.
    destruct (Bool.eqb al want); cbn [app]; [|exact (IH _ _ HL)].
    constructor; [|exact (IH _ _ HL)].
    intros Hin.
    destruct (addrs_blk _ _ _ _ _ _ _ _ HL Hin) as (_ & _ & _ & Hlo & _).
    lia.
Qed.

(** ** What [find_fit] returns *)

Lemma head_concat_first (ls : list (list addr)) b :
  head (concat ls) = Some b ->
  exists j l, ls !! j = Some (b :: l) /\
              forall j' l', (j' < j)%nat -> ls !! j' = Some l' -> l' = [].
Proof.
  induction ls as [|l ls IH]; [discriminate|].
  destruct l as [|c l]; cbn [concat app head].
  - intros H. destruct (IH H) as (j & l' & Hj & Hfirst).
    exists (S j), l'. split; [exact Hj|].
    intros [|j'] l'' Hlt Hl''; [injection Hl'' as <-; reflexivity|].
    apply (Hfirst j'); [lia|exact Hl''].
  - intros [= ->]. exists O, l. split; [reflexivity|]. intros j' l' Hlt. lia.
Qed.

Lemma small_rep_head h i b l :
  small_rep h i (b :: l) ->
  word h (b + 1) = offset_of None /\ size_at h b = 2 * (Z.of_nat i + 1).
Proof.
  intros [(H & _) Hs]. split; [exact H|].
  rewrite Forall_forall in Hs. apply Hs. left.
Qed.

(** [ifind] is a best fit, and the head of its chain. *)
Lemma ifind_best h ix w :
  index_rep h ix -> 2 <= w -> Z.even w = true ->
  match ifind w ix with
  | Some b =>
      b ∈ iblocks ix /\ w <= size_at h b /\
      (forall c, c ∈ iblocks ix -> w <= size_at h c ->
                 size_at h b <= size_at h c) /\
      word h (b + 1) = offset_of None
  | None => forall c, c ∈ iblocks ix -> size_at h c < w
  end.
Proof.
  intros Hix Hw He.
  pose proof Hix as (Hsl & Hlen & Hsm & Hroot & Ht & Hbst & Hkeys).
  rewrite Forall_forall in Hkeys.
  unfold ifind.
  destruct (if w <=? SEG_LIST_SIZE * 2
            then head (concat (drop (Z.to_nat (find_index w)) (smalls ix)))
            else None) as [b|] eqn:Hs.
  - (* a block of a small class *)
    destruct (Z.leb_spec w (SEG_LIST_SIZE * 2)) as [Hle|]; [|discriminate].
    destruct (find_index_even w (conj Hw Hle) He) as [Hi Hwi].
    destruct (head_concat_first _ _ Hs) as (j & l & Hj & Hfirst).
    rewrite lookup_drop in Hj.
    destruct (small_rep_head _ _ _ _ (Hsm _ _ Hj)) as [Hp Hsz].
    pose proof (lookup_lt_Some _ _ _ Hj) as Hj6. rewrite Hlen in Hj6.
    assert (Hin : b ∈ iblocks ix).
    { apply elem_of_app. left. eapply in_concat_lookup; [exact Hj|left]. }
    refine (conj Hin (conj _ (conj _ Hp))); [lia|].
    intros c Hc Hwc.
    destruct (index_class h ix c Hix Hc)
      as [(k & lk & Hk & Hck & Hk6 & Hszc)|[_ Hbig]];
      [|unfold SEG_LIST_SIZE in *; lia].
    destruct (decide (k < Z.to_nat (find_index w) + j)%nat) as [Hlt|]; [|lia].
    exfalso.
    assert (Hge : (Z.to_nat (find_index w) <= k)%nat) by lia.
    assert (Hk' : drop (Z.to_nat (find_index w)) (smalls ix)
                    !! (k - Z.to_nat (find_index w))%nat = Some lk).
    { rewrite lookup_drop. rewrite <- Hk. f_equal. lia. }
    assert (Hlt' : (k - Z.to_nat (find_index w) < j)%nat) by lia.
    rewrite (Hfirst _ _ Hlt' Hk') in Hck. inversion Hck.
  - (* the tree *)
    assert (Hnos : forall c, c ∈ concat (smalls ix) -> size_at h c < w).
    { intros c Hc.
      destruct (index_class h ix c Hix ltac:(apply elem_of_app; left; exact Hc))
        as [(k & lk & Hk & Hck & Hk6 & Hszc)|[Hct _]].
      - destruct (Z.leb_spec w (SEG_LIST_SIZE * 2)) as [Hle|Hgt];
          [|unfold SEG_LIST_SIZE in *; lia].
        destruct (find_index_even w (conj Hw Hle) He) as [Hi Hwi].
        destruct (decide (k < Z.to_nat (find_index w))%nat) as [|Hge]; [lia|].
        exfalso.
        assert (Hk' : drop (Z.to_nat (find_index w)) (smalls ix)
                        !! (k - Z.to_nat (find_index w))%nat = Some lk).
        { rewrite lookup_drop. rewrite <- Hk. f_equal. lia. }
        rewrite (head_concat_none _ Hs _ _ Hk') in Hck. inversion Hck.
      - exfalso.
        pose proof (tree_rep_key h _ c Ht Hct) as Hkey.
        specialize (Hkeys _ Hkey).
        apply list_elem_of_In, in_concat in Hc as (lk & Hlk & Hck).
        apply list_elem_of_In, list_elem_of_lookup in Hlk as [k Hk].
        destruct (Hsm _ _ Hk) as [_ Hsz]. rewrite Forall_forall in Hsz.
        pose proof (lookup_lt_Some _ _ _ Hk) as Hk6. rewrite Hlen in Hk6.
        rewrite (Hsz c) in Hkeys by (apply list_elem_of_In; exact Hck).
        unfold SEG_LIST_SIZE in *. lia. }
    pose proof (tceiling_spec w (bigs ix) Hbst) as Hc.
    destruct (tceiling w (bigs ix)) as [b|].
    + destruct Hc as (k & ring & Hn & Hwk & Hmin).
      destruct (tree_rep_node _ _ _ _ _ Ht Hn) as [(Hp & _) Hsz].
      rewrite Forall_forall in Hsz.
      assert (Hb : size_at h b = k) by (apply Hsz; left).
      assert (Hin : b ∈ tblocks (bigs ix)).
      { eapply tnodes_blocks; [exact Hn|left]. }
      refine (conj _ (conj _ (conj _ Hp))).
      * apply elem_of_app. right. exact Hin.
      * lia.
      * intros c Hc Hwc. apply elem_of_app in Hc as [Hc|Hc].
        -- specialize (Hnos c Hc). lia.
        -- rewrite Hb. apply Hmin; [|exact Hwc].
           apply (tree_rep_key h _ c Ht Hc).
    + intros c Hin. apply elem_of_app in Hin as [Hin|Hin]; [auto|].
      apply Hc. apply (tree_rep_key h _ c Ht Hin).
Qed.


(** ** Marking a block *)

Lemma size_at_mod h b : size_at h b = word h b mod 2 ^ 30.
Proof.
  unfold size_at. change 0x3FFFFFFF with (Z.ones 30).
  apply Z.land_ones. lia.
Qed.

Lemma size_at_upd_eq a v h : size_at (upd a v h) a = v mod 2 ^ 30.
Proof. rewrite size_at_mod, word_upd_eq. reflexivity. Qed.

Lemma size_at_hdr h a sz al pa :
  word h a = hdr sz al pa -> 0 <= sz < 2 ^ 30 -> size_at h a = sz.
Proof. intros Hw Hr. unfold size_at. rewrite Hw. apply hdr_size, Hr. Qed.

Lemma free_at_hdr h a sz al pa :
  word h a = hdr sz al pa -> 0 <= sz < 2 ^ 30 -> free_at h a = negb al.
Proof. intros Hw Hr. unfold free_at. rewrite Hw. apply hdr_free, Hr. Qed.

Lemma prev_free_at_hdr h a sz al pa :
  word h a = hdr sz al pa -> 0 <= sz < 2 ^ 30 -> prev_free_at h a = negb pa.
Proof.
  intros Hw Hr. unfold prev_free_at. rewrite Hw. apply hdr_prev_free, Hr.
Qed.

Lemma hdr_mod sz al pa : 0 <= sz < 2 ^ 30 -> hdr sz al pa mod 2 ^ 30 = sz.
Proof.
  intros H. rewrite <- (hdr_size sz al pa H) at 2.
  change 0x3FFFFFFF with (Z.ones 30). symmetry. apply Z.land_ones. lia.
Qed.

(** [block_mark_free] rewrites the flags of the header and copies the header
    to the footer. *)
Lemma block_mark_free_eq b al h :
  0 <= b -> b + size_at h b + 1 < brk h -> 0 <= word h b < 2 ^ 32 ->
  block_mark_free b al h
  = Ok (tt, upd (b + size_at h b + 1) (hdr (size_at h b) false (al =? 0))
              (upd b (hdr (size_at h b) false (al =? 0)) h)).
Proof.
  intros Hb Hf Hw. pose proof (size_at_range h b) as Hs.
  assert (Hin : 0 <= b < brk h) by lia.
  unfold block_mark_free.
  rewrite (bind_Ok _ _ h _ _ (block_size_eq b h Hin)).
  rewrite (bind_Ok _ _ h _ _ (load_eq b h Hin)).
  assert (E : (if al =? 0
               then Z.land (Z.lor (word h b) 0x80000000) 0xBFFFFFFF
               else Z.land (word h b) 0x3FFFFFFF)
              = hdr (size_at h b) false (al =? 0)).
  { rewrite size_at_mod. destruct (al =? 0).
    - apply mark_free_allocated, Hw.
    - apply mark_free_free, Hw. }
  rewrite E.
  unfold bind at 1. rewrite store_eq by lia.
  rewrite (bind_Ok _ _ _ _ _ (load_eq b (upd b _ h) Hin)).
  rewrite word_upd_eq.
  unfold u32. rewrite Z.mod_small by lia.
  rewrite store_eq by (rewrite brk_upd; lia).
  replace (b + (size_at h b + 1)) with (b + size_at h b + 1) by lia.
  reflexivity.
Qed.

Lemma block_mark_allo_eq b al h :
  0 <= b < brk h -> 0 <= word h b < 2 ^ 32 ->
  block_mark_allo b al h
  = Ok (tt, upd b (hdr (size_at h b) true (al =? 0)) h).
Proof.
  intros Hb Hw. unfold block_mark_allo.
  rewrite (bind_Ok _ _ h _ _ (load_eq b h Hb)).
  assert (E : (if al =? 0
               then Z.lor (word h b) 0xC0000000
               else Z.land (Z.lor (word h b) 0x40000000) 0x7FFFFFFF)
              = hdr (size_at h b) true (al =? 0)).
  { rewrite size_at_mod. destruct (al =? 0).
    - apply mark_allo_allocated, Hw.
    - apply mark_allo_free, Hw. }
  rewrite E. apply store_eq, Hb.
Qed.

(** [set_size] and then a mark. *)
Lemma set_mark_free b v al h :
  0 <= v < 2 ^ 32 -> 0 <= b -> b + v mod 2 ^ 30 + 1 < brk h ->
  (set_size b v;; block_mark_free b al) h
  = Ok (tt, upd (b + v mod 2 ^ 30 + 1) (hdr (v mod 2 ^ 30) false (al =? 0))
              (upd b (hdr (v mod 2 ^ 30) false (al =? 0)) (upd b v h))).
Proof.
  intros Hv Hb Hf.
  pose proof (Z.mod_pos_bound v (2 ^ 30) ltac:(lia)) as Hm.
  unfold bind at 1. rewrite set_size_eq by lia.
  rewrite block_mark_free_eq.
  - rewrite size_at_upd_eq. reflexivity.
  - exact Hb.
  - rewrite size_at_upd_eq, brk_upd. exact Hf.
  - rewrite word_upd_eq. exact Hv.
Qed.

Lemma set_mark_allo b v al h :
  0 <= v < 2 ^ 32 -> 0 <= b < brk h ->
  (set_size b v;; block_mark_allo b al) h
  = Ok (tt, upd b (hdr (v mod 2 ^ 30) true (al =? 0)) (upd b v h)).
Proof.
  intros Hv Hb.
  unfold bind at 1. rewrite set_size_eq by lia.
  rewrite block_mark_allo_eq.
  - rewrite size_at_upd_eq. reflexivity.
  - rewrite brk_upd. exact Hb.
  - rewrite word_upd_eq. exact Hv.
Qed.

(** ** The end of the heap *)

Lemma tail_seg_le h a pa bs : tail_seg h a pa bs -> a <= brk h - 1.
Proof. intros (pe & H & _). eapply lseg_le. exact H. Qed.

Lemma tail_seg_frame h h' a pa bs :
  brk h' = brk h ->
  (forall x, a <= x < brk h -> ~ payload a bs x -> word h' x = word h x) ->
  tail_seg h a pa bs -> tail_seg h' a pa bs.
Proof.
  intros Hb Hw (pe & H & He). exists pe. rewrite Hb.
  pose proof (lseg_le _ _ _ _ _ _ H) as Hle.
  split.
  - eapply lseg_frame; [|exact H]. intros x Hx Hp. apply Hw; [lia|exact Hp].
  - rewrite Hw; [exact He|lia|].
    intros Hp. pose proof (payload_range _ _ _ _ _ _ _ H Hp). lia.
Qed.

Lemma tail_seg_cons h a pa sz al bs :
  tail_seg h a pa ((sz, al) :: bs) <->
  blk h a sz al pa /\ tail_seg h (a + span sz al) al bs.
Proof.
  unfold tail_seg. cbn [lseg]. split.
  - intros (pe & [Hb H] & He). split; [exact Hb|]. exists pe. auto.
  - intros (Hb & pe & H & He). exists pe. auto.
Qed.

Lemma tail_seg_nil h a pa :
  tail_seg h a pa [] <-> a = brk h - 1 /\ word h a = hdr 0 true pa.
Proof.
  unfold tail_seg. cbn [lseg]. split.
  - intros (pe & [-> ->] & He). auto.
  - intros [-> He]. exists pa. auto.
Qed.

Lemma tail_seg_app h a pa bs1 bs2 :
  tail_seg h a pa (bs1 ++ bs2) <->
  exists pm, lseg h a pa bs1 (a + spans bs1) pm /\
             tail_seg h (a + spans bs1) pm bs2.
Proof.
  unfold tail_seg. split.
  - intros (pe & H & He). apply lseg_app in H as (pm & H1 & H2).
    exists pm. split; [exact H1|]. exists pe. auto.
  - intros (pm & H1 & pe & H2 & He). exists pe. split; [|exact He].
    apply lseg_app. exists pm. auto.
Qed.

(** ** Index operations next to a zone *)

Lemma lim_le s : 2 <= s -> (if s <=? SEG_LIST_SIZE * 2 then 2 else 4) <= s.
Proof. unfold SEG_LIST_SIZE. destruct (Z.leb_spec s (6 * 2)); lia. Qed.

Lemma zone_ok_in h lo hi zs c :
  zone_ok h lo hi zs -> c ∈ zs.*1 ->
  exists s, (c, s) ∈ zs /\ size_at h c = s /\ 2 <= s /\ lo <= c /\
            c + s + 2 <= hi.
Proof.
  intros Hz Hc. apply list_elem_of_fmap in Hc as ([c' s] & -> & Hin).
  unfold zone_ok in Hz. rewrite Forall_forall in Hz.
  exists s. split; [exact Hin|]. apply (Hz _ Hin).
Qed.

Lemma frame_ctx h h' cs bs1 lo pl hi pm bs2 zs :
  lseg h 1 true bs1 lo pl -> tail_seg h hi pm bs2 -> lo <= hi ->
  zone_ok h lo hi zs ->
  (forall c, c ∈ cs -> c ∈ frees 1 bs1 ++ zs.*1 ++ frees hi bs2) ->
  frame h h' cs ->
  lseg h' 1 true bs1 lo pl /\ tail_seg h' hi pm bs2 /\
  (forall x, lo <= x < hi ->
             Forall (fun z => ~ (z.1 < x <= z.1 + z.2)) zs ->
             word h' x = word h x) /\
  keeps h h' bs1 hi bs2.
Proof.
  intros HP HT Hle Hz Hcs [Hbrk Hfr].
  pose proof HT as (pe & HS & He).
  pose proof (lseg_le _ _ _ _ _ _ HS) as Hhe.
  assert (Hcls : forall c x, c ∈ cs ->
            c < x <= c + (if size_at h c <=? SEG_LIST_SIZE * 2 then 2 else 4) ->
            (payload 1 bs1 x /\ x < lo) \/
            (exists s, (c, s) ∈ zs /\ lo <= c /\ c < x <= c + s /\ c + s + 2 <= hi) \/
            (payload hi bs2 x /\ hi < x)).
  { intros c x Hc Hx. specialize (Hcs c Hc).
    apply elem_of_app in Hcs as [Hc1|Hcs]; [|apply elem_of_app in Hcs as [Hc2|Hc3]].
    - left.
      destruct (addrs_blk _ _ _ _ _ _ _ _ HP Hc1)
        as (sz & pc & Hb & Hlo & Hhi & Hp).
      destruct (blk_fields _ _ _ _ _ Hb) as (Hs & _).
      destruct Hb as (_ & _ & _ & H2 & _).
      rewrite Hs in Hx. pose proof (lim_le sz H2). unfold span in Hhi.
      split; [apply Hp|]; lia.
    - right. left.
      destruct (zone_ok_in _ _ _ _ _ Hz Hc2) as (s & Hin & Hs & H2 & Hlo & Hhi).
      rewrite Hs in Hx. pose proof (lim_le s H2).
      exists s. split; [exact Hin|]. lia.
    - right. right.
      destruct (addrs_blk _ _ _ _ _ _ _ _ HS Hc3)
        as (sz & pc & Hb & Hlo & Hhi & Hp).
      destruct (blk_fields _ _ _ _ _ Hb) as (Hs & _).
      destruct Hb as (_ & _ & _ & H2 & _).
      rewrite Hs in Hx. pose proof (lim_le sz H2).
      split; [apply Hp|]; lia. }
  refine (conj _ (conj _ (conj _ _))).
  - eapply lseg_frame; [|exact HP]. intros x Hx Hnp. apply Hfr.
    intros (c & Hc & Hcx).
    destruct (Hcls c x Hc Hcx) as [[Hp _]|[(s & _ & ? & ? & _)|[_ ?]]];
      [exact (Hnp Hp)|lia|lia].
  - eapply tail_seg_frame; [exact Hbrk| |exact HT].
    intros x Hx Hnp. apply Hfr. intros (c & Hc & Hcx).
    destruct (Hcls c x Hc Hcx) as [[_ ?]|[(s & _ & ? & ? & ?)|[Hp _]]];
      [lia|lia|exact (Hnp Hp)].
  - intros x Hx Hzs. apply Hfr. intros (c & Hc & Hcx).
    destruct (Hcls c x Hc Hcx) as [[_ ?]|[(s & Hin & ? & ? & ?)|[_ ?]]];
      [lia| |lia].
    rewrite Forall_forall in Hzs. apply (Hzs _ Hin). simpl. lia.
  - intros x Hx. apply Hfr. intros (c & Hc & Hcx).
    assert (Hout : x < lo \/ hi < x).
    { destruct Hx as [Hx|Hx].
      - left. pose proof (apayload_range _ _ _ _ _ _ _ HP Hx). lia.
      - right. pose proof (apayload_range _ _ _ _ _ _ _ HS Hx). lia. }
    pose proof (Hcs c Hc) as Hin.
    apply elem_of_app in Hin as [Hc1|Hin];
      [|apply elem_of_app in Hin as [Hc2|Hc3]].
    + destruct (addrs_blk _ _ _ _ _ _ _ _ HP Hc1)
        as (sz & pc & Hb & Hlo & Hhi & _).
      destruct (blk_fields _ _ _ _ _ Hb) as (Hs & _).
      destruct Hb as (_ & _ & _ & H2 & _).
      pose proof (lim_le sz H2). unfold span in Hhi. rewrite Hs in Hcx.
      destruct Hx as [Hx|Hx].
      * apply (apayload_not_free _ _ _ _ _ _ _ _ HP Hc1 Hx). rewrite Hs. lia.
      * pose proof (apayload_range _ _ _ _ _ _ _ HS Hx). lia.
    + destruct (zone_ok_in _ _ _ _ _ Hz Hc2) as (s & _ & Hs & H2 & Hlo & Hhi).
      rewrite Hs in Hcx. pose proof (lim_le s H2). lia.
    + destruct (addrs_blk _ _ _ _ _ _ _ _ HS Hc3)
        as (sz & pc & Hb & Hlo & Hhi & _).
      destruct (blk_fields _ _ _ _ _ Hb) as (Hs & _).
      destruct Hb as (_ & _ & _ & H2 & _).
      pose proof (lim_le sz H2). rewrite Hs in Hcx.
      destruct Hx as [Hx|Hx].
      * pose proof (apayload_range _ _ _ _ _ _ _ HP Hx). lia.
      * apply (apayload_not_free _ _ _ _ _ _ _ _ HS Hc3 Hx). rewrite Hs. lia.
Qed.

Lemma fblocks_fst a bs : (fblocks a bs).*1 = frees a bs.
Proof.
  revert a. induction bs as [|[sz al] bs IH]; intros a;
    cbn [fblocks frees addrs]; [reflexivity|].
  rewrite fmap_app, IH. destruct al; reflexivity.
Qed.

Lemma lseg_last h a pa bs e pe :
  lseg h a pa bs e pe -> pe = last_alloc pa bs.
Proof.
  revert a pa. induction bs as [|[sz al] bs IH]; intros a pa;
    cbn [lseg last_alloc].
  - intros [_ <-]. reflexivity.
  - intros [_ H]. eapply IH. exact H.
Qed.

Lemma coalesced_app pa bs1 bs2 :
  coalesced pa (bs1 ++ bs2) <->
  coalesced pa bs1 /\ coalesced (last_alloc pa bs1) bs2.
Proof.
  revert pa. induction bs1 as [|[sz al] bs1 IH]; intros pa;
    cbn [coalesced last_alloc app]; [prop|].
  rewrite IH. prop.
Qed.

Lemma zone_ok_fblocks h a pa bs e pe lo hi :
  lseg h a pa bs e pe -> lo <= a -> e <= hi -> zone_ok h lo hi (fblocks a bs).
Proof.
  revert a pa. induction bs as [|[sz al] bs IH]; intros a pa;
    cbn [lseg fblocks]; [constructor|].
  intros [Hb H] Hlo Hhi.
  pose proof (blk_span _ _ _ _ _ Hb) as Hsp.
  pose proof (lseg_le _ _ _ _ _ _ H) as Hle.
  apply Forall_app. split.
  - destruct al; [constructor|]. constructor; [|constructor]. simpl.
    destruct (blk_fields _ _ _ _ _ Hb) as (Hs & _).
    destruct Hb as (_ & _ & _ & H2 & _). unfold span in *. lia.
  - apply (IH _ _ H); lia.
Qed.

(** Where the blocks of the index lie. *)
Lemma header_cases h bs1 lo pl hi pm bs2 zs c :
  lseg h 1 true bs1 lo pl -> tail_seg h hi pm bs2 -> zone_ok h lo hi zs ->
  c ∈ frees 1 bs1 ++ zs.*1 ++ frees hi bs2 ->
  (0 < c /\ c + size_at h c + 2 <= lo /\ 2 <= size_at h c) \/
  (exists s, (c, s) ∈ zs /\ size_at h c = s /\ 2 <= s /\ lo <= c /\
             c + s + 2 <= hi) \/
  (hi <= c /\ c + size_at h c + 2 < brk h /\ 2 <= size_at h c /\
   match bs2 with (_, true) :: _ => hi + 2 <= c | _ => True end).
Proof.
  intros HP (pe & HS & He) Hz Hc.
  apply elem_of_app in Hc as [Hc1|Hc]; [|apply elem_of_app in Hc as [Hc2|Hc3]].
  - left.
    destruct (addrs_blk _ _ _ _ _ _ _ _ HP Hc1)
      as (sz & pc & Hb & Hlo & Hhi & Hp).
    destruct (blk_fields _ _ _ _ _ Hb) as (Hs & _).
    destruct Hb as (_ & _ & _ & H2 & _). rewrite Hs. unfold span in Hhi. lia.
  - right. left. apply (zone_ok_in _ _ _ _ _ Hz Hc2).
  - right. right.
    destruct (addrs_blk _ _ _ _ _ _ _ _ HS Hc3)
      as (sz & pc & Hb & Hlo & Hhi & Hp).
    destruct (blk_fields _ _ _ _ _ Hb) as (Hs & _).
    destruct Hb as (_ & _ & _ & H2 & _). rewrite Hs. unfold span in Hhi.
    refine (conj Hlo (conj _ (conj H2 _))); [lia|].
    destruct bs2 as [|[sz2 [|]] bs2']; [exact I| |exact I].
    destruct HS as [Hb2 HS']. cbn [frees addrs Bool.eqb app] in Hc3.
    destruct (addrs_blk _ _ _ _ _ _ _ _ HS' Hc3) as (_ & _ & _ & Hlo' & _).
    pose proof (blk_span _ _ _ _ _ Hb2). lia.
Qed.

(** The header of a block of the index is not a link word of another. *)
Lemma frame_header h h' cs c :
  apart cs -> frame h h' cs -> c ∈ cs -> word h' c = word h c.
Proof.
  intros Ha [_ Hfr] Hc. apply Hfr. intros (c' & Hc' & Hx).
  destruct (apart_far _ _ _ Ha Hc' Hc) as [->|F]; [lia|].
  unfold far in F. destruct (size_at h c' <=? SEG_LIST_SIZE * 2); lia.
Qed.

Lemma theight_idelete s c ix :
  (theight (bigs (idelete s c ix)) <= theight (bigs ix))%nat.
Proof.
  unfold idelete. destruct (s <=? SEG_LIST_SIZE * 2); cbn [bigs]; [lia|].
  apply theight_ttake.
Qed.

Lemma theight_iinsert s c ix :
  (theight (bigs (iinsert s c ix)) <= S (theight (bigs ix)))%nat.
Proof.
  unfold iinsert. destruct (s <=? SEG_LIST_SIZE * 2); cbn [bigs]; [lia|].
  apply theight_tput.
Qed.

Lemma fmap_fst_mid (zs1 zs2 : list (addr * Z)) c s :
  (zs1 ++ (c, s) :: zs2).*1 = zs1.*1 ++ c :: zs2.*1.
Proof. rewrite fmap_app. reflexivity. Qed.

Lemma ctx_delete {h0} fuel h ix bs1 lo pl hi pm bs2 zs1 c s zs2 :
  ctx h0 h ix bs1 lo pl hi pm bs2 (zs1 ++ (c, s) :: zs2) ->
  outcome (block_delete fuel c h) (fuel <= theight (bigs ix))%nat
    (fun _ h' =>
       ctx h0 h' (idelete s c ix) bs1 lo pl hi pm bs2 (zs1 ++ zs2) /\
       brk h' = brk h /\
       (forall x, lo <= x < hi ->
                  Forall (fun z => ~ (z.1 < x <= z.1 + z.2)) (zs1 ++ zs2) ->
                  word h' x = word h x)).
Proof.
  intros (HP & HT & Hle & Hbrk & Hix & Hperm & Hz & Hsp & Hkp).
  assert (Hzc : size_at h c = s).
  { unfold zone_ok in Hz. apply Forall_app in Hz as [_ Hz].
    apply Forall_cons in Hz as [Hc _]. apply Hc. }
  assert (Hz' : zone_ok h lo hi (zs1 ++ zs2)).
  { unfold zone_ok in *. apply Forall_app in Hz as [H1 Hz].
    apply Forall_cons in Hz as [_ H2]. apply Forall_app. auto. }
  assert (Hin : c ∈ iblocks ix).
  { rewrite Hperm, fmap_fst_mid. apply elem_of_app. right.
    apply elem_of_app. left. apply elem_of_app. right. left. }
  eapply outcome_weaken;
    [apply (block_delete_spec fuel h ix c Hix Hsp Hin)|auto|].
  intros [] h'. cbv beta. rewrite Hzc. intros (Hix' & Hperm' & Hfr).
  assert (Hp2 : iblocks (idelete s c ix)
                ≡ₚ frees 1 bs1 ++ (zs1 ++ zs2).*1 ++ frees hi bs2).
  { apply (Permutation_cons_inv (a := c)). rewrite <- Hperm', Hperm.
    rewrite fmap_fst_mid, fmap_app. solve_Permutation. }
  assert (Hap : apart (iblocks (idelete s c ix))).
  { destruct Hsp as (Hap & _). rewrite Hperm' in Hap.
    apply apart_cons in Hap as [_ Hap]. exact Hap. }
  destruct (frame_ctx h h' (iblocks (idelete s c ix)) bs1 lo pl hi pm bs2
              (zs1 ++ zs2) HP HT Hle Hz')
    as (HP' & HT' & Hzone & Hkp'); [|exact Hfr|].
  { intros c' Hc'. rewrite <- Hp2. exact Hc'. }
  destruct Hfr as [Hb' Hfr'].
  refine (conj _ (conj Hb' Hzone)).
  refine (conj HP' (conj HT' (conj Hle (conj _ (conj Hix' (conj Hp2
            (conj _ (conj _ (keeps_trans _ _ _ _ _ _ Hkp Hkp'))))))))).
  - rewrite Hb'. exact Hbrk.
  - unfold zone_ok in *. rewrite Forall_forall in *. intros z Hzin.
    destruct (Hz' z Hzin) as (Hs & Hrest). split; [|exact Hrest].
    unfold size_at in *.
    rewrite (frame_header h h' _ z.1 Hap (conj Hb' Hfr')); [exact Hs|].
    rewrite Hp2. apply elem_of_app. right. apply elem_of_app. left.
    apply list_elem_of_fmap. exists z. auto.
  - apply (spaced_same_brk h h' _ Hb').
    rewrite Hperm' in Hsp. apply spaced_cons in Hsp as (_ & _ & Hsp).
    exact Hsp.
Qed.

Lemma iblocks_iinsert_rep h ix k b :
  index_rep h ix -> 2 <= k -> Z.even k = true ->
  iblocks (iinsert k b ix) ≡ₚ b :: iblocks ix.
Proof.
  intros (_ & Hlen & _) Hk He.
  destruct (Z.leb_spec k (SEG_LIST_SIZE * 2)) as [Hle|Hgt].
  - destruct (find_index_even k (conj Hk Hle) He) as [Hi _].
    assert (Hlt : (Z.to_nat (find_index k) < length (smalls ix))%nat).
    { rewrite Hlen. lia. }
    destruct (lookup_lt_is_Some_2 _ _ Hlt) as [l Hl].
    apply (iblocks_iinsert k b ix l). intros _. exact Hl.
  - apply (iblocks_iinsert k b ix []). intros H. lia.
Qed.

Lemma ctx_insert {h0} fuel h ix bs1 lo pl hi pm bs2 zs c s :
  ctx h0 h ix bs1 lo pl hi pm bs2 zs ->
  spaced h (c :: iblocks ix) ->
  size_at h c = s -> 2 <= s -> Z.even s = true ->
  lo <= c -> c + s + 2 <= hi ->
  outcome (block_insert fuel c h) (fuel <= theight (bigs ix))%nat
    (fun _ h' =>
       ctx h0 h' (iinsert s c ix) bs1 lo pl hi pm bs2 ((c, s) :: zs) /\
       brk h' = brk h /\
       (forall x, lo <= x < hi ->
                  Forall (fun z => ~ (z.1 < x <= z.1 + z.2)) ((c, s) :: zs) ->
                  word h' x = word h x)).
Proof.
  intros (HP & HT & Hle & Hbrk & Hix & Hperm & Hz & _ & Hkp)
    Hsp Hs H2 He Hlo Hhi.
  assert (Hz' : zone_ok h lo hi ((c, s) :: zs)).
  { constructor; [simpl; auto|exact Hz]. }
  eapply outcome_weaken;
    [apply (block_insert_spec fuel h ix c Hix Hsp); rewrite Hs; assumption
    |auto|].
  intros [] h'. cbv beta. rewrite Hs. intros (Hix' & Hfr).
  assert (Hp2 : iblocks (iinsert s c ix)
                ≡ₚ frees 1 bs1 ++ ((c, s) :: zs).*1 ++ frees hi bs2).
  { rewrite (iblocks_iinsert_rep h ix s c Hix H2 He), Hperm.
    rewrite fmap_cons. cbn [fst]. solve_Permutation. }
  destruct (frame_ctx h h' (c :: iblocks ix) bs1 lo pl hi pm bs2
              ((c, s) :: zs) HP HT Hle Hz')
    as (HP' & HT' & Hzone & Hkp'); [|exact Hfr|].
  { intros c' Hc'. rewrite <- Hp2.
    rewrite (iblocks_iinsert_rep h ix s c Hix H2 He). exact Hc'. }
  pose proof Hfr as [Hb' _].
  refine (conj _ (conj Hb' Hzone)).
  refine (conj HP' (conj HT' (conj Hle (conj _ (conj Hix' (conj Hp2
            (conj _ (conj _ (keeps_trans _ _ _ _ _ _ Hkp Hkp'))))))))).
  - rewrite Hb'. exact Hbrk.
  - unfold zone_ok in *. rewrite Forall_forall in *. intros z Hzin.
    destruct (Hz' z Hzin) as (Hsz & Hrest). split; [|exact Hrest].
    unfold size_at in *.
    rewrite (frame_header h h' _ z.1 (proj1 Hsp) Hfr); [exact Hsz|].
    apply elem_of_cons in Hzin as [->|Hzin]; [left|right].
    rewrite Hperm. apply elem_of_app. right. apply elem_of_app. left.
    apply list_elem_of_fmap. exists z. auto.
  - apply (spaced_same_brk h h' _ Hb').
    rewrite (iblocks_iinsert_rep h ix s c Hix H2 He). exact Hsp.
Qed.

(** A write into the zone that keeps off the blocks of the index. *)
Lemma ctx_store {h0} h ix bs1 lo pl hi pm bs2 zs x v :
  ctx h0 h ix bs1 lo pl hi pm bs2 zs ->
  lo <= x < hi ->
  Forall (fun z => ~ (z.1 < x <= z.1 + z.2) /\
                   (x = z.1 -> v mod 2 ^ 30 = z.2)) zs ->
  ctx h0 (upd x v h) ix bs1 lo pl hi pm bs2 zs.
Proof.
  intros (HP & HT & Hle & Hbrk & Hix & Hperm & Hz & Hsp & Hkp) Hx Hzs.
  pose proof (keeps_upd h0 h bs1 lo pl hi pm bs2 x v HP HT ltac:(lia) Hkp)
    as Hkp'.
  rewrite Forall_forall in Hzs.
  assert (Hcase : forall c, c ∈ iblocks ix -> _) by
    (intros c Hc; rewrite Hperm in Hc;
     exact (header_cases h bs1 lo pl hi pm bs2 zs c HP HT Hz Hc)).
  refine (conj _ (conj _ (conj Hle (conj _ (conj _ (conj Hperm
            (conj _ (conj Hsp Hkp')))))))).
  - eapply lseg_frame; [|exact HP]. intros y Hy _.
    apply word_upd_ne. lia.
  - eapply tail_seg_frame; [apply brk_upd| |exact HT]. intros y Hy _.
    apply word_upd_ne. lia.
  - rewrite brk_upd. exact Hbrk.
  - apply (index_rep_frame h); [exact Hix|reflexivity|reflexivity| |].
    + intros c Hc.
      destruct (Hcase c Hc) as [(? & ? & ?)|[(s & Hin & Hs & ?)|(? & ?)]].
      * apply size_at_upd_ne. pose proof (size_at_range h c). lia.
      * destruct (Hzs _ Hin) as [_ Heq]. cbn [fst snd] in Heq.
        destruct (decide (c = x)) as [->|Hne].
        -- rewrite size_at_upd_eq. rewrite Heq by reflexivity. auto.
        -- apply size_at_upd_ne. exact Hne.
      * apply size_at_upd_ne. lia.
    + intros y (c & Hc & Hy). apply word_upd_ne. intros ->.
      destruct (Hcase c Hc) as [(? & ? & H2)|[(s & Hin & Hs & H2 & ?)|(? & ?)]].
      * pose proof (lim_le _ H2). lia.
      * destruct (Hzs _ Hin) as [Hn _]. cbn [fst snd] in Hn.
        rewrite Hs in Hy. pose proof (lim_le _ H2). lia.
      * lia.
  - unfold zone_ok in *. rewrite Forall_forall in *. intros z Hzin.
    destruct (Hz z Hzin) as (Hs & Hrest). split; [|exact Hrest].
    destruct (Hzs z Hzin) as [_ Heq].
    destruct (decide (z.1 = x)) as [E|Hne].
    + rewrite E, size_at_upd_eq. apply Heq. auto.
    + rewrite size_at_upd_ne by exact Hne. exact Hs.
Qed.

(** A write to the header after the zone, of an allocated block or of the
    epilogue, that sets its prev_alloc bit. *)
Lemma ctx_repa {h0} h ix bs1 lo pl hi pm pm' bs2 zs :
  ctx h0 h ix bs1 lo pl hi pm bs2 zs ->
  match bs2 with (_, false) :: _ => False | _ => True end ->
  ctx h0 (upd hi (hdr (size_at h hi) true pm') h) ix bs1 lo pl hi pm' bs2 zs.
Proof.
  intros (HP & HT & Hle & Hbrk & Hix & Hperm & Hz & Hsp & Hkp) Hal.
  pose proof (keeps_upd h0 h bs1 lo pl hi pm bs2 hi
                (hdr (size_at h hi) true pm') HP HT ltac:(lia) Hkp) as Hkp'.
  pose proof (tail_seg_le _ _ _ _ HT) as Hhb.
  assert (Hcase : forall c, c ∈ iblocks ix -> _) by
    (intros c Hc; rewrite Hperm in Hc;
     exact (header_cases h bs1 lo pl hi pm bs2 zs c HP HT Hz Hc)).
  set (h' := upd hi (hdr (size_at h hi) true pm') h).
  refine (conj _ (conj _ (conj Hle (conj _ (conj _ (conj Hperm
            (conj _ (conj Hsp Hkp')))))))).
  - eapply lseg_frame; [|exact HP]. intros y Hy _.
    apply word_upd_ne. lia.
  - destruct bs2 as [|[sz [|]] bs2']; [| |contradiction].
    + apply tail_seg_nil in HT as [E Hw]. apply tail_seg_nil.
      unfold h'. rewrite brk_upd. split; [exact E|].
      rewrite word_upd_eq. rewrite (size_at_hdr _ _ _ _ _ Hw) by lia.
      reflexivity.
    + apply tail_seg_cons in HT as [Hb HT]. apply tail_seg_cons.
      pose proof (blk_span _ _ _ _ _ Hb) as Hspan.
      split.
      * destruct (blk_fields _ _ _ _ _ Hb) as (Hs & _).
        destruct Hb as (Hw & Hr & Ho). unfold blk, h'.
        rewrite word_upd_eq, Hs. auto.
      * eapply tail_seg_frame; [apply brk_upd| |exact HT]. intros y Hy _.
        apply word_upd_ne. lia.
  - unfold h'. rewrite brk_upd. exact Hbrk.
  - assert (Hne : forall c, c ∈ iblocks ix ->
              ~ (c <= hi <= c + (if size_at h c <=? SEG_LIST_SIZE * 2
                                 then 2 else 4))).
    { intros c Hc.
      destruct (Hcase c Hc) as [(? & ? & H2)|[(s & Hin & Hs & H2 & ?)|(? & ? & H2 & Hb2)]].
      - pose proof (lim_le _ H2). lia.
      - rewrite Hs. pose proof (lim_le _ H2). lia.
      - destruct bs2 as [|[sz [|]] bs2']; [|lia|contradiction].
        apply tail_seg_nil in HT as [E _]. lia. }
    apply (index_rep_frame h); [exact Hix|reflexivity|reflexivity| |].
    + intros c Hc. apply size_at_upd_ne. specialize (Hne c Hc).
      destruct (size_at h c <=? SEG_LIST_SIZE * 2); lia.
    + intros y (c & Hc & Hy). apply word_upd_ne. intros ->.
      specialize (Hne c Hc). lia.
  - unfold zone_ok in *. rewrite Forall_forall in *. intros z Hzin.
    destruct (Hz z Hzin) as (Hs & Hrest). split; [|exact Hrest].
    unfold h'. rewrite size_at_upd_ne by lia. exact Hs.
Qed.

(** Entering and leaving a zone. *)
Lemma ctx_start h bs1 mid bs2 ix :
  wf_with h (bs1 ++ mid ++ bs2) ix ->
  exists pl pm,
    ctx h h ix bs1 (1 + spans bs1) pl (1 + spans bs1 + spans mid) pm bs2
      (fblocks (1 + spans bs1) mid) /\
    lseg h (1 + spans bs1) pl mid (1 + spans bs1 + spans mid) pm /\
    pl = last_alloc true bs1 /\ pm = last_alloc pl mid.
Proof.
  intros Hwf. pose proof (wf_spaced _ _ _ Hwf) as Hsp.
  destruct Hwf as (HT & Hco & Hix & Hperm & Hbrk).
  apply tail_seg_app in HT as (pl & HP & HT).
  apply tail_seg_app in HT as (pm & HM & HT).
  exists pl, pm.
  pose proof (lseg_le _ _ _ _ _ _ HM) as Hle.
  refine (conj _ (conj HM (conj _ _)));
    [|eapply lseg_last; exact HP|eapply lseg_last; exact HM].
  refine (conj HP (conj HT (conj Hle (conj Hbrk (conj Hix (conj _
            (conj _ (conj Hsp (keeps_refl _ _ _ _))))))))).
  - rewrite Hperm, fblocks_fst. unfold frees. rewrite !addrs_app.
    reflexivity.
  - eapply zone_ok_fblocks; [exact HM|lia|lia].
Qed.

Lemma ctx_end {h0} h ix bs1 lo pl hi pm bs2 zs mid :
  ctx h0 h ix bs1 lo pl hi pm bs2 zs ->
  lseg h lo pl mid hi pm ->
  zs.*1 ≡ₚ frees lo mid ->
  coalesced true (bs1 ++ mid ++ bs2) ->
  wf_with h (bs1 ++ mid ++ bs2) ix.
Proof.
  intros (HP & HT & Hle & Hbrk & Hix & Hperm & Hz & _) HM Hzs Hco.
  pose proof (lseg_end _ _ _ _ _ _ HP) as E1.
  pose proof (lseg_end _ _ _ _ _ _ HM) as E2.
  refine (conj _ (conj Hco (conj Hix (conj _ Hbrk)))).
  - apply tail_seg_app. exists pl. rewrite <- E1. split; [exact HP|].
    apply tail_seg_app. exists pm. rewrite <- E2. auto.
  - rewrite Hperm, Hzs. unfold frees. rewrite !addrs_app, <- E1, <- E2.
    reflexivity.
Qed.

Lemma coalesced_weaken pa bs : coalesced false bs -> coalesced pa bs.
Proof.
  destruct bs as [|[sz al] bs]; cbn [coalesced]; [auto|].
  intros [[E|E] Hc]; [discriminate|auto].
Qed.

(** The free blocks around a zone and one free block in it are far from one
    another. *)
Lemma spaced_zone h bs1 lo hi pm bs2 c s :
  lseg h 1 true bs1 lo true -> tail_seg h hi pm bs2 ->
  coalesced true bs1 -> coalesced false bs2 ->
  brk h <= 2 ^ 30 ->
  lo <= c -> 2 <= s -> c + s + 2 <= hi ->
  spaced h (frees 1 bs1 ++ c :: frees hi bs2).
Proof.
  intros HP HT Hc1 Hc2 Hbrk Hlo H2 Hhi.
  pose proof (tail_seg_le _ _ _ _ HT) as Hhb.
  destruct HT as (pe & HS & He).
  assert (Hpre : forall c', c' ∈ frees 1 bs1 -> 0 < c' /\ c' + 6 <= lo).
  { intros c' Hc'. destruct (addrs_split _ _ _ _ Hc') as (l1 & sz & l2 & -> & ->).
    apply lseg_app in HP as (pm1 & HP1 & HP2). destruct HP2 as [Hb HP2].
    pose proof (lseg_spans _ _ _ _ _ _ HP1).
    destruct Hb as (_ & _ & _ & Hs2 & _).
    destruct l2 as [|[sz2 al2] l2].
    - destruct HP2 as [_ [=]].
    - destruct HP2 as [Hb2 HP2].
      pose proof (blk_span _ _ _ _ _ Hb2).
      pose proof (lseg_le _ _ _ _ _ _ HP2). unfold span in *. lia. }
  assert (Hsuf : forall c', c' ∈ frees hi bs2 ->
            hi + 2 <= c' /\ c' + 4 < brk h).
  { intros c' Hc'. split.
    - eapply frees_after_alloc; eassumption.
    - destruct (addrs_blk _ _ _ _ _ _ _ _ HS Hc')
        as (sz & pc & (_ & _ & _ & Hs2 & _) & _ & Hhi' & _).
      unfold span in Hhi'. lia. }
  apply spaced_intro; [| |exact Hbrk].
  - apply apart_app. refine (conj _ (conj _ _)).
    + eapply frees_apart; eassumption.
    + split; [|eapply frees_apart;
                 [exact HS|apply coalesced_weaken; exact Hc2]].
      apply Forall_forall. intros c' Hc'. destruct (Hsuf c' Hc').
      unfold far. lia.
    + intros c1 c2 H1 H2'. destruct (Hpre c1 H1).
      apply elem_of_cons in H2' as [->|H2'].
      * unfold far. lia.
      * destruct (Hsuf c2 H2'). unfold far. lia.
  - apply Forall_app. split; [|constructor].
    + apply Forall_forall. intros c' Hc'. destruct (Hpre c' Hc'). lia.
    + pose proof (lseg_le _ _ _ _ _ _ HP). lia.
    + pose proof (lseg_le _ _ _ _ _ _ HP).
      apply Forall_forall. intros c' Hc'. destruct (Hsuf c' Hc'). lia.
Qed.

(** The last step of an operation: the zone is laid out anew with one free
    block, which goes into the index. *)
Lemma ctx_insert_end {h0} fuel h ix bs1 lo pl hi pm bs2 mid c :
  ctx h0 h ix bs1 lo pl hi pm bs2 [] ->
  lseg h lo pl mid hi pm ->
  coalesced true (bs1 ++ mid ++ bs2) ->
  frees lo mid = [c] ->
  outcome (block_insert fuel c h) (fuel <= theight (bigs ix))%nat
    (fun _ h' =>
       wf_with h' (bs1 ++ mid ++ bs2) (iinsert (size_at h c) c ix) /\
       brk h' = brk h /\
       keeps h0 h' bs1 hi bs2 /\
       (forall x, lo <= x < hi -> ~ (c < x <= c + size_at h c) ->
                  word h' x = word h x)).
Proof.
  intros Hctx HM Hco Hfr.
  pose proof Hctx as (HP & HT & Hle & Hbrk & Hix & Hperm & Hz & Hsp & Hkp).
  assert (Hc : c ∈ frees lo mid) by (rewrite Hfr; left).
  destruct (addrs_blk _ _ _ _ _ _ _ _ HM Hc)
    as (n & pc & Hb & Hlo & Hhi & Hpay).
  destruct (blk_fields _ _ _ _ _ Hb) as (Hs & _).
  pose proof Hb as (_ & _ & He & H2 & _). unfold span in Hhi.
  assert (Hhi' : c + n + 2 <= hi) by lia.
  assert (Hwhole : tail_seg h 1 true (bs1 ++ mid ++ bs2)).
  { pose proof (lseg_end _ _ _ _ _ _ HP) as E1.
    pose proof (lseg_end _ _ _ _ _ _ HM) as E2.
    apply tail_seg_app. exists pl. rewrite <- E1. split; [exact HP|].
    apply tail_seg_app. exists pm. rewrite <- E2. auto. }
  assert (Hsp' : spaced h (c :: iblocks ix)).
  { destruct Hwhole as (pe & HL & _).
    pose proof (lseg_le _ _ _ _ _ _ HL).
    eapply spaced_perm;
      [|eapply (frees_spaced h 1 true (bs1 ++ mid ++ bs2));
        [exact HL|exact Hco|lia|lia|exact Hbrk]].
    pose proof (lseg_end _ _ _ _ _ _ HP) as E1.
    pose proof (lseg_end _ _ _ _ _ _ HM) as E2.
    unfold frees in *. rewrite !addrs_app, <- E1, <- E2, Hfr, Hperm.
    cbn [fmap list_fmap app]. solve_Permutation. }
  rewrite Hs.
  eapply outcome_weaken;
    [apply (ctx_insert fuel h ix bs1 lo pl hi pm bs2 [] c n Hctx Hsp' Hs H2 He
              Hlo Hhi')|auto|].
  intros [] h' (Hctx' & Hb' & Hw').
  split; [|split; [exact Hb'|split; [apply Hctx'|]]].
  2:{ intros x Hx Hn. apply Hw'; [exact Hx|].
      constructor; [exact Hn|constructor]. }
  eapply ctx_end; [exact Hctx'| |rewrite Hfr; reflexivity|exact Hco].
  eapply lseg_frame; [|exact HM]. intros x Hx Hnp. apply Hw'; [exact Hx|].
  constructor; [|constructor]. cbn [fst snd]. intros Hcx.
  apply Hnp, Hpay, Hcx.
Qed.

(** ** Coalescing *)

Ltac mark_side :=
  rewrite ?size_at_upd_eq, ?brk_upd, ?word_upd_eq;
  rewrite ?Z.mod_small by lia; lia.

(** Unsigned arithmetic that does not wrap. *)
Ltac u32s :=
  unfold u32;
  repeat match goal with
         | |- context [?a mod 2 ^ 32] =>
             rewrite (Z.mod_small a (2 ^ 32)) by lia
         end.

Ltac step_mark :=
  lazymatch goal with
  | |- context [bind (block_mark_free ?b ?al) ?k ?h] =>
      rewrite (bind_Ok _ k h _ _
                 (block_mark_free_eq b al h ltac:(mark_side) ltac:(mark_side)
                    ltac:(mark_side)))
  | |- context [bind (block_mark_allo ?b ?al) ?k ?h] =>
      rewrite (bind_Ok _ k h _ _
                 (block_mark_allo_eq b al h ltac:(mark_side)
                    ltac:(mark_side)))
  end; cbv beta.

Lemma coalesce_both {h0} fuel h ix bs1 bs2 pb ps b v bf w nb ns npa ppa hi :
  ctx h0 h ix bs1 pb true hi false bs2 [(pb, ps); (nb, ns)] ->
  coalesced true bs1 -> coalesced false bs2 ->
  blk h pb ps false ppa -> blk h nb ns false npa ->
  word h b = hdr v (negb bf) false -> 0 <= v < 2 ^ 30 ->
  w = (if bf then v else v - 1) -> 0 <= w -> Z.even w = true ->
  b = pb + ps + 2 -> nb = b + w + 2 -> hi = nb + ns + 2 ->
  outcome (coalesce fuel b h) (fuel <= theight (bigs ix))%nat
    (fun r h' =>
       r = pb /\
       wf_with h' (bs1 ++ (w + ps + ns + 4, false) :: bs2)
         (iinsert (w + ps + ns + 4) pb
            (idelete ns nb (idelete ps pb ix))) /\
       brk h' = brk h /\ keeps h0 h' bs1 hi bs2).
Proof.
  intros Hctx Hc1 Hc2 Hpb Hnb Hbw Hv Hw Hw0 Hwe Eb Enb Ehi.
  pose proof Hctx as (HP & HT & Hle & Hbrk & Hix & Hperm & Hz & Hsp & Hkp).
  pose proof (tail_seg_le _ _ _ _ HT) as Hhb.
  pose proof (lseg_le _ _ _ _ _ _ HP) as Hlo.
  destruct (blk_fields _ _ _ _ _ Hpb) as (Hps & Hpf & _ & Hpr).
  destruct (blk_fields _ _ _ _ _ Hnb) as (Hns & Hnf & _ & Hnr).
  pose proof Hpb as (_ & _ & Hpe & Hp2 & Hpft).
  pose proof Hnb as (_ & _ & Hne & Hn2 & Hnft).
  pose proof (size_at_hdr _ _ _ _ _ Hbw Hv) as Hbs.
  pose proof (free_at_hdr _ _ _ _ _ Hbw Hv) as Hbf.
  pose proof (prev_free_at_hdr _ _ _ _ _ Hbw Hv) as Hbp.
  rewrite negb_involutive in Hbf. cbn [negb] in Hbp.
  unfold coalesce.
  step. rewrite Hbf, Hbs.
  replace (if bf then b + v + 2 else b + v + 1) with nb
    by (subst w; destruct bf; lia).
  step. rewrite Hbp. step. rewrite Hnf. cbn [negb]. step. rewrite Hbs.
  step. step. replace (b - 1) with (pb + ps + 1) by lia. rewrite Hpft.
  replace (b - ps - 2) with pb by lia.
  step. step. rewrite Hbf.
  replace (if bf then v else u32 (v - 1)) with w.
  2:{ subst w. destruct bf; [reflexivity|]. unfold u32.
      rewrite Z.mod_small; lia. }
  cbv iota. unfold deref. step.
  set (n := w + ps + ns + 4).
  assert (Hn : 2 <= n < 2 ^ 30 /\ pb + n + 2 = hi) by (unfold n; lia).
  assert (Hne' : Z.even n = true).
  { unfold n. rewrite !Z.even_add, Hwe, Hpe, Hne. reflexivity. }
  eapply outcome_bind;
    [apply (ctx_delete fuel h ix bs1 pb true hi false bs2 [] pb ps
              [(nb, ns)] Hctx)|auto|].
  intros [] h1 (Hctx1 & Hb1 & Hw1). cbn [app] in Hctx1, Hw1.
  eapply outcome_bind;
    [apply (ctx_delete fuel h1 _ bs1 pb true hi false bs2 [] nb ns [] Hctx1)
    |pose proof (theight_idelete ps pb ix); lia|].
  intros [] h2 (Hctx2 & Hb2 & Hw2). cbn [app] in Hctx2, Hw2.
  set (ix2 := idelete ns nb (idelete ps pb ix)) in *.
  assert (Hps2 : size_at h2 pb = ps).
  { unfold size_at. rewrite Hw2, Hw1; [exact Hps|lia| |lia|constructor].
    repeat constructor. simpl. lia. }
  assert (Hns2 : size_at h2 nb = ns).
  { unfold size_at. rewrite Hw2 by (try constructor; lia).
    destruct Hctx1 as (_ & _ & _ & _ & _ & _ & Hz1 & _).
    apply Forall_cons in Hz1 as [Hz1 _]. apply Hz1. }
  step. step. rewrite Hps2, Hns2.
  replace (u32 (w + u32 (u32 (ps + ns) + 4))) with n
    by (u32s; unfold n; lia).
  step. step_mark. rewrite size_at_upd_eq, Z.mod_small by lia.
  change (ALLOCATED =? 0) with true.
  set (H := hdr n false true).
  set (h3 := upd (pb + n + 1) H (upd pb H (upd pb n h2))).
  assert (Hctx3 : ctx h0 h3 ix2 bs1 pb true hi false bs2 []).
  { unfold h3. repeat (apply ctx_store; [|lia|constructor]). exact Hctx2. }
  assert (HM : lseg h3 pb true [(n, false)] hi false).
  { cbn [lseg]. unfold blk, span. unfold h3, H, size_at. wsimp.
    rewrite hdr_size by lia. repeat split; auto; lia. }
  eapply outcome_bind;
    [apply (ctx_insert_end fuel h3 ix2 bs1 pb true hi false bs2
              [(n, false)] pb Hctx3 HM)| |].
  - apply coalesced_app. split; [exact Hc1|].
    rewrite <- (lseg_last _ _ _ _ _ _ HP). cbn [coalesced app]. auto.
  - reflexivity.
  - unfold ix2. pose proof (theight_idelete ps pb ix).
    pose proof (theight_idelete ns nb (idelete ps pb ix)). lia.
  - intros [] h4 (Hwf & Hb4 & Hk4 & _). apply outcome_Ok.
    assert (E : size_at h3 pb = n).
    { unfold h3, H, size_at. wsimp. apply hdr_size. lia. }
    rewrite E in Hwf. refine (conj eq_refl (conj Hwf (conj _ Hk4))).
    rewrite Hb4. unfold h3. rewrite !brk_upd. lia.
Qed.

(** The block after the zone, when it is not free. *)
Lemma tail_seg_alloc h a pa bs :
  tail_seg h a pa bs -> coalesced false bs -> free_at h a = false.
Proof.
  intros HT Hc. destruct bs as [|[sz al] bs].
  - apply tail_seg_nil in HT as [_ Hw].
    rewrite (free_at_hdr _ _ _ _ _ Hw); [reflexivity|lia].
  - destruct Hc as [[E| ->] _]; [discriminate|].
    apply tail_seg_cons in HT as [Hb _].
    destruct (blk_fields _ _ _ _ _ Hb) as (_ & Hf & _). exact Hf.
Qed.

Lemma coalesce_prev {h0} fuel h ix bs1 bs2 pb ps b v bf w ppa hi :
  ctx h0 h ix bs1 pb true hi false bs2 [(pb, ps)] ->
  coalesced true bs1 -> coalesced false bs2 ->
  blk h pb ps false ppa ->
  word h b = hdr v (negb bf) false -> 0 <= v < 2 ^ 30 ->
  w = (if bf then v else v - 1) -> 0 <= w -> Z.even w = true ->
  b = pb + ps + 2 -> hi = b + w + 2 ->
  outcome (coalesce fuel b h) (fuel <= theight (bigs ix))%nat
    (fun r h' =>
       r = pb /\
       wf_with h' (bs1 ++ (w + ps + 2, false) :: bs2)
         (iinsert (w + ps + 2) pb (idelete ps pb ix)) /\
       brk h' = brk h /\ keeps h0 h' bs1 hi bs2).
Proof.
  intros Hctx Hc1 Hc2 Hpb Hbw Hv Hw Hw0 Hwe Eb Ehi.
  pose proof Hctx as (HP & HT & Hle & Hbrk & Hix & Hperm & Hz & Hsp & Hkp).
  pose proof (tail_seg_le _ _ _ _ HT) as Hhb.
  pose proof (lseg_le _ _ _ _ _ _ HP) as Hlo.
  destruct (blk_fields _ _ _ _ _ Hpb) as (Hps & Hpf & _ & Hpr).
  pose proof Hpb as (_ & _ & Hpe & Hp2 & Hpft).
  pose proof (size_at_hdr _ _ _ _ _ Hbw Hv) as Hbs.
  pose proof (free_at_hdr _ _ _ _ _ Hbw Hv) as Hbf.
  pose proof (prev_free_at_hdr _ _ _ _ _ Hbw Hv) as Hbp.
  pose proof (tail_seg_alloc _ _ _ _ HT Hc2) as Hnf.
  rewrite negb_involutive in Hbf. cbn [negb] in Hbp.
  unfold coalesce.
  step. rewrite Hbf, Hbs.
  replace (if bf then b + v + 2 else b + v + 1) with hi
    by (subst w; destruct bf; lia).
  step. rewrite Hbp. step. rewrite Hnf. step. rewrite Hbs.
  step. step. replace (b - 1) with (pb + ps + 1) by lia. rewrite Hpft.
  replace (b - ps - 2) with pb by lia.
  step. step. rewrite Hbf.
  replace (if bf then v else u32 (v - 1)) with w.
  2:{ subst w. destruct bf; [reflexivity|]. unfold u32.
      rewrite Z.mod_small; lia. }
  cbv iota. unfold deref. step.
  set (n := w + ps + 2).
  assert (Hn : 2 <= n < 2 ^ 30 /\ pb + n + 2 = hi) by (unfold n; lia).
  assert (Hne' : Z.even n = true).
  { unfold n. rewrite !Z.even_add, Hwe, Hpe. reflexivity. }
  eapply outcome_bind;
    [apply (ctx_delete fuel h ix bs1 pb true hi false bs2 [] pb ps [] Hctx)
    |auto|].
  intros [] h1 (Hctx1 & Hb1 & Hw1). cbn [app] in Hctx1, Hw1.
  set (ix1 := idelete ps pb ix) in *.
  assert (Hps1 : size_at h1 pb = ps).
  { unfold size_at. rewrite Hw1; [exact Hps|lia|constructor]. }
  step. rewrite Hps1.
  replace (u32 (w + u32 (ps + 2))) with n by (u32s; unfold n; lia).
  step. step_mark. rewrite size_at_upd_eq, Z.mod_small by lia.
  change (ALLOCATED =? 0) with true.
  set (H := hdr n false true).
  set (h3 := upd (pb + n + 1) H (upd pb H (upd pb n h1))).
  assert (Hctx3 : ctx h0 h3 ix1 bs1 pb true hi false bs2 []).
  { unfold h3. repeat (apply ctx_store; [|lia|constructor]). exact Hctx1. }
  assert (HM : lseg h3 pb true [(n, false)] hi false).
  { cbn [lseg]. unfold blk, span. unfold h3, H, size_at. wsimp.
    rewrite hdr_size by lia. repeat split; auto; lia. }
  eapply outcome_bind;
    [apply (ctx_insert_end fuel h3 ix1 bs1 pb true hi false bs2
              [(n, false)] pb Hctx3 HM)| |].
  - apply coalesced_app. split; [exact Hc1|].
    rewrite <- (lseg_last _ _ _ _ _ _ HP). cbn [coalesced app]. auto.
  - reflexivity.
  - unfold ix1. pose proof (theight_idelete ps pb ix). lia.
  - intros [] h4 (Hwf & Hb4 & Hk4 & _). apply outcome_Ok.
    assert (E : size_at h3 pb = n).
    { unfold h3, H, size_at. wsimp. apply hdr_size. lia. }
    rewrite E in Hwf. refine (conj eq_refl (conj Hwf (conj _ Hk4))).
    rewrite Hb4. unfold h3. rewrite !brk_upd. lia.
Qed.

Lemma coalesce_next {h0} fuel h ix bs1 bs2 b v bf w nb ns npa hi :
  ctx h0 h ix bs1 b true hi false bs2 [(nb, ns)] ->
  coalesced true bs1 -> coalesced false bs2 ->
  blk h nb ns false npa ->
  word h b = hdr v (negb bf) true -> 0 <= v < 2 ^ 30 ->
  w = (if bf then v else v - 1) -> 0 <= w -> Z.even w = true ->
  nb = b + w + 2 -> hi = nb + ns + 2 ->
  outcome (coalesce fuel b h) (fuel <= theight (bigs ix))%nat
    (fun r h' =>
       r = b /\
       wf_with h' (bs1 ++ (w + ns + 2, false) :: bs2)
         (iinsert (w + ns + 2) b (idelete ns nb ix)) /\
       brk h' = brk h /\ keeps h0 h' bs1 hi bs2).
Proof.
  intros Hctx Hc1 Hc2 Hnb Hbw Hv Hw Hw0 Hwe Enb Ehi.
  pose proof Hctx as (HP & HT & Hle & Hbrk & Hix & Hperm & Hz & Hsp & Hkp).
  pose proof (tail_seg_le _ _ _ _ HT) as Hhb.
  pose proof (lseg_le _ _ _ _ _ _ HP) as Hlo.
  destruct (blk_fields _ _ _ _ _ Hnb) as (Hns & Hnf & _ & Hnr).
  pose proof Hnb as (_ & _ & Hne & Hn2 & Hnft).
  pose proof (size_at_hdr _ _ _ _ _ Hbw Hv) as Hbs.
  pose proof (free_at_hdr _ _ _ _ _ Hbw Hv) as Hbf.
  pose proof (prev_free_at_hdr _ _ _ _ _ Hbw Hv) as Hbp.
  rewrite negb_involutive in Hbf. cbn [negb] in Hbp, Hnf.
  unfold coalesce.
  step. rewrite Hbf, Hbs.
  replace (if bf then b + v + 2 else b + v + 1) with nb
    by (subst w; destruct bf; lia).
  step. rewrite Hbp. step. rewrite Hnf. step. rewrite Hbs.
  step. step. rewrite Hbf.
  replace (if bf then v else u32 (v - 1)) with w.
  2:{ subst w. destruct bf; [reflexivity|]. unfold u32.
      rewrite Z.mod_small; lia. }
  cbv iota.
  set (n := w + ns + 2).
  assert (Hn : 2 <= n < 2 ^ 30 /\ b + n + 2 = hi) by (unfold n; lia).
  assert (Hne' : Z.even n = true).
  { unfold n. rewrite !Z.even_add, Hwe, Hne. reflexivity. }
  eapply outcome_bind;
    [apply (ctx_delete fuel h ix bs1 b true hi false bs2 [] nb ns [] Hctx)
    |auto|].
  intros [] h1 (Hctx1 & Hb1 & Hw1). cbn [app] in Hctx1, Hw1.
  set (ix1 := idelete ns nb ix) in *.
  assert (Hns1 : size_at h1 nb = ns).
  { unfold size_at. rewrite Hw1; [exact Hns|lia|constructor]. }
  step. rewrite Hns1.
  replace (u32 (w + u32 (ns + 2))) with n by (u32s; unfold n; lia).
  step. step_mark. rewrite size_at_upd_eq, Z.mod_small by lia.
  change (ALLOCATED =? 0) with true.
  set (H := hdr n false true).
  set (h3 := upd (b + n + 1) H (upd b H (upd b n h1))).
  assert (Hctx3 : ctx h0 h3 ix1 bs1 b true hi false bs2 []).
  { unfold h3. repeat (apply ctx_store; [|lia|constructor]). exact Hctx1. }
  assert (HM : lseg h3 b true [(n, false)] hi false).
  { cbn [lseg]. unfold blk, span. unfold h3, H, size_at. wsimp.
    rewrite hdr_size by lia. repeat split; auto; lia. }
  eapply outcome_bind;
    [apply (ctx_insert_end fuel h3 ix1 bs1 b true hi false bs2
              [(n, false)] b Hctx3 HM)| |].
  - apply coalesced_app. split; [exact Hc1|].
    rewrite <- (lseg_last _ _ _ _ _ _ HP). cbn [coalesced app]. auto.
  - reflexivity.
  - unfold ix1. pose proof (theight_idelete ns nb ix). lia.
  - intros [] h4 (Hwf & Hb4 & Hk4 & _). apply outcome_Ok.
    assert (E : size_at h3 b = n).
    { unfold h3, H, size_at. wsimp. apply hdr_size. lia. }
    rewrite E in Hwf. refine (conj eq_refl (conj Hwf (conj _ Hk4))).
    rewrite Hb4. unfold h3. rewrite !brk_upd. lia.
Qed.

Lemma coalesce_none {h0} fuel h ix bs1 bs2 b v bf w hi :
  ctx h0 h ix bs1 b true hi false bs2 [] ->
  coalesced true bs1 -> coalesced false bs2 ->
  word h b = hdr v (negb bf) true -> 0 <= v < 2 ^ 30 ->
  w = (if bf then v else v - 1) -> 2 <= w -> Z.even w = true ->
  hi = b + w + 2 ->
  outcome (coalesce fuel b h) (fuel <= theight (bigs ix))%nat
    (fun r h' =>
       r = b /\
       wf_with h' (bs1 ++ (w, false) :: bs2) (iinsert w b ix) /\
       brk h' = brk h /\ keeps h0 h' bs1 hi bs2).
Proof.
  intros Hctx Hc1 Hc2 Hbw Hv Hw Hw0 Hwe Ehi.
  pose proof Hctx as (HP & HT & Hle & Hbrk & Hix & Hperm & Hz & Hsp & Hkp).
  pose proof (tail_seg_le _ _ _ _ HT) as Hhb.
  pose proof (lseg_le _ _ _ _ _ _ HP) as Hlo.
  pose proof (size_at_hdr _ _ _ _ _ Hbw Hv) as Hbs.
  pose proof (free_at_hdr _ _ _ _ _ Hbw Hv) as Hbf.
  pose proof (prev_free_at_hdr _ _ _ _ _ Hbw Hv) as Hbp.
  pose proof (tail_seg_alloc _ _ _ _ HT Hc2) as Hnf.
  rewrite negb_involutive in Hbf. cbn [negb] in Hbp.
  unfold coalesce.
  step. rewrite Hbf, Hbs.
  replace (if bf then b + v + 2 else b + v + 1) with hi
    by (subst w; destruct bf; lia).
  step. rewrite Hbp. step. rewrite Hnf. step. rewrite Hbs.
  step. step. rewrite Hbf.
  replace (if bf then v else u32 (v - 1)) with w.
  2:{ subst w. destruct bf; [reflexivity|]. unfold u32.
      rewrite Z.mod_small; lia. }
  cbv iota.
  assert (Hn : 2 <= w < 2 ^ 30 /\ b + w + 2 = hi).
  { split; [|lia]. subst w. destruct bf; lia. }
  step. step_mark. rewrite size_at_upd_eq, Z.mod_small by lia.
  change (ALLOCATED =? 0) with true.
  set (H := hdr w false true).
  set (h3 := upd (b + w + 1) H (upd b H (upd b w h))).
  assert (Hctx3 : ctx h0 h3 ix bs1 b true hi false bs2 []).
  { unfold h3. repeat (apply ctx_store; [|lia|constructor]). exact Hctx. }
  assert (HM : lseg h3 b true [(w, false)] hi false).
  { cbn [lseg]. unfold blk, span. unfold h3, H, size_at. wsimp.
    rewrite hdr_size by lia. repeat split; auto; lia. }
  eapply outcome_bind;
    [apply (ctx_insert_end fuel h3 ix bs1 b true hi false bs2
              [(w, false)] b Hctx3 HM)| |].
  - apply coalesced_app. split; [exact Hc1|].
    rewrite <- (lseg_last _ _ _ _ _ _ HP). cbn [coalesced app]. auto.
  - reflexivity.
  - auto.
  - intros [] h4 (Hwf & Hb4 & Hk4 & _). apply outcome_Ok.
    assert (E : size_at h3 b = w).
    { unfold h3, H, size_at. wsimp. apply hdr_size. lia. }
    rewrite E in Hwf. refine (conj eq_refl (conj Hwf (conj _ Hk4))).
    rewrite Hb4. unfold h3. rewrite !brk_upd. lia.
Qed.

(** ** [free] *)

Lemma hdr_clear_pa sz al pa :
  0 <= sz < 2 ^ 30 -> Z.land (hdr sz al pa) 0x7FFFFFFF = hdr sz al false.
Proof.
  intros H. rewrite clear_prev_alloc by (apply hdr_range, H).
  rewrite hdr_mod by exact H. rewrite testbit_hdr_30 by exact H.
  reflexivity.
Qed.

Lemma blk_upd_ne h a sz al pa x v :
  blk h a sz al pa -> x <> a -> (al = false -> x <> a + sz + 1) ->
  blk (upd x v h) a sz al pa.
Proof.
  intros (Hw & Hr & Hs) H1 H2. unfold blk.
  rewrite word_upd_ne by auto. refine (conj Hw (conj Hr _)).
  destruct al; [exact Hs|].
  destruct Hs as (He & Hs2 & Hf). refine (conj He (conj Hs2 _)).
  rewrite size_at_upd_ne by (intros E; apply H2; auto). exact Hf.
Qed.

Lemma odd_pred_even sz : Z.odd sz = true -> Z.even (sz - 1) = true.
Proof.
  intros H. rewrite Z.even_sub. rewrite <- Z.negb_odd, H. reflexivity.
Qed.

Lemma free_both fuel h ix bs1 ps sz ns bs2 :
  wf_with h (bs1 ++ [(ps, false); (sz, true); (ns, false)] ++ bs2) ix ->
  outcome (free fuel (Some (1 + spans bs1 + ps + 2 + 1)) h)
    (fuel <= theight (bigs ix))%nat
    (fun _ h' =>
       wf_with h' (bs1 ++ (sz - 1 + ps + ns + 4, false) :: bs2)
         (iinsert (sz - 1 + ps + ns + 4) (1 + spans bs1)
            (idelete ns (1 + spans bs1 + ps + 2 + sz + 1)
               (idelete ps (1 + spans bs1) ix))) /\
       brk h' = brk h /\
       keeps h h' bs1
         (1 + spans bs1 + spans [(ps, false); (sz, true); (ns, false)]) bs2).
Proof.
  intros Hwf.
  pose proof Hwf as (_ & Hco & _).
  destruct (ctx_start _ _ _ _ _ Hwf) as (pl & pm & Hctx & HM & Epl & Epm).
  set (pb := 1 + spans bs1) in *.
  apply coalesced_app in Hco as [Hc1 Hco]. rewrite <- Epl in Hco.
  cbn [coalesced app] in Hco.
  destruct Hco as ([->|[=]] & _ & _ & Hc2).
  cbn [last_alloc] in Epm. subst pm.
  cbn [lseg fblocks app spans] in HM, Hctx. unfold span in HM, Hctx.
  destruct HM as (Hpb & Hb & Hnb & _).
  set (b := pb + (ps + 2)) in *. set (nb := b + (sz + 1)) in *.
  pose proof Hctx as (HP & HT & Hle & Hbrk & Hix & Hperm & Hz & Hsp & Hkp).
  pose proof (tail_seg_le _ _ _ _ HT) as Hhb.
  pose proof (lseg_le _ _ _ _ _ _ HP) as Hlo.
  destruct (blk_fields _ _ _ _ _ Hpb) as (Hps & _ & _ & Hpr).
  destruct (blk_fields _ _ _ _ _ Hb) as (Hbs & Hbf & _ & Hbr).
  destruct (blk_fields _ _ _ _ _ Hnb) as (Hns & _ & _ & Hnr).
  pose proof Hpb as (_ & _ & _ & Hp2 & _).
  pose proof Hnb as (Hnw & _ & _ & Hn2 & _).
  pose proof Hb as (Hbw & _ & Hbo).
  pose proof (blk_alloc_pos _ _ _ _ Hb) as Hb1.
  cbn [negb] in Hbf.
  unfold free, block_block.
  replace (pb + ps + 2 + 1 - 1) with b by (unfold b; lia).
  step. rewrite Hbf, Hbs.
  replace (b + sz + 1) with nb by (unfold nb; lia).
  step. rewrite Hnw, hdr_clear_pa by lia.
  step.
  set (h1 := upd nb (hdr ns false false) h).
  assert (Hctx1 : ctx h h1 ix bs1 pb true (pb + (ps + 2 + (sz + 1 + (ns + 2 + 0))))
                    false bs2 [(pb, ps); (nb, ns)]).
  { apply ctx_store; [exact Hctx|unfold nb, b; lia|].
    repeat constructor; cbn [fst snd]; try (unfold nb, b; lia).
    intros _. apply hdr_mod. lia. }
  eapply outcome_bind;
    [apply (coalesce_both fuel h1 ix bs1 bs2 pb ps b sz false (sz - 1) nb ns
              false true _ Hctx1 Hc1 Hc2)|auto|].
  - apply blk_upd_ne; [exact Hpb|unfold nb, b; lia|unfold nb, b; lia].
  - destruct Hnb as (_ & Hr & He & H2 & Hf). unfold blk, h1.
    rewrite word_upd_eq, size_at_upd_ne by lia. auto.
  - unfold h1. rewrite word_upd_ne by (unfold nb; lia). exact Hbw.
  - exact Hbr.
  - reflexivity.
  - lia.
  - apply odd_pred_even, Hbo.
  - unfold b. lia.
  - unfold nb. lia.
  - unfold nb, b. lia.
  - intros r h' (_ & Hwf' & Hb' & Hk'). apply outcome_Ok.
    replace (pb + ps + 2 + sz + 1) with nb by (unfold nb, b; lia).
    refine (conj Hwf' (conj _ Hk')). rewrite Hb'. apply brk_upd.
Qed.

Lemma tail_seg_prev_free h a pa bs :
  tail_seg h a pa bs -> prev_free_at h a = negb pa.
Proof.
  intros HT. destruct bs as [|[sz al] bs].
  - apply tail_seg_nil in HT as [_ Hw].
    apply (prev_free_at_hdr _ _ _ _ _ Hw). lia.
  - apply tail_seg_cons in HT as [Hb _].
    destruct (blk_fields _ _ _ _ _ Hb) as (_ & _ & Hp & _). exact Hp.
Qed.

(** C4: on a heap that satisfies the invariant, freeing an allocated block
    of [sz] words that lies between a free block of [ps] words at [pb] and
    a free block of [ns] words returns, given a budget above the height of
    the tree, and leaves a heap that satisfies the invariant again in
    which the three blocks are one free block at [pb] of
    [ps + (sz - 1) + ns + 4] words: both neighbours are deleted from the
    index and the merged block is inserted, its footer holds the new size,
    and the block that follows has its prev_alloc bit cleared. *)
Theorem free_merges_both_neighbours fuel h ix bs1 ps sz ns bs2 :
  wf_with h (bs1 ++ [(ps, false); (sz, true); (ns, false)] ++ bs2) ix ->
  (theight (bigs ix) < fuel)%nat ->
  exists h',
    free fuel (Some (1 + spans bs1 + ps + 2 + 1)) h = Ok (tt, h') /\
    wf_with h' (bs1 ++ (ps + (sz - 1) + ns + 4, false) :: bs2)
      (iinsert (ps + (sz - 1) + ns + 4) (1 + spans bs1)
         (idelete ns (1 + spans bs1 + ps + 2 + sz + 1)
            (idelete ps (1 + spans bs1) ix))) /\
    free_at h' (1 + spans bs1) = true /\
    size_at h' (1 + spans bs1) = ps + (sz - 1) + ns + 4 /\
    size_at h' (1 + spans bs1 + (ps + (sz - 1) + ns + 4) + 1)
    = ps + (sz - 1) + ns + 4 /\
    prev_free_at h' (1 + spans bs1 + (ps + (sz - 1) + ns + 4) + 2) = true.
Proof.
  intros Hwf Hfuel.
  pose proof (free_both fuel h ix bs1 ps sz ns bs2 Hwf) as Ho.
  destruct (outcome_enough _ _ _ Ho ltac:(lia)) as ([] & h' & E & Hwf' & _).
  exists h'. split; [exact E|].
  replace (sz - 1 + ps + ns + 4) with (ps + (sz - 1) + ns + 4) in Hwf' by lia.
  split; [exact Hwf'|].
  destruct Hwf' as (HT & _).
  apply tail_seg_app in HT as (pl & _ & HT).
  apply tail_seg_cons in HT as [Hb HT].
  destruct (blk_fields _ _ _ _ _ Hb) as (Hs & Hf & _).
  destruct Hb as (_ & _ & _ & _ & Hft).
  refine (conj Hf (conj Hs (conj Hft _))).
  unfold span in HT.
  replace (1 + spans bs1 + (ps + (sz - 1) + ns + 4) + 2)
    with (1 + spans bs1 + (ps + (sz - 1) + ns + 4 + 2)) by lia.
  apply (tail_seg_prev_free _ _ _ _ HT).
Qed.

(** ** [realloc]: shrinking in place *)

Lemma adjust_range n : 0 < n < 2 ^ 64 -> 1 <= adjust n < 2 ^ 32.
Proof.
  intros Hn. pose proof (adjust_odd n Hn) as Ho.
  assert (0 <= adjust n < 2 ^ 32).
  { unfold adjust. destruct (n <=? 12); [lia|]. apply Z.mod_pos_bound. lia. }
  destruct (Z.eq_dec (adjust n) 0) as [E|]; [rewrite E in Ho; discriminate|lia].
Qed.

Lemma odd_of_mod2 n : n mod 2 = 1 -> Z.odd n = true.
Proof.
  intros H. rewrite Zodd_mod, H. reflexivity.
Qed.

Lemma even_sub_odd a b : Z.odd a = true -> Z.odd b = true -> Z.even (a - b) = true.
Proof.
  intros Ha Hb. rewrite Z.even_sub, <- !Z.negb_odd, Ha, Hb. reflexivity.
Qed.

(** Both branches on [block_prev_free] keep the prev_alloc bit as it is. *)
Lemma remark_allocated {A} b nw pl (k : unit -> M A) h :
  0 <= nw < 2 ^ 32 -> 0 <= b < brk h ->
  bind (if negb pl
        then set_size b nw;; block_mark_allo b FREE
        else set_size b nw;; block_mark_allo b ALLOCATED) k h
  = k tt (upd b (hdr (nw mod 2 ^ 30) true pl) (upd b nw h)).
Proof.
  intros Hnw Hb. destruct pl; cbn [negb];
    rewrite (bind_Ok _ k h _ _ (set_mark_allo b nw _ h Hnw Hb)); reflexivity.
Qed.

(** Shrinking next to a free block: the tail is merged with it. *)
Lemma realloc_shrink_merge fuel h ix bs1 words ns bs2 size :
  wf_with h (bs1 ++ [(words, true); (ns, false)] ++ bs2) ix ->
  0 < size < 2 ^ 64 -> adjust size + 4 <= words ->
  outcome (realloc fuel (Some (1 + spans bs1 + 1)) size h)
    (fuel <= theight (bigs ix))%nat
    (fun r h' =>
       r = Some (1 + spans bs1 + 1) /\
       wf_with h'
         (bs1 ++ [(adjust size, true); (words - adjust size + ns, false)]
              ++ bs2)
         (iinsert (words - adjust size + ns) (1 + spans bs1 + adjust size + 1)
            (idelete ns (1 + spans bs1 + words + 1) ix)) /\
       brk h' = brk h /\
       keeps h h' bs1 (1 + spans bs1 + spans [(words, true); (ns, false)])
         bs2 /\
       (forall x, 1 + spans bs1 < x <= 1 + spans bs1 + adjust size ->
                  word h' x = word h x)).
Proof.
  intros Hwf Hsize Hshr.
  pose proof (adjust_range size Hsize) as Hnw.
  pose proof (odd_of_mod2 _ (adjust_odd size Hsize)) as Hnwo.
  set (nw := adjust size) in *.
  pose proof Hwf as (_ & Hco & _).
  destruct (ctx_start _ _ _ _ _ Hwf) as (pl & pm & Hctx & HM & Epl & Epm).
  set (b := 1 + spans bs1) in *.
  apply coalesced_app in Hco as [Hc1 Hco]. rewrite <- Epl in Hco.
  cbn [coalesced app] in Hco. destruct Hco as (_ & _ & Hc2).
  cbn [last_alloc] in Epm. subst pm.
  cbn [lseg fblocks app spans] in HM, Hctx. unfold span in HM, Hctx.
  destruct HM as (Hb & Hnb & _).
  set (nb := b + (words + 1)) in *.
  set (hi := b + (words + 1 + (ns + 2 + 0))) in *.
  pose proof Hctx as (HP & HT & Hle & Hbrk & Hix & Hperm & Hz & Hsp & Hkp).
  pose proof (tail_seg_le _ _ _ _ HT) as Hhb.
  pose proof (lseg_le _ _ _ _ _ _ HP) as Hlo.
  destruct (blk_fields _ _ _ _ _ Hb) as (Hbs & Hbf & Hbp & Hbr).
  destruct (blk_fields _ _ _ _ _ Hnb) as (Hns & Hnf & _ & Hnr).
  pose proof Hnb as (Hnbw & _ & Hnse & Hn2 & Hnft).
  pose proof Hb as (Hbw & _ & Hbo).
  cbn [negb] in Hbf, Hnf.
  unfold realloc, block_block.
  rewrite (proj2 (Z.eqb_neq size 0)) by lia.
  replace (b + 1 - 1) with b by lia.
  step. rewrite Hbs. fold nw.
  rewrite (proj2 (Z.eqb_neq nw words)) by lia.
  rewrite (proj2 (Z.gtb_lt words nw)) by lia.
  rewrite (proj2 (Z.ltb_ge (words - nw) 4)) by lia.
  rewrite (proj2 (Z.geb_le (words - nw) 4)) by lia.
  cbn [orb andb].
  step. rewrite Hbp.
  assert (Hbb : 0 <= b < brk h) by (unfold hi in Hhb; lia).
  rewrite (remark_allocated b nw pl _ h ltac:(lia) Hbb).
  rewrite (Z.mod_small nw) by lia.
  set (h1 := upd b (hdr nw true pl) (upd b nw h)).
  assert (Hk1 : brk h1 = brk h) by (unfold h1; rewrite !brk_upd; reflexivity).
  assert (Hw1 : word h1 b = hdr nw true pl) by (unfold h1; wsimp; reflexivity).
  step. rewrite (free_at_hdr _ _ _ _ _ Hw1), (size_at_hdr _ _ _ _ _ Hw1) by lia.
  cbn [negb].
  set (tmp := b + nw + 1).
  set (t := words - nw - 2).
  replace (u32 (u32 (words - nw) - 2)) with t by (u32s; unfold t; lia).
  assert (Ht : 2 <= t /\ Z.even t = true /\ tmp + t + 2 = nb).
  { unfold t, tmp, nb. refine (conj _ (conj _ _)); try lia.
    replace (words - nw - 2) with (words - nw - 1 * 2) by lia.
    rewrite Z.even_sub, Z.even_mul, orb_true_r.
    rewrite (even_sub_odd _ _ Hbo Hnwo). reflexivity. }
  step. step_mark.
  rewrite size_at_upd_eq, Z.mod_small by lia.
  change (ALLOCATED =? 0) with true.
  set (h2 := upd (tmp + t + 1) (hdr t false true)
               (upd tmp (hdr t false true) (upd tmp t h1))).
  assert (Hk2 : brk h2 = brk h) by (unfold h2; rewrite !brk_upd; exact Hk1).
  assert (Hw2 : word h2 tmp = hdr t false true)
    by (unfold h2; wsimp; reflexivity).
  step. rewrite (free_at_hdr _ _ _ _ _ Hw2), (size_at_hdr _ _ _ _ _ Hw2) by lia.
  cbn [negb]. replace (tmp + t + 2) with nb by lia.
  assert (Hnb2 : word h2 nb = word h nb).
  { unfold h2, h1. wsimp. reflexivity. }
  step. unfold free_at at 1. rewrite Hnb2. fold (free_at h nb). rewrite Hnf.
  assert (Hctx2 : ctx h h2 ix bs1 b pl hi false bs2 [(nb, ns)]).
  { unfold h2, h1.
    repeat (apply ctx_store;
            [|unfold hi, nb, tmp in *; lia
             |repeat constructor; cbn [fst snd]; unfold nb, tmp in *; lia]).
    exact Hctx. }
  step.
  eapply outcome_bind;
    [apply (ctx_delete fuel h2 ix bs1 b pl hi false bs2 [] nb ns [] Hctx2)
    |auto|].
  intros [] h3 (Hctx3 & Hk3 & Hw3). cbn [app] in Hctx3, Hw3.
  set (ix1 := idelete ns nb ix) in *.
  assert (Ht3 : size_at h3 tmp = t).
  { unfold size_at. rewrite Hw3, Hw2 by (try constructor; unfold hi, nb in *; lia).
    apply hdr_size. lia. }
  assert (Hn3 : size_at h3 nb = ns).
  { unfold size_at. rewrite Hw3, Hnb2 by (try constructor; unfold hi, nb in *; lia).
    exact Hns. }
  repeat step. rewrite Ht3, Hn3.
  set (m := words - nw + ns).
  replace (u32 (u32 (t + ns) + 2)) with m by (u32s; unfold m, t; lia).
  assert (Hm : 2 <= m < 2 ^ 30 /\ tmp + m + 2 = hi /\ Z.even m = true).
  { unfold m, hi, tmp in *. refine (conj _ (conj _ _)); try lia.
    rewrite Z.even_add, (even_sub_odd _ _ Hbo Hnwo), Hnse. reflexivity. }
  step_mark. rewrite size_at_upd_eq, Z.mod_small by lia.
  change (ALLOCATED =? 0) with true.
  set (h4 := upd (tmp + m + 1) (hdr m false true)
               (upd tmp (hdr m false true) (upd tmp m h3))).
  assert (Hctx4 : ctx h h4 ix1 bs1 b pl hi false bs2 []).
  { unfold h4.
    repeat (apply ctx_store; [|unfold hi, nb, tmp in *; lia|constructor]).
    exact Hctx3. }
  assert (HM : lseg h4 b pl [(nw, true); (m, false)] hi false).
  { cbn [lseg]. unfold blk, span.
    replace (b + (nw + 1)) with tmp by (unfold tmp; lia).
    assert (E1 : word h4 b = hdr nw true pl).
    { unfold h4. wsimp. rewrite Hw3 by (try constructor; unfold hi, nb in *; lia).
      unfold h2. wsimp. exact Hw1. }
    assert (E2 : word h4 tmp = hdr m false true) by (unfold h4; wsimp; reflexivity).
    assert (E3 : size_at h4 (tmp + m + 1) = m).
    { unfold h4, size_at. wsimp. apply hdr_size. lia. }
    refine (conj (conj E1 (conj _ Hnwo))
              (conj (conj E2 (conj _ (conj (proj2 (proj2 Hm)) (conj _ E3))))
                 (conj _ eq_refl))); lia. }
  eapply outcome_bind;
    [apply (ctx_insert_end fuel h4 ix1 bs1 b pl hi false bs2
              [(nw, true); (m, false)] tmp Hctx4 HM)| |].
  - apply coalesced_app. split; [exact Hc1|]. cbn [coalesced app]. auto.
  - cbn [frees addrs Bool.eqb app]. unfold span, tmp. f_equal. lia.
  - unfold ix1. pose proof (theight_idelete ns nb ix). lia.
  - intros [] h5 (Hwf5 & Hk5 & Hkp5 & Hz5). apply outcome_Ok.
    assert (E : size_at h4 tmp = m).
    { unfold h4, size_at. wsimp. apply hdr_size. lia. }
    rewrite E in Hwf5, Hz5.
    replace (b + words + 1) with nb by (unfold nb; lia).
    refine (conj eq_refl (conj Hwf5 (conj _ (conj Hkp5 _)))).
    + rewrite Hk5. unfold h4. rewrite !brk_upd. lia.
    + intros x Hx. rewrite Hz5 by (unfold hi, nb, tmp in *; lia).
      unfold h4. wsimp.
      rewrite Hw3 by (try constructor; unfold hi, nb in *; lia).
      unfold h2, h1. wsimp. reflexivity.
Qed.

Lemma coalesced_head_alloc pa bs :
  coalesced pa bs -> head_alloc bs -> coalesced false bs.
Proof.
  destruct bs as [|[sz [|]] bs]; cbn [coalesced head_alloc]; try prop.
Qed.

Lemma tail_seg_head_alloc h a pa bs :
  tail_seg h a pa bs -> head_alloc bs -> free_at h a = false.
Proof.
  intros HT Hh. destruct bs as [|[sz [|]] bs]; [| |contradiction].
  - apply tail_seg_nil in HT as [_ Hw].
    rewrite (free_at_hdr _ _ _ _ _ Hw); [reflexivity|lia].
  - apply tail_seg_cons in HT as [Hb _].
    destruct (blk_fields _ _ _ _ _ Hb) as (_ & Hf & _). exact Hf.
Qed.

Lemma tail_seg_word h a pa bs :
  tail_seg h a pa bs -> 0 <= word h a < 2 ^ 32 /\ a < brk h.
Proof.
  intros HT. pose proof (tail_seg_le _ _ _ _ HT) as Hle.
  split; [|lia].
  destruct bs as [|[sz al] bs].
  - apply tail_seg_nil in HT as [E Hw]. rewrite Hw. apply hdr_range. lia.
  - apply tail_seg_cons in HT as [(Hw & Hr & _) _]. rewrite Hw.
    apply hdr_range. lia.
Qed.

(** Shrinking next to an allocated block or at the end of the heap: the
    tail goes into the index and the next header is told that the block
    before it is free. *)
Lemma realloc_shrink_insert fuel h ix bs1 words bs2 size :
  wf_with h (bs1 ++ [(words, true)] ++ bs2) ix ->
  head_alloc bs2 ->
  0 < size < 2 ^ 64 -> adjust size + 4 <= words ->
  outcome (realloc fuel (Some (1 + spans bs1 + 1)) size h)
    (fuel <= theight (bigs ix))%nat
    (fun r h' =>
       r = Some (1 + spans bs1 + 1) /\
       wf_with h'
         (bs1 ++ [(adjust size, true); (words - adjust size - 2, false)]
              ++ bs2)
         (iinsert (words - adjust size - 2) (1 + spans bs1 + adjust size + 1)
            ix) /\
       brk h' = brk h /\
       keeps h h' bs1 (1 + spans bs1 + spans [(words, true)]) bs2 /\
       (forall x, 1 + spans bs1 < x <= 1 + spans bs1 + adjust size ->
                  word h' x = word h x)).
Proof.
  intros Hwf Hhd Hsize Hshr.
  pose proof (adjust_range size Hsize) as Hnw.
  pose proof (odd_of_mod2 _ (adjust_odd size Hsize)) as Hnwo.
  set (nw := adjust size) in *.
  pose proof Hwf as (_ & Hco & _).
  destruct (ctx_start _ _ _ _ _ Hwf) as (pl & pm & Hctx & HM & Epl & Epm).
  set (b := 1 + spans bs1) in *.
  apply coalesced_app in Hco as [Hc1 Hco]. rewrite <- Epl in Hco.
  cbn [coalesced app] in Hco. destruct Hco as (_ & Hc2).
  apply (coalesced_head_alloc _ _ Hc2) in Hhd as Hc2'.
  cbn [last_alloc] in Epm. subst pm.
  cbn [lseg fblocks app spans] in HM, Hctx. unfold span in HM, Hctx.
  destruct HM as (Hb & _).
  set (nb := b + (words + 1 + 0)) in *.
  pose proof Hctx as (HP & HT & Hle & Hbrk & Hix & Hperm & Hz & Hsp & Hkp).
  pose proof (tail_seg_le _ _ _ _ HT) as Hhb.
  pose proof (lseg_le _ _ _ _ _ _ HP) as Hlo.
  destruct (blk_fields _ _ _ _ _ Hb) as (Hbs & Hbf & Hbp & Hbr).
  pose proof (tail_seg_head_alloc _ _ _ _ HT Hhd) as Hnf.
  pose proof (tail_seg_word _ _ _ _ HT) as [Hnr _].
  pose proof Hb as (Hbw & _ & Hbo).
  cbn [negb] in Hbf.
  unfold realloc, block_block.
  rewrite (proj2 (Z.eqb_neq size 0)) by lia.
  replace (b + 1 - 1) with b by lia.
  step. rewrite Hbs. fold nw.
  rewrite (proj2 (Z.eqb_neq nw words)) by lia.
  rewrite (proj2 (Z.gtb_lt words nw)) by lia.
  rewrite (proj2 (Z.ltb_ge (words - nw) 4)) by lia.
  rewrite (proj2 (Z.geb_le (words - nw) 4)) by lia.
  cbn [orb andb].
  step. rewrite Hbp.
  assert (Hbb : 0 <= b < brk h) by (unfold nb in Hhb; lia).
  rewrite (remark_allocated b nw pl _ h ltac:(lia) Hbb).
  rewrite (Z.mod_small nw) by lia.
  set (h1 := upd b (hdr nw true pl) (upd b nw h)).
  assert (Hk1 : brk h1 = brk h) by (unfold h1; rewrite !brk_upd; reflexivity).
  assert (Hw1 : word h1 b = hdr nw true pl) by (unfold h1; wsimp; reflexivity).
  step. rewrite (free_at_hdr _ _ _ _ _ Hw1), (size_at_hdr _ _ _ _ _ Hw1) by lia.
  cbn [negb].
  set (tmp := b + nw + 1).
  set (t := words - nw - 2).
  replace (u32 (u32 (words - nw) - 2)) with t by (u32s; unfold t; lia).
  assert (Ht : 2 <= t /\ Z.even t = true /\ tmp + t + 2 = nb).
  { unfold t, tmp, nb. refine (conj _ (conj _ _)); try lia.
    replace (words - nw - 2) with (words - nw - 1 * 2) by lia.
    rewrite Z.even_sub, Z.even_mul, orb_true_r.
    rewrite (even_sub_odd _ _ Hbo Hnwo). reflexivity. }
  step. step_mark.
  rewrite size_at_upd_eq, Z.mod_small by lia.
  change (ALLOCATED =? 0) with true.
  set (h2 := upd (tmp + t + 1) (hdr t false true)
               (upd tmp (hdr t false true) (upd tmp t h1))).
  assert (Hk2 : brk h2 = brk h) by (unfold h2; rewrite !brk_upd; exact Hk1).
  assert (Hw2 : word h2 tmp = hdr t false true)
    by (unfold h2; wsimp; reflexivity).
  step. rewrite (free_at_hdr _ _ _ _ _ Hw2), (size_at_hdr _ _ _ _ _ Hw2) by lia.
  cbn [negb]. replace (tmp + t + 2) with nb by lia.
  assert (Hnb2 : word h2 nb = word h nb).
  { unfold h2, h1. wsimp. reflexivity. }
  step. unfold free_at at 1. rewrite Hnb2. fold (free_at h nb). rewrite Hnf.
  assert (Hctx2 : ctx h h2 ix bs1 b pl nb true bs2 []).
  { unfold h2, h1.
    repeat (apply ctx_store; [|unfold nb, tmp in *; lia|constructor]).
    exact Hctx. }
  step.
  rewrite (bind_Ok _ _ h2 _ _
             (block_mark_allo_eq nb FREE h2 ltac:(lia)
                ltac:(rewrite Hnb2; exact Hnr))).
  change (FREE =? 0) with false.
  set (h3 := upd nb (hdr (size_at h2 nb) true false) h2).
  assert (Hctx3 : ctx h h3 ix bs1 b pl nb false bs2 []).
  { apply (ctx_repa h2 ix bs1 b pl nb true false bs2 [] Hctx2).
    unfold head_alloc in Hhd. exact Hhd. }
  assert (HM : lseg h3 b pl [(nw, true); (t, false)] nb false).
  { cbn [lseg]. unfold blk, span.
    replace (b + (nw + 1)) with tmp by (unfold tmp; lia).
    assert (E1 : word h3 b = hdr nw true pl).
    { unfold h3. wsimp. unfold h2. wsimp. exact Hw1. }
    assert (E2 : word h3 tmp = hdr t false true)
      by (unfold h3; wsimp; exact Hw2).
    assert (E3 : size_at h3 (tmp + t + 1) = t).
    { unfold h3, h2, size_at. wsimp. apply hdr_size. lia. }
    refine (conj (conj E1 (conj _ Hnwo))
              (conj (conj E2 (conj _ (conj (proj1 (proj2 Ht)) (conj _ E3))))
                 (conj _ eq_refl))); lia. }
  eapply outcome_bind;
    [apply (ctx_insert_end fuel h3 ix bs1 b pl nb false bs2
              [(nw, true); (t, false)] tmp Hctx3 HM)| |].
  - apply coalesced_app. split; [exact Hc1|]. cbn [coalesced app]. auto.
  - cbn [frees addrs Bool.eqb app]. unfold span, tmp. f_equal. lia.
  - auto.
  - intros [] h5 (Hwf5 & Hk5 & Hkp5 & Hz5). apply outcome_Ok.
    assert (E : size_at h3 tmp = t).
    { unfold h3, size_at. wsimp. fold (size_at h2 tmp).
      apply (size_at_hdr _ _ _ _ _ Hw2). lia. }
    rewrite E in Hwf5, Hz5.
    refine (conj eq_refl (conj Hwf5 (conj _ (conj Hkp5 _)))).
    + rewrite Hk5. unfold h3. rewrite !brk_upd. lia.
    + intros x Hx. rewrite Hz5 by (unfold nb, tmp in *; lia).
      unfold h3, h2, h1. wsimp. reflexivity.
Qed.

Lemma realloc_same fuel h ix bs1 words bs2 size :
  wf_with h (bs1 ++ [(words, true)] ++ bs2) ix ->
  0 < size ->
  adjust size = words \/ (adjust size < words /\ words - adjust size < 4) ->
  realloc fuel (Some (1 + spans bs1 + 1)) size h
  = Ok (Some (1 + spans bs1 + 1), h).
Proof.
  intros Hwf Hsize Hcase.
  destruct (ctx_start _ _ _ _ _ Hwf) as (pl & pm & Hctx & HM & Epl & Epm).
  set (b := 1 + spans bs1) in *.
  cbn [lseg spans] in HM. destruct HM as (Hb & _).
  pose proof Hctx as (HP & HT & _).
  pose proof (tail_seg_le _ _ _ _ HT) as Hhb.
  pose proof (lseg_le _ _ _ _ _ _ HP) as Hlo.
  pose proof (blk_span _ _ _ _ _ Hb) as Hsp. cbn [spans] in Hhb.
  destruct (blk_fields _ _ _ _ _ Hb) as (Hbs & _).
  unfold realloc, block_block.
  rewrite (proj2 (Z.eqb_neq size 0)) by lia.
  replace (b + 1 - 1) with b by lia.
  step. rewrite Hbs.
  destruct Hcase as [E|[Hlt Hd]].
  - rewrite E, Z.eqb_refl. reflexivity.
  - rewrite (proj2 (Z.eqb_neq _ _)) by lia.
    rewrite (proj2 (Z.gtb_lt _ _)) by lia.
    rewrite (proj2 (Z.ltb_lt _ _)) by lia. reflexivity.
Qed.

(** C5: on a heap that satisfies the invariant, [realloc] of an allocated
    block of [words] words to a size whose adjusted size [adjust size] is
    smaller returns the same pointer, given a budget above the height of the
    tree.  When the difference is below 3 words the heap is unchanged.
    When it is 3 words or more the block keeps [adjust size] words and the
    rest becomes a free block: merged with the next block into one free
    block when that one is free, and else inserted on its own, with the
    prev_alloc bit of the next block cleared; either way the heap satisfies
    the invariant again. *)
Theorem realloc_shrinks_in_place fuel h ix bs1 words bs2 size :
  wf_with h (bs1 ++ [(words, true)] ++ bs2) ix ->
  0 < size < 2 ^ 64 -> adjust size < words ->
  (theight (bigs ix) < fuel)%nat ->
  (words - adjust size < 3 ->
   realloc fuel (Some (1 + spans bs1 + 1)) size h
   = Ok (Some (1 + spans bs1 + 1), h)) /\
  (3 <= words - adjust size ->
   exists h',
     realloc fuel (Some (1 + spans bs1 + 1)) size h
     = Ok (Some (1 + spans bs1 + 1), h') /\
     match bs2 with
     | (ns, false) :: bs2' =>
         wf_with h'
           (bs1 ++ [(adjust size, true); (words - adjust size + ns, false)]
                ++ bs2')
           (iinsert (words - adjust size + ns)
              (1 + spans bs1 + adjust size + 1)
              (idelete ns (1 + spans bs1 + words + 1) ix))
     | _ =>
         wf_with h'
           (bs1 ++ [(adjust size, true); (words - adjust size - 2, false)]
                ++ bs2)
           (iinsert (words - adjust size - 2)
              (1 + spans bs1 + adjust size + 1) ix) /\
         prev_free_at h' (1 + spans bs1 + words + 1) = true
     end).
Proof.
  intros Hwf Hsize Hlt Hfuel.
  pose proof (odd_of_mod2 _ (adjust_odd size Hsize)) as Hnwo.
  assert (Hwo : Z.odd words = true).
  { destruct Hwf as (HT & _). apply tail_seg_app in HT as (pl & _ & HT).
    apply tail_seg_cons in HT as [(_ & _ & Ho) _]. exact Ho. }
  pose proof (even_sub_odd _ _ Hwo Hnwo) as Hev.
  assert (Hne3 : words - adjust size <> 3).
  { intros E. rewrite E in Hev. discriminate. }
  split.
  - intros Hd. apply (realloc_same fuel h ix bs1 words bs2 size Hwf); lia.
  - intros Hd.
    destruct bs2 as [|[ns [|]] bs2'].
    + pose proof (realloc_shrink_insert fuel h ix bs1 words [] size Hwf I
                    Hsize ltac:(lia)) as Ho.
      destruct (outcome_enough _ _ _ Ho ltac:(lia))
        as (r & h' & E & -> & Hwf' & _).
      exists h'. refine (conj E (conj Hwf' _)).
      destruct Hwf' as (HT & _). apply tail_seg_app in HT as (pl & _ & HT).
      apply tail_seg_cons in HT as [Hb1 HT].
      apply tail_seg_cons in HT as [Hb2 HT].
      apply tail_seg_prev_free in HT. unfold span in HT. cbn [negb] in HT.
      rewrite <- HT. f_equal. lia.
    + pose proof (realloc_shrink_insert fuel h ix bs1 words
                    ((ns, true) :: bs2') size Hwf I Hsize ltac:(lia)) as Ho.
      destruct (outcome_enough _ _ _ Ho ltac:(lia))
        as (r & h' & E & -> & Hwf' & _).
      exists h'. refine (conj E (conj Hwf' _)).
      destruct Hwf' as (HT & _). apply tail_seg_app in HT as (pl & _ & HT).
      apply tail_seg_cons in HT as [Hb1 HT].
      apply tail_seg_cons in HT as [Hb2 HT].
      apply tail_seg_prev_free in HT. unfold span in HT. cbn [negb] in HT.
      rewrite <- HT. f_equal. lia.
    + pose proof (realloc_shrink_merge fuel h ix bs1 words ns bs2' size Hwf
                    Hsize ltac:(lia)) as Ho.
      destruct (outcome_enough _ _ _ Ho ltac:(lia))
        as (r & h' & E & -> & Hwf' & _).
      exists h'. split; [exact E|exact Hwf'].
Qed.

(** ** Calls that may fault *)

Lemma ensures_Ok {A} (a : A) h (Q : A -> heap -> Prop) :
  Q a h -> ensures (Ok (a, h)) Q.
Proof. intros H. exact H. Qed.

Lemma ensures_bind {A B} (m : M A) (k : A -> M B) h
  (Q1 : A -> heap -> Prop) (Q : B -> heap -> Prop) :
  ensures (m h) Q1 ->
  (forall a h1, Q1 a h1 -> ensures (k a h1) Q) ->
  ensures (bind m k h) Q.
Proof.
  unfold bind. destruct (m h) as [[a h1]| |]; simpl; auto.
Qed.

Lemma ensures_weaken {A} (r : res (A * heap)) (Q Q' : A -> heap -> Prop) :
  ensures r Q -> (forall a h, Q a h -> Q' a h) -> ensures r Q'.
Proof. destruct r as [[a h]| |]; simpl; auto. Qed.

Lemma outcome_ensures {A} (r : res (A * heap)) (s : Prop)
  (Q : A -> heap -> Prop) :
  outcome r s Q -> ensures r Q.
Proof. destruct r as [[a h]| |]; simpl; auto. Qed.

Lemma ensures_inv {A} (r : res (A * heap)) (Q : A -> heap -> Prop) a h :
  ensures r Q -> r = Ok (a, h) -> Q a h.
Proof. intros H ->. exact H. Qed.

Lemma ensures_intro {A} (r : res (A * heap)) (Q : A -> heap -> Prop) :
  (forall a h, r = Ok (a, h) -> Q a h) -> ensures r Q.
Proof. destruct r as [[a h]| |]; simpl; auto. Qed.

Lemma ensures_load a h :
  ensures (load a h) (fun w h' => h' = h /\ w = word h a /\ 0 <= a < brk h).
Proof.
  unfold load. destruct (decide (0 <= a < brk h)); simpl; auto.
Qed.

Lemma ensures_store a v h :
  ensures (store a v h) (fun _ h' => h' = upd a v h /\ 0 <= a < brk h).
Proof.
  unfold store. destruct (decide (0 <= a < brk h)); simpl; auto.
Qed.

(** [block_mark_free] on a block whose footer may lie outside the heap. *)
Lemma ensures_block_mark_free b al h :
  0 <= b < brk h -> 0 <= word h b < 2 ^ 32 ->
  ensures (block_mark_free b al h)
    (fun _ h' =>
       b + size_at h b + 1 < brk h /\
       h' = upd (b + size_at h b + 1) (hdr (size_at h b) false (al =? 0))
              (upd b (hdr (size_at h b) false (al =? 0)) h)).
Proof.
  intros Hb Hw.
  destruct (Z_lt_dec (b + size_at h b + 1) (brk h)) as [Hf|Hf].
  - rewrite block_mark_free_eq by lia. simpl. auto.
  - pose proof (size_at_range h b) as Hs.
    unfold block_mark_free.
    rewrite (bind_Ok _ _ h _ _ (block_size_eq b h Hb)).
    rewrite (bind_Ok _ _ h _ _ (load_eq b h Hb)).
    unfold bind at 1. rewrite store_eq by lia.
    rewrite (bind_Ok _ _ _ _ _ (load_eq b (upd b _ h) Hb)).
    unfold u32. rewrite Z.mod_small by lia.
    unfold store. rewrite decide_False; [exact I|].
    rewrite brk_upd. lia.
Qed.

(** ** Writes into the payload of an allocated block *)

Lemma wf_payload_write h bs ix c x v :
  wf_with h bs ix -> c ∈ allocs 1 bs -> c < x <= c + size_at h c ->
  wf_with (upd x v h) bs ix.
Proof.
  intros (HT & Hco & Hix & Hperm & Hbrk) Hc Hx.
  pose proof HT as (pe & HL & He).
  destruct (addrs_blk _ _ _ _ _ _ _ _ HL Hc)
    as (sz & pc & Hb & Hlo & Hhi & Hpay).
  destruct (blk_fields _ _ _ _ _ Hb) as (Hs & _). rewrite Hs in Hx.
  unfold span in Hhi.
  assert (Hp : payload 1 bs x) by (apply Hpay; exact Hx).
  refine (conj _ (conj Hco (conj _ (conj Hperm _)))).
  - eapply tail_seg_frame; [apply brk_upd| |exact HT].
    intros y Hy Hnp. apply word_upd_ne. intros ->. exact (Hnp Hp).
  - assert (Hsz2 : forall c', c' ∈ iblocks ix -> 2 <= size_at h c').
    { intros c' Hc'. rewrite Hperm in Hc'.
      destruct (addrs_blk _ _ _ _ _ _ _ _ HL Hc') as (s1 & p1 & Hb1 & _).
      destruct (blk_fields _ _ _ _ _ Hb1) as (Hs1 & _).
      destruct Hb1 as (_ & _ & _ & H2 & _). lia. }
    destruct (addrs_split _ _ _ _ Hc) as (l1 & sz' & l2 & E & Ec).
    subst bs.
    apply lseg_app in HL as (pm & HL1 & HL2). destruct HL2 as [Hb' HL2].
    rewrite <- Ec in *.
    assert (sz' = sz).
    { destruct (blk_fields _ _ _ _ _ Hb') as (Hs' & _). congruence. }
    subst sz'. unfold span in HL2.
    assert (Hfree : forall c', c' ∈ iblocks ix ->
              c' + size_at h c' + 2 <= c \/ c + sz + 1 <= c').
    { intros c' Hc'. rewrite Hperm in Hc'. unfold frees in Hc'.
      rewrite addrs_app in Hc'. cbn [addrs Bool.eqb app] in Hc'.
      apply elem_of_app in Hc' as [Hc'|Hc'].
      - left. destruct (addrs_blk _ _ _ _ _ _ _ _ HL1 Hc')
          as (s1 & p1 & Hb1 & _ & Hhi1 & _).
        destruct (blk_fields _ _ _ _ _ Hb1) as (Hs1 & _).
        rewrite Hs1. unfold span in Hhi1. lia.
      - right. unfold span in Hc'. rewrite <- Ec in Hc'.
        destruct (addrs_blk _ _ _ _ _ _ _ _ HL2 Hc')
          as (s1 & p1 & Hb1 & Hlo1 & _). lia. }
    apply (index_rep_frame h); [exact Hix|reflexivity|reflexivity| |].
    + intros c' Hc'. apply size_at_upd_ne.
      destruct (Hfree c' Hc'); pose proof (size_at_range h c'); lia.
    + intros y (c' & Hc' & Hy). apply word_upd_ne. intros ->.
      pose proof (lim_le _ (Hsz2 c' Hc')).
      destruct (Hfree c' Hc'); lia.
  - rewrite brk_upd. exact Hbrk.
Qed.

(** ** [place] *)

Lemma odd_succ_even n : Z.even n = true -> Z.odd (n + 1) = true.
Proof.
  intros H. rewrite Z.odd_add, <- Z.negb_even, H. reflexivity.
Qed.

Lemma place_spec fuel h ix bs1 cw bs2 aw :
  wf_with h (bs1 ++ [(cw, false)] ++ bs2) ix ->
  Z.odd aw = true -> 0 <= aw -> aw + 3 < 2 ^ 32 ->
  outcome (place fuel (1 + spans bs1) aw h) (fuel <= theight (bigs ix))%nat
    (fun _ h' =>
       brk h' = brk h /\
       keeps h h' bs1 (1 + spans bs1 + spans [(cw, false)]) bs2 /\
       if aw + 3 <=? cw
       then wf_with h'
              (bs1 ++ [(aw, true); (cw - aw - 1, false)] ++ bs2)
              (iinsert (cw - aw - 1) (1 + spans bs1 + aw + 1)
                 (idelete cw (1 + spans bs1) ix))
       else wf_with h' (bs1 ++ [(cw + 1, true)] ++ bs2)
              (idelete cw (1 + spans bs1) ix)).
Proof.
  intros Hwf Hawo Haw0 Haw.
  pose proof Hwf as (_ & Hco & _).
  destruct (ctx_start _ _ _ _ _ Hwf) as (pl & pm & Hctx & HM & Epl & Epm).
  set (b := 1 + spans bs1) in *.
  apply coalesced_app in Hco as [Hc1 Hco]. rewrite <- Epl in Hco.
  cbn [coalesced app] in Hco. destruct Hco as ([->|[=]] & Hc2).
  cbn [last_alloc] in Epm. subst pm.
  cbn [lseg fblocks app spans] in HM, Hctx. unfold span in HM, Hctx.
  destruct HM as (Hb & _).
  set (hi := b + (cw + 2 + 0)) in *.
  pose proof Hctx as (HP & HT & Hle & Hbrk & Hix & Hperm & Hz & Hsp & Hkp).
  pose proof (tail_seg_le _ _ _ _ HT) as Hhb.
  pose proof (lseg_le _ _ _ _ _ _ HP) as Hlo.
  destruct (blk_fields _ _ _ _ _ Hb) as (Hbs & Hbf & Hbp & Hbr).
  pose proof Hb as (Hbw & _ & Hbe & Hb2 & _).
  unfold place.
  step. rewrite Hbs.
  eapply outcome_bind;
    [apply (ctx_delete fuel h ix bs1 b true hi false bs2 [] b cw [] Hctx)
    |auto|].
  intros [] h1 (Hctx1 & Hk1 & Hw1). cbn [app] in Hctx1, Hw1.
  set (ix1 := idelete cw b ix) in *.
  replace (u32 (aw + 3)) with (aw + 3) by (u32s; reflexivity).
  destruct (Z.leb_spec (aw + 3) cw) as [Hsplit|Hwhole].
  - (* split *)
    rewrite (proj2 (Z.geb_le _ _)) by lia.
    assert (Hbb : 0 <= b < brk h1) by (unfold hi in *; lia).
    step. step_mark. rewrite size_at_upd_eq, (Z.mod_small aw) by lia.
    change (ALLOCATED =? 0) with true.
    set (h2 := upd b (hdr aw true true) (upd b aw h1)).
    assert (Hk2 : brk h2 = brk h) by (unfold h2; rewrite !brk_upd; exact Hk1).
    assert (Hw2 : word h2 b = hdr aw true true)
      by (unfold h2; wsimp; reflexivity).
    step.
    rewrite (free_at_hdr _ _ _ _ _ Hw2), (size_at_hdr _ _ _ _ _ Hw2) by lia.
    cbn [negb].
    set (tmp := b + aw + 1). set (r := cw - aw - 1).
    replace (u32 (u32 (cw - aw) - 1)) with r by (u32s; unfold r; lia).
    assert (Hr : 2 <= r < 2 ^ 30 /\ tmp + r + 2 = hi /\ Z.even r = true).
    { unfold r, tmp, hi. refine (conj _ (conj _ _)); try lia.
      replace (cw - aw - 1) with (cw - (aw + 1)) by lia.
      rewrite Z.even_sub, Z.even_add, Hbe, <- (Z.negb_odd aw), Hawo.
      reflexivity. }
    step. step_mark. rewrite size_at_upd_eq, Z.mod_small by lia.
    change (ALLOCATED =? 0) with true.
    set (h3 := upd (tmp + r + 1) (hdr r false true)
                 (upd tmp (hdr r false true) (upd tmp r h2))).
    assert (Hctx3 : ctx h h3 ix1 bs1 b true hi false bs2 []).
    { unfold h3, h2.
      repeat (apply ctx_store; [|unfold hi, tmp in *; lia|constructor]).
      exact Hctx1. }
    assert (HM : lseg h3 b true [(aw, true); (r, false)] hi false).
    { cbn [lseg]. unfold blk, span.
      replace (b + (aw + 1)) with tmp by (unfold tmp; lia).
      assert (E1 : word h3 b = hdr aw true true).
      { unfold h3. wsimp. exact Hw2. }
      assert (E2 : word h3 tmp = hdr r false true)
        by (unfold h3; wsimp; reflexivity).
      assert (E3 : size_at h3 (tmp + r + 1) = r).
      { unfold h3, size_at. wsimp. apply hdr_size. lia. }
      refine (conj (conj E1 (conj _ Hawo))
                (conj (conj E2 (conj _ (conj (proj2 (proj2 Hr)) (conj _ E3))))
                   (conj _ eq_refl))); lia. }
    eapply outcome_weaken;
      [apply (ctx_insert_end fuel h3 ix1 bs1 b true hi false bs2
                [(aw, true); (r, false)] tmp Hctx3 HM)| |].
    + apply coalesced_app. split; [exact Hc1|]. cbn [coalesced app]. auto.
    + cbn [frees addrs Bool.eqb app]. unfold span, tmp. f_equal. lia.
    + unfold ix1. pose proof (theight_idelete cw b ix). lia.
    + intros [] h5 (Hwf5 & Hk5 & Hkp5 & _).
      assert (E : size_at h3 tmp = r).
      { unfold h3, size_at. wsimp. apply hdr_size. lia. }
      rewrite E in Hwf5. refine (conj _ (conj Hkp5 Hwf5)).
      rewrite Hk5. unfold h3. rewrite !brk_upd. exact Hk2.
  - (* the whole block *)
    rewrite Z.geb_leb, (proj2 (Z.leb_gt _ _)) by lia.
    replace (u32 (cw + 1)) with (cw + 1) by (u32s; reflexivity).
    assert (Hbb : 0 <= b < brk h1) by (unfold hi in *; lia).
    step. step_mark. rewrite size_at_upd_eq, (Z.mod_small (cw + 1)) by lia.
    change (ALLOCATED =? 0) with true.
    set (h2 := upd b (hdr (cw + 1) true true) (upd b (cw + 1) h1)).
    assert (Hk2 : brk h2 = brk h) by (unfold h2; rewrite !brk_upd; exact Hk1).
    assert (Hw2 : word h2 b = hdr (cw + 1) true true)
      by (unfold h2; wsimp; reflexivity).
    step.
    rewrite (free_at_hdr _ _ _ _ _ Hw2), (size_at_hdr _ _ _ _ _ Hw2) by lia.
    cbn [negb]. replace (b + (cw + 1) + 1) with hi by (unfold hi; lia).
    assert (Hctx2 : ctx h h2 ix1 bs1 b true hi false bs2 []).
    { unfold h2.
      repeat (apply ctx_store; [|unfold hi in *; lia|constructor]).
      exact Hctx1. }
    pose proof Hctx2 as (_ & HT2 & _).
    pose proof (tail_seg_word _ _ _ _ HT2) as [Hwr _].
    rewrite (block_mark_allo_eq hi ALLOCATED h2 ltac:(lia) Hwr).
    change (ALLOCATED =? 0) with true. apply outcome_Ok.
    set (h3 := upd hi (hdr (size_at h2 hi) true true) h2).
    assert (Hctx3 : ctx h h3 ix1 bs1 b true hi true bs2 []).
    { apply (ctx_repa h2 ix1 bs1 b true hi false true bs2 [] Hctx2).
      destruct bs2 as [|[s2 [|]] bs2']; cbn [coalesced] in Hc2; try exact I.
      destruct Hc2 as [[?|?] _]; discriminate. }
    split; [unfold h3; rewrite brk_upd; exact Hk2|].
    split; [apply Hctx3|].
    apply (ctx_end h3 ix1 bs1 b true hi true bs2 [] [(cw + 1, true)] Hctx3).
    + cbn [lseg]. unfold blk, span.
      assert (E1 : word h3 b = hdr (cw + 1) true true).
      { unfold h3. wsimp. exact Hw2. }
      refine (conj (conj E1 (conj _ (odd_succ_even _ Hbe))) (conj _ eq_refl));
        unfold hi; lia.
    + reflexivity.
    + apply coalesced_app. split; [exact Hc1|]. cbn [coalesced app].
      split; [auto|]. apply coalesced_weaken. exact Hc2.
Qed.

(** ** Growing the heap *)

(** A block of size 0 has no size class: [find_index] gives an index
    outside [seg_list]. *)
Lemma block_insert_zero fuel h ix b :
  index_rep h ix -> 0 <= b < brk h -> size_at h b = 0 ->
  block_insert fuel b h = Fault.
Proof.
  intros (Hseg & Hlen & _) Hb Hs.
  unfold block_insert.
  rewrite (bind_Ok _ _ h _ _ (block_size_eq b h Hb)), Hs.
  change (0 <=? SEG_LIST_SIZE * 2) with true. cbv iota.
  unfold small_block_insert.
  rewrite (bind_Ok _ _ h _ _ (block_size_eq b h Hb)), Hs.
  change (find_index 0) with 2147483647.
  unfold bind, seg_get. rewrite decide_True by lia.
  rewrite (proj2 (lookup_ge_None _ _)); [reflexivity|].
  rewrite Hseg, length_map, Hlen. unfold SEG_LIST_SIZE. lia.
Qed.

(** The part of the heap below the old epilogue, seen from the heap after
    [mem_sbrk] and the writes of [extend_heap]. *)
Lemma ctx_grow {h0} h h' ix bs1 lo pl pm zs :
  ctx h0 h ix bs1 lo pl (brk h - 1) pm [] zs ->
  brk h <= brk h' -> brk h' <= 2 ^ 30 ->
  (forall x, x < brk h - 1 -> word h' x = word h x) ->
  seg_list h' = seg_list h -> seg_root h' = seg_root h ->
  word h' (brk h' - 1) = hdr 0 true false ->
  ctx h0 h' ix bs1 lo pl (brk h' - 1) false [] zs.
Proof.
  intros (HP & HT & Hle & Hbrk & Hix & Hperm & Hz & Hsp & Hkp)
    Hb1 Hb2 Hw Hsl Hsr He.
  cbn [frees addrs] in Hperm. rewrite app_nil_r in Hperm.
  assert (Hin : forall c, c ∈ iblocks ix ->
            size_at h' c = size_at h c /\ 2 <= size_at h c /\
            c + size_at h c + 2 <= brk h - 1).
  { intros c Hc. rewrite Hperm in Hc.
    apply elem_of_app in Hc as [Hc|Hc].
    - destruct (addrs_blk _ _ _ _ _ _ _ _ HP Hc)
        as (sz & pc & Hbk & Hlo & Hhi & _).
      destruct (blk_fields _ _ _ _ _ Hbk) as (Hs & _).
      destruct Hbk as (_ & _ & _ & H2 & _). unfold span in Hhi.
      rewrite !size_at_mod, Hw by lia. rewrite <- size_at_mod, Hs. lia.
    - destruct (zone_ok_in _ _ _ _ _ Hz Hc) as (s & _ & Hs & H2 & Hlo & Hhi).
      rewrite !size_at_mod, Hw by lia. rewrite <- size_at_mod, Hs. lia. }
  unfold ctx.
  refine (conj _ (conj _ (conj _ (conj Hb2 (conj _ (conj _ (conj _
            (conj _ _)))))))).
  8:{ intros x [Hx|[]]. rewrite <- (Hkp x (or_introl Hx)). apply Hw.
      pose proof (apayload_range _ _ _ _ _ _ _ HP Hx). lia. }
  - eapply lseg_frame; [|exact HP]. intros x Hx _. apply Hw. lia.
  - apply tail_seg_nil. split; [reflexivity|exact He].
  - lia.
  - apply (index_rep_frame h); auto.
    + intros c Hc. apply Hin, Hc.
    + intros x (c & Hc & Hx). apply Hw.
      destruct (Hin c Hc) as (_ & H2 & Hhi).
      pose proof (lim_le _ H2). lia.
  - cbn [frees addrs]. rewrite app_nil_r. exact Hperm.
  - unfold zone_ok in *. eapply Forall_impl; [exact Hz|].
    intros [c s] (Hs & H2 & Hlo & Hhi). cbn [fst snd] in *.
    repeat split; try lia.
    rewrite size_at_mod, Hw by lia. rewrite <- size_at_mod. exact Hs.
  - destruct Hsp as (Ha & Hf & _).
    refine (conj Ha (conj _ Hb2)).
    eapply Forall_impl; [exact Hf|]. intros c Hc. cbv beta in *. lia.
Qed.

(** With both neighbours allocated a block of size 0 cannot be put into
    the index. *)
Lemma coalesce_none_zero {h0} fuel h ix bs1 bs2 b hi :
  ctx h0 h ix bs1 b true hi false bs2 [] -> coalesced false bs2 ->
  word h b = hdr 0 false true -> hi = b + 2 ->
  coalesce fuel b h = Fault.
Proof.
  intros Hctx Hc2 Hbw Ehi.
  pose proof Hctx as (HP & HT & Hle & Hbrk & Hix & Hperm & Hz & Hsp & Hkp).
  pose proof (tail_seg_le _ _ _ _ HT) as Hhb.
  pose proof (lseg_le _ _ _ _ _ _ HP) as Hlo.
  assert (Hv : 0 <= 0 < 2 ^ 30) by lia.
  pose proof (size_at_hdr _ _ _ _ _ Hbw Hv) as Hbs.
  pose proof (free_at_hdr _ _ _ _ _ Hbw Hv) as Hbf.
  pose proof (prev_free_at_hdr _ _ _ _ _ Hbw Hv) as Hbp.
  pose proof (tail_seg_alloc _ _ _ _ HT Hc2) as Hnf.
  cbn [negb] in Hbf, Hbp.
  unfold coalesce.
  step. rewrite Hbf, Hbs.
  replace (b + 0 + 2) with hi by lia.
  step. rewrite Hbp. step. rewrite Hnf. step. rewrite Hbs.
  step. step. rewrite Hbf. cbv iota.
  step. step_mark. rewrite size_at_upd_eq, Z.mod_small by lia.
  change (ALLOCATED =? 0) with true.
  set (H := hdr 0 false true).
  set (h3 := upd (b + 0 + 1) H (upd b H (upd b 0 h))).
  assert (Hctx3 : ctx h0 h3 ix bs1 b true hi false bs2 []).
  { unfold h3. repeat (apply ctx_store; [|lia|constructor]). exact Hctx. }
  destruct Hctx3 as (_ & _ & _ & _ & Hix3 & _).
  unfold bind at 1.
  rewrite (block_insert_zero fuel h3 ix b Hix3); [reflexivity| |].
  - unfold h3. rewrite !brk_upd. lia.
  - unfold h3, H, size_at. wsimp. apply hdr_size. lia.
Qed.

Lemma sbrk_words w :
  0 <= w < 2 ^ 32 -> 0 <= to_int (u32 (w * WSIZE)) ->
  to_int (u32 (w * WSIZE)) / WSIZE = w mod 2 ^ 30 /\ w mod 2 ^ 30 < 2 ^ 29.
Proof.
  intros Hw. unfold u32, WSIZE, to_int.
  change (2 ^ 32) with (2 ^ 30 * 4). rewrite Z.mul_mod_distr_r by lia.
  pose proof (Z.mod_pos_bound w (2 ^ 30) ltac:(lia)).
  destruct (Z.ltb_spec (w mod 2 ^ 30 * 4) (2 ^ 31)); intros Hge.
  - rewrite Z.div_mul by lia. lia.
  - lia.
Qed.

Lemma last_alloc_app pa bs1 bs2 :
  last_alloc pa (bs1 ++ bs2) = last_alloc (last_alloc pa bs1) bs2.
Proof.
  revert pa. induction bs1 as [|[sz al] bs1 IH]; intros pa; [reflexivity|].
  cbn [last_alloc app]. apply IH.
Qed.

Lemma last_alloc_false bs :
  last_alloc true bs = false -> exists bs0 L, bs = bs0 ++ [(L, false)].
Proof.
  destruct bs as [|[sz al] bs] using rev_ind; [discriminate|].
  rewrite last_alloc_app. cbn [last_alloc]. intros ->. eauto.
Qed.

Lemma mod_mod_30 a : (a mod 2 ^ 32) mod 2 ^ 30 = a mod 2 ^ 30.
Proof.
  apply Z.mod_mod_divide. exists 4. reflexivity.
Qed.

(** [extend_heap(words)] for an odd [words] whose byte count fits an
    [int]: unless the oracle refuses, the heap grows by [words + 1] words,
    the new space becomes a free block, merged with a free last block, and
    the epilogue moves to the new end. *)
Lemma extend_heap_total fuel h bs ix ewords :
  wf_with h bs ix -> max_brk <= 2 ^ 30 ->
  Z.odd ewords = true -> 1 <= ewords -> ewords + 1 < 2 ^ 29 ->
  (last_alloc true bs = true -> 3 <= ewords) ->
  outcome (extend_heap fuel ewords h) (fuel <= theight (bigs ix))%nat
    (fun r h' =>
       if decide (max_brk < brk h + (ewords + 1))
       then r = None /\ h' = h
       else
         exists bs0 cw ix',
           r = Some (1 + spans bs0) /\
           wf_with h' (bs0 ++ [(cw, false)]) ix' /\
           brk h' = brk h + (ewords + 1) /\
           (forall x, apayload 1 bs x -> word h' x = word h x) /\
           ((last_alloc true bs = true /\ bs0 = bs /\ cw = ewords - 1 /\
             ix' = iinsert cw (1 + spans bs0) ix) \/
            (exists L, bs = bs0 ++ [(L, false)] /\ cw = L + ewords + 1 /\
                       ix' = iinsert cw (1 + spans bs0)
                               (idelete L (1 + spans bs0) ix)))).
Proof.
  intros Hwf Hmax Hodd Hew1 Hew2 Hlast.
  pose proof Hwf as (HT & Hco & Hix & Hperm & Hbrk).
  pose proof HT as (pe & HL & He).
  pose proof (lseg_le _ _ _ _ _ _ HL) as Hle1.
  unfold extend_heap.
  set (k := ewords + 1).
  assert (Ebytes : to_int (u32 (u32 k * WSIZE)) / WSIZE = k /\
                   0 <= to_int (u32 (u32 k * WSIZE))).
  { unfold u32, WSIZE, to_int. rewrite (Z.mod_small k) by lia.
    rewrite (Z.mod_small (k * 4)) by lia.
    destruct (Z.ltb_spec (k * 4) (2 ^ 31)); [|lia].
    rewrite Z.div_mul by lia. lia. }
  destruct Ebytes as [Ebytes Hbytes].
  unfold bind at 1, mem_sbrk. rewrite Ebytes.
  destruct (decide (max_brk < brk h + k)) as [Hd|Hd].
  { rewrite decide_True by lia. cbn [ret outcome]. auto. }
  rewrite decide_False by lia.
  cbv beta iota.
  replace (u32 k) with k by (unfold u32; rewrite Z.mod_small; lia).
  set (hs := set_brk (brk h + k) h).
  assert (Hks : brk hs = brk h + k) by reflexivity.
  assert (Hws : forall x, word hs x = word h x) by reflexivity.
  set (e := brk h - 1) in *.
  assert (He' : word hs e = hdr 0 true pe) by exact He.
  step. rewrite (prev_free_at_hdr _ _ _ _ _ He' ltac:(lia)).
  set (s := k - 2).
  replace (u32 s) with s by (unfold u32, s, k; rewrite Z.mod_small; lia).
  match goal with
  | |- context [if negb pe then ?a else ?b] =>
      replace (if negb pe then a else b)
        with (set_size e s;;
              block_mark_free e (if pe then ALLOCATED else FREE))
        by (destruct pe; reflexivity)
  end.
  assert (Hs : 0 <= s < 2 ^ 30) by (unfold s, k; lia).
  step. step. step_mark.
  rewrite size_at_upd_eq, (Z.mod_small s) by lia.
  replace ((if pe then ALLOCATED else FREE) =? 0) with pe
    by (destruct pe; reflexivity).
  set (H := hdr s false pe).
  set (h2 := upd (e + s + 1) H (upd e H (upd e s hs))).
  assert (Hk2' : brk h2 = brk h + k)
    by (unfold h2; rewrite !brk_upd; exact Hks).
  assert (Hwe : word h2 e = H) by (unfold h2; wsimp; reflexivity).
  step. rewrite (free_at_hdr h2 e s false pe Hwe Hs),
          (size_at_hdr h2 e s false pe Hwe Hs).
  cbn [negb].
  set (e' := e + s + 2).
  step. step_mark. rewrite size_at_upd_eq, Z.mod_small by lia.
  change (FREE =? 0) with false.
  set (h3 := upd e' (hdr 0 true false) (upd e' 0 h2)).
  assert (Hb3 : brk h3 = brk h + k)
    by (unfold h3; rewrite !brk_upd; exact Hk2').
  assert (He3 : e' = brk h3 - 1) by (unfold e', s, e; lia).
  assert (Hlow : forall x, x < brk h - 1 -> word h3 x = word h x).
  { intros x Hx. unfold h3, h2, e', e in *. wsimp. apply Hws. }
  assert (Hw3 : word h3 (brk h3 - 1) = hdr 0 true false).
  { rewrite <- He3. unfold h3. wsimp. reflexivity. }
  assert (Hwe3 : word h3 e = hdr s false pe).
  { unfold h3, e'. wsimp. exact Hwe. }
  assert (Hse : Z.even s = true).
  { unfold s, k. replace (ewords + 1 - 2) with (ewords - 1) by lia.
    apply odd_pred_even, Hodd. }
  pose proof (lseg_end _ _ _ _ _ _ HL) as Ee.
  pose proof (lseg_last _ _ _ _ _ _ HL) as Epe.
  destruct pe.
  - (* the last block is allocated, or there is none *)
    assert (Hwf' : wf_with h (bs ++ [] ++ []) ix)
      by (rewrite !app_nil_r; exact Hwf).
    destruct (ctx_start _ _ _ _ _ Hwf') as (pl & pm & Hctx & _ & Epl & _).
    cbn [spans fblocks] in Hctx. rewrite Z.add_0_r, <- Ee in Hctx.
    rewrite <- Epe in Epl. subst pl.
    assert (Hctx3 : ctx h h3 ix bs e true (brk h3 - 1) false [] []).
    { apply (ctx_grow h h3 ix bs e true pm []); auto; lia. }
    rewrite <- He3 in Hctx3.
    assert (Hs2 : 2 <= s) by (unfold s, k; specialize (Hlast (eq_sym Epe)); lia).
    eapply outcome_bind.
    + apply (coalesce_none fuel h3 ix bs [] e s true s e' Hctx3 Hco I
               Hwe3 Hs eq_refl Hs2 Hse eq_refl).
    + auto.
    + intros r h4 (-> & Hwf4 & Hb4 & Hk4). cbn [ret outcome].
      exists bs, s, (iinsert s e ix). rewrite <- Ee.
      refine (conj eq_refl (conj Hwf4 (conj _ (conj _ _)))); [lia| |].
      * intros x Hx. apply Hk4. left. exact Hx.
      * left. unfold s, k. repeat split; auto; lia.
  - (* the last block is free *)
    destruct (last_alloc_false bs (eq_sym Epe)) as (bs0 & L & ->).
    assert (Hwf' : wf_with h (bs0 ++ [(L, false)] ++ []) ix)
      by (rewrite app_nil_r; exact Hwf).
    destruct (ctx_start _ _ _ _ _ Hwf') as (pl & pm & Hctx & HM & Epl & Epm).
    cbn [spans fblocks span] in Hctx, HM.
    rewrite spans_app in Ee. cbn [spans span] in Ee.
    set (pb := 1 + spans bs0) in *.
    replace (pb + (L + 2 + 0)) with e in * by lia.
    apply coalesced_app in Hco as [Hco1 Hco2].
    rewrite <- Epl in Hco2. cbn [coalesced] in Hco2.
    destruct Hco2 as [[->|[=]] _].
    cbn [last_alloc] in Epm. subst pm.
    assert (Hctx3 : ctx h h3 ix bs0 pb true (brk h3 - 1) false [] [(pb, L)]).
    { apply (ctx_grow h h3 ix bs0 pb true false [(pb, L)]); auto; lia. }
    rewrite <- He3 in Hctx3.
    destruct HM as [Hbk _].
    pose proof Hbk as (Hbw & HL30 & HLe & HL2 & HLf).
    assert (Hbk3 : blk h3 pb L false true).
    { unfold blk. rewrite size_at_mod, !Hlow by lia.
      rewrite <- size_at_mod. exact Hbk. }
    eapply outcome_bind.
    + apply (coalesce_prev fuel h3 ix bs0 [] pb L e s true s true e' Hctx3
               Hco1 I Hbk3 Hwe3 Hs eq_refl ltac:(lia) Hse ltac:(lia) eq_refl).
    + auto.
    + intros r h4 (-> & Hwf4 & Hb4 & Hk4). cbn [ret outcome].
      exists bs0, (s + L + 2), (iinsert (s + L + 2) pb (idelete L pb ix)).
      refine (conj eq_refl (conj Hwf4 (conj _ (conj _ _)))); [lia| |].
      * intros x Hx. apply Hk4. left.
        apply apayload_app in Hx as [Hx|Hx]; [exact Hx|].
        cbn [apayload] in Hx. destruct Hx as [[[=] _]|[]].
      * right. exists L. unfold s, k. repeat split; auto; lia.
Qed.

(** ** Allocation *)

(** A request of 0 words looks into no size class. *)
Lemma small_find_fit_zero f h : small_find_fit f 0 h = Ok (None, h).
Proof. reflexivity. Qed.

(** What [malloc] uses of [find_fit]: a block that is returned is in the
    index and large enough. *)
Lemma find_fit_hit fuel h ix w :
  index_rep h ix -> spaced h (iblocks ix) ->
  0 <= w -> Z.even w = true ->
  outcome (find_fit fuel w h) (fuel <= theight (bigs ix))%nat
    (fun r h' =>
       h' = h /\
       match r with
       | Some b => b ∈ iblocks ix /\ w <= size_at h b
       | None => True
       end).
Proof.
  intros Hix Hs Hw He.
  destruct (Z_le_dec 2 w) as [H2|H2].
  { apply (outcome_weaken _ _ _ _ _ (find_fit_spec fuel h ix w Hix Hs H2 He));
      [auto|].
    intros r h' [-> ->]. split; [reflexivity|].
    pose proof (ifind_best h ix w Hix H2 He) as Hb.
    destruct (ifind w ix); [|exact I]. destruct Hb as (? & ? & _). auto. }
  assert (w = 0).
  { destruct (Z.eq_dec w 1) as [->|]; [discriminate|lia]. }
  subst w.
  pose proof Hix as (Hsl & Hlen & Hsm & Hroot & Ht & Hbst & Hkeys).
  pose proof (spaced_app _ _ _ Hs) as [Hss Hst].
  unfold find_fit. step. rewrite Hroot.
  eapply outcome_bind.
  - apply (ceiling_spec fuel (bigs ix) h 0 None); [|exact Ht|exact Hst].
    intros f _. apply small_find_fit_zero.
  - auto.
  - intros r h1 [-> Hr]. change (r = tceiling 0 (bigs ix)) in Hr. subst r.
    pose proof (tceiling_spec 0 (bigs ix) Hbst) as Hc.
    destruct (tceiling 0 (bigs ix)) as [b|];
      [|unfold ret; apply outcome_Ok; auto].
    destruct fuel as [|fuel']; [simpl; lia|].
    destruct Hc as (k & ring & Hin & _).
    assert (Hb : b ∈ iblocks ix).
    { apply elem_of_app. right. eapply tnodes_blocks; [exact Hin|left]. }
    pose proof (tnodes_head_pred _ _ _ _ _ Ht Hin) as Hp.
    pose proof (spaced_in _ _ _ Hs Hb).
    rewrite (bind_Ok _ _ _ _ _
               (minimum_address_head fuel' b h ltac:(lia) Hp)).
    unfold ret. apply outcome_Ok.
    pose proof (size_at_range h b). auto with lia.
Qed.

Lemma adjust_covers size :
  0 < size < 2 ^ 32 - 7 -> size <= 4 * adjust size /\ adjust size < 2 ^ 30.
Proof.
  clear junk max_brk heap_listp.
  intros Hs. rewrite adjust_wraps by lia. unfold awords_spec, u32.
  destruct (Z.leb_spec size 12); [rewrite Z.mod_small; lia|].
  assert ((size - 12 + 7) / 8 <= 2 ^ 29 - 2 /\
          size - 12 <= (size - 12 + 7) / 8 * 8).
  { Z.div_mod_to_equations. lia. }
  rewrite Z.mod_small; Z.div_mod_to_equations; lia.
Qed.

Lemma addrs_range h a pa bs e pe want c :
  lseg h a pa bs e pe -> c ∈ addrs want a bs -> a <= c < e.
Proof.
  intros HL Hc.
  destruct (addrs_blk _ _ _ _ _ _ _ _ HL Hc) as (sz & pc & Hb & Hlo & Hhi & _).
  destruct (blk_fields _ _ _ _ _ Hb) as (_ & _ & _ & Hr).
  pose proof (span_pos sz want ltac:(lia)). lia.
Qed.

(** The address of a block is no address of another block. *)
Lemma addrs_mid_fresh h a pa bs1 sz al bs2 e pe want :
  lseg h a pa (bs1 ++ (sz, al) :: bs2) e pe ->
  a + spans bs1
  ∉ addrs want a bs1 ++ addrs want (a + spans bs1 + span sz al) bs2.
Proof.
  intros HL Hc.
  apply lseg_app in HL as (pm & HL1 & Hb & HL2).
  pose proof (blk_span _ _ _ _ _ Hb).
  apply elem_of_app in Hc as [Hc|Hc].
  - pose proof (addrs_range _ _ _ _ _ _ _ _ HL1 Hc). lia.
  - pose proof (addrs_range _ _ _ _ _ _ _ _ HL2 Hc). lia.
Qed.

(** The free block in front of the epilogue. *)
Lemma last_free_block h bs ix :
  wf_with h bs ix -> prev_free_at h (brk h - 1) = true ->
  exists bs0 L,
    bs = bs0 ++ [(L, false)] /\ brk h - 1 = 1 + spans bs0 + L + 2 /\
    size_at h (brk h - 2) = L /\ size_at h (1 + spans bs0) = L /\
    Z.even L = true /\ 2 <= L < 2 ^ 30 /\ 0 <= spans bs0.
Proof.
  intros (HT & _) Hpf. destruct HT as (pe & HL & He).
  rewrite (prev_free_at_hdr _ _ _ _ _ He ltac:(lia)) in Hpf.
  destruct pe; [discriminate|].
  pose proof (lseg_last _ _ _ _ _ _ HL) as Epe.
  destruct (last_alloc_false bs (eq_sym Epe)) as (bs0 & L & ->).
  exists bs0, L. split; [reflexivity|].
  pose proof (lseg_end _ _ _ _ _ _ HL) as Ee.
  rewrite spans_app in Ee. cbn [spans span] in Ee.
  apply lseg_app in HL as (pm & HL1 & Hb & _).
  pose proof (lseg_spans _ _ _ _ _ _ HL1).
  destruct (blk_fields _ _ _ _ _ Hb) as (Hs & _).
  destruct Hb as (_ & Hr & He2 & H2 & Hf).
  replace (brk h - 2) with (1 + spans bs0 + L + 1) by lia.
  repeat split; auto; lia.
Qed.

(** * Further properties of the code *)

(** ** Block functions *)

(** X1.  [block_mark_free(block, alloc)] keeps the size field, clears the
    alloc bit, sets the prev_alloc bit exactly when [alloc] is [ALLOCATED],
    copies the new header into the footer, and touches no other word.
    With the footer in place [block_prev(block_next(block))] is the block
    again. *)
Theorem block_mark_free_header_footer (b al : Z) (h : heap) :
  0 <= b -> b + size_at h b + 1 < brk h -> 0 <= word h b < 2 ^ 32 ->
  exists h',
    block_mark_free b al h = Ok (tt, h') /\
    block_size b h' = Ok (size_at h b, h') /\
    block_free b h' = Ok (true, h') /\
    block_prev_free b h' = Ok (negb (al =? ALLOCATED), h') /\
    load (b + size_at h b + 1) h' = load b h' /\
    (let* n := block_next b in block_prev n) h' = Ok (b, h') /\
    (forall x, x <> b -> x <> b + size_at h b + 1 -> word h' x = word h x).
Proof.
  intros Hb Hf Hw. pose proof (size_at_range h b) as Hs.
  rewrite block_mark_free_eq by assumption.
  set (H := hdr (size_at h b) false (al =? 0)).
  set (h' := upd (b + size_at h b + 1) H (upd b H h)).
  assert (Hk : brk h' = brk h) by reflexivity.
  assert (Hwb : word h' b = H) by (unfold h'; wsimp; reflexivity).
  assert (Hwf : word h' (b + size_at h b + 1) = H)
    by (unfold h'; wsimp; reflexivity).
  assert (Hsb : size_at h' b = size_at h b)
    by exact (size_at_hdr h' b (size_at h b) false (al =? 0) Hwb Hs).
  assert (Hfb : free_at h' b = true)
    by exact (free_at_hdr h' b (size_at h b) false (al =? 0) Hwb Hs).
  exists h'. split; [reflexivity|].
  rewrite block_size_eq, block_free_eq, block_prev_free_eq by lia.
  rewrite Hsb, Hfb,
    (prev_free_at_hdr h' b (size_at h b) false (al =? 0) Hwb Hs).
  repeat split.
  - rewrite !load_eq by lia. congruence.
  - rewrite (bind_Ok _ _ _ _ _ (block_next_eq b h' ltac:(lia))).
    rewrite Hfb, Hsb. rewrite block_prev_eq by lia.
    replace (b + size_at h b + 2 - 1) with (b + size_at h b + 1) by lia.
    rewrite (size_at_hdr h' _ (size_at h b) false (al =? 0) Hwf Hs).
    f_equal. f_equal. lia.
  - intros x Hx1 Hx2. unfold h'. wsimp. reflexivity.
Qed.

(** X2.  [block_mark_allo(block, alloc)] keeps the size field, sets the
    alloc bit, sets the prev_alloc bit exactly when [alloc] is
    [ALLOCATED], and writes the header only: an allocated block has no
    footer. *)
Theorem block_mark_allo_header_only (b al : Z) (h : heap) :
  0 <= b < brk h -> 0 <= word h b < 2 ^ 32 ->
  exists h',
    block_mark_allo b al h = Ok (tt, h') /\
    block_size b h' = Ok (size_at h b, h') /\
    block_free b h' = Ok (false, h') /\
    block_prev_free b h' = Ok (negb (al =? ALLOCATED), h') /\
    block_next b h' = Ok (b + size_at h b + 1, h') /\
    (forall x, x <> b -> word h' x = word h x).
Proof.
  intros Hb Hw. pose proof (size_at_range h b) as Hs.
  rewrite block_mark_allo_eq by assumption.
  set (H := hdr (size_at h b) true (al =? 0)).
  set (h' := upd b H h).
  assert (Hk : brk h' = brk h) by reflexivity.
  assert (Hwb : word h' b = H) by (unfold h'; wsimp; reflexivity).
  exists h'. split; [reflexivity|].
  rewrite block_next_eq, block_size_eq, block_free_eq, block_prev_free_eq
    by lia.
  rewrite (size_at_hdr h' b (size_at h b) true (al =? 0) Hwb Hs),
    (free_at_hdr h' b (size_at h b) true (al =? 0) Hwb Hs),
    (prev_free_at_hdr h' b (size_at h b) true (al =? 0) Hwb Hs).
  repeat split.
  intros x Hx. unfold h'. wsimp. reflexivity.
Qed.

(** X3.  The links of a free block are 32-bit offsets from [heap_listp]:
    after [set_ptr(block, pred, succ)], [block_pred] and [block_succ] read
    back what the offsets decode to.  That is the pointer stored when its
    offset lies strictly between 0 and 2^32, and [NULL] for [NULL]; the
    block at [heap_listp] itself has offset 0 and reads back as [NULL]. *)
Theorem set_ptr_reads_back (b : addr) (p s : ptr) (h : heap) :
  0 <= b + 1 -> b + 2 < brk h ->
  exists h',
    set_ptr b p s h = Ok (tt, h') /\
    block_pred b h' = Ok (ptr_of (offset_of p), h') /\
    block_succ b h' = Ok (ptr_of (offset_of s), h') /\
    (forall q, ptr_ok q -> ptr_of (offset_of q) = q) /\
    ptr_of (offset_of (Some 0)) = None /\
    (forall x, x <> b + 1 -> x <> b + 2 -> word h' x = word h x).
Proof.
  intros H1 H2. rewrite set_ptr_eq by assumption.
  eexists. split; [reflexivity|].
  rewrite block_pred_eq, block_succ_eq by bnd.
  repeat split.
  - wsimp. reflexivity.
  - wsimp. reflexivity.
  - apply ptr_of_offset_of.
  - intros x Hx1 Hx2. wsimp. reflexivity.
Qed.

(** ** The free-set index *)

Lemma touched_near h cs x :
  touched h cs x -> exists c, c ∈ cs /\ c < x <= c + 4.
Proof.
  intros (c & Hc & Hx). exists c. split; [exact Hc|].
  destruct (size_at h c <=? SEG_LIST_SIZE * 2); lia.
Qed.

(** X4.  [block_insert] of a block of even size, at least 2 words, that
    lies apart from the blocks of the index: the call returns, the index
    (the six chains of [seg_list] and the tree of [seg_root]) is well
    formed again and holds the block and the blocks it held; the break
    is as before, and only words among the four that follow the header of
    the block or of a block of the index are written. *)
Theorem block_insert_adds_block
  (fuel : nat) (h : heap) (ix : index) (b : addr) :
  index_rep h ix -> spaced h (b :: iblocks ix) ->
  2 <= size_at h b -> Z.even (size_at h b) = true ->
  (theight (bigs ix) < fuel)%nat ->
  exists h' ix',
    block_insert fuel b h = Ok (tt, h') /\
    index_rep h' ix' /\
    iblocks ix' ≡ₚ b :: iblocks ix /\
    brk h' = brk h /\
    (forall x, (forall c, c ∈ b :: iblocks ix -> ~ (c < x <= c + 4)) ->
               word h' x = word h x).
Proof.
  intros Hix Hs H2 Hev Hfuel.
  destruct (outcome_enough _ _ _ (block_insert_spec fuel h ix b Hix Hs H2 Hev)
              ltac:(lia)) as ([] & h' & E & Hix' & Hk & Hfr).
  exists h', (iinsert (size_at h b) b ix).
  refine (conj E (conj Hix' (conj _ (conj Hk _)))).
  - eapply iblocks_iinsert_rep; eassumption.
  - intros x Hx. apply Hfr. intros Ht.
    destruct (touched_near _ _ _ Ht) as (c & Hc & Hcx). exact (Hx c Hc Hcx).
Qed.

(** X5.  [block_delete] of a block of the index: the call returns, the
    index is well formed again and holds the other blocks, each as often
    as before; the break is as before, and only words among the four that
    follow the header of a remaining block are written. *)
Theorem block_delete_removes_block
  (fuel : nat) (h : heap) (ix : index) (b : addr) :
  index_rep h ix -> spaced h (iblocks ix) -> b ∈ iblocks ix ->
  (theight (bigs ix) < fuel)%nat ->
  exists h' ix',
    block_delete fuel b h = Ok (tt, h') /\
    index_rep h' ix' /\
    iblocks ix ≡ₚ b :: iblocks ix' /\
    brk h' = brk h /\
    (forall x, (forall c, c ∈ iblocks ix' -> ~ (c < x <= c + 4)) ->
               word h' x = word h x).
Proof.
  intros Hix Hs Hb Hfuel.
  destruct (outcome_enough _ _ _ (block_delete_spec fuel h ix b Hix Hs Hb)
              ltac:(lia)) as ([] & h' & E & Hix' & Hp & Hk & Hfr).
  exists h', (idelete (size_at h b) b ix).
  refine (conj E (conj Hix' (conj Hp (conj Hk _)))).
  intros x Hx. apply Hfr. intros Ht.
  destruct (touched_near _ _ _ Ht) as (c & Hc & Hcx). exact (Hx c Hc Hcx).
Qed.

(** X6.  [block_insert] followed by [block_delete] of the same block
    gives an index with the blocks it had before. *)
Theorem block_insert_delete_round_trip
  (fuel : nat) (h : heap) (ix : index) (b : addr) :
  index_rep h ix -> spaced h (b :: iblocks ix) ->
  2 <= size_at h b -> Z.even (size_at h b) = true ->
  (S (theight (bigs ix)) < fuel)%nat ->
  exists h' ix',
    (block_insert fuel b;; block_delete fuel b) h = Ok (tt, h') /\
    index_rep h' ix' /\
    iblocks ix' ≡ₚ iblocks ix /\
    brk h' = brk h.
Proof.
  intros Hix Hs H2 Hev Hfuel.
  destruct (outcome_enough _ _ _ (block_insert_spec fuel h ix b Hix Hs H2 Hev)
              ltac:(lia)) as ([] & h1 & E1 & Hix1 & Hk1 & Hfr1).
  set (ix1 := iinsert (size_at h b) b ix) in *.
  assert (Hp1 : iblocks ix1 ≡ₚ b :: iblocks ix)
    by (eapply iblocks_iinsert_rep; eassumption).
  assert (Hs1 : spaced h1 (iblocks ix1)).
  { apply (spaced_perm h1 (b :: iblocks ix)); [symmetry; exact Hp1|].
    destruct Hs as (Ha & Hf & Hbk). unfold spaced. rewrite Hk1. auto. }
  assert (Hb1 : b ∈ iblocks ix1) by (rewrite Hp1; left).
  pose proof (theight_iinsert (size_at h b) b ix) as Hh.
  destruct (outcome_enough _ _ _
              (block_delete_spec fuel h1 ix1 b Hix1 Hs1 Hb1)
              ltac:(fold ix1 in Hh; lia))
    as ([] & h2 & E2 & Hix2 & Hp2 & Hk2 & _).
  exists h2, (idelete (size_at h1 b) b ix1).
  refine (conj _ (conj Hix2 (conj _ _))).
  - rewrite (bind_Ok _ _ _ _ _ E1). exact E2.
  - rewrite Hp1 in Hp2. apply Permutation_cons_inv in Hp2.
    symmetry. exact Hp2.
  - congruence.
Qed.

(** X7.  A block whose size field is 0 has no size class:
    [find_index(0)] is [(0 - 2) / 2] in [unsigned int], an index beyond
    the six entries of [seg_list], and [block_insert] reads outside the
    array. *)
Theorem block_insert_size_zero_faults
  (fuel : nat) (h : heap) (ix : index) (b : addr) :
  index_rep h ix -> 0 <= b < brk h -> size_at h b = 0 ->
  find_index 0 = 2 ^ 31 - 1 /\
  block_insert fuel b h = Fault.
Proof.
  intros Hix Hb Hs. split; [reflexivity|].
  eapply block_insert_zero; eassumption.
Qed.

(** ** [free]: the other rows of the coalescing table *)

Lemma tail_seg_hdr h a pa bs :
  tail_seg h a pa bs -> head_alloc bs ->
  word h a = hdr (size_at h a) true pa /\ 0 <= size_at h a < 2 ^ 30.
Proof.
  intros HT Hhd. destruct bs as [|[sz [|]] bs]; [| |contradiction].
  - apply tail_seg_nil in HT as [_ Hw].
    rewrite (size_at_hdr _ _ _ _ _ Hw) by lia. split; [exact Hw|lia].
  - apply tail_seg_cons in HT as [Hb _].
    destruct (blk_fields _ _ _ _ _ Hb) as (Hs & _ & _ & Hr).
    destruct Hb as (Hw & _). rewrite Hs. auto.
Qed.

Lemma free_prev fuel h ix bs1 ps sz bs2 :
  wf_with h (bs1 ++ [(ps, false); (sz, true)] ++ bs2) ix ->
  head_alloc bs2 ->
  outcome (free fuel (Some (1 + spans bs1 + ps + 2 + 1)) h)
    (fuel <= theight (bigs ix))%nat
    (fun _ h' =>
       wf_with h' (bs1 ++ (sz - 1 + ps + 2, false) :: bs2)
         (iinsert (sz - 1 + ps + 2) (1 + spans bs1)
            (idelete ps (1 + spans bs1) ix)) /\
       brk h' = brk h /\
       keeps h h' bs1 (1 + spans bs1 + spans [(ps, false); (sz, true)]) bs2).
Proof.
  intros Hwf Hhd.
  pose proof Hwf as (_ & Hco & _).
  destruct (ctx_start _ _ _ _ _ Hwf) as (pl & pm & Hctx & HM & Epl & Epm).
  set (pb := 1 + spans bs1) in *.
  apply coalesced_app in Hco as [Hc1 Hco]. rewrite <- Epl in Hco.
  cbn [coalesced app] in Hco.
  destruct Hco as ([->|[=]] & _ & Hc2).
  pose proof (coalesced_head_alloc _ _ Hc2 Hhd) as Hc2'.
  cbn [last_alloc] in Epm. subst pm.
  cbn [lseg fblocks app spans] in HM, Hctx. unfold span in HM, Hctx.
  destruct HM as (Hpb & Hb & _).
  set (b := pb + (ps + 2)) in *.
  replace (pb + (ps + 2 + (sz + 1 + 0))) with (b + sz + 1) in *
    by (unfold b; lia).
  set (nb := b + sz + 1) in *.
  pose proof Hctx as (HP & HT & Hle & Hbrk & Hix & Hperm & Hz & Hsp & Hkp).
  pose proof (tail_seg_le _ _ _ _ HT) as Hhb.
  pose proof (lseg_le _ _ _ _ _ _ HP) as Hlo.
  destruct (blk_fields _ _ _ _ _ Hpb) as (Hps & _ & _ & Hpr).
  destruct (blk_fields _ _ _ _ _ Hb) as (Hbs & Hbf & _ & Hbr).
  pose proof Hpb as (_ & _ & _ & Hp2 & _).
  pose proof Hb as (Hbw & _ & Hbo).
  pose proof (blk_alloc_pos _ _ _ _ Hb) as Hb1.
  destruct (tail_seg_hdr _ _ _ _ HT Hhd) as [Hnw Hnr].
  cbn [negb] in Hbf.
  unfold free, block_block.
  replace (pb + ps + 2 + 1 - 1) with b by (unfold b; lia).
  step. rewrite Hbf, Hbs. fold nb.
  step. rewrite Hnw, hdr_clear_pa by lia.
  step.
  set (h1 := upd nb (hdr (size_at h nb) true false) h).
  assert (Hctx1 : ctx h h1 ix bs1 pb true nb false bs2 [(pb, ps)]).
  { apply (ctx_repa h ix bs1 pb true nb true false bs2 [(pb, ps)] Hctx).
    exact Hhd. }
  eapply outcome_bind;
    [apply (coalesce_prev fuel h1 ix bs1 bs2 pb ps b sz false (sz - 1)
              true nb Hctx1 Hc1 Hc2')|auto|].
  - apply blk_upd_ne; [exact Hpb|unfold nb, b; lia|unfold nb, b; lia].
  - unfold h1. rewrite word_upd_ne by (unfold nb; lia). exact Hbw.
  - exact Hbr.
  - reflexivity.
  - lia.
  - apply odd_pred_even, Hbo.
  - unfold b. lia.
  - unfold nb. lia.
  - intros r h' (_ & Hwf' & Hb' & Hk'). apply outcome_Ok.
    refine (conj Hwf' (conj _ _)); [rewrite Hb'; apply brk_upd|].
    replace (pb + spans [(ps, false); (sz, true)]) with nb
      by (cbn [spans]; unfold span, nb, b; lia).
    exact Hk'.
Qed.

Lemma free_next fuel h ix bs1 sz ns bs2 :
  wf_with h (bs1 ++ [(sz, true); (ns, false)] ++ bs2) ix ->
  last_alloc true bs1 = true ->
  outcome (free fuel (Some (1 + spans bs1 + 1)) h)
    (fuel <= theight (bigs ix))%nat
    (fun _ h' =>
       wf_with h' (bs1 ++ (sz - 1 + ns + 2, false) :: bs2)
         (iinsert (sz - 1 + ns + 2) (1 + spans bs1)
            (idelete ns (1 + spans bs1 + sz + 1) ix)) /\
       brk h' = brk h /\
       keeps h h' bs1 (1 + spans bs1 + spans [(sz, true); (ns, false)]) bs2).
Proof.
  intros Hwf Hpl.
  pose proof Hwf as (_ & Hco & _).
  destruct (ctx_start _ _ _ _ _ Hwf) as (pl & pm & Hctx & HM & Epl & Epm).
  set (b := 1 + spans bs1) in *.
  rewrite Hpl in Epl. subst pl.
  apply coalesced_app in Hco as [Hc1 Hco]. rewrite Hpl in Hco.
  cbn [coalesced app] in Hco.
  destruct Hco as (_ & _ & Hc2).
  cbn [last_alloc] in Epm. subst pm.
  cbn [lseg fblocks app spans] in HM, Hctx. unfold span in HM, Hctx.
  destruct HM as (Hb & Hnb & _).
  set (nb := b + (sz + 1)) in *.
  pose proof Hctx as (HP & HT & Hle & Hbrk & Hix & Hperm & Hz & Hsp & Hkp).
  pose proof (tail_seg_le _ _ _ _ HT) as Hhb.
  pose proof (lseg_le _ _ _ _ _ _ HP) as Hlo.
  destruct (blk_fields _ _ _ _ _ Hb) as (Hbs & Hbf & _ & Hbr).
  destruct (blk_fields _ _ _ _ _ Hnb) as (Hns & _ & _ & Hnr).
  pose proof Hnb as (Hnw & _ & _ & Hn2 & _).
  pose proof Hb as (Hbw & _ & Hbo).
  pose proof (blk_alloc_pos _ _ _ _ Hb) as Hb1.
  cbn [negb] in Hbf.
  unfold free, block_block.
  replace (b + 1 - 1) with b by lia.
  step. rewrite Hbf, Hbs.
  replace (b + sz + 1) with nb by (unfold nb; lia).
  step. rewrite Hnw, hdr_clear_pa by lia.
  step.
  set (h1 := upd nb (hdr ns false false) h).
  assert (Hctx1 : ctx h h1 ix bs1 b true (b + (sz + 1 + (ns + 2 + 0)))
                    false bs2 [(nb, ns)]).
  { apply ctx_store; [exact Hctx|unfold nb; lia|].
    repeat constructor; cbn [fst snd]; try lia.
    intros _. apply hdr_mod. lia. }
  eapply outcome_bind;
    [apply (coalesce_next fuel h1 ix bs1 bs2 b sz false (sz - 1) nb ns
              false _ Hctx1 Hc1 Hc2)|auto|].
  - destruct Hnb as (_ & Hr & He & H2 & Hf). unfold blk, h1.
    rewrite word_upd_eq, size_at_upd_ne by lia. auto.
  - unfold h1. rewrite word_upd_ne by (unfold nb; lia). exact Hbw.
  - exact Hbr.
  - reflexivity.
  - lia.
  - apply odd_pred_even, Hbo.
  - unfold nb. lia.
  - unfold nb. lia.
  - intros r h' (_ & Hwf' & Hb' & Hk'). apply outcome_Ok.
    replace (b + sz + 1) with nb by (unfold nb; lia).
    refine (conj Hwf' (conj _ Hk')). rewrite Hb'. apply brk_upd.
Qed.

Lemma free_none fuel h ix bs1 sz bs2 :
  wf_with h (bs1 ++ [(sz, true)] ++ bs2) ix ->
  last_alloc true bs1 = true -> head_alloc bs2 -> 3 <= sz ->
  outcome (free fuel (Some (1 + spans bs1 + 1)) h)
    (fuel <= theight (bigs ix))%nat
    (fun _ h' =>
       wf_with h' (bs1 ++ (sz - 1, false) :: bs2)
         (iinsert (sz - 1) (1 + spans bs1) ix) /\
       brk h' = brk h /\
       keeps h h' bs1 (1 + spans bs1 + spans [(sz, true)]) bs2).
Proof.
  intros Hwf Hpl Hhd Hsz.
  pose proof Hwf as (_ & Hco & _).
  destruct (ctx_start _ _ _ _ _ Hwf) as (pl & pm & Hctx & HM & Epl & Epm).
  set (b := 1 + spans bs1) in *.
  rewrite Hpl in Epl. subst pl.
  apply coalesced_app in Hco as [Hc1 Hco]. rewrite Hpl in Hco.
  cbn [coalesced app] in Hco.
  destruct Hco as (_ & Hc2).
  pose proof (coalesced_head_alloc _ _ Hc2 Hhd) as Hc2'.
  cbn [last_alloc] in Epm. subst pm.
  cbn [lseg fblocks app spans] in HM, Hctx. unfold span in HM, Hctx.
  destruct HM as (Hb & _).
  replace (b + (sz + 1 + 0)) with (b + sz + 1) in * by lia.
  set (nb := b + sz + 1) in *.
  pose proof Hctx as (HP & HT & Hle & Hbrk & Hix & Hperm & Hz & Hsp & Hkp).
  pose proof (tail_seg_le _ _ _ _ HT) as Hhb.
  pose proof (lseg_le _ _ _ _ _ _ HP) as Hlo.
  destruct (blk_fields _ _ _ _ _ Hb) as (Hbs & Hbf & _ & Hbr).
  pose proof Hb as (Hbw & _ & Hbo).
  destruct (tail_seg_hdr _ _ _ _ HT Hhd) as [Hnw Hnr].
  cbn [negb] in Hbf.
  unfold free, block_block.
  replace (b + 1 - 1) with b by lia.
  step. rewrite Hbf, Hbs. fold nb.
  step. rewrite Hnw, hdr_clear_pa by lia.
  step.
  set (h1 := upd nb (hdr (size_at h nb) true false) h).
  assert (Hctx1 : ctx h h1 ix bs1 b true nb false bs2 []).
  { apply (ctx_repa h ix bs1 b true nb true false bs2 [] Hctx).
    exact Hhd. }
  eapply outcome_bind;
    [apply (coalesce_none fuel h1 ix bs1 bs2 b sz false (sz - 1) nb
              Hctx1 Hc1 Hc2')|auto|].
  - unfold h1. rewrite word_upd_ne by (unfold nb; lia). exact Hbw.
  - exact Hbr.
  - reflexivity.
  - lia.
  - apply odd_pred_even, Hbo.
  - unfold nb. lia.
  - intros r h' (_ & Hwf' & Hb' & Hk'). apply outcome_Ok.
    refine (conj Hwf' (conj _ _)); [rewrite Hb'; apply brk_upd|].
    replace (b + spans [(sz, true)]) with nb
      by (cbn [spans]; unfold span, nb; lia).
    exact Hk'.
Qed.

(** What the layout says about a free block and the block after it. *)
Lemma wf_free_block h bs1 n bs2 ix :
  wf_with h (bs1 ++ (n, false) :: bs2) ix ->
  free_at h (1 + spans bs1) = true /\
  size_at h (1 + spans bs1) = n /\
  size_at h (1 + spans bs1 + n + 1) = n /\
  prev_free_at h (1 + spans bs1 + n + 2) = true.
Proof.
  intros (HT & _).
  apply tail_seg_app in HT as (pl & _ & HT).
  apply tail_seg_cons in HT as [Hb HT].
  destruct (blk_fields _ _ _ _ _ Hb) as (Hs & Hf & _).
  destruct Hb as (_ & _ & _ & _ & Hft).
  refine (conj Hf (conj Hs (conj Hft _))).
  unfold span in HT.
  replace (1 + spans bs1 + n + 2) with (1 + spans bs1 + (n + 2)) by lia.
  apply (tail_seg_prev_free _ _ _ _ HT).
Qed.

(** X8.  [free] of an allocated block of [sz] words whose previous block
    is free, of [ps] words, and whose next block is allocated or the
    epilogue: the call returns; the previous block leaves the index; one
    free block of [ps + (sz - 1) + 2] words at the address of the previous
    block takes the place of the two, with its footer written, and is in
    the index; the prev_alloc bit of the block that follows is cleared;
    the heap satisfies the invariant again. *)
Theorem free_merges_prev_neighbour
  (fuel : nat) (h : heap) (ix : index) (bs1 : list (Z * bool)) (ps sz : Z)
  (bs2 : list (Z * bool)) :
  wf_with h (bs1 ++ [(ps, false); (sz, true)] ++ bs2) ix ->
  head_alloc bs2 ->
  (theight (bigs ix) < fuel)%nat ->
  exists h',
    free fuel (Some (1 + spans bs1 + ps + 2 + 1)) h = Ok (tt, h') /\
    wf_with h' (bs1 ++ (ps + (sz - 1) + 2, false) :: bs2)
      (iinsert (ps + (sz - 1) + 2) (1 + spans bs1)
         (idelete ps (1 + spans bs1) ix)) /\
    brk h' = brk h /\
    free_at h' (1 + spans bs1) = true /\
    size_at h' (1 + spans bs1) = ps + (sz - 1) + 2 /\
    size_at h' (1 + spans bs1 + (ps + (sz - 1) + 2) + 1)
    = ps + (sz - 1) + 2 /\
    prev_free_at h' (1 + spans bs1 + (ps + (sz - 1) + 2) + 2) = true.
Proof.
  intros Hwf Hhd Hfuel.
  pose proof (free_prev fuel h ix bs1 ps sz bs2 Hwf Hhd) as Ho.
  destruct (outcome_enough _ _ _ Ho ltac:(lia))
    as ([] & h' & E & Hwf' & Hk & _).
  exists h'. split; [exact E|].
  replace (sz - 1 + ps + 2) with (ps + (sz - 1) + 2) in Hwf' by lia.
  refine (conj Hwf' (conj Hk _)).
  exact (wf_free_block _ _ _ _ _ Hwf').
Qed.

(** X9.  [free] of an allocated block of [sz] words whose previous block
    is allocated (or which is the first block) and whose next block is
    free, of [ns] words: the call returns; the next block leaves the
    index; one free block of [(sz - 1) + ns + 2] words at the address of
    the freed block takes the place of the two, with its footer written,
    and is in the index; the prev_alloc bit of the block that follows is
    0; the heap satisfies the invariant again. *)
Theorem free_merges_next_neighbour
  (fuel : nat) (h : heap) (ix : index) (bs1 : list (Z * bool)) (sz ns : Z)
  (bs2 : list (Z * bool)) :
  wf_with h (bs1 ++ [(sz, true); (ns, false)] ++ bs2) ix ->
  last_alloc true bs1 = true ->
  (theight (bigs ix) < fuel)%nat ->
  exists h',
    free fuel (Some (1 + spans bs1 + 1)) h = Ok (tt, h') /\
    wf_with h' (bs1 ++ ((sz - 1) + ns + 2, false) :: bs2)
      (iinsert ((sz - 1) + ns + 2) (1 + spans bs1)
         (idelete ns (1 + spans bs1 + sz + 1) ix)) /\
    brk h' = brk h /\
    free_at h' (1 + spans bs1) = true /\
    size_at h' (1 + spans bs1) = (sz - 1) + ns + 2 /\
    size_at h' (1 + spans bs1 + ((sz - 1) + ns + 2) + 1)
    = (sz - 1) + ns + 2 /\
    prev_free_at h' (1 + spans bs1 + ((sz - 1) + ns + 2) + 2) = true.
Proof.
  intros Hwf Hpl Hfuel.
  pose proof (free_next fuel h ix bs1 sz ns bs2 Hwf Hpl) as Ho.
  destruct (outcome_enough _ _ _ Ho ltac:(lia))
    as ([] & h' & E & Hwf' & Hk & _).
  exists h'. split; [exact E|].
  refine (conj Hwf' (conj Hk _)).
  exact (wf_free_block _ _ _ _ _ Hwf').
Qed.

(** X10.  [free] of an allocated block of [sz >= 3] words between two
    allocated blocks (the start of the heap and the epilogue count as
    allocated): the call returns; the block becomes a free block of
    [sz - 1] words, its last word being the footer, and enters the index;
    the prev_alloc bit of the block that follows is cleared; the heap
    satisfies the invariant again. *)
Theorem free_without_free_neighbours
  (fuel : nat) (h : heap) (ix : index) (bs1 : list (Z * bool)) (sz : Z)
  (bs2 : list (Z * bool)) :
  wf_with h (bs1 ++ [(sz, true)] ++ bs2) ix ->
  last_alloc true bs1 = true -> head_alloc bs2 -> 3 <= sz ->
  (theight (bigs ix) < fuel)%nat ->
  exists h',
    free fuel (Some (1 + spans bs1 + 1)) h = Ok (tt, h') /\
    wf_with h' (bs1 ++ (sz - 1, false) :: bs2)
      (iinsert (sz - 1) (1 + spans bs1) ix) /\
    brk h' = brk h /\
    free_at h' (1 + spans bs1) = true /\
    size_at h' (1 + spans bs1) = sz - 1 /\
    size_at h' (1 + spans bs1 + sz) = sz - 1 /\
    prev_free_at h' (1 + spans bs1 + sz + 1) = true.
Proof.
  intros Hwf Hpl Hhd Hsz Hfuel.
  pose proof (free_none fuel h ix bs1 sz bs2 Hwf Hpl Hhd Hsz) as Ho.
  destruct (outcome_enough _ _ _ Ho ltac:(lia))
    as ([] & h' & E & Hwf' & Hk & _).
  exists h'. split; [exact E|].
  refine (conj Hwf' (conj Hk _)).
  destruct (wf_free_block _ _ _ _ _ Hwf') as (H1 & H2 & H3 & H4).
  replace (1 + spans bs1 + (sz - 1) + 1) with (1 + spans bs1 + sz) in H3
    by lia.
  replace (1 + spans bs1 + (sz - 1) + 2) with (1 + spans bs1 + sz + 1) in H4
    by lia.
  auto.
Qed.

Lemma addrs_same_size h h' a pa pa' bs e e' pe pe' want c :
  lseg h a pa bs e pe -> lseg h' a pa' bs e' pe' -> c ∈ addrs want a bs ->
  size_at h' c = size_at h c.
Proof.
  revert a pa pa'.
  induction bs as [|[sz al] bs IH]; intros a pa pa' HL HL' Hc.
  - cbn [addrs] in Hc. inversion Hc.
  - cbn [lseg addrs] in *. destruct HL as [Hb HL], HL' as [Hb' HL'].
    apply elem_of_app in Hc as [Hc|Hc].
    + destruct (Bool.eqb al want); [|inversion Hc].
      apply list_elem_of_singleton in Hc as ->.
      destruct (blk_fields _ _ _ _ _ Hb) as (-> & _).
      destruct (blk_fields _ _ _ _ _ Hb') as (-> & _). reflexivity.
    + eapply IH; eassumption.
Qed.

Lemma wf_lseg_prefix h bs1 bs2 ix :
  wf_with h (bs1 ++ bs2) ix ->
  exists pm, lseg h 1 true bs1 (1 + spans bs1) pm /\
             tail_seg h (1 + spans bs1) pm bs2.
Proof. intros (HT & _). apply tail_seg_app in HT. exact HT. Qed.

Lemma tail_seg_lseg h a pa bs :
  tail_seg h a pa bs -> exists pe, lseg h a pa bs (brk h - 1) pe.
Proof. intros (pe & HL & _). eauto. Qed.

(** The allocated blocks before and after a stretch of the heap that is
    replaced by one free block of the same extent. *)
Lemma allocs_after_free h h' bs1 mid n bs2 ix ix' c :
  wf_with h (bs1 ++ mid ++ bs2) ix ->
  wf_with h' (bs1 ++ (n, false) :: bs2) ix' ->
  spans mid = n + 2 ->
  forall A B, allocs (1 + spans bs1) mid = A ++ c :: B -> A = [] -> B = [] ->
  (exists A' B', allocs 1 (bs1 ++ mid ++ bs2) = A' ++ c :: B' /\
                 allocs 1 (bs1 ++ (n, false) :: bs2) = A' ++ B') /\
  (forall d, d ∈ allocs 1 (bs1 ++ (n, false) :: bs2) ->
             size_at h' d = size_at h d).
Proof.
  intros Hwf Hwf' Hsp A B Hmid -> ->. cbn [app] in Hmid.
  destruct (wf_lseg_prefix _ _ _ _ Hwf) as (pm & HL1 & HT).
  destruct (wf_lseg_prefix _ _ _ _ Hwf') as (pm' & HL1' & HT').
  apply tail_seg_app in HT as (pm2 & _ & HT2).
  apply tail_seg_cons in HT' as (_ & HT2'). unfold span in HT2'.
  destruct (tail_seg_lseg _ _ _ _ HT2) as (pe & HL2).
  destruct (tail_seg_lseg _ _ _ _ HT2') as (pe' & HL2').
  rewrite Hsp in HL2.
  split.
  - exists (allocs 1 bs1), (allocs (1 + spans bs1 + (n + 2)) bs2).
    unfold allocs in *. rewrite !addrs_app, Hmid, Hsp.
    cbn [addrs Bool.eqb app span]. split; reflexivity.
  - intros d Hd. unfold allocs in Hd. rewrite addrs_app in Hd.
    cbn [addrs Bool.eqb app span] in Hd.
    apply elem_of_app in Hd as [Hd|Hd].
    + eapply addrs_same_size; [exact HL1|exact HL1'|exact Hd].
    + eapply addrs_same_size; [exact HL2|exact HL2'|exact Hd].
Qed.

Lemma keeps_after_free h h' bs1 n bs2 hi :
  keeps h h' bs1 hi bs2 -> hi = 1 + spans bs1 + (n + 2) ->
  forall x, apayload 1 (bs1 ++ (n, false) :: bs2) x -> word h' x = word h x.
Proof.
  intros Hk -> x Hx. apply Hk.
  apply apayload_app in Hx as [Hx|Hx]; [left; exact Hx|].
  cbn [apayload span] in Hx. destruct Hx as [[[=] _]|Hx].
  right. exact Hx.
Qed.

(** [free] of any allocated block of at least 3 words. *)
Lemma free_total fuel h bs ix p :
  wf_with h bs ix -> p - 1 ∈ allocs 1 bs -> 3 <= size_at h (p - 1) ->
  outcome (free fuel (Some p) h) (fuel <= theight (bigs ix))%nat
    (fun _ h' =>
       exists bs' ix',
         wf_with h' bs' ix' /\
         brk h' = brk h /\
         (exists A B, allocs 1 bs = A ++ (p - 1) :: B /\
                      allocs 1 bs' = A ++ B) /\
         (forall d, d ∈ allocs 1 bs' -> size_at h' d = size_at h d) /\
         (forall x, apayload 1 bs' x -> word h' x = word h x) /\
         (theight (bigs ix') <= S (theight (bigs ix)))%nat).
Proof.
  intros Hwf Hp Hsz.
  destruct (addrs_split _ _ _ _ Hp) as (l1 & sz & l2 & -> & Ep).
  assert (Ep' : p = 1 + spans l1 + 1) by lia. clear Ep. subst p.
  replace (1 + spans l1 + 1 - 1) with (1 + spans l1) in * by lia.
  assert (Hs : size_at h (1 + spans l1) = sz).
  { destruct (wf_lseg_prefix _ _ _ _ Hwf) as (pm & _ & HT).
    apply tail_seg_cons in HT as (Hb & _).
    destruct (blk_fields _ _ _ _ _ Hb) as (E & _). exact E. }
  rewrite Hs in Hsz.
  destruct (last_alloc true l1) eqn:Epl;
    destruct l2 as [|[ns [|]] l2].
  - (* both neighbours allocated, the block is the last one *)
    apply (outcome_weaken _ _ _ _ _
             (free_none fuel h ix l1 sz [] Hwf Epl I Hsz)); [auto|].
    intros [] h' (Hwf' & Hk & Hkp). eexists. eexists.
    destruct (allocs_after_free h h' l1 [(sz, true)] (sz - 1) [] ix _
                (1 + spans l1) Hwf Hwf' ltac:(cbn [spans span]; lia) [] []
                eq_refl eq_refl eq_refl) as [HA HS].
    refine (conj Hwf' (conj Hk (conj HA (conj HS (conj _ _))))).
    + apply (keeps_after_free _ _ _ _ _ _ Hkp). cbn [spans span]. lia.
    + apply theight_iinsert.
  - (* both neighbours allocated *)
    apply (outcome_weaken _ _ _ _ _
             (free_none fuel h ix l1 sz ((ns, true) :: l2) Hwf Epl I Hsz));
      [auto|].
    intros [] h' (Hwf' & Hk & Hkp). eexists. eexists.
    destruct (allocs_after_free h h' l1 [(sz, true)] (sz - 1)
                ((ns, true) :: l2) ix _ (1 + spans l1) Hwf Hwf'
                ltac:(cbn [spans span]; lia) [] []
                eq_refl eq_refl eq_refl) as [HA HS].
    refine (conj Hwf' (conj Hk (conj HA (conj HS (conj _ _))))).
    + apply (keeps_after_free _ _ _ _ _ _ Hkp). cbn [spans span]. lia.
    + apply theight_iinsert.
  - (* the next block is free *)
    change ((sz, true) :: (ns, false) :: l2)
      with ([(sz, true); (ns, false)] ++ l2) in *.
    apply (outcome_weaken _ _ _ _ _
             (free_next fuel h ix l1 sz ns l2 Hwf Epl)); [auto|].
    intros [] h' (Hwf' & Hk & Hkp). eexists. eexists.
    destruct (allocs_after_free h h' l1 [(sz, true); (ns, false)]
                (sz - 1 + ns + 2) l2 ix _ (1 + spans l1) Hwf Hwf'
                ltac:(cbn [spans span]; lia) [] []
                eq_refl eq_refl eq_refl) as [HA HS].
    refine (conj Hwf' (conj Hk (conj HA (conj HS (conj _ _))))).
    + apply (keeps_after_free _ _ _ _ _ _ Hkp). cbn [spans span]. lia.
    + pose proof (theight_iinsert (sz - 1 + ns + 2) (1 + spans l1)
                    (idelete ns (1 + spans l1 + sz + 1) ix)).
      pose proof (theight_idelete ns (1 + spans l1 + sz + 1) ix). lia.
  - (* the previous block is free, the block is the last one *)
    destruct (last_alloc_false l1 Epl) as (l0 & ps & ->).
    rewrite <- app_assoc in Hwf |- *. cbn [app] in Hwf |- *.
    rewrite spans_app in *. cbn [spans span] in *.
    replace (1 + (spans l0 + (ps + 2 + 0))) with (1 + spans l0 + (ps + 2))
      in * by lia.
    replace (1 + spans l0 + (ps + 2) + 1) with (1 + spans l0 + ps + 2 + 1)
      by lia.
    change ((ps, false) :: [(sz, true)])
      with ([(ps, false); (sz, true)] ++ []) in *.
    apply (outcome_weaken _ _ _ _ _
             (free_prev fuel h ix l0 ps sz [] Hwf I)); [auto|].
    intros [] h' (Hwf' & Hk & Hkp). eexists. eexists.
    destruct (allocs_after_free h h' l0 [(ps, false); (sz, true)]
                (sz - 1 + ps + 2) [] ix _ (1 + spans l0 + (ps + 2)) Hwf Hwf'
                ltac:(cbn [spans span]; lia) [] []
                eq_refl eq_refl eq_refl) as [HA HS].
    refine (conj Hwf' (conj Hk (conj HA (conj HS (conj _ _))))).
    + apply (keeps_after_free _ _ _ _ _ _ Hkp). cbn [spans span]. lia.
    + pose proof (theight_iinsert (sz - 1 + ps + 2) (1 + spans l0)
                    (idelete ps (1 + spans l0) ix)).
      pose proof (theight_idelete ps (1 + spans l0) ix). lia.
  - (* the previous block is free *)
    destruct (last_alloc_false l1 Epl) as (l0 & ps & ->).
    rewrite <- app_assoc in Hwf |- *. cbn [app] in Hwf |- *.
    rewrite spans_app in *. cbn [spans span] in *.
    replace (1 + (spans l0 + (ps + 2 + 0))) with (1 + spans l0 + (ps + 2))
      in * by lia.
    replace (1 + spans l0 + (ps + 2) + 1) with (1 + spans l0 + ps + 2 + 1)
      by lia.
    change ((ps, false) :: (sz, true) :: (ns, true) :: l2)
      with ([(ps, false); (sz, true)] ++ (ns, true) :: l2) in *.
    apply (outcome_weaken _ _ _ _ _
             (free_prev fuel h ix l0 ps sz ((ns, true) :: l2) Hwf I));
      [auto|].
    intros [] h' (Hwf' & Hk & Hkp). eexists. eexists.
    destruct (allocs_after_free h h' l0 [(ps, false); (sz, true)]
                (sz - 1 + ps + 2) ((ns, true) :: l2) ix _
                (1 + spans l0 + (ps + 2)) Hwf Hwf'
                ltac:(cbn [spans span]; lia) [] []
                eq_refl eq_refl eq_refl) as [HA HS].
    refine (conj Hwf' (conj Hk (conj HA (conj HS (conj _ _))))).
    + apply (keeps_after_free _ _ _ _ _ _ Hkp). cbn [spans span]. lia.
    + pose proof (theight_iinsert (sz - 1 + ps + 2) (1 + spans l0)
                    (idelete ps (1 + spans l0) ix)).
      pose proof (theight_idelete ps (1 + spans l0) ix). lia.
  - (* both neighbours are free *)
    destruct (last_alloc_false l1 Epl) as (l0 & ps & ->).
    rewrite <- app_assoc in Hwf |- *. cbn [app] in Hwf |- *.
    rewrite spans_app in *. cbn [spans span] in *.
    replace (1 + (spans l0 + (ps + 2 + 0))) with (1 + spans l0 + (ps + 2))
      in * by lia.
    replace (1 + spans l0 + (ps + 2) + 1) with (1 + spans l0 + ps + 2 + 1)
      by lia.
    change ((ps, false) :: (sz, true) :: (ns, false) :: l2)
      with ([(ps, false); (sz, true); (ns, false)] ++ l2) in *.
    apply (outcome_weaken _ _ _ _ _
             (free_both fuel h ix l0 ps sz ns l2 Hwf)); [auto|].
    intros [] h' (Hwf' & Hk & Hkp). eexists. eexists.
    destruct (allocs_after_free h h' l0 [(ps, false); (sz, true); (ns, false)]
                (sz - 1 + ps + ns + 4) l2 ix _
                (1 + spans l0 + (ps + 2)) Hwf Hwf'
                ltac:(cbn [spans span]; lia) [] []
                eq_refl eq_refl eq_refl) as [HA HS].
    refine (conj Hwf' (conj Hk (conj HA (conj HS (conj _ _))))).
    + apply (keeps_after_free _ _ _ _ _ _ Hkp). cbn [spans span]. lia.
    + pose proof (theight_iinsert (sz - 1 + ps + ns + 4) (1 + spans l0)
                    (idelete ns (1 + spans l0 + ps + 2 + sz + 1)
                       (idelete ps (1 + spans l0) ix))).
      pose proof (theight_idelete ns (1 + spans l0 + ps + 2 + sz + 1)
                    (idelete ps (1 + spans l0) ix)).
      pose proof (theight_idelete ps (1 + spans l0) ix). lia.
Qed.

(** The words of the user's in a block of the layout. *)
Lemma kept_blocks h h' bs ix :
  wf_with h' bs ix ->
  (forall d, d ∈ allocs 1 bs -> size_at h' d = size_at h d) ->
  (forall x, apayload 1 bs x -> word h' x = word h x) ->
  forall d x, d ∈ allocs 1 bs -> d < x <= d + size_at h d ->
              word h' x = word h x.
Proof.
  intros ((pe & HL & _) & _) HS HK d x Hd Hx. apply HK.
  apply (apayload_alloc _ _ _ _ _ _ _ _ HL Hd). rewrite (HS d Hd). exact Hx.
Qed.

(** X11.  [free] keeps the invariant: for the payload pointer of any
    allocated block of at least 3 words in a heap that satisfies the
    invariant, [free] returns and leaves a heap that satisfies the
    invariant, with the break where it was; the allocated blocks are the
    ones from before without the freed block, in the same order and with
    the sizes they had, and no word of theirs after the header is
    written. *)
Theorem free_keeps_invariant
  (fuel : nat) (h : heap) (bs : list (Z * bool)) (ix : index) (p : addr) :
  wf_with h bs ix -> p - 1 ∈ allocs 1 bs -> 3 <= size_at h (p - 1) ->
  (theight (bigs ix) < fuel)%nat ->
  exists h' bs' ix',
    free fuel (Some p) h = Ok (tt, h') /\
    wf_with h' bs' ix' /\
    brk h' = brk h /\
    (exists A B, allocs 1 bs = A ++ (p - 1) :: B /\ allocs 1 bs' = A ++ B) /\
    (forall d, d ∈ allocs 1 bs' -> size_at h' d = size_at h d) /\
    (forall d x, d ∈ allocs 1 bs' -> d < x <= d + size_at h d ->
                 word h' x = word h x).
Proof.
  intros Hwf Hp Hsz Hfuel.
  destruct (outcome_enough _ _ _ (free_total fuel h bs ix p Hwf Hp Hsz)
              ltac:(lia))
    as ([] & h' & E & bs' & ix' & Hwf' & Hk & HA & HS & HK & _).
  exists h', bs', ix'.
  refine (conj E (conj Hwf' (conj Hk (conj HA (conj HS _))))).
  exact (kept_blocks h h' bs' ix' Hwf' HS HK).
Qed.

(** ** [place], [extend_heap], [mm_init] *)

(** X12.  [place(block, awords)] on a free block of [cw] words for an odd
    [awords]: the block leaves the index; when [cw >= awords + 3] it is
    split into an allocated block of [awords] words and a free block of
    [cw - awords - 1] words, which enters the index; otherwise the whole
    block becomes an allocated block of [cw + 1] words (the footer word
    joins the payload) and the prev_alloc bit of the next block is set.
    The heap satisfies the invariant again, and no word after the header
    of an allocated block is written. *)
Theorem place_splits_or_takes_whole
  (fuel : nat) (h : heap) (ix : index) (bs1 : list (Z * bool)) (cw : Z)
  (bs2 : list (Z * bool)) (aw : Z) :
  wf_with h (bs1 ++ [(cw, false)] ++ bs2) ix ->
  Z.odd aw = true -> 0 <= aw -> aw + 3 < 2 ^ 32 ->
  (theight (bigs ix) < fuel)%nat ->
  exists h',
    place fuel (1 + spans bs1) aw h = Ok (tt, h') /\
    brk h' = brk h /\
    (forall x, apayload 1 (bs1 ++ [(cw, false)] ++ bs2) x ->
               word h' x = word h x) /\
    if aw + 3 <=? cw
    then wf_with h' (bs1 ++ [(aw, true); (cw - aw - 1, false)] ++ bs2)
           (iinsert (cw - aw - 1) (1 + spans bs1 + aw + 1)
              (idelete cw (1 + spans bs1) ix))
    else wf_with h' (bs1 ++ [(cw + 1, true)] ++ bs2)
           (idelete cw (1 + spans bs1) ix).
Proof.
  intros Hwf Hodd Haw Haw3 Hfuel.
  destruct (outcome_enough _ _ _
              (place_spec fuel h ix bs1 cw bs2 aw Hwf Hodd Haw Haw3)
              ltac:(lia)) as ([] & h' & E & Hk & Hkp & Hr).
  exists h'. refine (conj E (conj Hk (conj _ Hr))).
  intros x Hx.
  destruct (keeps_around _ _ _ _ _ _ Hkp Hx) as [Hm|Hm]; [|exact Hm].
  cbn [apayload] in Hm. destruct Hm as [[[=] _]|[]].
Qed.

(** X13.  [extend_heap(words)] for an odd [words] (at least 3 when the
    last block is allocated) whose byte count fits an [int], on a heap
    that satisfies the invariant: when the oracle has no room for
    [words + 1] more words the result is [NULL] and nothing has changed;
    otherwise the break moves by [words + 1] words, the old epilogue
    becomes the header of a free block of [words - 1] words, or, when the
    last block was free, that block grows by [words + 1] words; the block
    is in the index, its address is returned, a new epilogue ends the
    heap, and the invariant holds again; no word after the header of an
    allocated block is written. *)
Theorem extend_heap_appends_free_block
  (fuel : nat) (h : heap) (bs : list (Z * bool)) (ix : index) (ewords : Z) :
  wf_with h bs ix -> max_brk <= 2 ^ 30 ->
  Z.odd ewords = true -> 1 <= ewords -> ewords + 1 < 2 ^ 29 ->
  (last_alloc true bs = true -> 3 <= ewords) ->
  (theight (bigs ix) < fuel)%nat ->
  (max_brk < brk h + (ewords + 1) ->
   extend_heap fuel ewords h = Ok (None, h)) /\
  (brk h + (ewords + 1) <= max_brk ->
   exists h' bs0 cw ix',
     extend_heap fuel ewords h = Ok (Some (1 + spans bs0), h') /\
     wf_with h' (bs0 ++ [(cw, false)]) ix' /\
     brk h' = brk h + (ewords + 1) /\
     (forall x, apayload 1 bs x -> word h' x = word h x) /\
     ((last_alloc true bs = true /\ bs0 = bs /\ cw = ewords - 1 /\
       ix' = iinsert cw (1 + spans bs0) ix) \/
      (exists L, bs = bs0 ++ [(L, false)] /\ cw = L + ewords + 1 /\
                 ix' = iinsert cw (1 + spans bs0)
                         (idelete L (1 + spans bs0) ix)))).
Proof.
  intros Hwf Hmax Hodd Hew1 Hew2 Hlast Hfuel.
  destruct (outcome_enough _ _ _
              (extend_heap_total fuel h bs ix ewords Hwf Hmax Hodd Hew1 Hew2
                 Hlast) ltac:(lia)) as (r & h' & E & Hr).
  destruct (decide (max_brk < brk h + (ewords + 1))) as [Hd|Hd].
  - destruct Hr as [-> ->]. split; [auto|intros; lia].
  - destruct Hr as (bs0 & cw & ix' & -> & Hr). split; [intros; lia|].
    intros _. exists h', bs0, cw, ix'. auto.
Qed.

(** The heap of [mm_init] before its call of [extend_heap]: prologue and
    epilogue. *)
Definition empty_index : index := Index (replicate 6 []) Leaf.

Lemma wf_prologue_epilogue h :
  brk h = 2 -> word h 1 = hdr 0 true true ->
  seg_list h = replicate 6 None -> seg_root h = None ->
  wf_with h [] empty_index.
Proof.
  intros Hk Hw Hsl Hsr.
  refine (conj _ (conj I (conj _ (conj _ _)))).
  - apply tail_seg_nil. rewrite Hk. auto.
  - refine (conj _ (conj eq_refl (conj _ (conj Hsr (conj I (conj I _)))))).
    + rewrite Hsl. reflexivity.
    + intros i l Hl. cbn [empty_index smalls] in Hl.
      apply lookup_replicate in Hl as [-> _]. split; [exact I|constructor].
    + constructor.
  - reflexivity.
  - rewrite Hk. lia.
Qed.

(** The heap of [mm_init] when it calls [extend_heap]. *)
Definition prologue_epilogue : heap :=
  upd (0 + 1) (hdr 0 true true)
    (upd 0 (hdr 0 true true)
       (upd (0 + 1) 0
          (upd 0 0
             (set_brk (0 + 2)
                (set_seg_root None
                   (set_seg_list (replicate (Z.to_nat SEG_LIST_SIZE) None)
                      (set_brk (-12 + 12) arena))))))).

Lemma mm_init_prefix fuel :
  2 <= max_brk ->
  mm_init fuel
  = (let* b := extend_heap fuel CHUNKSIZE in
     match b with Some _ => ret 0 | None => ret (-1) end) prologue_epilogue.
Proof.
  intros Hmax.
  unfold mm_init, mm_init_from.
  unfold bind at 1, mem_sbrk at 1.
  change (brk arena) with (-12).
  change (SEG_LIST_SIZE * 8 / WSIZE) with 12.
  change (SEG_LIST_SIZE * 8) with 48.
  rewrite decide_False by lia.
  cbv beta iota.
  unfold bind at 1. unfold bind at 1. unfold root_set at 1.
  unfold bind at 1, mem_sbrk at 1.
  change (2 * WSIZE / WSIZE) with 2. change (2 * WSIZE) with 8.
  set (ha := set_seg_root None _).
  change (brk ha) with 0.
  rewrite decide_False by lia.
  cbv beta iota.
  set (hb := set_brk (0 + 2) ha).
  assert (Hkb : brk hb = 2) by reflexivity.
  step. step.
  set (hc := upd (0 + 1) 0 (upd 0 0 hb)).
  assert (Hkc : brk hc = 2) by reflexivity.
  assert (Hc0 : word hc 0 = 0) by (unfold hc; wsimp; reflexivity).
  rewrite (bind_Ok _ _ _ _ _
             (block_mark_allo_eq 0 ALLOCATED hc ltac:(lia) ltac:(lia))).
  assert (Hs0 : size_at hc 0 = 0) by (unfold size_at; rewrite Hc0; reflexivity).
  rewrite Hs0. change (ALLOCATED =? 0) with true.
  set (hd := upd 0 (hdr 0 true true) hc).
  assert (Hkd : brk hd = 2) by reflexivity.
  assert (Hd1 : word hd (0 + 1) = 0) by (unfold hd, hc; wsimp; reflexivity).
  rewrite (bind_Ok _ _ _ _ _
             (block_mark_allo_eq (0 + 1) ALLOCATED hd ltac:(lia) ltac:(lia))).
  assert (Hs1 : size_at hd (0 + 1) = 0)
    by (unfold size_at; rewrite Hd1; reflexivity).
  rewrite Hs1. change (ALLOCATED =? 0) with true.
  reflexivity.
Qed.

Lemma wf_prologue_epilogue_heap : wf_with prologue_epilogue [] empty_index.
Proof. apply wf_prologue_epilogue; reflexivity. Qed.

(** X14.  [mm_init] with room for 68 words beyond [heap_listp]: it
    returns 0; the heap is the prologue word, one free block of
    [CHUNKSIZE - 1 = 64] words at word 1, which is the root of the tree,
    and the epilogue; the six small classes are empty; the invariant
    holds. *)
Theorem mm_init_establishes_invariant (fuel : nat) :
  68 <= max_brk <= 2 ^ 30 -> (0 < fuel)%nat ->
  exists h,
    mm_init fuel = Ok (0, h) /\
    wf_with h [(CHUNKSIZE - 1, false)]
      (Index (replicate 6 []) (Node Leaf (CHUNKSIZE - 1) 1 [] Leaf)) /\
    brk h = 68 /\
    seg_list h = replicate 6 None /\ seg_root h = Some 1.
Proof.
  intros Hmax Hfuel.
  rewrite mm_init_prefix by lia.
  assert (Hk1 : brk prologue_epilogue = 2) by reflexivity.
  destruct (outcome_enough _ _ _
              (extend_heap_total fuel prologue_epilogue [] empty_index
                 CHUNKSIZE wf_prologue_epilogue_heap
                 ltac:(lia) eq_refl ltac:(unfold CHUNKSIZE; lia)
                 ltac:(unfold CHUNKSIZE; lia)
                 ltac:(unfold CHUNKSIZE; lia))
              ltac:(cbn; lia)) as (r & h' & E & Hr).
  rewrite (bind_Ok _ _ _ _ _ E).
  rewrite decide_False in Hr by (rewrite Hk1; unfold CHUNKSIZE; lia).
  destruct Hr as (bs0 & cw & ix' & -> & Hwf' & Hk' & _ & [Hc|Hc]).
  - destruct Hc as (_ & -> & -> & ->).
    exists h'. split; [reflexivity|].
    refine (conj Hwf' (conj _ _)).
    + rewrite Hk', Hk1. reflexivity.
    + destruct Hwf' as (_ & _ & (Hsl & _ & _ & Hsr & _) & _).
      rewrite Hsl, Hsr. split; reflexivity.
  - destruct Hc as (L & Hc & _). destruct bs0; discriminate Hc.
Qed.

(** X15.  [mm_init] without room for the first chunk: with fewer than
    2 words beyond [heap_listp] the second [mem_sbrk] fails, with fewer
    than 68 [extend_heap] does; [mm_init] returns -1, and in the second
    case the heap is left with the prologue and the epilogue.  With no
    room for [seg_list] itself the unchecked first [mem_sbrk] makes the
    clearing loop write through [(void * )-1]. *)
Theorem mm_init_fails_without_room (fuel : nat) :
  max_brk < 68 -> (0 < fuel)%nat ->
  (max_brk < 0 -> mm_init fuel = Fault) /\
  (0 <= max_brk < 2 -> exists h, mm_init fuel = Ok (-1, h) /\ brk h = 0) /\
  (2 <= max_brk -> mm_init fuel = Ok (-1, prologue_epilogue)).
Proof.
  intros Hmax Hfuel. repeat split.
  - intros Hneg. unfold mm_init, mm_init_from.
    unfold bind at 1, mem_sbrk at 1.
    change (brk arena) with (-12).
    change (SEG_LIST_SIZE * 8 / WSIZE) with 12.
    rewrite decide_True by lia. reflexivity.
  - intros Hsmall. unfold mm_init, mm_init_from.
    unfold bind at 1, mem_sbrk at 1.
    change (brk arena) with (-12).
    change (SEG_LIST_SIZE * 8 / WSIZE) with 12.
    change (SEG_LIST_SIZE * 8) with 48.
    rewrite decide_False by lia.
    cbv beta iota.
    unfold bind at 1. unfold bind at 1. unfold root_set at 1.
    unfold bind at 1, mem_sbrk at 1.
    change (2 * WSIZE / WSIZE) with 2. change (2 * WSIZE) with 8.
    set (ha := set_seg_root None _).
    change (brk ha) with 0.
    rewrite decide_True by lia.
    eexists. split; reflexivity.
  - intros Hroom. rewrite mm_init_prefix by lia.
    assert (Hk1 : brk prologue_epilogue = 2) by reflexivity.
    destruct (outcome_enough _ _ _
                (extend_heap_total fuel prologue_epilogue [] empty_index
                   CHUNKSIZE wf_prologue_epilogue_heap
                   ltac:(lia) eq_refl ltac:(unfold CHUNKSIZE; lia)
                   ltac:(unfold CHUNKSIZE; lia)
                   ltac:(unfold CHUNKSIZE; lia))
                ltac:(cbn; lia)) as (r & h' & E & Hr).
    rewrite (bind_Ok _ _ _ _ _ E).
    rewrite decide_True in Hr by (rewrite Hk1; unfold CHUNKSIZE; lia).
    destruct Hr as [-> ->]. reflexivity.
Qed.

(** ** [malloc] *)

Lemma adjust_small size :
  0 < size <= 2 ^ 30 ->
  3 <= adjust size <= 2 ^ 28 + 3 /\ Z.odd (adjust size) = true /\
  size <= 4 * adjust size.
Proof.
  intros Hs.
  pose proof (odd_of_mod2 _ (adjust_odd size ltac:(lia))) as Ho.
  destruct (adjust_covers size ltac:(lia)) as [Hc _].
  refine (conj _ (conj Ho Hc)).
  clear Ho Hc. rewrite adjust_wraps by lia. unfold awords_spec, u32.
  clear junk max_brk heap_listp.
  destruct (Z.leb_spec size 12); [rewrite Z.mod_small; lia|].
  assert (0 <= (size - 12 + 7) / 8 <= 2 ^ 27).
  { Z.div_mod_to_equations. lia. }
  rewrite Z.mod_small; lia.
Qed.

Lemma prefix_sizes h h' bs1 X Y ix ix' d :
  wf_with h (bs1 ++ X) ix -> wf_with h' (bs1 ++ Y) ix' ->
  d ∈ allocs 1 bs1 -> size_at h' d = size_at h d.
Proof.
  intros Hwf Hwf' Hd.
  destruct (wf_lseg_prefix _ _ _ _ Hwf) as (pm & HL & _).
  destruct (wf_lseg_prefix _ _ _ _ Hwf') as (pm' & HL' & _).
  eapply addrs_same_size; eassumption.
Qed.

Lemma suffix_sizes h h' X Y bs2 ix ix' d :
  wf_with h (X ++ bs2) ix -> wf_with h' (Y ++ bs2) ix' ->
  spans X = spans Y ->
  d ∈ allocs (1 + spans X) bs2 -> size_at h' d = size_at h d.
Proof.
  intros Hwf Hwf' Hsp Hd.
  destruct (wf_lseg_prefix _ _ _ _ Hwf) as (pm & _ & HT).
  destruct (wf_lseg_prefix _ _ _ _ Hwf') as (pm' & _ & HT').
  destruct (tail_seg_lseg _ _ _ _ HT) as (pe & HL).
  destruct (tail_seg_lseg _ _ _ _ HT') as (pe' & HL').
  rewrite <- Hsp in HL'.
  eapply addrs_same_size; eassumption.
Qed.

Lemma allocs_mid a bs1 mid bs2 :
  allocs a (bs1 ++ mid ++ bs2)
  = allocs a bs1 ++ allocs (a + spans bs1) mid
      ++ allocs (a + spans bs1 + spans mid) bs2.
Proof. unfold allocs. rewrite !addrs_app. reflexivity. Qed.

(** [place] seen from the allocated blocks. *)
Lemma place_allocates fuel h bs1 cw bs2 ix aw :
  wf_with h (bs1 ++ [(cw, false)] ++ bs2) ix ->
  Z.odd aw = true -> 0 <= aw -> aw + 3 < 2 ^ 32 -> aw - 1 <= cw ->
  outcome (place fuel (1 + spans bs1) aw h) (fuel <= theight (bigs ix))%nat
    (fun _ h' =>
       exists bs' ix',
         wf_with h' bs' ix' /\ brk h' = brk h /\
         allocs 1 bs'
         = allocs 1 bs1 ++ (1 + spans bs1)
             :: allocs (1 + spans bs1 + (cw + 2)) bs2 /\
         (1 + spans bs1
          ∉ allocs 1 bs1 ++ allocs (1 + spans bs1 + (cw + 2)) bs2) /\
         (forall d, d ∈ allocs 1 bs1 ++ allocs (1 + spans bs1 + (cw + 2)) bs2 ->
                    size_at h' d = size_at h d) /\
         aw <= size_at h' (1 + spans bs1) <= aw + 2 /\
         (forall x, apayload 1 (bs1 ++ [(cw, false)] ++ bs2) x ->
                    word h' x = word h x) /\
         (theight (bigs ix') <= S (theight (bigs ix)))%nat).
Proof.
  intros Hwf Hodd Haw Haw3 Hfit.
  assert (Hfresh : 1 + spans bs1
                   ∉ allocs 1 bs1 ++ allocs (1 + spans bs1 + (cw + 2)) bs2).
  { destruct Hwf as ((pe & HL & _) & _).
    apply (addrs_mid_fresh _ _ _ _ _ _ _ _ _ true HL). }
  assert (Hcw : Z.even cw = true).
  { destruct (wf_lseg_prefix _ _ _ _ Hwf) as (pm & _ & HT).
    apply tail_seg_cons in HT as [(_ & _ & He & _) _]. exact He. }
  eapply outcome_weaken;
    [apply (place_spec fuel h ix bs1 cw bs2 aw Hwf Hodd Haw Haw3)|auto|].
  intros [] h' (Hk & Hkp & Hr). cbv beta in *.
  assert (Hpay : forall x, apayload 1 (bs1 ++ [(cw, false)] ++ bs2) x ->
                           word h' x = word h x).
  { intros x Hx.
    destruct (keeps_around _ _ _ _ _ _ Hkp Hx) as [Hm|Hm]; [|exact Hm].
    cbn [apayload] in Hm. destruct Hm as [[[=] _]|[]]. }
  assert (Hsz : forall mid ix',
            wf_with h' (bs1 ++ mid ++ bs2) ix' -> spans mid = cw + 2 ->
            forall d, d ∈ allocs 1 bs1 ++ allocs (1 + spans bs1 + (cw + 2)) bs2 ->
                      size_at h' d = size_at h d).
  { intros mid ix' Hwf' Hsp d Hd. apply elem_of_app in Hd as [Hd|Hd].
    - eapply prefix_sizes; eassumption.
    - rewrite !app_assoc in Hwf, Hwf'.
      eapply (suffix_sizes h h' _ _ bs2 _ _ d Hwf Hwf').
      + rewrite !spans_app, Hsp. cbn [spans span]. lia.
      + rewrite spans_app. cbn [spans span].
        replace (1 + (spans bs1 + (cw + 2 + 0)))
          with (1 + spans bs1 + (cw + 2)) by lia.
        exact Hd. }
  assert (Hhd : forall n al rest ix',
            wf_with h' (bs1 ++ (n, al) :: rest) ix' ->
            size_at h' (1 + spans bs1) = n).
  { intros n al rest ix' Hwf'.
    destruct (wf_lseg_prefix _ _ _ _ Hwf') as (pm & _ & HT).
    apply tail_seg_cons in HT as [Hb _].
    destruct (blk_fields _ _ _ _ _ Hb) as (E & _). exact E. }
  revert Hr. destruct (Z.leb_spec (aw + 3) cw) as [Hsplit|Hwhole]; intros Hr.
  - eexists. eexists.
    refine (conj Hr (conj Hk (conj _ (conj Hfresh (conj _ (conj _
              (conj Hpay _))))))).
    + rewrite allocs_mid. unfold allocs. cbn [addrs Bool.eqb app spans span].
      f_equal. f_equal. f_equal. lia.
    + apply (Hsz _ _ Hr). cbn [spans span]. lia.
    + rewrite (Hhd _ true _ _ Hr). lia.
    + etransitivity; [apply theight_iinsert|].
      apply le_n_S, theight_idelete.
  - eexists. eexists.
    refine (conj Hr (conj Hk (conj _ (conj Hfresh (conj _ (conj _
              (conj Hpay _))))))).
    + rewrite allocs_mid. unfold allocs. cbn [addrs Bool.eqb app spans span].
      f_equal. f_equal. f_equal. lia.
    + apply (Hsz _ _ Hr). cbn [spans span]. lia.
    + rewrite (Hhd _ true _ _ Hr).
      apply Z.even_spec in Hcw as [m ->]. apply Z.odd_spec in Hodd as [n ->].
      lia.
    + etransitivity; [apply theight_idelete|]. lia.
Qed.

(** What [malloc] leaves behind when it returns a block. *)
Definition allocated_in (h h' : heap) (bs : list (Z * bool)) (ix : index)
  (p : addr) (n : Z) : Prop :=
  exists bs' ix',
    wf_with h' bs' ix' /\
    brk h <= brk h' <= Z.max (brk h) max_brk /\
    (exists A B, allocs 1 bs' = A ++ (p - 1) :: B /\ allocs 1 bs = A ++ B) /\
    (p - 1 ∉ allocs 1 bs) /\
    (forall d, d ∈ allocs 1 bs -> size_at h' d = size_at h d) /\
    n <= size_at h' (p - 1) <= n + 2 /\
    (forall x, apayload 1 bs x -> word h' x = word h x) /\
    (theight (bigs ix') <= S (S (theight (bigs ix))))%nat.

(** The number of words [malloc] asks [extend_heap] for. *)
Definition ewords_of (h : heap) (aw : Z) : Z :=
  if prev_free_at h (brk h - 1) then aw - size_at h (brk h - 2) - 2 else aw.

Lemma malloc_miss fuel h bs ix size :
  wf_with h bs ix -> max_brk <= 2 ^ 30 -> 0 < size <= 2 ^ 30 ->
  (forall c, c ∈ frees 1 bs -> size_at h c < adjust size - 1) ->
  outcome (malloc fuel size h) (fuel <= S (theight (bigs ix)))%nat
    (fun r h' =>
       if decide (max_brk < brk h + (ewords_of h (adjust size) + 1))
       then r = None /\ h' = h
       else exists p, r = Some p /\ allocated_in h h' bs ix p (adjust size) /\
                      brk h' = brk h + (ewords_of h (adjust size) + 1)).
Proof.
  intros Hwf Hmax Hsize Hmiss.
  destruct (adjust_small size Hsize) as (Haw & Hodd & Hcov).
  pose proof Hwf as (HT & Hco & Hix & Hperm & Hbrk).
  pose proof (wf_spaced _ _ _ Hwf) as Hsp.
  unfold malloc.
  change (bind epi_block ?k h) with (k (brk h - 1) h). cbv beta.
  rewrite (proj2 (Z.eqb_neq size 0)) by lia.
  set (aw := adjust size) in *.
  assert (Hw : u32 (aw - 1) = aw - 1) by (unfold u32; rewrite Z.mod_small; lia).
  rewrite Hw.
  assert (Hwe : Z.even (aw - 1) = true) by (apply odd_pred_even, Hodd).
  eapply outcome_bind;
    [apply (find_fit_spec fuel h ix (aw - 1) Hix Hsp ltac:(lia) Hwe)|lia|].
  intros r h1 [-> ->].
  pose proof (ifind_best h ix (aw - 1) Hix ltac:(lia) Hwe) as Hbest.
  destruct (ifind (aw - 1) ix) as [b|].
  { destruct Hbest as (Hb & Hbw & _). rewrite Hperm in Hb.
    specialize (Hmiss b Hb). lia. }
  clear Hbest.
  replace (if aw >? CHUNKSIZE then aw else aw) with aw
    by (destruct (aw >? CHUNKSIZE); reflexivity).
  pose proof HT as (pe & HL & He).
  pose proof (lseg_le _ _ _ _ _ _ HL) as Hle1.
  pose proof (lseg_last _ _ _ _ _ _ HL) as Epe.
  pose proof (prev_free_at_hdr _ _ _ _ _ He ltac:(lia)) as Hpf.
  step. rewrite Hpf.
  assert (Hext : exists ewords,
            (if negb pe
             then let* last0 := block_prev (brk h - 1) in
                  let* last_size := block_size last0 in
                  ret (u32 (u32 (aw - last_size) - 2))
             else ret aw) h = Ok (ewords, h) /\
            Z.odd ewords = true /\ 1 <= ewords <= aw /\
            (last_alloc true bs = true -> ewords = aw) /\
            (forall bs0 L, bs = bs0 ++ [(L, false)] ->
                           L + ewords + 1 = aw - 1) /\
            ewords = ewords_of h aw).
  { destruct pe; cbn [negb].
    - exists aw.
      refine (conj eq_refl (conj Hodd (conj _ (conj _ (conj _ _))))).
      + lia.
      + auto.
      + intros bs0 L ->. rewrite last_alloc_app in Epe. discriminate Epe.
      + unfold ewords_of. rewrite Hpf. reflexivity.
    - destruct (last_free_block h bs ix Hwf Hpf)
        as (bs0 & L & -> & Ebrk & Hfoot & Hsz0 & HLe & HL2 & Hsp0).
      assert (HLw : L < aw - 1).
      { rewrite <- Hsz0. apply Hmiss. unfold frees.
        apply (addrs_mid false 1 bs0 L []). }
      assert (HL3 : L <= aw - 3).
      { apply Z.even_spec in HLe as [m Hm].
        apply Z.odd_spec in Hodd as [n Hn]. lia. }
      exists (aw - L - 2).
      rewrite (bind_Ok _ _ _ _ _ (block_prev_eq (brk h - 1) h ltac:(lia))).
      replace (brk h - 1 - 1) with (brk h - 2) by lia. rewrite Hfoot.
      replace (brk h - 1 - L - 2) with (1 + spans bs0) by lia.
      rewrite (bind_Ok _ _ _ _ _
                 (block_size_eq (1 + spans bs0) h ltac:(lia))).
      rewrite Hsz0. unfold ret, u32.
      rewrite (Z.mod_small (aw - L)) by lia.
      rewrite (Z.mod_small (aw - L - 2)) by lia.
      refine (conj eq_refl (conj _ (conj _ (conj _ (conj _ _))))).
      + replace (aw - L - 2) with (aw - (L + 2)) by lia.
        rewrite Z.odd_sub, Hodd, Z.odd_add, <- Z.negb_even, HLe.
        reflexivity.
      + lia.
      + rewrite last_alloc_app. discriminate.
      + intros bs0' L' E. apply app_inj_tail in E as [_ [= ->]]. lia.
      + unfold ewords_of. rewrite Hpf, Hfoot. reflexivity. }
  destruct Hext as (ewords & Eew & Hewo & Hew & Hewa & Hewf & Eewo).
  rewrite <- Eewo.
  rewrite (bind_Ok _ _ _ _ _ Eew).
  eapply outcome_bind;
    [apply (extend_heap_total fuel h bs ix ewords Hwf Hmax Hewo
              ltac:(lia) ltac:(lia))|lia|].
  { intros Hla. rewrite (Hewa Hla). lia. }
  intros r h1 Hr.
  destruct (decide (max_brk < brk h + (ewords + 1))) as [Hd|Hd].
  { destruct Hr as [-> ->]. cbn [ret outcome]. auto. }
  destruct Hr as (bs0 & cw & ix1 & -> & Hwf1 & Hk1 & Hkp1 & Hcase).
  assert (Hcw : cw = aw - 1 /\
                (theight (bigs ix1) <= S (theight (bigs ix)))%nat /\
                allocs 1 bs = allocs 1 bs0 ++ [] /\
                exists X, bs = bs0 ++ X).
  { destruct Hcase as [(Hla & -> & -> & ->)|(L & -> & -> & ->)].
    - rewrite (Hewa Hla). refine (conj eq_refl (conj _ (conj _ _))).
      + apply theight_iinsert.
      + rewrite app_nil_r. reflexivity.
      + exists []. rewrite app_nil_r. reflexivity.
    - refine (conj (Hewf _ _ eq_refl) (conj _ (conj _ _))).
      + etransitivity; [apply theight_iinsert|].
        apply le_n_S, theight_idelete.
      + unfold allocs. rewrite addrs_app. reflexivity.
      + eauto. }
  destruct Hcw as (-> & Hh1 & Hal0 & X & EX).
  assert (Hpre : forall x, apayload 1 bs x -> apayload 1 bs0 x).
  { intros x Hx.
    destruct Hcase as [(_ & -> & _)|(L & -> & _)]; [exact Hx|].
    apply apayload_app in Hx as [Hx|Hx]; [exact Hx|].
    cbn [apayload] in Hx. destruct Hx as [[[=] _]|[]]. }
  eapply outcome_bind;
    [apply (place_allocates fuel h1 bs0 (aw - 1) [] ix1 aw Hwf1 Hodd
              ltac:(lia) ltac:(lia) ltac:(lia))|lia|].
  intros [] h' (bs' & ix' & Hwf' & Hk & Hal & Hfr & Hsz & Hn & Hpay & Hht).
  cbn [ret outcome].
  eexists. split; [reflexivity|]. split; [|lia].
  unfold block_mem, allocated_in.
  replace (1 + spans bs0 + 1 - 1) with (1 + spans bs0) by lia.
  exists bs', ix'.
  refine (conj Hwf' (conj _ (conj _ (conj _ (conj _ (conj Hn
            (conj _ _))))))).
  + lia.
  + eexists. eexists. split; [exact Hal|]. exact Hal0.
  + rewrite Hal0. exact Hfr.
  + intros d Hin. rewrite Hal0, app_nil_r in Hin.
    rewrite Hsz by (apply elem_of_app; left; exact Hin).
    subst bs.
    eapply (prefix_sizes h h1 bs0 X [(aw - 1, false)]); eassumption.
  + intros x Hx. rewrite Hpay, (Hkp1 x Hx); [reflexivity|].
    apply apayload_app. left. exact (Hpre x Hx).
  + lia.
Qed.

Lemma malloc_total fuel h bs ix size :
  wf_with h bs ix -> max_brk <= 2 ^ 30 -> 0 < size <= 2 ^ 30 ->
  outcome (malloc fuel size h) (fuel <= S (theight (bigs ix)))%nat
    (fun r h' =>
       match r with
       | None =>
           h' = h /\
           (forall c, c ∈ frees 1 bs -> size_at h c < adjust size - 1) /\
           max_brk < brk h + (ewords_of h (adjust size) + 1)
       | Some p => allocated_in h h' bs ix p (adjust size)
       end).
Proof.
  intros Hwf Hmax Hsize.
  destruct (adjust_small size Hsize) as (Haw & Hodd & Hcov).
  pose proof Hwf as (HT & Hco & Hix & Hperm & Hbrk).
  pose proof (wf_spaced _ _ _ Hwf) as Hsp.
  assert (Hwe : Z.even (adjust size - 1) = true) by (apply odd_pred_even, Hodd).
  pose proof (ifind_best h ix (adjust size - 1) Hix ltac:(lia) Hwe) as Hbest.
  destruct (ifind (adjust size - 1) ix) as [b|] eqn:Ef.
  2:{ (* no fit *)
    assert (Hmiss : forall c, c ∈ frees 1 bs -> size_at h c < adjust size - 1).
    { intros c Hc. apply Hbest. rewrite Hperm. exact Hc. }
    apply (outcome_weaken _ _ _ _ _
             (malloc_miss fuel h bs ix size Hwf Hmax Hsize Hmiss)); [auto|].
    intros r h' Hr. cbv beta in Hr.
    destruct (decide _) as [Hd|Hd].
    - destruct Hr as [-> ->]. exact (conj eq_refl (conj Hmiss Hd)).
    - destruct Hr as (p & -> & Hr & _). exact Hr. }
  unfold malloc.
  change (bind epi_block ?k h) with (k (brk h - 1) h). cbv beta.
  rewrite (proj2 (Z.eqb_neq size 0)) by lia.
  set (aw := adjust size) in *.
  assert (Hw : u32 (aw - 1) = aw - 1) by (unfold u32; rewrite Z.mod_small; lia).
  rewrite Hw.
  eapply outcome_bind;
    [apply (find_fit_spec fuel h ix (aw - 1) Hix Hsp ltac:(lia) Hwe)|lia|].
  intros r h1 [-> ->]. rewrite Ef.
  destruct Hbest as (Hb & Hbw & _).
  rewrite Hperm in Hb.
  destruct (addrs_split _ _ _ _ Hb) as (bs1 & cw & bs2 & -> & ->).
  assert (Ecw : size_at h (1 + spans bs1) = cw).
  { destruct (wf_lseg_prefix _ _ _ _ Hwf) as (pm & _ & HT').
    apply tail_seg_cons in HT' as [Hbk _].
    destruct (blk_fields _ _ _ _ _ Hbk) as (E & _). exact E. }
  rewrite Ecw in Hbw.
  eapply outcome_bind;
    [apply (place_allocates fuel h bs1 cw bs2 ix aw Hwf Hodd ltac:(lia)
              ltac:(lia) Hbw)|lia|].
  intros [] h' (bs' & ix' & Hwf' & Hk & Hal & Hfr & Hsz & Hn & Hpay & Hht).
  cbn [ret outcome]. unfold block_mem, allocated_in.
  replace (1 + spans bs1 + 1 - 1) with (1 + spans bs1) by lia.
  exists bs', ix'.
  assert (Hal0 : allocs 1 (bs1 ++ (cw, false) :: bs2)
                 = allocs 1 bs1 ++ allocs (1 + spans bs1 + (cw + 2)) bs2).
  { unfold allocs. rewrite addrs_app. cbn [addrs Bool.eqb app span].
    reflexivity. }
  refine (conj Hwf' (conj _ (conj _ (conj _ (conj _ (conj Hn
            (conj Hpay _))))))).
  + lia.
  + eexists. eexists. split; [exact Hal|exact Hal0].
  + rewrite Hal0. exact Hfr.
  + intros d Hd. apply Hsz. rewrite <- Hal0. exact Hd.
  + lia.
Qed.

(** Blocks start at odd word offsets: every block takes an even number
    of words. *)
Lemma addrs_odd h a pa bs e pe want c :
  lseg h a pa bs e pe -> Z.odd a = true -> c ∈ addrs want a bs ->
  Z.odd c = true.
Proof.
  revert a pa. induction bs as [|[sz al] bs IH]; intros a pa HL Ha Hc.
  - inversion Hc.
  - cbn [lseg addrs] in *. destruct HL as [Hb HL].
    apply elem_of_app in Hc as [Hc|Hc].
    + destruct (Bool.eqb al want); [|inversion Hc].
      apply list_elem_of_singleton in Hc as ->. exact Ha.
    + apply (IH _ _ HL); [|exact Hc].
      destruct Hb as (_ & _ & Hp). unfold span.
      destruct al.
      * rewrite Z.odd_add, Ha, Z.odd_add, Hp. reflexivity.
      * destruct Hp as (He & _).
        rewrite Z.odd_add, Ha, Z.odd_add, <- Z.negb_even, He. reflexivity.
Qed.

Lemma aligned_even p :
  heap_listp mod 8 = 0 -> Z.odd (p - 1) = true -> aligned p = true.
Proof.
  intros Hl Hp. unfold aligned, WSIZE. cbv zeta.
  apply Z.eqb_eq.
  rewrite <- Z.ldiff_land. change 7 with (Z.ones 3).
  rewrite Z.ldiff_ones_r by lia.
  rewrite Z.shiftr_div_pow2, Z.shiftl_mul_pow2 by lia.
  apply Z.odd_spec in Hp as [m Hm].
  change (Z.ones 3) with 7. change (2 ^ 3) with 8.
  clear junk max_brk. Z.div_mod_to_equations. lia.
Qed.

(** X16.  [malloc(size)] for [0 < size <= 2^30] on a heap that
    satisfies the invariant returns.  The result is [NULL] only when no
    free block has [awords - 1] words and the oracle has no room for the
    words asked of it ([awords + 1], less the extent of a free last
    block), and then nothing has changed.  Otherwise it is the payload of a block
    that was not allocated before and now is, of [awords], [awords + 1]
    or [awords + 2] words, enough for [size] bytes, at an address that
    is a multiple of 8 when [heap_listp] is; the blocks allocated before
    are still allocated, in the same order and with the same sizes, no
    word of theirs after the header is written, and the heap satisfies
    the invariant again. *)
Theorem malloc_allocates_fresh_block
  (fuel : nat) (h : heap) (bs : list (Z * bool)) (ix : index) (size : Z) :
  wf_with h bs ix -> max_brk <= 2 ^ 30 -> 0 < size <= 2 ^ 30 ->
  (S (theight (bigs ix)) < fuel)%nat ->
  exists r h',
    malloc fuel size h = Ok (r, h') /\
    match r with
    | None =>
        h' = h /\
        (forall c, c ∈ frees 1 bs -> size_at h c < adjust size - 1) /\
        max_brk < brk h + (ewords_of h (adjust size) + 1)
    | Some p =>
        exists bs' ix',
          wf_with h' bs' ix' /\
          brk h <= brk h' <= Z.max (brk h) max_brk /\
          (exists A B, allocs 1 bs' = A ++ (p - 1) :: B /\
                       allocs 1 bs = A ++ B) /\
          (p - 1 ∉ allocs 1 bs) /\
          (forall d, d ∈ allocs 1 bs -> size_at h' d = size_at h d) /\
          (forall d x, d ∈ allocs 1 bs -> d < x <= d + size_at h d ->
                       word h' x = word h x) /\
          adjust size <= size_at h' (p - 1) <= adjust size + 2 /\
          size <= 4 * size_at h' (p - 1) /\
          (heap_listp mod 8 = 0 -> aligned p = true)
    end.
Proof.
  intros Hwf Hmax Hsize Hfuel.
  destruct (outcome_enough _ _ _ (malloc_total fuel h bs ix size Hwf Hmax Hsize)
              ltac:(lia)) as (r & h' & E & Hr).
  exists r, h'. split; [exact E|].
  destruct r as [p|]; [|exact Hr].
  destruct Hr as (bs' & ix' & Hwf' & Hk & (A & B & HA & HB) & Hfr & Hsz & Hn
                  & Hpay & _).
  destruct (adjust_small size Hsize) as (_ & _ & Hcov).
  exists bs', ix'.
  assert (Hin : p - 1 ∈ allocs 1 bs').
  { rewrite HA. apply elem_of_app. right. left. }
  pose proof Hwf' as ((pe & HL & _) & _).
  refine (conj Hwf' (conj Hk (conj _ (conj Hfr (conj Hsz (conj _ (conj Hn
            (conj _ _)))))))).
  - eauto.
  - intros d x Hd Hx. apply Hpay.
    destruct Hwf as ((pe0 & HL0 & _) & _).
    exact (apayload_alloc _ _ _ _ _ _ _ _ HL0 Hd Hx).
  - lia.
  - intros Hl. apply (aligned_even _ Hl).
    eapply addrs_odd; [exact HL|reflexivity|exact Hin].
Qed.

(** X17.  [malloc] out of memory: when no free block has [awords - 1]
    words and the oracle has no room for the words [malloc] asks of it,
    [malloc] returns [NULL] and the heap is as it was. *)
Theorem malloc_out_of_memory
  (fuel : nat) (h : heap) (bs : list (Z * bool)) (ix : index) (size : Z) :
  wf_with h bs ix -> max_brk <= 2 ^ 30 -> 0 < size <= 2 ^ 30 ->
  (forall c, c ∈ frees 1 bs -> size_at h c < adjust size - 1) ->
  max_brk < brk h + (ewords_of h (adjust size) + 1) ->
  (S (theight (bigs ix)) < fuel)%nat ->
  malloc fuel size h = Ok (None, h).
Proof.
  intros Hwf Hmax Hsize Hmiss Hfull Hfuel.
  destruct (outcome_enough _ _ _
              (malloc_miss fuel h bs ix size Hwf Hmax Hsize Hmiss)
              ltac:(lia)) as (r & h' & E & Hr).
  rewrite decide_True in Hr by exact Hfull.
  destruct Hr as [-> ->]. exact E.
Qed.

(** ** [calloc] *)

(** [zero_words] inside the payload of an allocated block. *)
Lemma zero_words_payload bs ix c : forall (n : nat) (a : addr) (h : heap),
  wf_with h bs ix -> c ∈ allocs 1 bs ->
  c < a -> a + Z.of_nat n <= c + size_at h c + 1 ->
  exists h',
    zero_words n a h = Ok (tt, h') /\
    wf_with h' bs ix /\ brk h' = brk h /\
    (forall x, a <= x < a + Z.of_nat n -> word h' x = 0) /\
    (forall x, ~ (a <= x < a + Z.of_nat n) -> word h' x = word h x).
Proof.
  induction n as [|n IH]; intros a h Hwf Hc Ha Hn.
  - exists h. cbn [zero_words ret].
    refine (conj eq_refl (conj Hwf (conj eq_refl (conj _ _)))).
    + intros x Hx. lia.
    + reflexivity.
  - pose proof Hwf as ((pe & HL & _) & _).
    destruct (addrs_blk _ _ _ _ _ _ _ _ HL Hc) as (sz & pc & Hb & Hlo & Hhi & _).
    destruct (blk_fields _ _ _ _ _ Hb) as (Hs & _).
    unfold span in Hhi.
    cbn [zero_words]. rewrite (bind_Ok _ _ _ _ _ (store_eq a 0 h ltac:(lia))).
    assert (Hwf1 : wf_with (upd a 0 h) bs ix).
    { apply (wf_payload_write h bs ix c a 0 Hwf Hc). lia. }
    assert (Hs1 : size_at (upd a 0 h) c = size_at h c)
      by (apply size_at_upd_ne; lia).
    destruct (IH (a + 1) (upd a 0 h) Hwf1 Hc ltac:(lia)
                ltac:(rewrite Hs1; lia)) as (h' & E & Hwf' & Hk & Hz & Hf).
    exists h'. refine (conj E (conj Hwf' (conj Hk (conj _ _)))).
    + intros x Hx. destruct (Z.eq_dec x a) as [->|Hne].
      * rewrite Hf by lia. apply word_upd_eq.
      * apply Hz. lia.
    + intros x Hx. rewrite Hf by lia. apply word_upd_ne. lia.
Qed.

Lemma sub_mod_mod w m : 0 < m -> (w - w mod m) mod m = 0.
Proof.
  intros Hm. clear junk max_brk heap_listp.
  rewrite Zminus_mod, Z.mod_mod, Z.sub_diag by lia. apply Z.mod_0_l. lia.
Qed.

(** [memset(p, 0, bytes)] on the payload of an allocated block that holds
    [bytes] bytes. *)
Lemma memset0_payload h bs ix p bytes :
  wf_with h bs ix -> p - 1 ∈ allocs 1 bs ->
  0 <= bytes <= 4 * size_at h (p - 1) ->
  exists h',
    memset0 (Some p) bytes h = Ok (tt, h') /\
    wf_with h' bs ix /\ brk h' = brk h /\
    (forall x, p <= x < p + bytes / 4 -> word h' x = 0) /\
    word h' (p + bytes / 4) mod 2 ^ (8 * (bytes mod 4)) = 0 /\
    (forall x, ~ (p <= x < p + (bytes + 3) / 4) -> word h' x = word h x).
Proof.
  intros Hwf Hp Hbytes.
  pose proof Hwf as ((pe & HL & _) & _).
  destruct (addrs_blk _ _ _ _ _ _ _ _ HL Hp) as (sz & pc & Hb & Hlo & Hhi & _).
  destruct (blk_fields _ _ _ _ _ Hb) as (Hs & _).
  unfold span in Hhi. rewrite Hs in Hbytes.
  assert (Hq : 0 <= bytes / 4 <= sz /\ 0 <= bytes mod 4 < 4 /\
               bytes = 4 * (bytes / 4) + bytes mod 4 /\
               (bytes mod 4 = 0 -> (bytes + 3) / 4 = bytes / 4) /\
               (bytes mod 4 <> 0 -> (bytes + 3) / 4 = bytes / 4 + 1 /\
                                    bytes / 4 < sz)).
  { clear -Hbytes. Z.div_mod_to_equations. lia. }
  destruct Hq as (Hq & Hr & Hqr & Hr0 & Hr1).
  unfold memset0.
  change (bind get_heap ?k h) with (k h h). cbv beta.
  rewrite decide_True by (unfold WSIZE; lia).
  destruct (zero_words_payload bs ix (p - 1) (Z.to_nat (bytes / WSIZE)) p h
              Hwf Hp ltac:(lia)
              ltac:(unfold WSIZE; rewrite Hs, Z2Nat.id by lia; lia))
    as (h1 & E & Hwf1 & Hk1 & Hz & Hf).
  unfold WSIZE in *. rewrite Z2Nat.id in Hz, Hf by lia.
  rewrite (bind_Ok _ _ _ _ _ E).
  destruct (Z.eqb_spec (bytes mod 4) 0) as [E0|E0].
  - exists h1. cbn [ret].
    refine (conj eq_refl (conj Hwf1 (conj Hk1 (conj Hz (conj _ _))))).
    + rewrite E0. apply Z.mod_1_r.
    + intros x Hx. apply Hf. rewrite (Hr0 E0) in Hx. exact Hx.
  - destruct (Hr1 E0) as [Hc4 Hlt].
    rewrite (bind_Ok _ _ _ _ _ (load_eq (p + bytes / 4) h1 ltac:(lia))).
    rewrite store_eq by lia.
    eexists. split; [reflexivity|].
    refine (conj _ (conj _ (conj _ (conj _ _)))).
    + apply (wf_payload_write h1 bs ix (p - 1) _ _ Hwf1 Hp).
      assert (Hs1 : size_at h1 (p - 1) = sz).
      { pose proof Hwf1 as ((pe1 & HL1 & _) & _).
        rewrite (addrs_same_size _ _ _ _ _ _ _ _ _ _ _ _ HL HL1 Hp).
        exact Hs. }
      rewrite Hs1. lia.
    + rewrite brk_upd. exact Hk1.
    + intros x Hx. rewrite word_upd_ne by lia. apply Hz, Hx.
    + rewrite word_upd_eq. apply sub_mod_mod. lia.
    + intros x Hx. rewrite Hc4 in Hx. rewrite word_upd_ne by lia.
      apply Hf. lia.
Qed.

(** X18.  [calloc(nmemb, size)] with a product between 1 and 2^30 on a
    heap that satisfies the invariant, when its call of [malloc] returns
    a block: [calloc] returns the same pointer; the bytes asked for are
    0 (the whole words, and the low bytes of a last partial word); no
    word outside the words that hold those bytes is written after
    [malloc], no word after the header of a block allocated before is
    written at all, and the heap satisfies the invariant with the block
    allocated. *)
Theorem calloc_zeroes_block
  (fuel : nat) (h : heap) (bs : list (Z * bool)) (ix : index)
  (nmemb size : Z) (p : addr) (h1 : heap) :
  wf_with h bs ix -> max_brk <= 2 ^ 30 -> 0 < nmemb * size <= 2 ^ 30 ->
  malloc fuel (nmemb * size) h = Ok (Some p, h1) ->
  exists h' bs' ix',
    calloc fuel nmemb size h = Ok (Some p, h') /\
    wf_with h' bs' ix' /\ p - 1 ∈ allocs 1 bs' /\
    brk h' = brk h1 /\
    (forall x, p <= x < p + nmemb * size / 4 -> word h' x = 0) /\
    word h' (p + nmemb * size / 4) mod 2 ^ (8 * (nmemb * size mod 4)) = 0 /\
    (forall x, ~ (p <= x < p + (nmemb * size + 3) / 4) ->
               word h' x = word h1 x) /\
    (forall d x, d ∈ allocs 1 bs -> d < x <= d + size_at h d ->
                 word h' x = word h x).
Proof.
  intros Hwf Hmax Hbytes E.
  pose proof (outcome_inv _ _ _ _ _
                (malloc_total fuel h bs ix (nmemb * size) Hwf Hmax Hbytes) E)
    as (bs' & ix' & Hwf1 & _ & (A & B & HA & HB) & Hfr & Hsz & Hn & Hpay & _).
  destruct (adjust_small _ Hbytes) as (_ & _ & Hcov).
  assert (Hin : p - 1 ∈ allocs 1 bs').
  { rewrite HA. apply elem_of_app. right. left. }
  destruct (memset0_payload h1 bs' ix' p (nmemb * size) Hwf1 Hin ltac:(lia))
    as (h' & Em & Hwf' & Hk & Hz & Hlast & Hf).
  exists h', bs', ix'.
  refine (conj _ (conj Hwf' (conj Hin (conj Hk (conj Hz (conj Hlast
            (conj Hf _))))))).
  - unfold calloc, u64. rewrite Z.mod_small by lia.
    rewrite (bind_Ok _ _ _ _ _ E), (bind_Ok _ _ _ _ _ Em). reflexivity.
  - intros d x Hd Hx.
    pose proof Hwf as ((pe0 & HL0 & _) & _).
    pose proof Hwf1 as ((pe1 & HL1 & _) & _).
    rewrite <- (Hpay x (apayload_alloc _ _ _ _ _ _ _ _ HL0 Hd Hx)).
    apply Hf. intros Hpx.
    assert (Hd' : d ∈ allocs 1 bs').
    { rewrite HB in Hd. rewrite HA.
      apply elem_of_app in Hd as [Hd|Hd]; apply elem_of_app;
        [left; exact Hd|right; right; exact Hd]. }
    assert (Hq : (nmemb * size + 3) / 4 <= size_at h1 (p - 1)).
    { clear -Hn Hcov. Z.div_mod_to_equations. lia. }
    apply Hfr. rewrite <- (payload_disjoint _ _ _ _ _ _ _ _ d (p - 1) x HL1
                           Hd' Hin); [exact Hd| |lia].
    rewrite (Hsz d Hd). exact Hx.
Qed.

(** X19.  [calloc] does not test the result of [malloc]: when no free
    block fits and the oracle has no room, [malloc] returns [NULL] and
    [calloc] calls [memset(NULL, 0, bytes)] with a count that is not 0. *)
Theorem calloc_out_of_memory_faults
  (fuel : nat) (h : heap) (bs : list (Z * bool)) (ix : index)
  (nmemb size : Z) :
  wf_with h bs ix -> max_brk <= 2 ^ 30 -> 0 < nmemb * size <= 2 ^ 30 ->
  (forall c, c ∈ frees 1 bs -> size_at h c < adjust (nmemb * size) - 1) ->
  max_brk < brk h + (ewords_of h (adjust (nmemb * size)) + 1) ->
  (S (theight (bigs ix)) < fuel)%nat ->
  malloc fuel (nmemb * size) h = Ok (None, h) /\
  calloc fuel nmemb size h = Fault.
Proof.
  intros Hwf Hmax Hbytes Hmiss Hfull Hfuel.
  destruct (outcome_enough _ _ _
              (malloc_miss fuel h bs ix _ Hwf Hmax Hbytes Hmiss)
              ltac:(lia)) as (r & h' & E & Hr).
  rewrite decide_True in Hr by exact Hfull.
  destruct Hr as [-> ->]. split; [exact E|].
  unfold calloc, u64. rewrite Z.mod_small by lia.
  rewrite (bind_Ok _ _ _ _ _ E). unfold memset0, bind.
  rewrite (proj2 (Z.eqb_neq _ 0)) by lia. reflexivity.
Qed.

(** ** [realloc]: growing in place *)

Lemma to_int_small x : 0 <= x < 2 ^ 31 -> to_int x = x.
Proof.
  intros H. unfold to_int. destruct (Z.ltb_spec x (2 ^ 31)); lia.
Qed.

(** Growing into a free next block that leaves a free rest. *)
Lemma realloc_grow_split fuel h ix bs1 words ow bs2 size :
  wf_with h (bs1 ++ [(words, true); (ow, false)] ++ bs2) ix ->
  0 < size < 2 ^ 64 -> words < adjust size ->
  adjust size - words + 2 <= ow ->
  outcome (realloc fuel (Some (1 + spans bs1 + 1)) size h)
    (fuel <= theight (bigs ix))%nat
    (fun r h' =>
       r = Some (1 + spans bs1 + 1) /\
       wf_with h'
         (bs1 ++ [(adjust size, true); (ow - (adjust size - words), false)]
              ++ bs2)
         (iinsert (ow - (adjust size - words))
            (1 + spans bs1 + adjust size + 1)
            (idelete ow (1 + spans bs1 + words + 1) ix)) /\
       brk h' = brk h /\
       keeps h h' bs1 (1 + spans bs1 + spans [(words, true); (ow, false)])
         bs2 /\
       (forall x, 1 + spans bs1 < x <= 1 + spans bs1 + words ->
                  word h' x = word h x)).
Proof.
  intros Hwf Hsize Hgrow Hroom.
  pose proof (adjust_range size Hsize) as Hnw.
  pose proof (odd_of_mod2 _ (adjust_odd size Hsize)) as Hnwo.
  set (nw := adjust size) in *.
  pose proof Hwf as (_ & Hco & _).
  destruct (ctx_start _ _ _ _ _ Hwf) as (pl & pm & Hctx & HM & Epl & Epm).
  set (b := 1 + spans bs1) in *.
  apply coalesced_app in Hco as [Hc1 Hco]. rewrite <- Epl in Hco.
  cbn [coalesced app] in Hco. destruct Hco as (_ & _ & Hc2).
  cbn [last_alloc] in Epm. subst pm.
  cbn [lseg fblocks app spans] in HM, Hctx. unfold span in HM, Hctx.
  destruct HM as (Hb & Hnb & _).
  set (nb := b + (words + 1)) in *.
  set (hi := b + (words + 1 + (ow + 2 + 0))) in *.
  pose proof Hctx as (HP & HT & Hle & Hbrk & Hix & Hperm & Hz & Hsp & Hkp).
  pose proof (tail_seg_le _ _ _ _ HT) as Hhb.
  pose proof (lseg_le _ _ _ _ _ _ HP) as Hlo.
  destruct (blk_fields _ _ _ _ _ Hb) as (Hbs & Hbf & Hbp & Hbr).
  destruct (blk_fields _ _ _ _ _ Hnb) as (Hns & Hnf & _ & Hnr).
  pose proof Hnb as (Hnbw & _ & Hnse & Hn2 & Hnft).
  pose proof Hb as (Hbw & _ & Hbo).
  pose proof (blk_alloc_pos _ _ _ _ Hb) as Hb1.
  cbn [negb] in Hbf, Hnf.
  unfold realloc, block_block. cbv zeta.
  rewrite (proj2 (Z.eqb_neq size 0)) by lia.
  replace (b + 1 - 1) with b by lia.
  step. rewrite Hbs. fold nw.
  rewrite (proj2 (Z.eqb_neq nw words)) by lia.
  rewrite Z.gtb_ltb, (proj2 (Z.ltb_ge nw words)) by lia.
  cbn [orb andb].
  step. rewrite Hbf, Hbs.
  replace (b + words + 1) with nb by (unfold nb; lia).
  step. rewrite Hnf. step. rewrite Hns.
  set (rem := ow + 1 - (nw - words)).
  replace (to_int (u32 (u32 (ow + 1) - u32 (nw - words)))) with rem
    by (u32s; rewrite to_int_small; unfold rem; lia).
  rewrite (proj2 (Z.geb_le rem 3)) by (unfold rem; lia).
  eapply outcome_bind;
    [apply (ctx_delete fuel h ix bs1 b pl hi false bs2 [] nb ow [] Hctx)
    |auto|].
  intros [] h1 (Hctx1 & Hk1 & Hw1). cbn [app] in Hctx1, Hw1.
  set (ix1 := idelete ow nb ix) in *.
  assert (Hbb : 0 <= b < brk h1) by (unfold hi in Hhb; lia).
  assert (Hwb1 : word h1 b = word h b)
    by (apply Hw1; [unfold hi; lia|constructor]).
  step. unfold prev_free_at at 1. rewrite Hwb1. fold (prev_free_at h b).
  rewrite Hbp.
  rewrite (remark_allocated b nw pl _ h1 ltac:(lia) Hbb).
  rewrite (Z.mod_small nw) by lia.
  set (h2 := upd b (hdr nw true pl) (upd b nw h1)).
  assert (Hk2 : brk h2 = brk h) by (unfold h2; rewrite !brk_upd; exact Hk1).
  assert (Hw2 : word h2 b = hdr nw true pl) by (unfold h2; wsimp; reflexivity).
  step. rewrite (free_at_hdr _ _ _ _ _ Hw2), (size_at_hdr _ _ _ _ _ Hw2) by lia.
  cbn [negb].
  set (tmp := b + nw + 1).
  set (t := ow - (nw - words)).
  replace (u32 (rem - 1)) with t by (u32s; unfold t, rem; lia).
  assert (Ht : 2 <= t < 2 ^ 30 /\ Z.even t = true /\ tmp + t + 2 = hi).
  { unfold t, tmp, hi. refine (conj _ (conj _ _)); try lia.
    rewrite Z.even_sub, Hnse, (even_sub_odd _ _ Hnwo Hbo). reflexivity. }
  step. step_mark.
  rewrite size_at_upd_eq, Z.mod_small by lia.
  change (ALLOCATED =? 0) with true.
  set (h3 := upd (tmp + t + 1) (hdr t false true)
               (upd tmp (hdr t false true) (upd tmp t h2))).
  assert (Hctx3 : ctx h h3 ix1 bs1 b pl hi false bs2 []).
  { unfold h3, h2.
    repeat (apply ctx_store; [|unfold hi, tmp in *; lia|constructor]).
    exact Hctx1. }
  assert (HM : lseg h3 b pl [(nw, true); (t, false)] hi false).
  { cbn [lseg]. unfold blk, span.
    replace (b + (nw + 1)) with tmp by (unfold tmp; lia).
    assert (E1 : word h3 b = hdr nw true pl).
    { unfold h3. wsimp. exact Hw2. }
    assert (E2 : word h3 tmp = hdr t false true)
      by (unfold h3; wsimp; reflexivity).
    assert (E3 : size_at h3 (tmp + t + 1) = t).
    { unfold h3, size_at. wsimp. apply hdr_size. lia. }
    refine (conj (conj E1 (conj _ Hnwo))
              (conj (conj E2 (conj _ (conj (proj1 (proj2 Ht)) (conj _ E3))))
                 (conj _ eq_refl))); lia. }
  eapply outcome_bind;
    [apply (ctx_insert_end fuel h3 ix1 bs1 b pl hi false bs2
              [(nw, true); (t, false)] tmp Hctx3 HM)| |].
  - apply coalesced_app. split; [exact Hc1|]. cbn [coalesced app]. auto.
  - cbn [frees addrs Bool.eqb app]. unfold span, tmp. f_equal. lia.
  - unfold ix1. pose proof (theight_idelete ow nb ix). lia.
  - intros [] h5 (Hwf5 & Hk5 & Hkp5 & Hz5). apply outcome_Ok.
    assert (E : size_at h3 tmp = t).
    { unfold h3, size_at. wsimp. apply hdr_size. lia. }
    rewrite E in Hwf5, Hz5.
    replace (b + words + 1) with nb by (unfold nb; lia).
    refine (conj eq_refl (conj Hwf5 (conj _ (conj Hkp5 _)))).
    + rewrite Hk5. unfold h3. rewrite !brk_upd. exact Hk2.
    + intros x Hx. rewrite Hz5 by (unfold hi, nb, tmp in *; lia).
      unfold h3, h2. wsimp.
      apply Hw1; [unfold hi; lia|constructor].
Qed.

(** Growing into a free next block that is taken whole. *)
Lemma realloc_grow_absorb fuel h ix bs1 words ow bs2 size :
  wf_with h (bs1 ++ [(words, true); (ow, false)] ++ bs2) ix ->
  0 < size < 2 ^ 64 -> words < adjust size ->
  adjust size - words - 1 <= ow < adjust size - words + 2 ->
  outcome (realloc fuel (Some (1 + spans bs1 + 1)) size h)
    (fuel <= theight (bigs ix))%nat
    (fun r h' =>
       r = Some (1 + spans bs1 + 1) /\
       wf_with h' (bs1 ++ [(words + ow + 2, true)] ++ bs2)
         (idelete ow (1 + spans bs1 + words + 1) ix) /\
       brk h' = brk h /\ adjust size = words + ow /\
       keeps h h' bs1 (1 + spans bs1 + spans [(words, true); (ow, false)])
         bs2 /\
       (forall x, 1 + spans bs1 < x <= 1 + spans bs1 + words ->
                  word h' x = word h x)).
Proof.
  intros Hwf Hsize Hgrow Hroom.
  pose proof (adjust_range size Hsize) as Hnw.
  pose proof (odd_of_mod2 _ (adjust_odd size Hsize)) as Hnwo.
  set (nw := adjust size) in *.
  pose proof Hwf as (_ & Hco & _).
  destruct (ctx_start _ _ _ _ _ Hwf) as (pl & pm & Hctx & HM & Epl & Epm).
  set (b := 1 + spans bs1) in *.
  apply coalesced_app in Hco as [Hc1 Hco]. rewrite <- Epl in Hco.
  cbn [coalesced app] in Hco. destruct Hco as (_ & _ & Hc2).
  cbn [last_alloc] in Epm. subst pm.
  cbn [lseg fblocks app spans] in HM, Hctx. unfold span in HM, Hctx.
  destruct HM as (Hb & Hnb & _).
  set (nb := b + (words + 1)) in *.
  set (hi := b + (words + 1 + (ow + 2 + 0))) in *.
  pose proof Hctx as (HP & HT & Hle & Hbrk & Hix & Hperm & Hz & Hsp & Hkp).
  pose proof (tail_seg_le _ _ _ _ HT) as Hhb.
  pose proof (lseg_le _ _ _ _ _ _ HP) as Hlo.
  destruct (blk_fields _ _ _ _ _ Hb) as (Hbs & Hbf & Hbp & Hbr).
  destruct (blk_fields _ _ _ _ _ Hnb) as (Hns & Hnf & _ & Hnr).
  pose proof Hnb as (Hnbw & _ & Hnse & Hn2 & Hnft).
  pose proof Hb as (Hbw & _ & Hbo).
  pose proof (blk_alloc_pos _ _ _ _ Hb) as Hb1.
  assert (Eow : nw = words + ow).
  { apply Z.even_spec in Hnse as [m Hm].
    apply Z.odd_spec in Hnwo as [n Hn]. apply Z.odd_spec in Hbo as [k Hk].
    lia. }
  cbn [negb] in Hbf, Hnf.
  unfold realloc, block_block. cbv zeta.
  rewrite (proj2 (Z.eqb_neq size 0)) by lia.
  replace (b + 1 - 1) with b by lia.
  step. rewrite Hbs. fold nw.
  rewrite (proj2 (Z.eqb_neq nw words)) by lia.
  rewrite Z.gtb_ltb, (proj2 (Z.ltb_ge nw words)) by lia.
  cbn [orb andb].
  step. rewrite Hbf, Hbs.
  replace (b + words + 1) with nb by (unfold nb; lia).
  step. rewrite Hnf. step. rewrite Hns.
  replace (to_int (u32 (u32 (ow + 1) - u32 (nw - words)))) with 1
    by (u32s; rewrite to_int_small; lia).
  change (1 >=? 3) with false. change (1 >=? 0) with true. cbv iota.
  eapply outcome_bind;
    [apply (ctx_delete fuel h ix bs1 b pl hi false bs2 [] nb ow [] Hctx)
    |auto|].
  intros [] h1 (Hctx1 & Hk1 & Hw1). cbn [app] in Hctx1, Hw1.
  set (ix1 := idelete ow nb ix) in *.
  assert (Hbb : 0 <= b < brk h1) by (unfold hi in Hhb; lia).
  assert (Hwb1 : word h1 b = word h b)
    by (apply Hw1; [unfold hi; lia|constructor]).
  step. unfold prev_free_at at 1. rewrite Hwb1. fold (prev_free_at h b).
  rewrite Hbp.
  set (n2 := words + ow + 2).
  replace (u32 (u32 (words + ow) + 2)) with n2 by (u32s; unfold n2; lia).
  rewrite (remark_allocated b n2 pl _ h1 ltac:(unfold n2; lia) Hbb).
  rewrite (Z.mod_small n2) by (unfold n2; lia).
  set (h2 := upd b (hdr n2 true pl) (upd b n2 h1)).
  assert (Hk2 : brk h2 = brk h) by (unfold h2; rewrite !brk_upd; exact Hk1).
  assert (Hw2 : word h2 b = hdr n2 true pl) by (unfold h2; wsimp; reflexivity).
  assert (Hn2r : 0 <= n2 < 2 ^ 30) by (unfold n2; lia).
  step.
  rewrite (free_at_hdr _ _ _ _ _ Hw2 Hn2r), (size_at_hdr _ _ _ _ _ Hw2 Hn2r).
  cbn [negb]. replace (b + n2 + 1) with hi by (unfold hi, n2; lia).
  assert (Hctx2 : ctx h h2 ix1 bs1 b pl hi false bs2 []).
  { unfold h2.
    repeat (apply ctx_store; [|unfold hi in *; lia|constructor]).
    exact Hctx1. }
  pose proof Hctx2 as (_ & HT2 & _).
  pose proof (tail_seg_word _ _ _ _ HT2) as [Hwr _].
  rewrite (bind_Ok _ _ _ _ _
             (block_mark_allo_eq hi ALLOCATED h2 ltac:(lia) Hwr)).
  change (ALLOCATED =? 0) with true. apply outcome_Ok.
  set (h3 := upd hi (hdr (size_at h2 hi) true true) h2).
  assert (Hctx3 : ctx h h3 ix1 bs1 b pl hi true bs2 []).
  { apply (ctx_repa h2 ix1 bs1 b pl hi false true bs2 [] Hctx2).
    destruct bs2 as [|[s2 [|]] bs2']; cbn [coalesced] in Hc2; try exact I.
    destruct Hc2 as [[?|?] _]; discriminate. }
  refine (conj eq_refl (conj _ (conj _ (conj Eow (conj _ _))))).
  3:{ apply Hctx3. }
  3:{ intros x Hx. unfold h3, h2. wsimp.
      apply Hw1; [unfold hi; lia|constructor]. }
  - replace (b + words + 1) with nb by (unfold nb; lia).
    apply (ctx_end h3 ix1 bs1 b pl hi true bs2 [] [(n2, true)] Hctx3).
    + cbn [lseg]. unfold blk, span.
      assert (E1 : word h3 b = hdr n2 true pl).
      { unfold h3. wsimp. exact Hw2. }
      refine (conj (conj E1 (conj Hn2r _)) (conj _ eq_refl)).
      * unfold n2. rewrite Z.odd_add, Z.odd_add, Hbo, <- Z.negb_even, Hnse.
        reflexivity.
      * unfold hi, n2; lia.
    + reflexivity.
    + apply coalesced_app. split; [exact Hc1|]. cbn [coalesced app].
      split; [auto|]. apply coalesced_weaken. exact Hc2.
  - unfold h3. rewrite brk_upd. exact Hk2.
Qed.

(** The words of the user's when a block and the free block after it are
    laid out anew. *)
Lemma keeps_grown h h' bs1 words ow bs2 :
  keeps h h' bs1 (1 + spans bs1 + spans [(words, true); (ow, false)]) bs2 ->
  (forall x, 1 + spans bs1 < x <= 1 + spans bs1 + words ->
             word h' x = word h x) ->
  forall x, apayload 1 (bs1 ++ [(words, true); (ow, false)] ++ bs2) x ->
            word h' x = word h x.
Proof.
  intros Hk Hown x Hx.
  destruct (keeps_around _ _ _ _ _ _ Hk Hx) as [Hm|Hm]; [|exact Hm].
  cbn [apayload] in Hm. destruct Hm as [[_ Hm]|[[[=] _]|[]]].
  apply Hown, Hm.
Qed.

(** When the block cannot grow in place [realloc] allocates, copies and
    frees. *)
Lemma realloc_falls_back fuel h ix bs1 words bs2 size :
  wf_with h (bs1 ++ [(words, true)] ++ bs2) ix ->
  0 < size <= 2 ^ 30 -> words < adjust size ->
  match bs2 with
  | (ow, false) :: _ => ow + 1 < adjust size - words
  | _ => True
  end ->
  realloc fuel (Some (1 + spans bs1 + 1)) size h
  = (let* new := malloc fuel size in
     let* sz := block_size (1 + spans bs1) in
     memcpy new (1 + spans bs1 + 1) (u32 (sz * WSIZE) / WSIZE);;
     free fuel (Some (1 + spans bs1 + 1));;
     ret new) h.
Proof.
  intros Hwf Hsize Hgrow Hnext.
  destruct (adjust_small size Hsize) as (Hnw & Hnwo & _).
  set (nw := adjust size) in *.
  destruct (wf_lseg_prefix _ _ _ _ Hwf) as (pm & HP & HT).
  apply tail_seg_cons in HT as [Hb HT]. unfold span in HT.
  set (b := 1 + spans bs1) in *.
  pose proof (lseg_le _ _ _ _ _ _ HP) as Hlo.
  pose proof (tail_seg_le _ _ _ _ HT) as Hhb.
  destruct (blk_fields _ _ _ _ _ Hb) as (Hbs & Hbf & Hbp & Hbr).
  pose proof (blk_alloc_pos _ _ _ _ Hb) as Hb1.
  cbn [negb] in Hbf.
  unfold realloc, block_block. cbv zeta.
  rewrite (proj2 (Z.eqb_neq size 0)) by lia.
  replace (b + 1 - 1) with b by lia.
  step. rewrite Hbs. fold nw.
  rewrite (proj2 (Z.eqb_neq nw words)) by lia.
  rewrite Z.gtb_ltb, (proj2 (Z.ltb_ge nw words)) by lia.
  cbn [orb andb].
  step. rewrite Hbf, Hbs.
  replace (b + words + 1) with (b + (words + 1)) by lia.
  step.
  destruct bs2 as [|[ow [|]] bs2].
  - apply tail_seg_nil in HT as [_ Hw].
    rewrite (free_at_hdr _ _ _ _ _ Hw) by lia. reflexivity.
  - apply tail_seg_cons in HT as [Hnb _].
    destruct (blk_fields _ _ _ _ _ Hnb) as (_ & -> & _). reflexivity.
  - apply tail_seg_cons in HT as [Hnb HT'].
    destruct (blk_fields _ _ _ _ _ Hnb) as (Hns & -> & _ & Hnr).
    pose proof (tail_seg_le _ _ _ _ HT') as Hhb'. unfold span in Hhb'.
    cbn [negb]. step. rewrite Hns.
    replace (to_int (u32 (u32 (ow + 1) - u32 (nw - words))))
      with (ow + 1 - (nw - words)).
    2:{ unfold u32. rewrite (Z.mod_small (ow + 1)) by lia.
        rewrite (Z.mod_small (nw - words)) by lia.
        replace ((ow + 1 - (nw - words)) mod 2 ^ 32)
          with (ow + 1 - (nw - words) + 2 ^ 32).
        - unfold to_int.
          destruct (Z.ltb_spec (ow + 1 - (nw - words) + 2 ^ 32) (2 ^ 31)); lia.
        - apply Z.mod_unique with (q := -1); lia. }
    rewrite Z.geb_leb, (proj2 (Z.leb_gt _ _)) by lia.
    rewrite Z.geb_leb, (proj2 (Z.leb_gt _ _)) by lia.
    reflexivity.
Qed.

(** X20.  [realloc] to a larger size when the next block is free and
    large enough to leave a free rest ([remain >= 3]): the block grows in
    place to [nwords] words, the next block leaves the index and its rest
    of [owords - (nwords - words)] words enters it; the same pointer is
    returned, the invariant holds, and no word after the header of an
    allocated block, this one among them, is written. *)
Theorem realloc_grows_into_next_block
  (fuel : nat) (h : heap) (ix : index) (bs1 : list (Z * bool)) (words ow : Z)
  (bs2 : list (Z * bool)) (size : Z) :
  wf_with h (bs1 ++ [(words, true); (ow, false)] ++ bs2) ix ->
  0 < size < 2 ^ 64 -> words < adjust size ->
  3 <= ow + 1 - (adjust size - words) ->
  (theight (bigs ix) < fuel)%nat ->
  exists h',
    realloc fuel (Some (1 + spans bs1 + 1)) size h
    = Ok (Some (1 + spans bs1 + 1), h') /\
    wf_with h'
      (bs1 ++ [(adjust size, true); (ow - (adjust size - words), false)]
           ++ bs2)
      (iinsert (ow - (adjust size - words))
         (1 + spans bs1 + adjust size + 1)
         (idelete ow (1 + spans bs1 + words + 1) ix)) /\
    brk h' = brk h /\
    (forall x, apayload 1 (bs1 ++ [(words, true); (ow, false)] ++ bs2) x ->
               word h' x = word h x).
Proof.
  intros Hwf Hsize Hgrow Hroom Hfuel.
  destruct (outcome_enough _ _ _
              (realloc_grow_split fuel h ix bs1 words ow bs2 size Hwf Hsize
                 Hgrow ltac:(lia)) ltac:(lia))
    as (r & h' & E & -> & Hwf' & Hk & Hkp & Hown).
  exists h'. refine (conj E (conj Hwf' (conj Hk _))).
  exact (keeps_grown _ _ _ _ _ _ Hkp Hown).
Qed.

(** X21.  [realloc] to a larger size when the next block is free and
    [0 <= remain < 3]: sizes being odd for allocated and even for free
    blocks, [remain] is 1; the block takes the whole next block, header
    and footer included, and has [words + owords + 2 = nwords + 2] words;
    the next block leaves the index, the prev_alloc bit of the block
    after it is set, the same pointer is returned and the invariant
    holds; no word after the header of an allocated block, this one
    among them, is written. *)
Theorem realloc_takes_whole_next_block
  (fuel : nat) (h : heap) (ix : index) (bs1 : list (Z * bool)) (words ow : Z)
  (bs2 : list (Z * bool)) (size : Z) :
  wf_with h (bs1 ++ [(words, true); (ow, false)] ++ bs2) ix ->
  0 < size < 2 ^ 64 -> words < adjust size ->
  0 <= ow + 1 - (adjust size - words) < 3 ->
  (theight (bigs ix) < fuel)%nat ->
  exists h',
    realloc fuel (Some (1 + spans bs1 + 1)) size h
    = Ok (Some (1 + spans bs1 + 1), h') /\
    wf_with h' (bs1 ++ [(words + ow + 2, true)] ++ bs2)
      (idelete ow (1 + spans bs1 + words + 1) ix) /\
    brk h' = brk h /\
    ow + 1 - (adjust size - words) = 1 /\
    (forall x, apayload 1 (bs1 ++ [(words, true); (ow, false)] ++ bs2) x ->
               word h' x = word h x).
Proof.
  intros Hwf Hsize Hgrow Hroom Hfuel.
  destruct (outcome_enough _ _ _
              (realloc_grow_absorb fuel h ix bs1 words ow bs2 size Hwf Hsize
                 Hgrow ltac:(lia)) ltac:(lia))
    as (r & h' & E & -> & Hwf' & Hk & Eow & Hkp & Hown).
  exists h'. refine (conj E (conj Hwf' (conj Hk (conj _ _)))); [lia|].
  exact (keeps_grown _ _ _ _ _ _ Hkp Hown).
Qed.

(** X22.  [realloc] does not test the result of [malloc] either: when
    the block cannot grow in place (the next block is allocated, or free
    and too small), no free block fits and the oracle has no room,
    [malloc] returns [NULL] and [memcpy] copies the old block to
    [NULL].  A free next block is too small when
    [owords + 1 < nwords - words]. *)
Theorem realloc_out_of_memory_faults
  (fuel : nat) (h : heap) (ix : index) (bs1 : list (Z * bool)) (words : Z)
  (bs2 : list (Z * bool)) (size : Z) :
  wf_with h (bs1 ++ [(words, true)] ++ bs2) ix ->
  max_brk <= 2 ^ 30 -> 0 < size <= 2 ^ 30 -> words < adjust size ->
  match bs2 with
  | (ow, false) :: _ => ow + 1 < adjust size - words
  | _ => True
  end ->
  (forall c, c ∈ frees 1 (bs1 ++ [(words, true)] ++ bs2) ->
             size_at h c < adjust size - 1) ->
  max_brk < brk h + (ewords_of h (adjust size) + 1) ->
  (S (theight (bigs ix)) < fuel)%nat ->
  malloc fuel size h = Ok (None, h) /\
  realloc fuel (Some (1 + spans bs1 + 1)) size h = Fault.
Proof.
  intros Hwf Hmax Hsize Hgrow Hnext Hmiss Hfull Hfuel.
  destruct (outcome_enough _ _ _
              (malloc_miss fuel h _ ix size Hwf Hmax Hsize Hmiss)
              ltac:(lia)) as (r & h' & E & Hr).
  rewrite decide_True in Hr by exact Hfull.
  destruct Hr as [-> ->]. split; [exact E|].
  destruct (wf_lseg_prefix _ _ _ _ Hwf) as (pm & HP & HT).
  apply tail_seg_cons in HT as [Hb HT]. unfold span in HT.
  pose proof (lseg_le _ _ _ _ _ _ HP) as Hlo.
  pose proof (tail_seg_le _ _ _ _ HT) as Hhb.
  destruct (blk_fields _ _ _ _ _ Hb) as (Hbs & _ & _ & Hbr).
  pose proof (blk_alloc_pos _ _ _ _ Hb) as Hb1.
  rewrite (realloc_falls_back fuel h ix bs1 words bs2 size Hwf Hsize Hgrow
             Hnext).
  rewrite (bind_Ok _ _ _ _ _ E).
  rewrite (bind_Ok _ _ _ _ _ (block_size_eq (1 + spans bs1) h ltac:(lia))).
  rewrite Hbs. unfold memcpy, bind, u32, WSIZE.
  rewrite Z.mod_small, Z.div_mul by lia.
  rewrite (proj2 (Z.eqb_neq words 0)) by lia. reflexivity.
Qed.

(** X23.  [realloc] to a smaller size that frees a rest
    ([words - nwords >= 4]) keeps the contents: the same pointer is
    returned, the block has [nwords] words, its first [nwords] words
    after the header are as they were, so are the words of the other
    allocated blocks, and the invariant holds. *)
Theorem realloc_shrink_keeps_contents
  (fuel : nat) (h : heap) (ix : index) (bs1 : list (Z * bool)) (words : Z)
  (bs2 : list (Z * bool)) (size : Z) :
  wf_with h (bs1 ++ [(words, true)] ++ bs2) ix ->
  0 < size < 2 ^ 64 -> adjust size + 4 <= words ->
  (theight (bigs ix) < fuel)%nat ->
  exists h' bs' ix',
    realloc fuel (Some (1 + spans bs1 + 1)) size h
    = Ok (Some (1 + spans bs1 + 1), h') /\
    wf_with h' bs' ix' /\
    brk h' = brk h /\
    1 + spans bs1 ∈ allocs 1 bs' /\
    size_at h' (1 + spans bs1) = adjust size /\
    (forall x, 1 + spans bs1 < x <= 1 + spans bs1 + adjust size ->
               word h' x = word h x) /\
    (forall x, apayload 1 bs1 x \/ apayload (1 + spans bs1 + words + 1) bs2 x ->
               word h' x = word h x).
Proof.
  intros Hwf Hsize Hshr Hfuel.
  assert (Hblk : forall h' n rest ix',
            wf_with h' (bs1 ++ (n, true) :: rest) ix' ->
            size_at h' (1 + spans bs1) = n).
  { intros h' n rest ix' Hwf'.
    destruct (wf_lseg_prefix _ _ _ _ Hwf') as (pm & _ & HT).
    apply tail_seg_cons in HT as [Hb _].
    destruct (blk_fields _ _ _ _ _ Hb) as (E & _). exact E. }
  destruct bs2 as [|[ns [|]] bs2'].
  - destruct (outcome_enough _ _ _
                (realloc_shrink_insert fuel h ix bs1 words [] size Hwf I
                   Hsize Hshr) ltac:(lia))
      as (r & h' & E & -> & Hwf' & Hk & Hkp & Hown).
    exists h'. eexists. eexists.
    refine (conj E (conj Hwf' (conj Hk (conj _ (conj _ (conj Hown _)))))).
    + apply (addrs_mid true 1 bs1).
    + apply (Hblk _ _ _ _ Hwf').
    + intros x Hx. apply Hkp. cbn [spans span].
      replace (1 + spans bs1 + (words + 1 + 0))
        with (1 + spans bs1 + words + 1) by lia.
      exact Hx.
  - destruct (outcome_enough _ _ _
                (realloc_shrink_insert fuel h ix bs1 words
                   ((ns, true) :: bs2') size Hwf I Hsize Hshr) ltac:(lia))
      as (r & h' & E & -> & Hwf' & Hk & Hkp & Hown).
    exists h'. eexists. eexists.
    refine (conj E (conj Hwf' (conj Hk (conj _ (conj _ (conj Hown _)))))).
    + apply (addrs_mid true 1 bs1).
    + apply (Hblk _ _ _ _ Hwf').
    + intros x Hx. apply Hkp. cbn [spans span].
      replace (1 + spans bs1 + (words + 1 + 0))
        with (1 + spans bs1 + words + 1) by lia.
      exact Hx.
  - destruct (outcome_enough _ _ _
                (realloc_shrink_merge fuel h ix bs1 words ns bs2' size Hwf
                   Hsize Hshr) ltac:(lia))
      as (r & h' & E & -> & Hwf' & Hk & Hkp & Hown).
    exists h'. eexists. eexists.
    refine (conj E (conj Hwf' (conj Hk (conj _ (conj _ (conj Hown _)))))).
    + apply (addrs_mid true 1 bs1).
    + apply (Hblk _ _ _ _ Hwf').
    + intros x Hx. apply Hkp. cbn [spans span].
      destruct Hx as [Hx|Hx]; [left; exact Hx|right].
      cbn [apayload span] in Hx. destruct Hx as [[[=] _]|Hx].
      replace (1 + spans bs1 + (words + 1 + (ns + 2 + 0)))
        with (1 + spans bs1 + words + 1 + (ns + 2)) by lia.
      exact Hx.
Qed.

(** ** [realloc]: moving the block *)

(** [memcpy] between the payloads of two allocated blocks. *)
Lemma memcpy_words_payload bs ix cs cd :
  forall (n : nat) (dst src : addr) (h : heap),
  wf_with h bs ix -> cs ∈ allocs 1 bs -> cd ∈ allocs 1 bs -> cs <> cd ->
  cs < src -> src + Z.of_nat n <= cs + size_at h cs + 1 ->
  cd < dst -> dst + Z.of_nat n <= cd + size_at h cd + 1 ->
  exists h',
    memcpy_words n dst src h = Ok (tt, h') /\
    wf_with h' bs ix /\ brk h' = brk h /\
    (forall i, 0 <= i < Z.of_nat n -> word h' (dst + i) = word h (src + i)) /\
    (forall x, ~ (dst <= x < dst + Z.of_nat n) -> word h' x = word h x).
Proof.
  induction n as [|n IH]; intros dst src h Hwf Hcs Hcd Hne Hs Hsn Hd Hdn.
  - exists h. cbn [memcpy_words ret].
    refine (conj eq_refl (conj Hwf (conj eq_refl (conj _ _)))).
    + intros i Hi. lia.
    + reflexivity.
  - pose proof Hwf as ((pe & HL & _) & _).
    destruct (addrs_blk _ _ _ _ _ _ _ _ HL Hcs)
      as (szs & pcs & Hbs & Hlos & His & _).
    destruct (addrs_blk _ _ _ _ _ _ _ _ HL Hcd)
      as (szd & pcd & Hbd & Hlod & Hid & _).
    destruct (blk_fields _ _ _ _ _ Hbs) as (Hss & _).
    destruct (blk_fields _ _ _ _ _ Hbd) as (Hsd & _).
    unfold span in His, Hid.
    cbn [memcpy_words].
    rewrite (bind_Ok _ _ _ _ _ (load_eq src h ltac:(lia))).
    rewrite (bind_Ok _ _ _ _ _ (store_eq dst (word h src) h ltac:(lia))).
    set (h1 := upd dst (word h src) h).
    assert (Hwf1 : wf_with h1 bs ix)
      by (apply (wf_payload_write h bs ix cd dst _ Hwf Hcd); lia).
    pose proof Hwf1 as ((pe1 & HL1 & _) & _).
    assert (Hs1 : forall c, c ∈ allocs 1 bs -> size_at h1 c = size_at h c).
    { intros c Hc.
      exact (addrs_same_size _ _ _ _ _ _ _ _ _ _ _ _ HL HL1 Hc). }
    destruct (IH (dst + 1) (src + 1) h1 Hwf1 Hcs Hcd Hne ltac:(lia)
                ltac:(rewrite (Hs1 cs Hcs); lia) ltac:(lia)
                ltac:(rewrite (Hs1 cd Hcd); lia))
      as (h' & E & Hwf' & Hk & Hcp & Hfr).
    exists h'.
    refine (conj E (conj Hwf' (conj _ (conj _ _)))).
    + rewrite Hk. apply brk_upd.
    + intros i Hi. destruct (Z.eq_dec i 0) as [->|Hi0].
      * rewrite !Z.add_0_r, Hfr by lia. apply word_upd_eq.
      * replace (dst + i) with (dst + 1 + (i - 1)) by lia.
        rewrite Hcp by lia.
        replace (src + 1 + (i - 1)) with (src + i) by lia.
        apply word_upd_ne. intros Heq.
        apply Hne.
        apply (payload_disjoint _ _ _ _ _ _ _ _ cs cd (src + i) HL Hcs Hcd);
          lia.
    + intros x Hx. rewrite Hfr by lia. apply word_upd_ne. lia.
Qed.

(** X24.  [realloc] to a larger size when the block cannot grow in
    place and [malloc] finds a block: the new block holds the [words]
    words of the old one, the old block is freed, the new pointer is
    returned, no word of another allocated block is written and the
    invariant holds.  The old block has at least 3 words, as every block
    that [malloc] hands out. *)
Theorem realloc_moves_block
  (fuel : nat) (h : heap) (ix : index) (bs1 : list (Z * bool)) (words : Z)
  (bs2 : list (Z * bool)) (size : Z) (q : addr) (h1 : heap) :
  wf_with h (bs1 ++ [(words, true)] ++ bs2) ix ->
  max_brk <= 2 ^ 30 -> 0 < size <= 2 ^ 30 ->
  3 <= words < adjust size ->
  match bs2 with
  | (ow, false) :: _ => ow + 1 < adjust size - words
  | _ => True
  end ->
  malloc fuel size h = Ok (Some q, h1) ->
  (S (S (theight (bigs ix))) < fuel)%nat ->
  exists h' bs' ix',
    realloc fuel (Some (1 + spans bs1 + 1)) size h = Ok (Some q, h') /\
    wf_with h' bs' ix' /\
    q - 1 ∈ allocs 1 bs' /\
    (1 + spans bs1 ∉ allocs 1 bs') /\
    adjust size <= size_at h' (q - 1) /\
    (forall i, 0 <= i < words ->
               word h' (q + i) = word h (1 + spans bs1 + 1 + i)) /\
    (forall d x, d ∈ allocs 1 (bs1 ++ [(words, true)] ++ bs2) ->
                 d <> 1 + spans bs1 -> d < x <= d + size_at h d ->
                 d ∈ allocs 1 bs' /\ word h' x = word h x).
Proof.
  intros Hwf Hmax Hsize [Hw3 Hgrow] Hnext E Hfuel.
  set (b := 1 + spans bs1) in *.
  set (bs := bs1 ++ [(words, true)] ++ bs2) in *.
  assert (Hb : b ∈ allocs 1 bs) by apply (addrs_mid true 1 bs1).
  pose proof Hwf as ((pe0 & HL0 & _) & _).
  assert (Hbs : size_at h b = words).
  { destruct (wf_lseg_prefix _ _ _ _ Hwf) as (pm & _ & HT).
    apply tail_seg_cons in HT as [Hbk _].
    destruct (blk_fields _ _ _ _ _ Hbk) as (Es & _). exact Es. }
  pose proof (outcome_inv _ _ _ _ _
                (malloc_total fuel h bs ix size Hwf Hmax Hsize) E)
    as (bs' & ix' & Hwf1 & _ & (A & B & HA & HB) & Hfr & Hsz & Hn & Hpay
        & Hht).
  pose proof Hwf1 as ((pe1 & HL1 & _) & _).
  assert (Hq : q - 1 ∈ allocs 1 bs').
  { rewrite HA. apply elem_of_app. right. left. }
  assert (Hold : forall d, d ∈ allocs 1 bs -> d ∈ allocs 1 bs').
  { intros d Hd. rewrite HB in Hd. rewrite HA.
    apply elem_of_app in Hd as [Hd|Hd]; apply elem_of_app;
      [left; exact Hd|right; right; exact Hd]. }
  assert (Hne : b <> q - 1) by (intros Heq; apply Hfr; rewrite <- Heq; exact Hb).
  assert (Hbs1 : size_at h1 b = words) by (rewrite (Hsz b Hb); exact Hbs).
  destruct (addrs_blk _ _ _ _ _ _ _ _ HL1 (Hold b Hb))
    as (sz1 & pc1 & Hbk1 & Hlo1 & Hhi1 & _).
  pose proof (blk_span _ _ _ _ _ Hbk1) as Hsp1.
  (* the calls *)
  pose proof (realloc_falls_back fuel h ix bs1 words bs2 size Hwf Hsize
                Hgrow Hnext) as Efb.
  fold b in Efb. rewrite Efb. clear Efb.
  rewrite (bind_Ok _ _ _ _ _ E).
  rewrite (bind_Ok _ _ _ _ _ (block_size_eq b h1 ltac:(lia))), Hbs1.
  assert (Hwr : 0 <= words < 2 ^ 30).
  { destruct (wf_lseg_prefix _ _ _ _ Hwf) as (pm & _ & HT).
    apply tail_seg_cons in HT as [Hbk _].
    destruct (blk_fields _ _ _ _ _ Hbk) as (_ & _ & _ & Hr). exact Hr. }
  replace (u32 (words * WSIZE) / WSIZE) with words.
  2:{ unfold u32, WSIZE. rewrite Z.mod_small, Z.div_mul by lia.
      reflexivity. }
  unfold memcpy.
  destruct (memcpy_words_payload bs' ix' b (q - 1) (Z.to_nat words) q (b + 1)
              h1 Hwf1 (Hold b Hb) Hq Hne ltac:(lia)
              ltac:(rewrite Z2Nat.id, Hbs1 by lia; lia) ltac:(lia)
              ltac:(rewrite Z2Nat.id by lia; lia))
    as (h2 & Em & Hwf2 & Hk2 & Hcp & Hfm).
  rewrite Z2Nat.id in Hcp, Hfm by lia.
  rewrite (bind_Ok _ _ _ _ _ Em).
  pose proof Hwf2 as ((pe2 & HL2 & _) & _).
  assert (Hs2 : forall c, c ∈ allocs 1 bs' -> size_at h2 c = size_at h1 c).
  { intros c Hc.
    exact (addrs_same_size _ _ _ _ _ _ _ _ _ _ _ _ HL1 HL2 Hc). }
  destruct (outcome_enough _ _ _
              (free_total fuel h2 bs' ix' (b + 1) Hwf2
                 ltac:(replace (b + 1 - 1) with b by lia; exact (Hold b Hb))
                 ltac:(replace (b + 1 - 1) with b by lia;
                       rewrite (Hs2 b (Hold b Hb)), Hbs1; exact Hw3))
              ltac:(lia))
    as ([] & h3 & E3 & bs'' & ix'' & Hwf3 & Hk3 & (A' & B' & HA' & HB')
        & Hsz3 & Hpay3 & _).
  replace (b + 1 - 1) with b in HA' by lia.
  rewrite (bind_Ok _ _ _ _ _ E3).
  assert (Hnd : NoDup (allocs 1 bs')) by exact (addrs_NoDup _ _ _ _ _ _ true HL1).
  assert (Hstay : forall d, d ∈ allocs 1 bs' -> d <> b -> d ∈ allocs 1 bs'').
  { intros d Hd Hdb. rewrite HA' in Hd. rewrite HB'.
    apply elem_of_app in Hd as [Hd|Hd]; apply elem_of_app; [left; exact Hd|].
    apply elem_of_cons in Hd as [->|Hd]; [contradiction|right; exact Hd]. }
  assert (Hgone : b ∉ allocs 1 bs'').
  { rewrite HA' in Hnd. apply NoDup_app in Hnd as (_ & Hn2 & Hn3).
    apply NoDup_cons in Hn3 as [Hn4 _].
    rewrite HB'. intros Hin. apply elem_of_app in Hin as [Hin|Hin].
    - apply (Hn2 _ Hin). left.
    - exact (Hn4 Hin). }
  assert (Hq3 : q - 1 ∈ allocs 1 bs'') by (apply Hstay; [exact Hq|lia]).
  pose proof (kept_blocks h2 h3 bs'' ix'' Hwf3 Hsz3 Hpay3) as Hkept.
  exists h3, bs'', ix''.
  refine (conj eq_refl (conj Hwf3 (conj Hq3 (conj Hgone (conj _
            (conj _ _)))))).
  - rewrite (Hsz3 _ Hq3), (Hs2 _ Hq). lia.
  - intros i Hi.
    rewrite (Hkept (q - 1) (q + i) Hq3) by (rewrite (Hs2 _ Hq); lia).
    rewrite Hcp by exact Hi.
    replace (b + 1 + i) with (b + (1 + i)) by lia.
    apply Hpay. apply (apayload_alloc _ _ _ _ _ _ _ _ HL0 Hb). lia.
  - intros d x Hd Hdb Hx.
    assert (Hd3 : d ∈ allocs 1 bs'') by (apply Hstay; [apply Hold, Hd|exact Hdb]).
    split; [exact Hd3|].
    rewrite (Hkept d x Hd3)
      by (rewrite (Hs2 _ (Hold d Hd)), (Hsz d Hd); exact Hx).
    rewrite Hfm.
    + apply Hpay. exact (apayload_alloc _ _ _ _ _ _ _ _ HL0 Hd Hx).
    + intros Hqx. apply Hfr.
      rewrite <- (payload_disjoint _ _ _ _ _ _ _ _ d (q - 1) x HL1
                    (Hold d Hd) Hq); [exact Hd| |lia].
      rewrite (Hsz d Hd). exact Hx.
Qed.

(** ** [malloc] and [free] together *)

Lemma NoDup_split_eq {A} (x : A) (l1 l2 k1 k2 : list A) :
  NoDup (l1 ++ x :: l2) -> l1 ++ x :: l2 = k1 ++ x :: k2 ->
  l1 = k1 /\ l2 = k2.
Proof.
  revert k1. induction l1 as [|a l1 IH]; intros k1 Hnd E.
  - destruct k1 as [|b k1]; cbn [app] in *.
    + injection E as ->. auto.
    + injection E as <- ->. apply NoDup_cons in Hnd as [Hn _].
      exfalso. apply Hn. apply elem_of_app. right. left.
  - destruct k1 as [|b k1]; cbn [app] in *.
    + injection E as -> <-. apply NoDup_cons in Hnd as [Hn _].
      exfalso. apply Hn. apply elem_of_app. right. left.
    + injection E as <- E. apply NoDup_cons in Hnd as [_ Hnd].
      destruct (IH k1 Hnd E) as [-> ->]. auto.
Qed.

(** X25.  [malloc] followed by [free] of its result, on a heap that
    satisfies the invariant: both return, the heap satisfies the
    invariant, and the allocated blocks are those of before, in the same
    order, with the same sizes and the same words after their headers.
    ([free(NULL)] after a failed [malloc] does nothing.) *)
Theorem malloc_free_round_trip
  (fuel : nat) (h : heap) (bs : list (Z * bool)) (ix : index) (size : Z) :
  wf_with h bs ix -> max_brk <= 2 ^ 30 -> 0 < size <= 2 ^ 30 ->
  (S (S (theight (bigs ix))) < fuel)%nat ->
  exists h' bs' ix',
    (let* p := malloc fuel size in free fuel p) h = Ok (tt, h') /\
    wf_with h' bs' ix' /\
    allocs 1 bs' = allocs 1 bs /\
    (forall d, d ∈ allocs 1 bs -> size_at h' d = size_at h d) /\
    (forall d x, d ∈ allocs 1 bs -> d < x <= d + size_at h d ->
                 word h' x = word h x).
Proof.
  intros Hwf Hmax Hsize Hfuel.
  destruct (outcome_enough _ _ _ (malloc_total fuel h bs ix size Hwf Hmax Hsize)
              ltac:(lia)) as (r & h1 & E & Hr).
  rewrite (bind_Ok _ _ _ _ _ E).
  destruct r as [q|].
  2:{ destruct Hr as (-> & _). exists h, bs, ix.
      refine (conj eq_refl (conj Hwf (conj eq_refl (conj _ _)))); reflexivity. }
  destruct Hr as (bs1 & ix1 & Hwf1 & _ & (A & B & HA & HB) & Hfr & Hsz & Hn
                  & Hpay & Hht).
  destruct (adjust_small size Hsize) as (Haw & _).
  pose proof Hwf as ((pe0 & HL0 & _) & _).
  pose proof Hwf1 as ((pe1 & HL1 & _) & _).
  assert (Hq : q - 1 ∈ allocs 1 bs1).
  { rewrite HA. apply elem_of_app. right. left. }
  destruct (outcome_enough _ _ _
              (free_total fuel h1 bs1 ix1 q Hwf1 Hq ltac:(lia)) ltac:(lia))
    as ([] & h2 & E2 & bs2 & ix2 & Hwf2 & Hk2 & (A' & B' & HA' & HB')
        & Hsz2 & Hpay2 & _).
  assert (Hnd : NoDup (allocs 1 bs1)) by exact (addrs_NoDup _ _ _ _ _ _ true HL1).
  rewrite HA in Hnd, HA'.
  destruct (NoDup_split_eq _ _ _ _ _ Hnd HA') as [<- <-].
  assert (Hsame : allocs 1 bs2 = allocs 1 bs) by (rewrite HB', HB; reflexivity).
  exists h2, bs2, ix2.
  refine (conj E2 (conj Hwf2 (conj Hsame (conj _ _)))).
  - intros d Hd. rewrite Hsz2 by (rewrite Hsame; exact Hd). apply Hsz, Hd.
  - intros d x Hd Hx.
    rewrite (kept_blocks h1 h2 bs2 ix2 Hwf2 Hsz2 Hpay2 d x)
      by (rewrite ?Hsame, ?(Hsz d Hd); assumption).
    apply Hpay. exact (apayload_alloc _ _ _ _ _ _ _ _ HL0 Hd Hx).
Qed.

(** ** [in_list]: the small classes *)

(** X26.  [in_list] says yes for every block of a small class of the
    index: its [pred] and [succ] links and the list head of its class
    point the way [small_in_list] expects; the heap is only read. *)
Theorem in_list_finds_small_block
  (fuel : nat) (h : heap) (ix : index) (b : addr) :
  index_rep h ix -> spaced h (iblocks ix) -> b ∈ iblocks ix ->
  size_at h b <= SEG_LIST_SIZE * 2 ->
  in_list fuel b h = Ok (true, h).
Proof.
  intros Hix Hsp Hb Hsz.
  destruct (index_class h ix b Hix Hb)
    as [(i & l & Hi & Hbl & Hi6 & Hs)|[_ Hbig]]; [|lia].
  destruct (index_rep_small_class h ix i l Hix Hi)
    as (_ & Hhd & _ & Hd & _).
  assert (Hspl : spaced h l).
  { apply (spaced_sub h (iblocks ix)); [exact Hsp|].
    unfold iblocks. apply sublist_inserts_r.
    exact (sublist_concat_lookup _ _ _ Hi). }
  assert (Hin : forall c, c ∈ l -> 0 < c /\ c + 4 < brk h)
    by (intros c Hc; exact (spaced_in h l c Hspl Hc)).
  destruct (Hin b Hbl) as [Hb0 Hb4].
  apply list_elem_of_split in Hbl as (l1 & l2 & ->).
  destruct (chain_ptrs h l1 b l2 Hd Hspl) as [Hp Hn].
  unfold in_list.
  rewrite (bind_Ok _ _ _ _ _ (block_size_eq b h ltac:(lia))).
  rewrite (proj2 (Z.leb_le _ _) Hsz).
  unfold small_in_list.
  rewrite (bind_Ok _ _ _ _ _ (block_pred_eq b h ltac:(lia))), Hp.
  rewrite (bind_Ok _ _ _ _ _ (block_succ_eq b h ltac:(lia))), Hn.
  rewrite (bind_Ok _ _ _ _ _ (block_size_eq b h ltac:(lia))).
  rewrite Hs, (find_index_class i Hi6).
  assert (Hget : forall l',
            head_or (l1 ++ b :: l2) None = l' ->
            seg_get (Z.of_nat i) h = Ok (l', h)).
  { intros l' <-. apply seg_get_eq; [lia|]. rewrite Nat2Z.id. exact Hhd. }
  assert (Hnext : forall s l2', l2 = s :: l2' ->
            block_pred s h = Ok (Some b, h)).
  { intros s l2' ->.
    assert (Hs4 : 0 < s /\ s + 4 < brk h).
    { apply Hin. apply elem_of_app. right. right. left. }
    rewrite (block_pred_eq s h ltac:(lia)).
    change (l1 ++ b :: s :: l2') with (l1 ++ [b] ++ s :: l2') in Hd, Hspl.
    rewrite app_assoc in Hd, Hspl.
    destruct (chain_ptrs h (l1 ++ [b]) s l2' Hd Hspl) as [-> _].
    rewrite last_or_snoc. reflexivity. }
  destruct l1 as [|p0 l1'] using rev_ind.
  - change (last_or [] None) with (@None addr).
    cbn [app] in *.
    destruct l2 as [|s l2'].
    + cbn [head_or].
      rewrite (bind_Ok _ _ _ _ _ (Hget (Some b) eq_refl)).
      cbn [ret]. rewrite bool_decide_eq_true_2 by reflexivity. reflexivity.
    + cbn [head_or].
      rewrite (bind_Ok _ _ _ _ _ (Hget (Some b) eq_refl)).
      rewrite bool_decide_eq_true_2 by reflexivity.
      rewrite (bind_Ok _ _ _ _ _ (Hnext s l2' eq_refl)).
      cbn [ret]. rewrite bool_decide_eq_true_2 by reflexivity. reflexivity.
  - clear IHl1'. rewrite last_or_snoc.
    assert (Hp4 : 0 < p0 /\ p0 + 4 < brk h).
    { apply Hin. apply elem_of_app. left. apply elem_of_app. right. left. }
    assert (Hps : block_succ p0 h = Ok (Some b, h)).
    { rewrite (block_succ_eq p0 h ltac:(lia)).
      rewrite <- app_assoc in Hd, Hspl. cbn [app] in Hd, Hspl.
      destruct (chain_ptrs h l1' p0 (b :: l2) Hd Hspl) as [_ ->].
      reflexivity. }
    destruct l2 as [|s l2'].
    + cbn [head_or]. rewrite (bind_Ok _ _ _ _ _ Hps).
      cbn [ret]. rewrite bool_decide_eq_true_2 by reflexivity. reflexivity.
    + cbn [head_or]. rewrite (bind_Ok _ _ _ _ _ Hps).
      rewrite bool_decide_eq_true_2 by reflexivity.
      rewrite (bind_Ok _ _ _ _ _ (Hnext s l2' eq_refl)).
      cbn [ret]. rewrite bool_decide_eq_true_2 by reflexivity. reflexivity.
Qed.

(** ** [in_list]: the tree *)

(** X27.  [in_add_tree] takes the chain of blocks of one size for
    ordered by address, but [add] puts every new block at its head.  For
    a block of the chain at the root of the tree that lies below the
    head, [in_list] says no: [in_add_tree] turns to the [pred] of the
    head, which is [NULL]. *)
Theorem in_list_misses_ring_block
  (fuel : nat) (h : heap) (ix : index) (l : tree) (k : Z) (b : addr)
  (ring : list addr) (r : tree) (c : addr) :
  index_rep h ix -> spaced h (iblocks ix) ->
  bigs ix = Node l k b ring r -> c ∈ ring -> c < b ->
  (2 < fuel)%nat ->
  c ∈ iblocks ix /\ in_list fuel c h = Ok (false, h).
Proof.
  intros (_ & _ & _ & Hroot & Ht & _ & Hkeys) Hsp Hbig Hc Hlt Hfuel.
  rewrite Hbig in Hroot, Ht, Hkeys.
  cbn [troot tree_rep tkeys] in Hroot, Ht, Hkeys.
  destruct Ht as (Hd & Hsz & _).
  assert (Hk : SEG_LIST_SIZE * 2 < k).
  { rewrite Forall_forall in Hkeys. apply Hkeys.
    apply elem_of_app. right. left. }
  assert (Hin : forall x, x ∈ b :: ring -> x ∈ iblocks ix).
  { intros x Hx. unfold iblocks. rewrite Hbig. cbn [tblocks].
    apply elem_of_app. right. apply elem_of_app. right.
    apply elem_of_app. left. exact Hx. }
  assert (Hcin : c ∈ iblocks ix) by (apply Hin; right; exact Hc).
  split; [exact Hcin|].
  destruct (spaced_in h _ c Hsp Hcin) as [Hc0 Hc4].
  destruct (spaced_in h _ b Hsp (Hin b ltac:(left))) as [Hb0 Hb4].
  rewrite Forall_forall in Hsz.
  pose proof (Hsz c ltac:(right; exact Hc)) as Hsc.
  pose proof (Hsz b ltac:(left)) as Hsb.
  destruct Hd as (Hpb & _).
  unfold in_list.
  rewrite (bind_Ok _ _ _ _ _ (block_size_eq c h ltac:(lia))), Hsc.
  rewrite (proj2 (Z.leb_gt _ _) Hk).
  unfold find_root, SEG_LIST_SIZE in *.
  rewrite (proj2 (Z.eqb_neq k 2)), (proj2 (Z.eqb_neq k 4)) by lia.
  unfold bind at 1, root_get. rewrite Hroot.
  destruct fuel as [|[|[|fuel]]]; try lia.
  unfold in_size_tree. cbn [in_tree].
  rewrite (bind_Ok _ _ _ _ _ (cmp_size_eq c b h ltac:(lia) ltac:(lia))).
  rewrite Hsc, Hsb. unfold cmp_uint at 1 2.
  rewrite Z.gtb_ltb, Z.ltb_irrefl.
  change (0 =? 1) with false. change (0 =? -1) with false. cbv iota.
  unfold cmp_add, cmp_uint.
  rewrite Z.gtb_ltb, (proj2 (Z.ltb_ge b c)) by lia.
  rewrite (proj2 (Z.ltb_lt c b)) by lia.
  change (-1 =? 1) with false. change (-1 =? -1) with true. cbv iota.
  rewrite (bind_Ok _ _ _ _ _ (block_pred_eq b h ltac:(lia))), Hpb.
  reflexivity.
Qed.
(** ** What [find_fit] returns on a heap that satisfies the invariant *)

(** X28.  [find_fit(w)] under its [REQUIRES], [w >= 2] and [w] even, on a
    heap that satisfies the invariant: it returns and leaves the heap as
    it is; the result is null only when no free block has [w] words or
    more, and otherwise a free block of at least [w] words such that no
    free block of at least [w] words is smaller.  The block returned is
    the head of its chain, the one that [block_pred] maps to null. *)
Theorem find_fit_best_fit_chain_head h bs ix w :
  wf_with h bs ix -> 2 <= w -> Z.even w = true ->
  exists r,
    (forall fuel, (theight (bigs ix) < fuel)%nat ->
                  find_fit fuel w h = Ok (r, h)) /\
    match r with
    | Some b =>
        b ∈ frees 1 bs /\ free_at h b = true /\ w <= size_at h b /\
        (forall c, c ∈ frees 1 bs -> w <= size_at h c ->
                   size_at h b <= size_at h c) /\
        block_pred b h = Ok (None, h)
    | None => forall c, c ∈ frees 1 bs -> size_at h c < w
    end.
Proof.
  intros Hwf Hw He.
  pose proof (wf_spaced _ _ _ Hwf) as Hsp.
  destruct Hwf as ((pe & HL & Hepi) & Hco & Hix & Hperm & Hbrk).
  exists (ifind w ix). split.
  - intros fuel Hf.
    pose proof (find_fit_spec fuel h ix w Hix Hsp Hw He) as Ho.
    destruct (find_fit fuel w h) as [[r h']| |]; simpl in Ho.
    + destruct Ho as [-> ->]. reflexivity.
    + contradiction.
    + lia.
  - pose proof (ifind_best h ix w Hix Hw He) as Hb.
    destruct (ifind w ix) as [b|].
    + destruct Hb as (Hin & Hsz & Hmin & Hp).
      rewrite Hperm in Hin.
      destruct (addrs_blk _ _ _ _ _ _ _ _ HL Hin)
        as (sz & pc & Hblk & Hlo & Hhi & _).
      destruct (blk_fields _ _ _ _ _ Hblk) as (_ & Hfree & _).
      refine (conj Hin (conj Hfree (conj Hsz (conj _ _)))).
      * intros c Hc. apply Hmin. rewrite Hperm. exact Hc.
      * unfold block_pred.
        rewrite (bind_Ok _ _ h _ _ (load_eq (b + 1) h
                   ltac:(pose proof (blk_span _ _ _ _ _ Hblk); lia))).
        rewrite Hp. reflexivity.
    + intros c Hc. apply Hb. rewrite Hperm. exact Hc.
Qed.

(** ** C6: how far a miss extends the heap *)

(** The number of words asked of [extend_heap], by the last block. *)
Lemma ewords_of_last h bs ix aw :
  wf_with h bs ix ->
  ewords_of h aw = match last bs with
                   | Some (L, false) => aw - L - 2
                   | _ => aw
                   end.
Proof.
  intros Hwf. unfold ewords_of.
  pose proof Hwf as ((pe & HL & He) & _).
  pose proof (lseg_last _ _ _ _ _ _ HL) as Epe.
  pose proof (prev_free_at_hdr _ _ _ _ _ He ltac:(lia)) as Hpf.
  destruct bs as [|[L al] bs0 _] using rev_ind.
  - cbn [last_alloc] in Epe. subst pe. rewrite Hpf. reflexivity.
  - rewrite last_alloc_app in Epe. cbn [last_alloc] in Epe. subst pe.
    rewrite last_snoc. destruct al; rewrite Hpf; cbn [negb]; [reflexivity|].
    destruct (last_free_block h _ ix Hwf Hpf)
      as (bs1 & L1 & E & _ & Hsz & _).
    apply app_inj_tail in E as [_ E]. injection E as <-.
    rewrite Hsz. reflexivity.
Qed.

(** C6, amended: on a heap that satisfies the invariant, with at most
    2^30 words of arena and for a request of [0 < size <= 2^30] bytes,
    when [find_fit(awords - 1)] returns null [malloc] extends the heap by
    [awords + 1] words, the adjusted size and the word of the new epilogue,
    if the last block is allocated (or there is no block), and by
    [awords - L - 2 + 1] words if the last block is free with [L] words,
    whatever [CHUNKSIZE] is: when the oracle has room for them [malloc]
    returns a block and the break has advanced by that number, otherwise
    [malloc] returns [NULL] and the heap is as it was.  [CHUNKSIZE], a
    constant between 64 and 4096 words, sizes only the extension made by
    [mm_init]. *)
Theorem malloc_miss_extends_by_awords
  (fuel : nat) (h : heap) (bs : list (Z * bool)) (ix : index) (size : Z) :
  wf_with h bs ix -> max_brk <= 2 ^ 30 -> 0 < size <= 2 ^ 30 ->
  (S (theight (bigs ix)) < fuel)%nat ->
  find_fit fuel (adjust size - 1) h = Ok (None, h) ->
  let ext := match last bs with
             | Some (L, false) => adjust size - L - 2 + 1
             | _ => adjust size + 1
             end in
  (brk h + ext <= max_brk ->
   exists p h', malloc fuel size h = Ok (Some p, h') /\
                brk h' = brk h + ext) /\
  (max_brk < brk h + ext -> malloc fuel size h = Ok (None, h)) /\
  64 <= CHUNKSIZE <= 4096.
Proof.
  intros Hwf Hmax Hsize Hfuel Hfit ext.
  destruct (adjust_small size Hsize) as (Haw & Hodd & _).
  assert (Hev : Z.even (adjust size - 1) = true).
  { rewrite Z.even_sub, <- Z.negb_odd, Hodd. reflexivity. }
  assert (Hmiss : forall c, c ∈ frees 1 bs -> size_at h c < adjust size - 1).
  { pose proof (wf_spaced _ _ _ Hwf) as Hsp.
    pose proof Hwf as (_ & _ & Hix & Hperm & _).
    assert (Hw : 2 <= adjust size - 1) by lia.
    pose proof (find_fit_spec fuel h ix _ Hix Hsp Hw Hev) as Ho.
    rewrite Hfit in Ho. destruct Ho as [_ Ei].
    pose proof (ifind_best h ix _ Hix Hw Hev) as Hb.
    rewrite <- Ei in Hb. intros c Hc. apply Hb. rewrite Hperm. exact Hc. }
  assert (Eext : ext = ewords_of h (adjust size) + 1).
  { unfold ext. rewrite (ewords_of_last h bs ix _ Hwf).
    destruct (last bs) as [[L []]|]; reflexivity. }
  destruct (outcome_enough _ _ _
              (malloc_miss fuel h bs ix size Hwf Hmax Hsize Hmiss)
              ltac:(lia)) as (r & h' & E & Hr).
  rewrite <- Eext in Hr.
  refine (conj _ (conj _ _)).
  - intros Hroom. rewrite decide_False in Hr by lia.
    destruct Hr as (p & -> & _ & Hbrk). exists p, h'. split; assumption.
  - intros Hfull. rewrite decide_True in Hr by exact Hfull.
    destruct Hr as [-> ->]. exact E.
  - unfold CHUNKSIZE. lia.
Qed.

(** ** C3: zero-initialised allocation *)

(** C3, amended: [calloc(n, m)] does not test the product for overflow; it
    asks [malloc] for [n * m] reduced modulo 2^64.  When the reduced
    product is 0 it returns [NULL] and leaves the heap as it was.  When
    the reduced product is between 1 and 2^30, on a heap that satisfies the
    invariant [malloc] returns, and: if it returns a block, [calloc]
    returns that block, with as many bytes as the reduced product set to 0
    and no other word changed after [malloc], and the invariant holds; if
    it returns [NULL], [calloc] does not return [NULL] but writes through
    the null pointer, [memset(NULL, 0, bytes)] with a count that is not
    0. *)
Theorem calloc_wraps (fuel : nat) (n m : Z) (h : heap) :
  (u64 (n * m) = 0 -> calloc fuel n m h = Ok (None, h)) /\
  (forall bs ix,
     wf_with h bs ix -> max_brk <= 2 ^ 30 -> 0 < u64 (n * m) <= 2 ^ 30 ->
     (S (theight (bigs ix)) < fuel)%nat ->
     exists r h1,
       malloc fuel (u64 (n * m)) h = Ok (r, h1) /\
       match r with
       | Some p =>
           exists h',
             calloc fuel n m h = Ok (Some p, h') /\
             (exists bs' ix', wf_with h' bs' ix' /\ p - 1 ∈ allocs 1 bs') /\
             brk h' = brk h1 /\
             (forall x, p <= x < p + u64 (n * m) / 4 -> word h' x = 0) /\
             word h' (p + u64 (n * m) / 4)
               mod 2 ^ (8 * (u64 (n * m) mod 4)) = 0 /\
             (forall x, ~ (p <= x < p + (u64 (n * m) + 3) / 4) ->
                        word h' x = word h1 x)
       | None => h1 = h /\ calloc fuel n m h = Fault
       end).
Proof.
  split.
  - intros E. unfold calloc. rewrite E. reflexivity.
  - intros bs ix Hwf Hmax Hbytes Hfuel.
    destruct (outcome_enough _ _ _
                (malloc_total fuel h bs ix _ Hwf Hmax Hbytes)
                ltac:(lia)) as (r & h1 & E & Hr).
    exists r, h1. split; [exact E|].
    destruct r as [p|].
    + destruct Hr as (bs' & ix' & Hwf1 & _ & (A & B & HA & HB) & _ & _ & Hn
                      & _).
      destruct (adjust_small _ Hbytes) as (_ & _ & Hcov).
      assert (Hin : p - 1 ∈ allocs 1 bs').
      { rewrite HA. apply elem_of_app. right. left. }
      destruct (memset0_payload h1 bs' ix' p (u64 (n * m)) Hwf1 Hin
                  ltac:(lia)) as (h' & Em & Hwf' & Hk & Hz & Hlast & Hf).
      exists h'.
      refine (conj _ (conj _ (conj Hk (conj Hz (conj Hlast Hf))))).
      * unfold calloc.
        rewrite (bind_Ok _ _ _ _ _ E), (bind_Ok _ _ _ _ _ Em). reflexivity.
      * exists bs', ix'. split; assumption.
    + destruct Hr as (-> & _). split; [reflexivity|].
      unfold calloc. rewrite (bind_Ok _ _ _ _ _ E). unfold memset0, bind.
      rewrite (proj2 (Z.eqb_neq _ 0)) by lia. reflexivity.
Qed.

(** ** C10: the sizes of the allocated blocks in the states a client reaches *)
















Lemma revoke_sub p q n g : (q, n) ∈ revoke p g -> (q, n) ∈ g /\ q <> p.
Proof.
  unfold revoke. intros H. apply list_elem_of_filter in H as [Hq H].
  split; [exact H|exact Hq].
Qed.







End Allocator.

(** * Concrete runs *)

(** An oracle for the runs below: an arena of 2^20 words beyond
    [heap_listp], zero-filled, with [heap_listp] at an address that is a
    multiple of 8. *)
Definition junk0 : Z -> Z := fun _ => 0.
Definition max_brk0 : Z := 2 ^ 20.
Definition heap_listp0 : Z := 48.

(** Splitting conjunctions only. *)
Ltac conj_split := match goal with |- _ /\ _ => split end.

(** Sequencing of calls whose results feed later calls. *)
Definition and_then {A B} (r : res (A * heap)) (k : A -> heap -> res B)
  : res B :=
  match r with
  | Ok (a, h) => k a h
  | Fault => Fault
  | OutOfFuel => OutOfFuel
  end.

(** The heap of scenario S1-like traces: four blocks of 60 bytes, the first
    and the third freed, in that order. *)
Definition two_free_of_60 (fuel : nat) : res (unit * heap) :=
  and_then (mm_init junk0 max_brk0 fuel) (fun _ h =>
  and_then (malloc junk0 max_brk0 fuel 60 h) (fun p1 h =>
  and_then (malloc junk0 max_brk0 fuel 60 h) (fun _ h =>
  and_then (malloc junk0 max_brk0 fuel 60 h) (fun p3 h =>
  and_then (malloc junk0 max_brk0 fuel 60 h) (fun _ h =>
  and_then (free junk0 fuel p1 h) (fun _ h =>
  free junk0 fuel p3 h)))))).

(** State after a run, or the untouched arena if the run did not return. *)
Definition heap_of {A} (r : res (A * heap)) : heap :=
  match r with Ok (_, h) => h | _ => arena end.

Definition heap_after_init : heap := heap_of (mm_init junk0 max_brk0 50).

Definition heap_two_free_of_60 : heap := heap_of (two_free_of_60 50).

(** [mm_init], then one block that takes the whole first chunk. *)
Definition heap_full : heap :=
  heap_of (malloc junk0 max_brk0 50 252 heap_after_init).

(** Four blocks of 8 bytes, the first and the third freed, and then a
    write of 0 through the stale pointer to the third, at its second
    payload word. *)
Definition heap_stale_write : heap :=
  heap_of
    (and_then (malloc junk0 max_brk0 50 8 heap_after_init) (fun p1 h =>
     and_then (malloc junk0 max_brk0 50 8 h) (fun _ h =>
     and_then (malloc junk0 max_brk0 50 8 h) (fun p3 h =>
     and_then (malloc junk0 max_brk0 50 8 h) (fun _ h =>
     and_then (free junk0 50 p1 h) (fun _ h =>
     and_then (free junk0 50 p3 h) (fun _ h =>
     store (default 0 p3 + 1) 0 h))))))).

(** ** C1 *)

(** C1, on the code: after [mm_init], four [malloc(60)] and the release of
    the first and then the third block, [mm_checkheap] returns -1.  The two
    free blocks have the same size, and [add] has put the later one, at the
    higher address, in front of the chain that [check_add_tree] expects in
    address order. *)
Theorem checkheap_rejects_reachable_heap :
  two_free_of_60 50 = Ok (tt, heap_two_free_of_60) /\
  mm_checkheap junk0 heap_listp0 50 1 heap_two_free_of_60
  = Ok (-1, heap_two_free_of_60).
Proof. split; vm_compute; reflexivity. Qed.

(** ** C2 *)

(** C2, on the code: after [mm_init], four [malloc(60)] and the release of
    the first and then the third block, the blocks at words 1 and 33 are
    free, of 14 words each and both in the index, and [find_fit(14)]
    returns the one at word 33, not the one at the lowest address.  [add]
    has put the block freed later in front of the chain, against its own
    comment, and [minimum(block, ADDRESS)] follows [block_pred] to the
    head of the chain. *)
Theorem find_fit_not_lowest_address :
  two_free_of_60 50 = Ok (tt, heap_two_free_of_60) /\
  block_free junk0 1 heap_two_free_of_60 = Ok (true, heap_two_free_of_60) /\
  block_size junk0 1 heap_two_free_of_60 = Ok (14, heap_two_free_of_60) /\
  block_size junk0 33 heap_two_free_of_60 = Ok (14, heap_two_free_of_60) /\
  seg_root heap_two_free_of_60 = Some 33 /\
  block_succ junk0 33 heap_two_free_of_60 = Ok (Some 1, heap_two_free_of_60) /\
  find_fit junk0 50 14 heap_two_free_of_60
  = Ok (Some 33, heap_two_free_of_60).
Proof.
  split; [vm_compute; reflexivity|].
  repeat split; vm_compute; reflexivity.
Qed.

(** The blocks of that heap and its index: one node of the tree, for 14
    words, with the block at word 33 in front of the one at word 1. *)
Definition blocks_two_free_of_60 : list (Z * bool) :=
  [(14, false); (15, true); (14, false); (17, true)].

Definition index_two_free_of_60 : index :=
  Index (replicate 6 []) (Node Leaf 14 33 [1] Leaf).

Lemma wf_two_free_of_60 :
  wf_with junk0 heap_two_free_of_60 blocks_two_free_of_60
    index_two_free_of_60.
Proof.
  refine (conj _ (conj _ (conj _ (conj _ _)))).
  - exists true. split; [|vm_compute; reflexivity].
    cbn [lseg blocks_two_free_of_60]. unfold blk.
    repeat conj_split; vm_compute; congruence.
  - cbn [coalesced blocks_two_free_of_60]. tauto.
  - refine (conj _ (conj _ (conj _ (conj _ (conj _ (conj _ _)))))).
    + vm_compute. reflexivity.
    + vm_compute. reflexivity.
    + intros i l Hl.
      assert (Hnil : l = []).
      { do 6 (destruct i as [|i]; [injection Hl as <-; reflexivity|]).
        discriminate. }
      subst l. split; [exact I|constructor].
    + vm_compute. reflexivity.
    + cbn [tree_rep index_two_free_of_60 bigs dseg].
      repeat conj_split; try exact I;
        try match goal with |- Forall _ _ => repeat constructor end;
        vm_compute; reflexivity.
    + cbn [bst index_two_free_of_60 bigs tkeys].
      repeat conj_split; try exact I; constructor.
    + cbn [index_two_free_of_60 bigs tkeys app].
      repeat constructor.
  - vm_compute. apply perm_swap.
  - vm_compute. congruence.
Qed.

(** [find_fit(14)] in that heap. *)
Lemma find_fit_best_fit_chain_head_witness :
  exists r,
    (forall fuel, (1 < fuel)%nat ->
       find_fit junk0 fuel 14 heap_two_free_of_60
       = Ok (r, heap_two_free_of_60)) /\
    match r with
    | Some b =>
        b ∈ frees 1 blocks_two_free_of_60 /\
        free_at junk0 heap_two_free_of_60 b = true /\
        14 <= size_at junk0 heap_two_free_of_60 b /\
        (forall c, c ∈ frees 1 blocks_two_free_of_60 ->
                   14 <= size_at junk0 heap_two_free_of_60 c ->
                   size_at junk0 heap_two_free_of_60 b
                   <= size_at junk0 heap_two_free_of_60 c) /\
        block_pred junk0 b heap_two_free_of_60
        = Ok (None, heap_two_free_of_60)
    | None => forall c, c ∈ frees 1 blocks_two_free_of_60 ->
                        size_at junk0 heap_two_free_of_60 c < 14
    end.
Proof.
  apply (find_fit_best_fit_chain_head junk0 heap_two_free_of_60
           blocks_two_free_of_60 index_two_free_of_60 14
           wf_two_free_of_60).
  - lia.
  - reflexivity.
Defined.

(** ** C4 *)

(** Four blocks of 8 bytes, the first and the third freed: the second lies
    between two free blocks of 2 words. *)
Definition heap_two_free_of_8 : heap :=
  heap_of
    (and_then (malloc junk0 max_brk0 50 8 heap_after_init) (fun p1 h =>
     and_then (malloc junk0 max_brk0 50 8 h) (fun _ h =>
     and_then (malloc junk0 max_brk0 50 8 h) (fun p3 h =>
     and_then (malloc junk0 max_brk0 50 8 h) (fun _ h =>
     and_then (free junk0 50 p1 h) (fun _ h =>
     free junk0 50 p3 h)))))).

Definition index_two_free_of_8 : index :=
  Index [[9; 1]; []; []; []; []; []] (Node Leaf 48 17 [] Leaf).

Lemma wf_two_free_of_8 :
  wf_with junk0 heap_two_free_of_8
    ([] ++ [(2, false); (3, true); (2, false)] ++ [(3, true); (48, false)])
    index_two_free_of_8.
Proof.
  refine (conj _ (conj _ (conj _ (conj _ _)))).
  - exists false. split; [|vm_compute; reflexivity].
    cbn [lseg app]. unfold blk.
    repeat conj_split; vm_compute; congruence.
  - cbn [coalesced app]. tauto.
  - refine (conj _ (conj _ (conj _ (conj _ (conj _ (conj _ _)))))).
    + vm_compute. reflexivity.
    + vm_compute. reflexivity.
    + intros i l Hl.
      destruct i as [|i].
      * injection Hl as <-. split.
        -- cbn [dseg]. repeat conj_split; try exact I; vm_compute; reflexivity.
        -- repeat constructor.
      * assert (Hnil : l = []).
        { do 5 (destruct i as [|i]; [injection Hl as <-; reflexivity|]).
          discriminate. }
        subst l. split; [exact I|constructor].
    + vm_compute. reflexivity.
    + cbn [tree_rep index_two_free_of_8 bigs dseg].
      repeat conj_split; try exact I;
        try match goal with |- Forall _ _ => repeat constructor end;
        vm_compute; reflexivity.
    + cbn [bst index_two_free_of_8 bigs tkeys].
      repeat conj_split; try exact I; constructor.
    + cbn [index_two_free_of_8 bigs tkeys app].
      repeat constructor.
  - vm_compute. apply perm_swap.
  - vm_compute. congruence.
Qed.

Lemma free_merges_both_neighbours_witness :
  exists h',
    free junk0 50 (Some (1 + spans [] + 2 + 2 + 1)) heap_two_free_of_8
    = Ok (tt, h') /\
    wf_with junk0 h' ([] ++ (2 + (3 - 1) + 2 + 4, false)
                         :: [(3, true); (48, false)])
      (iinsert (2 + (3 - 1) + 2 + 4) (1 + spans [])
         (idelete 2 (1 + spans [] + 2 + 2 + 3 + 1)
            (idelete 2 (1 + spans []) index_two_free_of_8))) /\
    free_at junk0 h' (1 + spans []) = true /\
    size_at junk0 h' (1 + spans []) = 2 + (3 - 1) + 2 + 4 /\
    size_at junk0 h' (1 + spans [] + (2 + (3 - 1) + 2 + 4) + 1)
    = 2 + (3 - 1) + 2 + 4 /\
    prev_free_at junk0 h' (1 + spans [] + (2 + (3 - 1) + 2 + 4) + 2) = true.
Proof.
  apply (free_merges_both_neighbours junk0 50 heap_two_free_of_8
           index_two_free_of_8 [] 2 3 2 [(3, true); (48, false)]
           wf_two_free_of_8).
  simpl. lia.
Defined.

(** ** C5 *)

(** One block of 40 bytes, 11 words, in front of the free rest of the first
    chunk. *)
Definition heap_one_of_40 : heap :=
  heap_of (malloc junk0 max_brk0 50 40 heap_after_init).

Definition index_one_of_40 : index :=
  Index (replicate 6 []) (Node Leaf 52 13 [] Leaf).

Lemma wf_one_of_40 :
  wf_with junk0 heap_one_of_40 ([] ++ [(11, true)] ++ [(52, false)])
    index_one_of_40.
Proof.
  refine (conj _ (conj _ (conj _ (conj _ _)))).
  - exists false. split; [|vm_compute; reflexivity].
    cbn [lseg app]. unfold blk.
    repeat conj_split; vm_compute; congruence.
  - cbn [coalesced app]. tauto.
  - refine (conj _ (conj _ (conj _ (conj _ (conj _ (conj _ _)))))).
    + vm_compute. reflexivity.
    + vm_compute. reflexivity.
    + intros i l Hl.
      assert (Hnil : l = []).
      { do 6 (destruct i as [|i]; [injection Hl as <-; reflexivity|]).
        discriminate. }
      subst l. split; [exact I|constructor].
    + vm_compute. reflexivity.
    + cbn [tree_rep index_one_of_40 bigs dseg].
      repeat conj_split; try exact I;
        try match goal with |- Forall _ _ => repeat constructor end;
        vm_compute; reflexivity.
    + cbn [bst index_one_of_40 bigs tkeys].
      repeat conj_split; try exact I; constructor.
    + cbn [index_one_of_40 bigs tkeys app].
      repeat constructor.
  - vm_compute. reflexivity.
  - vm_compute. congruence.
Qed.

Lemma realloc_shrinks_in_place_witness :
  (11 - adjust 8 < 3 ->
   realloc junk0 max_brk0 50 (Some (1 + spans [] + 1)) 8 heap_one_of_40
   = Ok (Some (1 + spans [] + 1), heap_one_of_40)) /\
  (3 <= 11 - adjust 8 ->
   exists h',
     realloc junk0 max_brk0 50 (Some (1 + spans [] + 1)) 8 heap_one_of_40
     = Ok (Some (1 + spans [] + 1), h') /\
     wf_with junk0 h'
       ([] ++ [(adjust 8, true); (11 - adjust 8 + 52, false)] ++ [])
       (iinsert (11 - adjust 8 + 52) (1 + spans [] + adjust 8 + 1)
          (idelete 52 (1 + spans [] + 11 + 1) index_one_of_40))).
Proof.
  apply (realloc_shrinks_in_place junk0 max_brk0 50 heap_one_of_40
           index_one_of_40 [] 11 [(52, false)] 8 wf_one_of_40).
  - lia.
  - vm_compute. reflexivity.
  - simpl. lia.
Defined.

(** ** C3 *)

(** The product [(2^61 + 2) * 8] exceeds 2^64 - 1, and [calloc] returns a
    block for it: the one [malloc(16)] returns. *)
Lemma calloc_overflow_returns_block :
  2 ^ 64 <= (2 ^ 61 + 2) * 8 /\
  exists h, calloc junk0 max_brk0 50 (2 ^ 61 + 2) 8 heap_after_init
            = Ok (Some 2, h).
Proof. split; [lia|]. eexists. vm_compute. reflexivity. Qed.

(** The same product on the heap with one block of 40 bytes: the reduced
    product is 16. *)
Lemma calloc_wraps_witness :
  2 ^ 64 <= (2 ^ 61 + 2) * 8 /\
  exists r h1,
    malloc junk0 max_brk0 50 (u64 ((2 ^ 61 + 2) * 8)) heap_one_of_40
    = Ok (r, h1) /\
    match r with
    | Some p =>
        exists h',
          calloc junk0 max_brk0 50 (2 ^ 61 + 2) 8 heap_one_of_40
          = Ok (Some p, h') /\
          (exists bs' ix', wf_with junk0 h' bs' ix' /\ p - 1 ∈ allocs 1 bs') /\
          brk h' = brk h1 /\
          (forall x, p <= x < p + u64 ((2 ^ 61 + 2) * 8) / 4 ->
                     word junk0 h' x = 0) /\
          word junk0 h' (p + u64 ((2 ^ 61 + 2) * 8) / 4)
            mod 2 ^ (8 * (u64 ((2 ^ 61 + 2) * 8) mod 4)) = 0 /\
          (forall x, ~ (p <= x < p + (u64 ((2 ^ 61 + 2) * 8) + 3) / 4) ->
                     word junk0 h' x = word junk0 h1 x)
    | None =>
        h1 = heap_one_of_40 /\
        calloc junk0 max_brk0 50 (2 ^ 61 + 2) 8 heap_one_of_40 = Fault
    end.
Proof.
  split; [lia|].
  apply (proj2 (calloc_wraps junk0 max_brk0 50 (2 ^ 61 + 2) 8 heap_one_of_40)
           _ _ wf_one_of_40).
  - vm_compute. congruence.
  - vm_compute. split; [reflexivity|congruence].
  - simpl. lia.
Defined.

(** ** C6 *)

(** With the first chunk taken, [malloc(1)] finds no fit and moves the
    break by 4 words: the adjusted size 3 and the epilogue, not by
    [CHUNKSIZE]. *)
Lemma malloc_miss_extends_by_4 :
  find_fit junk0 50 (u32 (adjust 1 - 1)) heap_full = Ok (None, heap_full) /\
  exists h, malloc junk0 max_brk0 50 1 heap_full = Ok (Some 68, h) /\
            brk h = brk heap_full + 4 /\
            brk heap_full + Z.max (adjust 1) CHUNKSIZE <> brk h.
Proof.
  split; [vm_compute; reflexivity|].
  eexists. split; [vm_compute; reflexivity|]. split; vm_compute; congruence.
Qed.

(** A request of 252 bytes, 63 words, on the heap with one block of 40
    bytes, whose last block is free with 52 words. *)
Lemma malloc_miss_extends_by_awords_witness :
  let ext := match last ([] ++ [(11, true)] ++ [(52, false)]) with
             | Some (L, false) => adjust 252 - L - 2 + 1
             | _ => adjust 252 + 1
             end in
  (brk heap_one_of_40 + ext <= max_brk0 ->
   exists p h', malloc junk0 max_brk0 50 252 heap_one_of_40
                = Ok (Some p, h') /\
                brk h' = brk heap_one_of_40 + ext) /\
  (max_brk0 < brk heap_one_of_40 + ext ->
   malloc junk0 max_brk0 50 252 heap_one_of_40 = Ok (None, heap_one_of_40)) /\
  64 <= CHUNKSIZE <= 4096.
Proof.
  apply (malloc_miss_extends_by_awords junk0 max_brk0 50 heap_one_of_40
           _ index_one_of_40 252 wf_one_of_40).
  - vm_compute. congruence.
  - lia.
  - simpl. lia.
  - vm_compute. reflexivity.
Defined.

(** ** C7 *)



(** ** C9 *)

(** C9, on the code: in the heap with the stale write the walk over the
    blocks counts three free blocks, the traversal of the index two, the
    free block at word 1 is not in the index, and [mm_checkheap] returns
    0. *)
Theorem checkheap_accepts_count_mismatch :
  check_blocks junk0 heap_listp0 50 1 1 0 heap_stale_write
  = Ok (inl (67, 3), heap_stale_write) /\
  check_heads junk0 50 1 6 0 0 heap_stale_write
  = Ok (inl 1, heap_stale_write) /\
  check_size_tree junk0 50 1 (seg_root heap_stale_write) 1 heap_stale_write
  = Ok ((0, 2), heap_stale_write) /\
  block_free junk0 1 heap_stale_write = Ok (true, heap_stale_write) /\
  in_list junk0 50 1 heap_stale_write = Ok (false, heap_stale_write) /\
  mm_checkheap junk0 heap_listp0 50 1 heap_stale_write
  = Ok (0, heap_stale_write).
Proof. repeat split; vm_compute; reflexivity. Qed.

(** ** C10 *)





(** * Runs for the further properties *)

(** ** Block functions *)

Lemma block_mark_free_header_footer_witness :
  exists h',
    block_mark_free junk0 13 ALLOCATED heap_one_of_40 = Ok (tt, h') /\
    block_size junk0 13 h' = Ok (size_at junk0 heap_one_of_40 13, h') /\
    block_free junk0 13 h' = Ok (true, h') /\
    block_prev_free junk0 13 h'
    = Ok (negb (ALLOCATED =? ALLOCATED), h') /\
    load junk0 (13 + size_at junk0 heap_one_of_40 13 + 1) h'
    = load junk0 13 h' /\
    (let* n := block_next junk0 13 in block_prev junk0 n) h' = Ok (13, h') /\
    (forall x, x <> 13 -> x <> 13 + size_at junk0 heap_one_of_40 13 + 1 ->
               word junk0 h' x = word junk0 heap_one_of_40 x).
Proof.
  apply (block_mark_free_header_footer junk0 13 ALLOCATED heap_one_of_40).
  - lia.
  - vm_compute. reflexivity.
  - split; vm_compute; congruence.
Defined.

Lemma block_mark_allo_header_only_witness :
  exists h',
    block_mark_allo junk0 1 FREE heap_one_of_40 = Ok (tt, h') /\
    block_size junk0 1 h' = Ok (size_at junk0 heap_one_of_40 1, h') /\
    block_free junk0 1 h' = Ok (false, h') /\
    block_prev_free junk0 1 h' = Ok (negb (FREE =? ALLOCATED), h') /\
    block_next junk0 1 h'
    = Ok (1 + size_at junk0 heap_one_of_40 1 + 1, h') /\
    (forall x, x <> 1 -> word junk0 h' x = word junk0 heap_one_of_40 x).
Proof.
  apply (block_mark_allo_header_only junk0 1 FREE heap_one_of_40).
  - split; vm_compute; congruence.
  - split; vm_compute; congruence.
Defined.

Lemma set_ptr_reads_back_witness :
  exists h',
    set_ptr 13 (Some 33) None heap_one_of_40 = Ok (tt, h') /\
    block_pred junk0 13 h' = Ok (ptr_of (offset_of (Some 33)), h') /\
    block_succ junk0 13 h' = Ok (ptr_of (offset_of None), h') /\
    (forall q, ptr_ok q -> ptr_of (offset_of q) = q) /\
    ptr_of (offset_of (Some 0)) = None /\
    (forall x, x <> 13 + 1 -> x <> 13 + 2 ->
               word junk0 h' x = word junk0 heap_one_of_40 x).
Proof.
  apply (set_ptr_reads_back junk0 13 (Some 33) None heap_one_of_40).
  - lia.
  - vm_compute. reflexivity.
Defined.

(** ** The free-set index *)

(** The heap with two free blocks of 2 words after [block_delete] of the
    one at word 9: that block is free and in no chain. *)
Definition heap_unlinked_8 : heap :=
  heap_of (block_delete junk0 50 9 heap_two_free_of_8).

Definition index_unlinked_8 : index :=
  Index [[1]; []; []; []; []; []] (Node Leaf 48 17 [] Leaf).

Lemma index_rep_unlinked_8 : index_rep junk0 heap_unlinked_8 index_unlinked_8.
Proof.
  refine (conj _ (conj _ (conj _ (conj _ (conj _ (conj _ _)))))).
  - vm_compute. reflexivity.
  - vm_compute. reflexivity.
  - intros i l Hl.
    destruct i as [|i].
    + injection Hl as <-. split.
      * cbn [dseg]. repeat conj_split; try exact I; vm_compute; reflexivity.
      * repeat constructor.
    + assert (Hnil : l = []).
      { do 5 (destruct i as [|i]; [injection Hl as <-; reflexivity|]).
        discriminate. }
      subst l. split; [exact I|constructor].
  - vm_compute. reflexivity.
  - cbn [tree_rep index_unlinked_8 bigs dseg].
    repeat conj_split; try exact I;
      try match goal with |- Forall _ _ => repeat constructor end;
      vm_compute; reflexivity.
  - cbn [bst index_unlinked_8 bigs tkeys].
    repeat conj_split; try exact I; constructor.
  - cbn [index_unlinked_8 bigs tkeys app].
    repeat constructor.
Qed.

Lemma spaced_unlinked_8 :
  spaced heap_unlinked_8 (9 :: iblocks index_unlinked_8).
Proof.
  refine (conj _ (conj _ _)).
  - cbn. unfold far. repeat conj_split; try exact I;
      repeat constructor; lia.
  - cbn. repeat constructor; vm_compute; congruence.
  - vm_compute. congruence.
Qed.

Lemma block_insert_adds_block_witness :
  exists h' ix',
    block_insert junk0 50 9 heap_unlinked_8 = Ok (tt, h') /\
    index_rep junk0 h' ix' /\
    iblocks ix' ≡ₚ 9 :: iblocks index_unlinked_8 /\
    brk h' = brk heap_unlinked_8 /\
    (forall x,
       (forall c, c ∈ 9 :: iblocks index_unlinked_8 -> ~ (c < x <= c + 4)) ->
       word junk0 h' x = word junk0 heap_unlinked_8 x).
Proof.
  apply (block_insert_adds_block junk0 50 heap_unlinked_8 index_unlinked_8 9
           index_rep_unlinked_8 spaced_unlinked_8).
  - vm_compute. congruence.
  - vm_compute. reflexivity.
  - simpl. lia.
Defined.

Lemma block_delete_removes_block_witness :
  exists h' ix',
    block_delete junk0 50 9 heap_two_free_of_8 = Ok (tt, h') /\
    index_rep junk0 h' ix' /\
    iblocks index_two_free_of_8 ≡ₚ 9 :: iblocks ix' /\
    brk h' = brk heap_two_free_of_8 /\
    (forall x, (forall c, c ∈ iblocks ix' -> ~ (c < x <= c + 4)) ->
               word junk0 h' x = word junk0 heap_two_free_of_8 x).
Proof.
  apply (block_delete_removes_block junk0 50 heap_two_free_of_8
           index_two_free_of_8 9).
  - exact (proj1 (proj2 (proj2 wf_two_free_of_8))).
  - exact (wf_spaced junk0 _ _ _ wf_two_free_of_8).
  - left.
  - simpl. lia.
Defined.

Lemma block_insert_delete_round_trip_witness :
  exists h' ix',
    (block_insert junk0 50 9;; block_delete junk0 50 9) heap_unlinked_8
    = Ok (tt, h') /\
    index_rep junk0 h' ix' /\
    iblocks ix' ≡ₚ iblocks index_unlinked_8 /\
    brk h' = brk heap_unlinked_8.
Proof.
  apply (block_insert_delete_round_trip junk0 50 heap_unlinked_8
           index_unlinked_8 9 index_rep_unlinked_8 spaced_unlinked_8).
  - vm_compute. congruence.
  - vm_compute. reflexivity.
  - simpl. lia.
Defined.

(** The second word of the allocated block of [heap_one_of_40] is 0. *)
Lemma block_insert_size_zero_faults_witness :
  find_index 0 = 2 ^ 31 - 1 /\
  block_insert junk0 50 2 heap_one_of_40 = Fault.
Proof.
  apply (block_insert_size_zero_faults junk0 50 heap_one_of_40
           index_one_of_40 2).
  - exact (proj1 (proj2 (proj2 wf_one_of_40))).
  - split; vm_compute; congruence.
  - vm_compute. reflexivity.
Defined.

(** ** [free] *)

Definition front_of_60 : list (Z * bool) := [(14, false); (15, true)].

Lemma free_merges_prev_neighbour_witness :
  exists h',
    free junk0 50 (Some (1 + spans front_of_60 + 14 + 2 + 1))
      heap_two_free_of_60 = Ok (tt, h') /\
    wf_with junk0 h' (front_of_60 ++ (14 + (17 - 1) + 2, false) :: [])
      (iinsert (14 + (17 - 1) + 2) (1 + spans front_of_60)
         (idelete 14 (1 + spans front_of_60) index_two_free_of_60)) /\
    brk h' = brk heap_two_free_of_60 /\
    free_at junk0 h' (1 + spans front_of_60) = true /\
    size_at junk0 h' (1 + spans front_of_60) = 14 + (17 - 1) + 2 /\
    size_at junk0 h' (1 + spans front_of_60 + (14 + (17 - 1) + 2) + 1)
    = 14 + (17 - 1) + 2 /\
    prev_free_at junk0 h' (1 + spans front_of_60 + (14 + (17 - 1) + 2) + 2)
    = true.
Proof.
  apply (free_merges_prev_neighbour junk0 50 heap_two_free_of_60
           index_two_free_of_60 front_of_60 14 17 [] wf_two_free_of_60).
  - exact I.
  - simpl. lia.
Defined.

Lemma free_merges_next_neighbour_witness :
  exists h',
    free junk0 50 (Some (1 + spans [] + 1)) heap_one_of_40 = Ok (tt, h') /\
    wf_with junk0 h' ([] ++ ((11 - 1) + 52 + 2, false) :: [])
      (iinsert ((11 - 1) + 52 + 2) (1 + spans [])
         (idelete 52 (1 + spans [] + 11 + 1) index_one_of_40)) /\
    brk h' = brk heap_one_of_40 /\
    free_at junk0 h' (1 + spans []) = true /\
    size_at junk0 h' (1 + spans []) = (11 - 1) + 52 + 2 /\
    size_at junk0 h' (1 + spans [] + ((11 - 1) + 52 + 2) + 1)
    = (11 - 1) + 52 + 2 /\
    prev_free_at junk0 h' (1 + spans [] + ((11 - 1) + 52 + 2) + 2) = true.
Proof.
  apply (free_merges_next_neighbour junk0 50 heap_one_of_40 index_one_of_40
           [] 11 52 [] wf_one_of_40).
  - reflexivity.
  - simpl. lia.
Defined.

(** [heap_full]: one allocated block of 65 words is all there is. *)
Lemma wf_full :
  wf_with junk0 heap_full ([] ++ [(65, true)] ++ []) empty_index.
Proof.
  refine (conj _ (conj _ (conj _ (conj _ _)))).
  - exists true. split; [|vm_compute; reflexivity].
    cbn [lseg app]. unfold blk.
    repeat conj_split; vm_compute; congruence.
  - cbn [coalesced app]. tauto.
  - refine (conj _ (conj _ (conj _ (conj _ (conj _ (conj _ _)))))).
    + vm_compute. reflexivity.
    + vm_compute. reflexivity.
    + intros i l Hl.
      assert (Hnil : l = []).
      { do 6 (destruct i as [|i]; [injection Hl as <-; reflexivity|]).
        discriminate. }
      subst l. split; [exact I|constructor].
    + vm_compute. reflexivity.
    + exact I.
    + exact I.
    + constructor.
  - vm_compute. reflexivity.
  - vm_compute. congruence.
Qed.

Lemma free_without_free_neighbours_witness :
  exists h',
    free junk0 50 (Some (1 + spans [] + 1)) heap_full = Ok (tt, h') /\
    wf_with junk0 h' ([] ++ (65 - 1, false) :: [])
      (iinsert (65 - 1) (1 + spans []) empty_index) /\
    brk h' = brk heap_full /\
    free_at junk0 h' (1 + spans []) = true /\
    size_at junk0 h' (1 + spans []) = 65 - 1 /\
    size_at junk0 h' (1 + spans [] + 65) = 65 - 1 /\
    prev_free_at junk0 h' (1 + spans [] + 65 + 1) = true.
Proof.
  apply (free_without_free_neighbours junk0 50 heap_full empty_index
           [] 65 [] wf_full).
  - reflexivity.
  - exact I.
  - lia.
  - simpl. lia.
Defined.

Definition blocks_two_free_of_8 : list (Z * bool) :=
  [(2, false); (3, true); (2, false); (3, true); (48, false)].

Lemma free_keeps_invariant_witness :
  exists h' bs' ix',
    free junk0 50 (Some 6) heap_two_free_of_8 = Ok (tt, h') /\
    wf_with junk0 h' bs' ix' /\
    brk h' = brk heap_two_free_of_8 /\
    (exists A B, allocs 1 blocks_two_free_of_8 = A ++ (6 - 1) :: B /\
                 allocs 1 bs' = A ++ B) /\
    (forall d, d ∈ allocs 1 bs' ->
               size_at junk0 h' d = size_at junk0 heap_two_free_of_8 d) /\
    (forall d x, d ∈ allocs 1 bs' ->
                 d < x <= d + size_at junk0 heap_two_free_of_8 d ->
                 word junk0 h' x = word junk0 heap_two_free_of_8 x).
Proof.
  apply (free_keeps_invariant junk0 50 heap_two_free_of_8
           blocks_two_free_of_8 index_two_free_of_8 6 wf_two_free_of_8).
  - vm_compute. left.
  - vm_compute. congruence.
  - simpl. lia.
Defined.

(** ** [place], [extend_heap], [mm_init], [malloc] *)

Lemma place_splits_or_takes_whole_witness :
  exists h',
    place junk0 50 (1 + spans [(11, true)]) 3 heap_one_of_40 = Ok (tt, h') /\
    brk h' = brk heap_one_of_40 /\
    (forall x, apayload 1 ([(11, true)] ++ [(52, false)] ++ []) x ->
               word junk0 h' x = word junk0 heap_one_of_40 x) /\
    if 3 + 3 <=? 52
    then wf_with junk0 h'
           ([(11, true)] ++ [(3, true); (52 - 3 - 1, false)] ++ [])
           (iinsert (52 - 3 - 1) (1 + spans [(11, true)] + 3 + 1)
              (idelete 52 (1 + spans [(11, true)]) index_one_of_40))
    else wf_with junk0 h' ([(11, true)] ++ [(52 + 1, true)] ++ [])
           (idelete 52 (1 + spans [(11, true)]) index_one_of_40).
Proof.
  apply (place_splits_or_takes_whole junk0 50 heap_one_of_40 index_one_of_40
           [(11, true)] 52 [] 3 wf_one_of_40).
  - reflexivity.
  - lia.
  - lia.
  - simpl. lia.
Defined.

Definition blocks_one_of_40 : list (Z * bool) := [(11, true); (52, false)].

Lemma extend_heap_appends_free_block_witness :
  (max_brk0 < brk heap_one_of_40 + (5 + 1) ->
   extend_heap junk0 max_brk0 50 5 heap_one_of_40
   = Ok (None, heap_one_of_40)) /\
  (brk heap_one_of_40 + (5 + 1) <= max_brk0 ->
   exists h' bs0 cw ix',
     extend_heap junk0 max_brk0 50 5 heap_one_of_40
     = Ok (Some (1 + spans bs0), h') /\
     wf_with junk0 h' (bs0 ++ [(cw, false)]) ix' /\
     brk h' = brk heap_one_of_40 + (5 + 1) /\
     (forall x, apayload 1 blocks_one_of_40 x ->
                word junk0 h' x = word junk0 heap_one_of_40 x) /\
     ((last_alloc true blocks_one_of_40 = true /\ bs0 = blocks_one_of_40 /\
       cw = 5 - 1 /\
       ix' = iinsert cw (1 + spans bs0) index_one_of_40) \/
      (exists L, blocks_one_of_40 = bs0 ++ [(L, false)] /\ cw = L + 5 + 1 /\
                 ix' = iinsert cw (1 + spans bs0)
                         (idelete L (1 + spans bs0) index_one_of_40)))).
Proof.
  apply (extend_heap_appends_free_block junk0 max_brk0 50 heap_one_of_40
           blocks_one_of_40 index_one_of_40 5 wf_one_of_40).
  - vm_compute. congruence.
  - reflexivity.
  - lia.
  - lia.
  - discriminate.
  - simpl. lia.
Defined.

Lemma mm_init_establishes_invariant_witness :
  exists h,
    mm_init junk0 max_brk0 50 = Ok (0, h) /\
    wf_with junk0 h [(CHUNKSIZE - 1, false)]
      (Index (replicate 6 []) (Node Leaf (CHUNKSIZE - 1) 1 [] Leaf)) /\
    brk h = 68 /\
    seg_list h = replicate 6 None /\ seg_root h = Some 1.
Proof.
  apply (mm_init_establishes_invariant junk0 max_brk0 50).
  - split; vm_compute; congruence.
  - lia.
Defined.

Lemma mm_init_fails_without_room_witness :
  (10 < 0 -> mm_init junk0 10 50 = Fault) /\
  (0 <= 10 < 2 -> exists h, mm_init junk0 10 50 = Ok (-1, h) /\ brk h = 0) /\
  (2 <= 10 -> mm_init junk0 10 50 = Ok (-1, prologue_epilogue)).
Proof.
  apply (mm_init_fails_without_room junk0 10 50); lia.
Defined.

Lemma malloc_allocates_fresh_block_witness :
  exists r h',
    malloc junk0 max_brk0 50 24 heap_one_of_40 = Ok (r, h') /\
    match r with
    | None =>
        h' = heap_one_of_40 /\
        (forall c, c ∈ frees 1 blocks_one_of_40 ->
                   size_at junk0 heap_one_of_40 c < adjust 24 - 1) /\
        max_brk0
        < brk heap_one_of_40 + (ewords_of junk0 heap_one_of_40 (adjust 24) + 1)
    | Some p =>
        exists bs' ix',
          wf_with junk0 h' bs' ix' /\
          brk heap_one_of_40 <= brk h'
          <= Z.max (brk heap_one_of_40) max_brk0 /\
          (exists A B, allocs 1 bs' = A ++ (p - 1) :: B /\
                       allocs 1 blocks_one_of_40 = A ++ B) /\
          (p - 1 ∉ allocs 1 blocks_one_of_40) /\
          (forall d, d ∈ allocs 1 blocks_one_of_40 ->
                     size_at junk0 h' d = size_at junk0 heap_one_of_40 d) /\
          (forall d x, d ∈ allocs 1 blocks_one_of_40 ->
                       d < x <= d + size_at junk0 heap_one_of_40 d ->
                       word junk0 h' x = word junk0 heap_one_of_40 x) /\
          adjust 24 <= size_at junk0 h' (p - 1) <= adjust 24 + 2 /\
          24 <= 4 * size_at junk0 h' (p - 1) /\
          (heap_listp0 mod 8 = 0 -> aligned heap_listp0 p = true)
    end.
Proof.
  apply (malloc_allocates_fresh_block junk0 max_brk0 heap_listp0 50
           heap_one_of_40 blocks_one_of_40 index_one_of_40 24 wf_one_of_40).
  - vm_compute. congruence.
  - split; [lia|vm_compute; congruence].
  - simpl. lia.
Defined.

(** [heap_full] with an oracle that has handed out all it has. *)
Lemma malloc_out_of_memory_witness :
  malloc junk0 68 50 24 heap_full = Ok (None, heap_full).
Proof.
  apply (malloc_out_of_memory junk0 68 50 heap_full
           ([] ++ [(65, true)] ++ []) empty_index 24 wf_full).
  - lia.
  - lia.
  - intros c Hc. inversion Hc.
  - vm_compute. reflexivity.
  - simpl. lia.
Defined.

(** ** [calloc] *)

Definition heap_malloc_15 : heap :=
  heap_of (malloc junk0 max_brk0 50 (3 * 5) heap_one_of_40).

Lemma calloc_zeroes_block_witness :
  exists h' bs' ix',
    calloc junk0 max_brk0 50 3 5 heap_one_of_40 = Ok (Some 14, h') /\
    wf_with junk0 h' bs' ix' /\ 14 - 1 ∈ allocs 1 bs' /\
    brk h' = brk heap_malloc_15 /\
    (forall x, 14 <= x < 14 + 3 * 5 / 4 -> word junk0 h' x = 0) /\
    word junk0 h' (14 + 3 * 5 / 4) mod 2 ^ (8 * (3 * 5 mod 4)) = 0 /\
    (forall x, ~ (14 <= x < 14 + (3 * 5 + 3) / 4) ->
               word junk0 h' x = word junk0 heap_malloc_15 x) /\
    (forall d x, d ∈ allocs 1 blocks_one_of_40 ->
                 d < x <= d + size_at junk0 heap_one_of_40 d ->
                 word junk0 h' x = word junk0 heap_one_of_40 x).
Proof.
  apply (calloc_zeroes_block junk0 max_brk0 50 heap_one_of_40
           blocks_one_of_40 index_one_of_40 3 5 14 heap_malloc_15
           wf_one_of_40).
  - vm_compute. congruence.
  - split; vm_compute; congruence.
  - vm_compute. reflexivity.
Defined.

Lemma calloc_out_of_memory_faults_witness :
  malloc junk0 68 50 (3 * 8) heap_full = Ok (None, heap_full) /\
  calloc junk0 68 50 3 8 heap_full = Fault.
Proof.
  apply (calloc_out_of_memory_faults junk0 68 50 heap_full
           ([] ++ [(65, true)] ++ []) empty_index 3 8 wf_full).
  - lia.
  - lia.
  - intros c Hc. inversion Hc.
  - vm_compute. reflexivity.
  - simpl. lia.
Defined.

(** ** [realloc] *)

(** [heap_one_of_40]: the block of 11 words grows to 15; 48 words of the
    free block of 52 stay free. *)
Lemma realloc_grows_into_next_block_witness :
  exists h',
    realloc junk0 max_brk0 50 (Some (1 + spans [] + 1)) 60 heap_one_of_40
    = Ok (Some (1 + spans [] + 1), h') /\
    wf_with junk0 h'
      ([] ++ [(adjust 60, true); (52 - (adjust 60 - 11), false)] ++ [])
      (iinsert (52 - (adjust 60 - 11)) (1 + spans [] + adjust 60 + 1)
         (idelete 52 (1 + spans [] + 11 + 1) index_one_of_40)) /\
    brk h' = brk heap_one_of_40 /\
    (forall x, apayload 1 ([] ++ [(11, true); (52, false)] ++ []) x ->
               word junk0 h' x = word junk0 heap_one_of_40 x).
Proof.
  apply (realloc_grows_into_next_block junk0 max_brk0 50 heap_one_of_40
           index_one_of_40 [] 11 52 [] 60 wf_one_of_40).
  - lia.
  - vm_compute. reflexivity.
  - vm_compute. congruence.
  - simpl. lia.
Defined.

(** [heap_one_of_40]: 252 bytes need 63 words, one less than the two
    blocks hold together; the block takes all 65. *)
Lemma realloc_takes_whole_next_block_witness :
  exists h',
    realloc junk0 max_brk0 50 (Some (1 + spans [] + 1)) 252 heap_one_of_40
    = Ok (Some (1 + spans [] + 1), h') /\
    wf_with junk0 h' ([] ++ [(11 + 52 + 2, true)] ++ [])
      (idelete 52 (1 + spans [] + 11 + 1) index_one_of_40) /\
    brk h' = brk heap_one_of_40 /\
    52 + 1 - (adjust 252 - 11) = 1 /\
    (forall x, apayload 1 ([] ++ [(11, true); (52, false)] ++ []) x ->
               word junk0 h' x = word junk0 heap_one_of_40 x).
Proof.
  apply (realloc_takes_whole_next_block junk0 max_brk0 50 heap_one_of_40
           index_one_of_40 [] 11 52 [] 252 wf_one_of_40).
  - lia.
  - vm_compute. reflexivity.
  - vm_compute. split; congruence.
  - simpl. lia.
Defined.

(** [heap_full] with an oracle that has handed out all it has. *)
Lemma realloc_out_of_memory_faults_witness :
  malloc junk0 68 50 400 heap_full = Ok (None, heap_full) /\
  realloc junk0 68 50 (Some (1 + spans [] + 1)) 400 heap_full = Fault.
Proof.
  apply (realloc_out_of_memory_faults junk0 68 50 heap_full empty_index
           [] 65 [] 400 wf_full).
  - lia.
  - lia.
  - vm_compute. reflexivity.
  - exact I.
  - intros c Hc. inversion Hc.
  - vm_compute. reflexivity.
  - simpl. lia.
Defined.

(** [heap_full]: the block of 65 words shrinks to 3. *)
Lemma realloc_shrink_keeps_contents_witness :
  exists h' bs' ix',
    realloc junk0 max_brk0 50 (Some (1 + spans [] + 1)) 8 heap_full
    = Ok (Some (1 + spans [] + 1), h') /\
    wf_with junk0 h' bs' ix' /\
    brk h' = brk heap_full /\
    1 + spans [] ∈ allocs 1 bs' /\
    size_at junk0 h' (1 + spans []) = adjust 8 /\
    (forall x, 1 + spans [] < x <= 1 + spans [] + adjust 8 ->
               word junk0 h' x = word junk0 heap_full x) /\
    (forall x, apayload 1 [] x \/ apayload (1 + spans [] + 65 + 1) [] x ->
               word junk0 h' x = word junk0 heap_full x).
Proof.
  apply (realloc_shrink_keeps_contents junk0 max_brk0 50 heap_full
           empty_index [] 65 [] 8 wf_full).
  - lia.
  - vm_compute. congruence.
  - simpl. lia.
Defined.

Definition heap_malloc_128 : heap :=
  heap_of (malloc junk0 max_brk0 50 128 heap_two_free_of_60).

(** [heap_two_free_of_60]: the block of 15 words at word 17 lies before
    a free block of 14 words, too small for the 33 words that 128 bytes
    need; the block moves to the end of the heap. *)
Lemma realloc_moves_block_witness :
  exists h' bs' ix',
    realloc junk0 max_brk0 50 (Some (1 + spans [(14, false)] + 1)) 128
      heap_two_free_of_60
    = Ok (Some 68, h') /\
    wf_with junk0 h' bs' ix' /\
    68 - 1 ∈ allocs 1 bs' /\
    (1 + spans [(14, false)] ∉ allocs 1 bs') /\
    adjust 128 <= size_at junk0 h' (68 - 1) /\
    (forall i, 0 <= i < 15 ->
               word junk0 h' (68 + i)
               = word junk0 heap_two_free_of_60
                   (1 + spans [(14, false)] + 1 + i)) /\
    (forall d x,
       d ∈ allocs 1 ([(14, false)] ++ [(15, true)]
                       ++ [(14, false); (17, true)]) ->
       d <> 1 + spans [(14, false)] ->
       d < x <= d + size_at junk0 heap_two_free_of_60 d ->
       d ∈ allocs 1 bs' /\
       word junk0 h' x = word junk0 heap_two_free_of_60 x).
Proof.
  apply (realloc_moves_block junk0 max_brk0 50 heap_two_free_of_60
           index_two_free_of_60 [(14, false)] 15
           [(14, false); (17, true)] 128 68 heap_malloc_128
           wf_two_free_of_60).
  - vm_compute. congruence.
  - split; [lia|vm_compute; congruence].
  - split; [lia|vm_compute; reflexivity].
  - vm_compute. reflexivity.
  - vm_compute. reflexivity.
  - simpl. lia.
Defined.

(** ** [malloc] and [free] together *)

Lemma malloc_free_round_trip_witness :
  exists h' bs' ix',
    (let* p := malloc junk0 max_brk0 50 24 in free junk0 50 p) heap_one_of_40
    = Ok (tt, h') /\
    wf_with junk0 h' bs' ix' /\
    allocs 1 bs' = allocs 1 blocks_one_of_40 /\
    (forall d, d ∈ allocs 1 blocks_one_of_40 ->
               size_at junk0 h' d = size_at junk0 heap_one_of_40 d) /\
    (forall d x, d ∈ allocs 1 blocks_one_of_40 ->
                 d < x <= d + size_at junk0 heap_one_of_40 d ->
                 word junk0 h' x = word junk0 heap_one_of_40 x).
Proof.
  apply (malloc_free_round_trip junk0 max_brk0 50 heap_one_of_40
           blocks_one_of_40 index_one_of_40 24 wf_one_of_40).
  - vm_compute. congruence.
  - split; [lia|vm_compute; congruence].
  - simpl. lia.
Defined.

(** ** [in_list] *)

(** [heap_two_free_of_8]: the block at word 1 is the second of its
    chain. *)
Lemma in_list_finds_small_block_witness :
  in_list junk0 50 1 heap_two_free_of_8 = Ok (true, heap_two_free_of_8).
Proof.
  apply (in_list_finds_small_block junk0 50 heap_two_free_of_8
           index_two_free_of_8 1).
  - exact (proj1 (proj2 (proj2 wf_two_free_of_8))).
  - exact (wf_spaced junk0 _ _ _ wf_two_free_of_8).
  - vm_compute. right. left.
  - vm_compute. congruence.
Defined.

(** [heap_two_free_of_60]: the free blocks of 14 words at word 1 and at
    word 33 are both in the tree, the later one at the head. *)
Lemma in_list_misses_ring_block_witness :
  1 ∈ iblocks index_two_free_of_60 /\
  in_list junk0 50 1 heap_two_free_of_60 = Ok (false, heap_two_free_of_60).
Proof.
  apply (in_list_misses_ring_block junk0 50 heap_two_free_of_60
           index_two_free_of_60 Leaf 14 33 [1] Leaf 1).
  - exact (proj1 (proj2 (proj2 wf_two_free_of_60))).
  - exact (wf_spaced junk0 _ _ _ wf_two_free_of_60).
  - reflexivity.
  - left.
  - lia.
  - lia.
Defined.
